(** * A persistent hash-array-mapped-trie set: model and verification

    This development embeds [immutables/set.py] (the pure-Python port of the
    HAMT-based [Set] and its transient [SetMutation]) in Rocq and proves
    properties of the embedded code.

    Python objects live in an explicit store: trie nodes, [Set] objects and
    [SetMutation] objects are addressed by locations, the [is] operator is
    equality of locations, and attribute assignment is a store update.  The
    recursive node methods dispatch on the class of the node they find in the
    store and are defined with fuel. *)

From Stdlib Require Import ZArith Lia Bool Btauto.
From stdpp Require Import base tactics option list numbers strings.
From coqutil Require Import Z.bitblast.

Local Open Scope Z_scope.

(** ** Bit arithmetic primitives *)

Definition set_mask (hash shift : Z) : Z :=
  Z.land (Z.shiftr hash shift) 0x01f.

Definition set_bitpos (hash shift : Z) : Z :=
  Z.shiftl 1 (set_mask hash shift).

Definition set_bitcount (v : Z) : Z :=
  let v := v - Z.land (Z.shiftr v 1) 0x55555555 in
  let v := Z.land v 0x33333333 + Z.land (Z.shiftr v 2) 0x33333333 in
  let v := Z.land v 0x0F0F0F0F + Z.land (Z.shiftr v 4) 0x0F0F0F0F in
  let v := v + Z.shiftr v 8 in
  let v := Z.land (v + Z.shiftr v 16) 0x3F in
  v.

Definition set_bitindex (bitmap bit : Z) : Z :=
  set_bitcount (Z.land bitmap (bit - 1)).

(** Python truthiness of an [int]. *)
Definition truthy (z : Z) : bool := negb (z =? 0).

(** ** Python list primitives

    Indexing and slicing with Python's treatment of negative indices;
    [None] stands for [IndexError]. *)

Definition list_getitem {A} (l : list A) (i : Z) : option A :=
  if i <? 0
  then (if 0 <=? Z.of_nat (length l) + i
        then l !! Z.to_nat (Z.of_nat (length l) + i) else None)
  else l !! Z.to_nat i.

Definition list_setitem {A} (l : list A) (i : Z) (x : A) : option (list A) :=
  if i <? 0
  then (if 0 <=? Z.of_nat (length l) + i
        then Some (<[Z.to_nat (Z.of_nat (length l) + i) := x]> l) else None)
  else if i <? Z.of_nat (length l)
       then Some (<[Z.to_nat i := x]> l) else None.

(** [l[:i]] and [l[i:]]. *)
Definition slice_to {A} (l : list A) (i : Z) : list A :=
  if i <? 0 then take (Z.to_nat (Z.of_nat (length l) + i)) l
  else take (Z.to_nat i) l.

Definition slice_from {A} (l : list A) (i : Z) : list A :=
  if i <? 0 then drop (Z.to_nat (Z.of_nat (length l) + i)) l
  else drop (Z.to_nat i) l.

(** ** Keys

    An element is any hashable Python value: it has [__hash__] and [__eq__].
    Equality is modelled as a decidable equality on the key type. *)

Class Hashable (K : Type) := {
  key_eq_dec :: EqDecision K;
  py_hash : K → Z
}.

Definition set_hash `{Hashable K} (o : K) : Z :=
  let x := py_hash o in
  Z.lxor (Z.land x 0xffffffff) (Z.land (Z.shiftr x 32) 0xffffffff).

(** ** Store, exceptions and the state-and-exception monad *)

Abbreviation loc := nat (only parsing).

Inductive slot (K : Type) :=
| Elem (k : K)
| Child (l : loc).
Arguments Elem {K} k.
Arguments Child {K} l.

Inductive node (K : Type) :=
| BitmapNode (size bitmap : Z) (array : list (slot K)) (mutid : Z)
| CollisionNode (size hash : Z) (array : list K) (mutid : Z).
Arguments BitmapNode {K} size bitmap array mutid.
Arguments CollisionNode {K} size hash array mutid.

Definition node_mutid {K} (n : node K) : Z :=
  match n with
  | BitmapNode _ _ _ m => m
  | CollisionNode _ _ _ m => m
  end.

(** [InvalidReference] is not a Python exception: it marks a location that
    is not in the store, which no Python program can produce. *)
Inductive exn (K : Type) :=
| KeyError (k : K)
| ValueError
| IndexError
| AssertionError
| RuntimeError
| InvalidReference.
Arguments KeyError {K} k.
Arguments ValueError {K}.
Arguments IndexError {K}.
Arguments AssertionError {K}.
Arguments RuntimeError {K}.
Arguments InvalidReference {K}.

(** Result of a read-only computation. *)
Inductive res (K A : Type) :=
| Val (a : A)
| Exn (e : exn K)
| Diverge.
Arguments Val {K A} a.
Arguments Exn {K A} e.
Arguments Diverge {K A}.

(** Result of a computation on a store of type [S]. *)
Inductive outcome (K S A : Type) :=
| Ok (a : A) (s : S)
| Raise (e : exn K) (s : S)
| OutOfFuel.
Arguments Ok {K S A} a s.
Arguments Raise {K S A} e s.
Arguments OutOfFuel {K S A}.

Definition M (K S A : Type) := S → outcome K S A.

Definition ret {K S A} (a : A) : M K S A := λ s, Ok a s.
Definition raise {K S A} (e : exn K) : M K S A := λ s, Raise e s.
Definition out_of_fuel {K S A} : M K S A := λ _, OutOfFuel.
Definition bind {K S A B} (m : M K S A) (f : A → M K S B) : M K S B :=
  λ s, match m s with
       | Ok a s' => f a s'
       | Raise e s' => Raise e s'
       | OutOfFuel => OutOfFuel
       end.
Definition read {K S A} (f : S → res K A) : M K S A :=
  λ s, match f s with
       | Val a => Ok a s
       | Exn e => Raise e s
       | Diverge => OutOfFuel
       end.
Definition from_option {K S A} (e : exn K) (o : option A) : M K S A :=
  match o with Some a => ret a | None => raise e end.

Notation "x ←' m ; k" := (bind m (λ x, k))
  (at level 20, m at level 100, k at level 200, only parsing, right associativity).
Notation "' p ←' m ; k" := (bind m (λ x, let 'p := x in k))
  (at level 20, p pattern, m at level 100, k at level 200, only parsing, right associativity).
Notation "m ;;' k" := (bind m (λ _, k))
  (at level 100, k at level 200, only parsing, right associativity).

(** ** Trie nodes *)

(** Outcome of [without]: the Python code returns a pair of a tag and a node
    that is [None] unless the tag is [W_NEWNODE]. *)
Inductive wres :=
| W_EMPTY
| W_NEWNODE (n : loc)
| W_NOT_FOUND.

Section Nodes.
Context {K : Type} `{Hashable K}.

Local Abbreviation heap := (list (node K)) (only parsing).

Definition load (l : loc) : M K heap (node K) :=
  λ h, match h !! l with
       | Some n => Ok n h
       | None => Raise InvalidReference h
       end.

Definition alloc (n : node K) : M K heap loc :=
  λ h, Ok (length h) (h ++ [n]).

Definition store (l : loc) (n : node K) : M K heap unit :=
  λ h, Ok tt (<[l := n]> h).

(** [BitmapNode.__init__], with its assertion. *)
Definition BitmapNode_new (size bitmap : Z) (array : list (slot K))
    (mutid : Z) : M K heap loc :=
  if Z.of_nat (length array) =? size
  then alloc (BitmapNode size bitmap array mutid)
  else raise AssertionError.

Definition CollisionNode_new (size hash : Z) (array : list K)
    (mutid : Z) : M K heap loc :=
  alloc (CollisionNode size hash array mutid).

Definition BitmapNode_clone (self : loc) (mutid : Z) : M K heap loc :=
  n ←' load self;
  match n with
  | BitmapNode size bitmap array _ => BitmapNode_new size bitmap array mutid
  | CollisionNode _ _ _ _ => raise InvalidReference
  end.

(** [self.array[idx] = x] on a bitmap node. *)
Definition BitmapNode_setitem (self : loc) (idx : Z) (x : slot K)
    : M K heap unit :=
  n ←' load self;
  match n with
  | BitmapNode size bitmap array mutid =>
      array' ←' from_option IndexError (list_setitem array idx x);
      store self (BitmapNode size bitmap array' mutid)
  | CollisionNode _ _ _ _ => raise InvalidReference
  end.

(** [mutid and mutid == self.mutid] *)
Definition owned (mutid self_mutid : Z) : bool :=
  truthy mutid && (mutid =? self_mutid).

(** The copy-on-write step shared by [add] and [without]:
    [if mutid and mutid == self.mutid: ret = self
     else: ret = self.clone(mutid)
     ret.array[key_idx] = x]; the result is [ret]. *)
Definition BitmapNode_with_slot (self : loc) (mutid : Z) (key_idx : Z)
    (x : slot K) : M K heap loc :=
  n ←' load self;
  r ←' (if owned mutid (node_mutid n) then ret self
        else BitmapNode_clone self mutid);
  BitmapNode_setitem r key_idx x;;'
  ret r.

(** [CollisionNode.find_index]: the loop [for i in range(0, size, 1)],
    [n] iterations left, now at index [i]. *)
Fixpoint find_index_loop (array : list K) (key : K) (i : Z) (n : nat)
    : res K Z :=
  match n with
  | O => Val (-1)
  | S n' =>
      match list_getitem array i with
      | None => Exn IndexError
      | Some k =>
          if decide (k = key) then Val i
          else find_index_loop array key (i + 1) n'
      end
  end.

Definition CollisionNode_find_index (size : Z) (array : list K) (key : K)
    : res K Z :=
  find_index_loop array key 0 (Z.to_nat size).

Fixpoint find_loop (array : list K) (key : K) (i : Z) (n : nat)
    : res K bool :=
  match n with
  | O => Val false
  | S n' =>
      match list_getitem array i with
      | None => Exn IndexError
      | Some k =>
          if decide (k = key) then Val true
          else find_loop array key (i + 1) n'
      end
  end.

Definition CollisionNode_find (size : Z) (array : list K) (key : K)
    : res K bool :=
  find_loop array key 0 (Z.to_nat size).

(** *** [add] *)

Definition BitmapNode_add
    (rec : loc → Z → Z → K → Z → M K heap (loc * bool))
    (self : loc) (shift hash : Z) (key : K) (mutid : Z)
    : M K heap (loc * bool) :=
  n ←' load self;
  match n with
  | BitmapNode _ bitmap array self_mutid =>
      let bit := set_bitpos hash shift in
      let key_idx := set_bitindex bitmap bit in
      if truthy (Z.land bitmap bit) then
        key_or_node ←' from_option IndexError (list_getitem array key_idx);
        match key_or_node with
        | Child c =>
            '(sub_node, added) ←' rec c (shift + 5) hash key mutid;
            if decide (c = sub_node) then ret (self, added)
            else
              r ←' BitmapNode_with_slot self mutid key_idx (Child sub_node);
              ret (r, added)
        | Elem k0 =>
            if decide (key = k0) then ret (self, false)
            else
              let existing_key_hash := set_hash k0 in
              sub_node ←'
                (if existing_key_hash =? hash
                 then CollisionNode_new 4 hash [k0; key] mutid
                 else
                   s0 ←' BitmapNode_new 0 0 [] mutid;
                   '(s1, _) ←' rec s0 (shift + 5) existing_key_hash k0 mutid;
                   '(s2, _) ←' rec s1 (shift + 5) hash key mutid;
                   ret s2);
              r ←' BitmapNode_with_slot self mutid key_idx (Child sub_node);
              ret (r, true)
        end
      else
        let n := set_bitcount bitmap in
        let new_array :=
          slice_to array key_idx ++ [Elem key] ++ slice_from array key_idx in
        if owned mutid self_mutid then
          store self
            (BitmapNode (n + 1) (Z.lor bitmap bit) new_array self_mutid);;'
          ret (self, true)
        else
          r ←' BitmapNode_new (n + 1) (Z.lor bitmap bit) new_array mutid;
          ret (r, true)
  | CollisionNode _ _ _ _ => raise InvalidReference
  end.

Definition CollisionNode_add
    (rec : loc → Z → Z → K → Z → M K heap (loc * bool))
    (self : loc) (shift hash : Z) (key : K) (mutid : Z)
    : M K heap (loc * bool) :=
  n ←' load self;
  match n with
  | CollisionNode size self_hash array self_mutid =>
      if hash =? self_hash then
        key_idx ←' read (λ _, CollisionNode_find_index size array key);
        if key_idx =? -1 then
          let new_array := array ++ [key] in
          if owned mutid self_mutid then
            store self
              (CollisionNode (size + 1) self_hash new_array self_mutid);;'
            ret (self, true)
          else
            new_node ←' CollisionNode_new (size + 1) hash new_array mutid;
            ret (new_node, true)
        else ret (self, false)
      else
        new_node ←'
          BitmapNode_new 1 (set_bitpos self_hash shift) [Child self] mutid;
        rec new_node shift hash key mutid
  | BitmapNode _ _ _ _ => raise InvalidReference
  end.

(** Method dispatch on the class of the receiver. *)
Fixpoint node_add (fuel : nat) (self : loc) (shift hash : Z) (key : K)
    (mutid : Z) : M K heap (loc * bool) :=
  match fuel with
  | O => out_of_fuel
  | S fuel' =>
      n ←' load self;
      match n with
      | BitmapNode _ _ _ _ =>
          BitmapNode_add (node_add fuel') self shift hash key mutid
      | CollisionNode _ _ _ _ =>
          CollisionNode_add (node_add fuel') self shift hash key mutid
      end
  end.

(** *** [find] *)

Definition BitmapNode_find (rec : loc → Z → Z → K → res K bool)
    (bitmap : Z) (array : list (slot K)) (shift hash : Z) (key : K)
    : res K bool :=
  let bit := set_bitpos hash shift in
  if negb (truthy (Z.land bitmap bit)) then Val false
  else
    let key_idx := set_bitindex bitmap bit in
    match list_getitem array key_idx with
    | None => Exn IndexError
    | Some (Child c) => rec c (shift + 5) hash key
    | Some (Elem k0) => if decide (key = k0) then Val true else Val false
    end.

Fixpoint node_find (fuel : nat) (h : heap) (self : loc) (shift hash : Z)
    (key : K) : res K bool :=
  match fuel with
  | O => Diverge
  | S fuel' =>
      match h !! self with
      | None => Exn InvalidReference
      | Some (BitmapNode _ bitmap array _) =>
          BitmapNode_find (node_find fuel' h) bitmap array shift hash key
      | Some (CollisionNode size _ array _) =>
          CollisionNode_find size array key
      end
  end.

(** *** [without] *)

Definition BitmapNode_without
    (rec : loc → Z → Z → K → Z → M K heap wres)
    (self : loc) (shift hash : Z) (key : K) (mutid : Z)
    : M K heap wres :=
  n ←' load self;
  match n with
  | BitmapNode size bitmap array self_mutid =>
      let bit := set_bitpos hash shift in
      if negb (truthy (Z.land bitmap bit)) then ret W_NOT_FOUND
      else
        let key_idx := set_bitindex bitmap bit in
        key_or_node ←' from_option IndexError (list_getitem array key_idx);
        match key_or_node with
        | Child c =>
            res ←' rec c (shift + 5) hash key mutid;
            match res with
            | W_EMPTY => raise RuntimeError
            | W_NEWNODE sub_node =>
                sn ←' load sub_node;
                new_slot ←'
                  match sn with
                  | BitmapNode sub_size _ sub_array _ =>
                      if sub_size =? 1 then
                        x ←' from_option IndexError
                               (list_getitem sub_array 0);
                        match x with
                        | Elem k => ret (Elem k)
                        | Child _ => ret (Child sub_node)
                        end
                      else ret (Child sub_node)
                  | CollisionNode _ _ _ _ => ret (Child sub_node)
                  end;
                r ←' BitmapNode_with_slot self mutid key_idx new_slot;
                ret (W_NEWNODE r)
            | W_NOT_FOUND => ret W_NOT_FOUND
            end
        | Elem k0 =>
            if decide (key = k0) then
              if size =? 1 then ret W_EMPTY
              else
                let new_array :=
                  slice_to array key_idx ++ slice_from array (key_idx + 1) in
                if owned mutid self_mutid then
                  store self
                    (BitmapNode (size - 1) (Z.land bitmap (Z.lnot bit))
                       new_array self_mutid);;'
                  ret (W_NEWNODE self)
                else
                  new_node ←'
                    BitmapNode_new (size - 1) (Z.land bitmap (Z.lnot bit))
                      new_array mutid;
                  ret (W_NEWNODE new_node)
            else ret W_NOT_FOUND
        end
  | CollisionNode _ _ _ _ => raise InvalidReference
  end.

Definition CollisionNode_without
    (self : loc) (shift hash : Z) (key : K) (mutid : Z) : M K heap wres :=
  n ←' load self;
  match n with
  | CollisionNode size self_hash array self_mutid =>
      if negb (hash =? self_hash) then ret W_NOT_FOUND
      else
        key_idx ←' read (λ _, CollisionNode_find_index size array key);
        if key_idx =? -1 then ret W_NOT_FOUND
        else
          let new_size := size - 1 in
          if new_size =? 0 then ret W_EMPTY
          else if new_size =? 1 then
            x ←'
              (if key_idx =? 0
               then from_option IndexError (list_getitem array 1)
               else if key_idx =? 1
                    then from_option IndexError (list_getitem array 0)
                    else raise AssertionError);
            new_node ←'
              BitmapNode_new 1 (set_bitpos hash shift) [Elem x] mutid;
            ret (W_NEWNODE new_node)
          else
            let new_array :=
              slice_to array key_idx ++ slice_from array (key_idx + 1) in
            if owned mutid self_mutid then
              store self
                (CollisionNode (size - 1) self_hash new_array self_mutid);;'
              ret (W_NEWNODE self)
            else
              new_node ←'
                CollisionNode_new (size - 1) self_hash new_array mutid;
              ret (W_NEWNODE new_node)
  | BitmapNode _ _ _ _ => raise InvalidReference
  end.

Fixpoint node_without (fuel : nat) (self : loc) (shift hash : Z) (key : K)
    (mutid : Z) : M K heap wres :=
  match fuel with
  | O => out_of_fuel
  | S fuel' =>
      n ←' load self;
      match n with
      | BitmapNode _ _ _ _ =>
          BitmapNode_without (node_without fuel') self shift hash key mutid
      | CollisionNode _ _ _ _ =>
          CollisionNode_without self shift hash key mutid
      end
  end.

(** *** [__iter__]

    The generators are consumed to the end by their only callers modelled
    here, so iteration is the list of the keys it yields. *)

Fixpoint iter_slots (rec : loc → res K (list K)) (array : list (slot K))
    (i : Z) (n : nat) : res K (list K) :=
  match n with
  | O => Val []
  | S n' =>
      match list_getitem array i with
      | None => Exn IndexError
      | Some key_or_node =>
          match (match key_or_node with
                 | Child c => rec c
                 | Elem k => Val [k]
                 end) with
          | Val ks =>
              match iter_slots rec array (i + 1) n' with
              | Val ks' => Val (ks ++ ks')
              | r => r
              end
          | r => r
          end
      end
  end.

Fixpoint node_iter (fuel : nat) (h : heap) (self : loc) : res K (list K) :=
  match fuel with
  | O => Diverge
  | S fuel' =>
      match h !! self with
      | None => Exn InvalidReference
      | Some (BitmapNode size _ array _) =>
          iter_slots (node_iter fuel' h) array 0 (Z.to_nat size)
      | Some (CollisionNode _ _ array _) => Val array
      end
  end.

End Nodes.

(** ** The persistent set and the transient mutator *)

(** A [Set] object: [__count], [__root] and the memoised [__hash]. *)
Record set_obj := SetObj {
  set_count : Z;
  set_root : loc;
  set_hash_cache : Z
}.

(** A [SetMutation] object: [__count], [__root], [__mutid]. *)
Record mut_obj := MutObj {
  mut_count : Z;
  mut_root : loc;
  mut_mutid : Z
}.

(** The interpreter state: the three object stores and the next value of the
    module-level counter [_mut_id = itertools.count(1).__next__]. *)
Record world (K : Type) := World {
  nodes : list (node K);
  sets : list set_obj;
  muts : list mut_obj;
  mut_id_counter : Z
}.
Arguments World {K} nodes sets muts mut_id_counter.
Arguments nodes {K} w.
Arguments sets {K} w.
Arguments muts {K} w.
Arguments mut_id_counter {K} w.

Definition init_world {K} : world K := World [] [] [] 1.

Section Sets.
Context {K : Type} `{Hashable K}.

(** [sys.maxsize] of the host. *)
Variable maxsize : Z.

Definition with_nodes (w : world K) (h : list (node K)) : world K :=
  World h (sets w) (muts w) (mut_id_counter w).

(** Run a node-level computation on the node store of the world. *)
Definition on_nodes {A} (m : M K (list (node K)) A) : M K (world K) A :=
  λ w, match m (nodes w) with
       | Ok a h => Ok a (with_nodes w h)
       | Raise e h => Raise e (with_nodes w h)
       | OutOfFuel => OutOfFuel
       end.

Definition _mut_id : M K (world K) Z :=
  λ w, Ok (mut_id_counter w)
          (World (nodes w) (sets w) (muts w) (mut_id_counter w + 1)).

Definition load_set (s : loc) : M K (world K) set_obj :=
  λ w, match sets w !! s with
       | Some o => Ok o w
       | None => Raise InvalidReference w
       end.

Definition store_set (s : loc) (o : set_obj) : M K (world K) unit :=
  λ w, Ok tt (World (nodes w) (<[s := o]> (sets w)) (muts w)
                (mut_id_counter w)).

Definition load_mut (m : loc) : M K (world K) mut_obj :=
  λ w, match muts w !! m with
       | Some o => Ok o w
       | None => Raise InvalidReference w
       end.

Definition store_mut (m : loc) (o : mut_obj) : M K (world K) unit :=
  λ w, Ok tt (World (nodes w) (sets w) (<[m := o]> (muts w))
                (mut_id_counter w)).

(** [Set._new(count, root)] *)
Definition Set__new (count : Z) (root : loc) : M K (world K) loc :=
  λ w, Ok (length (sets w))
          (World (nodes w) (sets w ++ [SetObj count root (-1)]) (muts w)
             (mut_id_counter w)).

(** [Set()] *)
Definition Set_init : M K (world K) loc :=
  root ←' on_nodes (BitmapNode_new 0 0 [] 0);
  Set__new 0 root.

Definition Set___len__ (self : loc) : M K (world K) Z :=
  s ←' load_set self;
  ret (set_count s).

Definition Set___contains__ (fuel : nat) (self : loc) (element : K)
    : M K (world K) bool :=
  s ←' load_set self;
  read (λ w, node_find fuel (nodes w) (set_root s) 0 (set_hash element)
               element).

Definition Set___iter__ (fuel : nat) (self : loc)
    : M K (world K) (list K) :=
  s ←' load_set self;
  read (λ w, node_iter fuel (nodes w) (set_root s)).

Definition Set_include (fuel : nat) (self : loc) (element : K)
    : M K (world K) loc :=
  s ←' load_set self;
  let new_count := set_count s in
  '(new_root, added) ←'
    on_nodes (node_add fuel (set_root s) 0 (set_hash element) element 0);
  if decide (new_root = set_root s) then
    if negb added then ret self else raise AssertionError
  else
    let new_count := if added then new_count + 1 else new_count in
    Set__new new_count new_root.

Definition Set_exclude (fuel : nat) (self : loc) (element : K)
    : M K (world K) loc :=
  s ←' load_set self;
  res ←'
    on_nodes (node_without fuel (set_root s) 0 (set_hash element) element 0);
  match res with
  | W_EMPTY => Set_init
  | W_NOT_FOUND => raise (KeyError element)
  | W_NEWNODE node => Set__new (set_count s - 1) node
  end.

(** The loop of [update] over [itertools.chain.from_iterable(args)]. *)
Fixpoint update_loop (fuel : nat) (it : list K) (root : loc) (count : Z)
    (mutid : Z) : M K (list (node K)) (loc * Z) :=
  match it with
  | [] => ret (root, count)
  | element :: it' =>
      '(root', added) ←'
        node_add fuel root 0 (set_hash element) element mutid;
      update_loop fuel it' root' (if added then count + 1 else count) mutid
  end.

Definition Set_update (fuel : nat) (self : loc) (args : list (list K))
    : M K (world K) loc :=
  match args with
  | [] => ret self
  | _ =>
      mutid ←' _mut_id;
      s ←' load_set self;
      '(root, count) ←'
        on_nodes (update_loop fuel (concat args) (set_root s) (set_count s)
                    mutid);
      Set__new count root
  end.

Definition Set_mutate (self : loc) : M K (world K) loc :=
  s ←' load_set self;
  mutid ←' _mut_id;
  λ w, Ok (length (muts w))
          (World (nodes w) (sets w)
             (muts w ++ [MutObj (set_count s) (set_root s) mutid])
             (mut_id_counter w)).

(** [Set.__hash__] *)
Definition Set___hash__ (fuel : nat) (self : loc) : M K (world K) Z :=
  s ←' load_set self;
  if negb (set_hash_cache s =? -1) then ret (set_hash_cache s)
  else
    let MAX := maxsize in
    let MASK := 2 * MAX + 1 in
    let h := 1927868237 * (set_count s + 1) in
    let h := Z.land h MASK in
    keys ←' read (λ w, node_iter fuel (nodes w) (set_root s));
    let h :=
      fold_left
        (λ h key,
           let hx := py_hash key in
           let h :=
             Z.lxor h
               (Z.lxor (Z.lxor hx (Z.shiftl hx 16)) 89869747 * 3644798167) in
           Z.land h MASK)
        keys h in
    let h := h * 69069 + 907133923 in
    let h := Z.land h MASK in
    let h := if h >? MAX then h - (MASK + 1) else h in
    let h := if h =? -1 then 590923713 else h in
    store_set self (SetObj (set_count s) (set_root s) h);;'
    ret h.

(** *** [SetMutation] *)

Definition SetMutation___len__ (self : loc) : M K (world K) Z :=
  m ←' load_mut self;
  ret (mut_count m).

Definition SetMutation___contains__ (fuel : nat) (self : loc) (key : K)
    : M K (world K) bool :=
  m ←' load_mut self;
  read (λ w, node_find fuel (nodes w) (mut_root m) 0 (set_hash key) key).

Definition SetMutation_include (fuel : nat) (self : loc) (element : K)
    : M K (world K) unit :=
  m ←' load_mut self;
  if mut_mutid m =? 0 then raise ValueError
  else
    '(root, added) ←'
      on_nodes (node_add fuel (mut_root m) 0 (set_hash element) element
                  (mut_mutid m));
    store_mut self
      (MutObj (if added then mut_count m + 1 else mut_count m) root
         (mut_mutid m)).

Definition SetMutation_exclude (fuel : nat) (self : loc) (element : K)
    : M K (world K) unit :=
  m ←' load_mut self;
  if mut_mutid m =? 0 then raise ValueError
  else
    res ←'
      on_nodes (node_without fuel (mut_root m) 0 (set_hash element) element
                  (mut_mutid m));
    match res with
    | W_EMPTY =>
        root ←' on_nodes (BitmapNode_new 0 0 [] (mut_mutid m));
        store_mut self (MutObj 0 root (mut_mutid m))
    | W_NOT_FOUND => raise (KeyError element)
    | W_NEWNODE new_root =>
        store_mut self (MutObj (mut_count m - 1) new_root (mut_mutid m))
    end.

(** [update] returns [self] when called without arguments and [None]
    otherwise. *)
Definition SetMutation_update (fuel : nat) (self : loc)
    (args : list (list K)) : M K (world K) (option loc) :=
  m ←' load_mut self;
  if mut_mutid m =? 0 then raise ValueError
  else
    match args with
    | [] => ret (Some self)
    | _ =>
        '(root, count) ←'
          on_nodes (update_loop fuel (concat args) (mut_root m)
                      (mut_count m) (mut_mutid m));
        store_mut self (MutObj count root (mut_mutid m));;'
        ret None
    end.

Definition SetMutation_finish (self : loc) : M K (world K) loc :=
  m ←' load_mut self;
  store_mut self (MutObj (mut_count m) (mut_root m) 0);;'
  Set__new (mut_count m) (mut_root m).

End Sets.

(** ** The key type of the test-suite

    [HashKey(hash, name)]: the hash is chosen by the caller, two keys are
    equal when both name and hash agree. *)

Record HashKey := mkHashKey { hk_hash : Z; hk_name : string }.

#[global] Instance HashKey_eq_dec : EqDecision HashKey.
Proof. solve_decision. Defined.

#[global] Instance HashKey_hashable : Hashable HashKey :=
  {| py_hash := hk_hash |}.

(** * Specification-level definitions *)

(** ** Bit-level reference definitions *)

(** Reference population count of the low [n] bits. *)
Fixpoint bits_count (n : nat) (v : Z) : Z :=
  match n with
  | O => 0
  | S n' => Z.b2z (Z.odd v) + bits_count n' (Z.div2 v)
  end.

(** Four bytes, least significant first, as one 32-bit word. *)
Definition word (b0 b1 b2 b3 : Z) : Z :=
  b0 + 256 * (b1 + 256 * (b2 + 256 * b3)).

(** The first three steps of [set_bitcount], on one byte. *)
Definition byte_step1 (b : Z) : Z := b - Z.land (Z.shiftr b 1) 0x55.
Definition byte_step2 (b : Z) : Z :=
  Z.land b 0x33 + Z.land (Z.shiftr b 2) 0x33.
Definition byte_step3 (b : Z) : Z :=
  Z.land b 0x0F + Z.land (Z.shiftr b 4) 0x0F.

Definition byte_ok (b : Z) : bool :=
  let b1 := byte_step1 b in
  let b2 := byte_step2 b1 in
  (0 <=? b1) && (b1 <? 256) && (0 <=? b2) && (b2 <? 256)
  && (byte_step3 b2 =? bits_count 8 b) && (bits_count 8 b <=? 8).

(** ** Weakest preconditions for the monad

    [wp m s Q E]: if [m] started in [s] returns [a] in state [s'] then
    [Q a s'], and if it raises [e] in state [s'] then [E e s']. *)

Definition wp {K S A} (m : M K S A) (s : S) (Q : A → S → Prop)
    (E : exn K → S → Prop) : Prop :=
  match m s with
  | Ok a s' => Q a s'
  | Raise e s' => E e s'
  | OutOfFuel => True
  end.

(** ** Node stores *)

Section StoreInvariants.
Context {K : Type} `{Hashable K}.

(** What every node built by the code satisfies: a bitmap is a 32-bit
    value, and a collision node never has more elements than its [size]
    field says. *)
Definition node_ok (n : node K) : Prop :=
  match n with
  | BitmapNode _ bitmap _ _ => 0 ≤ bitmap < 2 ^ 32
  | CollisionNode size _ array _ => Z.of_nat (length array) ≤ size
  end.

Definition heap_ok (h : list (node K)) : Prop :=
  ∀ l n, h !! l = Some n → node_ok n.

(** [frame mutid h0 h]: how an edit made with generation tag [mutid] may
    change the store [h0].  No node disappears or changes its tag; a node
    of [h0] that the edit does not own is left as it is; every node added
    carries the tag [mutid]. *)
Definition frame (mutid : Z) (h0 h : list (node K)) : Prop :=
  (length h0 ≤ length h)%nat
  ∧ (∀ l n0, h0 !! l = Some n0 →
       ∃ n, h !! l = Some n ∧ node_mutid n = node_mutid n0
            ∧ (owned mutid (node_mutid n0) = false → n = n0))
  ∧ (∀ l n, (length h0 ≤ l)%nat → h !! l = Some n → node_mutid n = mutid).

(** Every node of [h0] is still there, unchanged. *)
Definition preserved (h0 h : list (node K)) : Prop :=
  ∀ l n, h0 !! l = Some n → h !! l = Some n.

(** [evolves mutid h0 h]: [frame], and the store invariant is kept. *)
Definition evolves (mutid : Z) (h0 h : list (node K)) : Prop :=
  frame mutid h0 h ∧ (heap_ok h0 → heap_ok h).

(** A size-1 bitmap node whose only slot is an element: the shape that
    [BitmapNode.without] inlines into the parent. *)
Definition leaf_wrapper (n : node K) : bool :=
  match n with
  | BitmapNode size _ array _ =>
      (size =? 1)
      && match list_getitem array 0 with
         | Some (Elem _) => true
         | _ => false
         end
  | CollisionNode _ _ _ _ => false
  end.

(** Along the path that [hash] selects from the node at [l], for [depth]
    levels, every node exists and no child slot on the path holds a
    [leaf_wrapper]. *)
Fixpoint path_compact (depth : nat) (h : list (node K)) (l : loc)
    (shift hash : Z) : Prop :=
  match depth with
  | O => True
  | S depth' =>
      match h !! l with
      | None => False
      | Some (CollisionNode _ _ _ _) => True
      | Some (BitmapNode _ bitmap array _) =>
          let bit := set_bitpos hash shift in
          if truthy (Z.land bitmap bit) then
            match list_getitem array (set_bitindex bitmap bit) with
            | Some (Child c) =>
                (∃ n, h !! c = Some n ∧ leaf_wrapper n = false)
                ∧ path_compact depth' h c (shift + 5) hash
            | _ => True
            end
          else True
      end
  end.

(** [present fuel h l shift hash key]: the search that [add] makes for
    [key] from the node at [l] finds it, within [fuel] levels: every slot
    on the path of [hash] is occupied, and the path ends in a slot that
    holds [key] or in a collision node with the hash of [key] whose search
    finds it. *)
Fixpoint present (fuel : nat) (h : list (node K)) (l : loc)
    (shift hash : Z) (key : K) : Prop :=
  match fuel with
  | O => False
  | S fuel' =>
      match h !! l with
      | None => False
      | Some (BitmapNode _ bitmap array _) =>
          let bit := set_bitpos hash shift in
          truthy (Z.land bitmap bit) = true
          ∧ match list_getitem array (set_bitindex bitmap bit) with
            | Some (Child c) => present fuel' h c (shift + 5) hash key
            | Some (Elem k0) => key = k0
            | None => False
            end
      | Some (CollisionNode size self_hash array _) =>
          hash = self_hash
          ∧ ∃ i, CollisionNode_find_index size array key = Val i ∧ i ≠ -1
      end
  end.

End StoreInvariants.

(** ** The structural hash *)

(** The hash algorithm of [Set.__hash__], over the element hash [hx], the
    count and the keys in iteration order. *)
Definition hash_algorithm {K} (maxsize : Z) (hx : K → Z) (count : Z)
    (keys : list K) : Z :=
  let MASK := 2 * maxsize + 1 in
  let h := Z.land (1927868237 * (count + 1)) MASK in
  let h :=
    fold_left
      (λ h key,
         Z.land
           (Z.lxor h
              (Z.lxor (Z.lxor (hx key) (Z.shiftl (hx key) 16)) 89869747
               * 3644798167))
           MASK)
      keys h in
  let h := Z.land (h * 69069 + 907133923) MASK in
  let h := if h >? maxsize then h - (MASK + 1) else h in
  if h =? -1 then 590923713 else h.

(** The structural hash in the words of the specification: the element
    hash is the 32-bit hash obtained by folding the host hash. *)
Definition structural_hash_spec `{Hashable K} (maxsize count : Z)
    (keys : list K) : Z :=
  hash_algorithm maxsize set_hash count keys.

(** The same algorithm over the host hash [hash(key)]. *)
Definition structural_hash_host `{Hashable K} (maxsize count : Z)
    (keys : list K) : Z :=
  hash_algorithm maxsize py_hash count keys.

(** ** Worlds *)

Definition with_sets {K} (w : world K) (ss : list set_obj) : world K :=
  World (nodes w) ss (muts w) (mut_id_counter w).

(** Every tag in use was issued by the counter: a fresh tag owns no node. *)
Definition world_ok {K} `{Hashable K} (w : world K) : Prop :=
  heap_ok (nodes w)
  ∧ 0 < mut_id_counter w
  ∧ (∀ l n, nodes w !! l = Some n → node_mutid n < mut_id_counter w)
  ∧ (∀ l m, muts w !! l = Some m → mut_mutid m < mut_id_counter w).

(** ** Fixtures from the test-suite *)

(** [test_set_collision_1]: three keys with hash 10. *)
Definition k_aaa : HashKey := mkHashKey 10 "aaa".
Definition k_bbb : HashKey := mkHashKey 10 "bbb".
Definition k_ccc : HashKey := mkHashKey 10 "ccc".

(** The state after [h3 = Set().include(k1).include(k2)]; [h3] is set 2. *)
Definition collision_world : world HashKey :=
  World
    [BitmapNode 0 0 [] 0;
     BitmapNode 1 1024 [Elem k_aaa] 0;
     CollisionNode 4 10 [k_aaa; k_bbb] 0;
     BitmapNode 1 1024 [Child 2%nat] 0]
    [SetObj 0 0%nat (-1); SetObj 1 1%nat (-1); SetObj 2 3%nat (-1)]
    [] 1.

(** [test_set_delete_2]: [B] and [C] share their five lowest hash bits. *)
Definition k_B : HashKey := mkHashKey 201001 "B".
Definition k_C : HashKey := mkHashKey 101001 "C".

(** [test_set_exclude_1]: a key with a negative hash. *)
Definition k_Z : HashKey := mkHashKey (-100) "Z".

(** [sys.maxsize] on a 64-bit host. *)
Definition maxsize64 : Z := 2 ^ 63 - 1.

(** The state after [s = Set(); m = s.mutate()], and after [m.finish()]. *)
Definition mutator_world : world HashKey :=
  World [BitmapNode 0 0 [] 0] [SetObj 0 0%nat (-1)] [MutObj 0 0%nat 1] 2.

Definition finished_world : world HashKey :=
  World [BitmapNode 0 0 [] 0] [SetObj 0 0%nat (-1); SetObj 0 0%nat (-1)]
    [MutObj 0 0%nat 0] 2.

(** The state after [Set().include(Z)]; the set [{Z}] is set 1. *)
Definition hash_world : world HashKey :=
  World [BitmapNode 0 0 [] 0; BitmapNode 1 8 [Elem k_Z] 0]
    [SetObj 0 0%nat (-1); SetObj 1 1%nat (-1)] [] 1.

(** The state after [Set().include(B).include(C)]: the root (node 5) has
    one slot, the sub-node (node 4) that holds [B] and [C]. *)
Definition delete_world : world HashKey :=
  World
    [BitmapNode 0 0 [] 0;
     BitmapNode 1 512 [Elem k_B] 0;
     BitmapNode 0 0 [] 0;
     BitmapNode 1 512 [Elem k_B] 0;
     BitmapNode 2 1049088 [Elem k_B; Elem k_C] 0;
     BitmapNode 1 512 [Child 4%nat] 0]
    [SetObj 0 0%nat (-1); SetObj 1 1%nat (-1); SetObj 2 5%nat (-1)]
    [] 1.

(** [Set().include(k1).include(k2)] of [test_set_collision_1]. *)
Definition build_collision_set (fuel : nat) : M HashKey (world HashKey) loc :=
  s ←' Set_init;
  s2 ←' Set_include fuel s k_aaa;
  Set_include fuel s2 k_bbb.

(** [world_step w w']: what a persistent operation may do to a well-formed
    world.  Every node is kept as it is, every [Set] object keeps its
    count and its root (only the memoised hash may be filled in), and the
    world stays well-formed. *)
Definition world_step {K} `{Hashable K} (w w' : world K) : Prop :=
  world_ok w →
  world_ok w'
  ∧ preserved (nodes w) (nodes w')
  ∧ (∀ s so, sets w !! s = Some so →
       ∃ so', sets w' !! s = Some so'
              ∧ set_count so' = set_count so ∧ set_root so' = set_root so)
  ∧ (∀ m mo, muts w !! m = Some mo → muts w' !! m = Some mo).

(** ** Sequences of operations *)

(** The state an operation leaves behind, whether it returns or raises. *)
Definition final_state {K S A} (r : outcome K S A) : option S :=
  match r with
  | Ok _ s => Some s
  | Raise _ s => Some s
  | OutOfFuel => None
  end.

(** The methods of a [Set]. *)
Inductive set_op (K : Type) :=
| OpInclude (element : K)
| OpExclude (element : K)
| OpUpdate (args : list (list K))
| OpMutate
| OpHash
| OpContains (element : K)
| OpIter
| OpLen.
Arguments OpInclude {K} element.
Arguments OpExclude {K} element.
Arguments OpUpdate {K} args.
Arguments OpMutate {K}.
Arguments OpHash {K}.
Arguments OpContains {K} element.
Arguments OpIter {K}.
Arguments OpLen {K}.

(** The write methods of a [SetMutation], and [finish]. *)
Inductive mut_op (K : Type) :=
| MutInclude (element : K)
| MutExclude (element : K)
| MutUpdate (args : list (list K))
| MutFinish.
Arguments MutInclude {K} element.
Arguments MutExclude {K} element.
Arguments MutUpdate {K} args.
Arguments MutFinish {K}.

Section Operations.
Context {K : Type} `{Hashable K}.
Variable maxsize : Z.

Definition run_set_op (fuel : nat) (s : loc) (op : set_op K) (w : world K)
    : option (world K) :=
  match op with
  | OpInclude e => final_state (Set_include fuel s e w)
  | OpExclude e => final_state (Set_exclude fuel s e w)
  | OpUpdate args => final_state (Set_update fuel s args w)
  | OpMutate => final_state (Set_mutate s w)
  | OpHash => final_state (Set___hash__ maxsize fuel s w)
  | OpContains e => final_state (Set___contains__ fuel s e w)
  | OpIter => final_state (Set___iter__ fuel s w)
  | OpLen => final_state (Set___len__ s w)
  end.

(** A sequence of method calls on sets, each on the state the previous one
    left, whether it returned or raised. *)
Fixpoint run_set_ops (fuel : nat) (ops : list (loc * set_op K))
    (w : world K) : option (world K) :=
  match ops with
  | [] => Some w
  | (s, op) :: ops' =>
      match run_set_op fuel s op w with
      | Some w' => run_set_ops fuel ops' w'
      | None => None
      end
  end.

Definition run_mut_op (fuel : nat) (m : loc) (op : mut_op K) (w : world K)
    : option (world K) :=
  match op with
  | MutInclude e => final_state (SetMutation_include fuel m e w)
  | MutExclude e => final_state (SetMutation_exclude fuel m e w)
  | MutUpdate args => final_state (SetMutation_update fuel m args w)
  | MutFinish => final_state (SetMutation_finish m w)
  end.

(** A sequence of method calls on one mutator. *)
Fixpoint run_mut_ops (fuel : nat) (m : loc) (ops : list (mut_op K))
    (w : world K) : option (world K) :=
  match ops with
  | [] => Some w
  | op :: ops' =>
      match run_mut_op fuel m op w with
      | Some w' => run_mut_ops fuel m ops' w'
      | None => None
      end
  end.

(** A call of the interface: [Set()], a method of a set, or a method of a
    mutator. *)
Inductive api_call :=
| CallNew
| CallSet (s : loc) (op : set_op K)
| CallMut (m : loc) (op : mut_op K).

Definition run_call (fuel : nat) (c : api_call) (w : world K)
    : option (world K) :=
  match c with
  | CallNew => final_state (Set_init w)
  | CallSet s op => run_set_op fuel s op w
  | CallMut m op => run_mut_op fuel m op w
  end.

(** A program: calls in sequence, each on the state the previous one left. *)
Fixpoint run_calls (fuel : nat) (cs : list api_call) (w : world K)
    : option (world K) :=
  match cs with
  | [] => Some w
  | c :: cs' =>
      match run_call fuel c w with
      | Some w' => run_calls fuel cs' w'
      | None => None
      end
  end.

(** What can be observed of set [s] in [w] is observed in [w'] too. *)
Definition same_view (s : loc) (w w' : world K) : Prop :=
  (∀ n, Set___len__ s w = Ok n w → Set___len__ s w' = Ok n w')
  ∧ (∀ fuel k b, Set___contains__ fuel s k w = Ok b w →
       Set___contains__ fuel s k w' = Ok b w')
  ∧ (∀ fuel ks, Set___iter__ fuel s w = Ok ks w →
       Set___iter__ fuel s w' = Ok ks w').

(** [mut_step mutid w w']: what the methods of a mutator with tag [mutid]
    may do: edit the node store under that tag, add [Set] objects, and
    leave the other stores as they are up to the mutators themselves. *)
Definition mut_step (mutid : Z) (w w' : world K) : Prop :=
  frame mutid (nodes w) (nodes w')
  ∧ (∀ s so, sets w !! s = Some so → sets w' !! s = Some so).

(** Mutator [m] edits under the tag [mutid], or is finished. *)
Definition tagged (mutid : Z) (m : loc) (w : world K) : Prop :=
  ∃ mo, muts w !! m = Some mo ∧ (mut_mutid mo = mutid ∨ mut_mutid mo = 0).

End Operations.

(** The state after [s2 = {Z}.include(k1)] in [hash_world]; [s2] is set 2. *)
Definition hash_world_included : world HashKey :=
  World
    [BitmapNode 0 0 [] 0; BitmapNode 1 8 [Elem k_Z] 0;
     BitmapNode 2 1032 [Elem k_Z; Elem k_aaa] 0]
    [SetObj 0 0%nat (-1); SetObj 1 1%nat (-1); SetObj 2 2%nat (-1)] [] 1.

(** * Invariants of the reachable states *)

(** ** Generations

    Every node carries the tag ([mutid]) of the edit that made it; a
    mutator edits in place the nodes that carry its own tag.  [L] is the
    set of the tags under which some mutator may still edit. *)

Section SealedDefs.
Context {K : Type} `{Hashable K}.

(** A child belongs to the generation [tag] of its parent or to no live
    generation. *)
Definition slot_sealed (L : Z → Prop) (h : list (node K)) (tag : Z)
    (x : slot K) : Prop :=
  match x with
  | Elem _ => True
  | Child c =>
      ∃ n, h !! c = Some n ∧ (node_mutid n = tag ∨ ¬ L (node_mutid n))
  end.

Definition node_sealed (L : Z → Prop) (h : list (node K)) (n : node K)
    : Prop :=
  match n with
  | BitmapNode _ _ array m => Forall (slot_sealed L h m) array
  | CollisionNode _ _ _ _ => True
  end.

Definition sealed (L : Z → Prop) (h : list (node K)) : Prop :=
  ∀ l n, h !! l = Some n → node_sealed L h n.

(** Every child that a node of the store names is in the store. *)
Definition closed (h : list (node K)) : Prop := sealed (λ _, False) h.

(** No node disappears or changes its tag. *)
Definition same_tags (h h' : list (node K)) : Prop :=
  ∀ l n, h !! l = Some n →
    ∃ n', h' !! l = Some n' ∧ node_mutid n' = node_mutid n.

End SealedDefs.

Section WorldSealedDefs.
Context {K : Type} `{Hashable K}.

(** The node at [l] belongs to no live generation. *)
Definition frozen (L : Z → Prop) (h : list (node K)) (l : loc) : Prop :=
  ∃ n, h !! l = Some n ∧ ¬ L (node_mutid n).

(** The tags under which a mutator may still edit. *)
Definition live (ms : list mut_obj) (t : Z) : Prop :=
  t ≠ 0 ∧ ∃ m mo, ms !! m = Some mo ∧ mut_mutid mo = t.

Definition world_sealed (w : world K) : Prop :=
  sealed (live (muts w)) (nodes w)
  ∧ (∀ s so, sets w !! s = Some so →
       frozen (live (muts w)) (nodes w) (set_root so))
  ∧ (∀ m mo, muts w !! m = Some mo →
       slot_sealed (live (muts w)) (nodes w) (mut_mutid mo)
         (Child (mut_root mo)))
  ∧ (∀ m1 m2 mo1 mo2,
       muts w !! m1 = Some mo1 → muts w !! m2 = Some mo2 →
       mut_mutid mo1 = mut_mutid mo2 → mut_mutid mo1 ≠ 0 → m1 = m2).

(** [w'] keeps every [Set] object of [w] with its count and its root. *)
Definition sets_kept (w w' : world K) : Prop :=
  ∀ s so, sets w !! s = Some so →
    ∃ so', sets w' !! s = Some so'
           ∧ set_count so' = set_count so ∧ set_root so' = set_root so.

End WorldSealedDefs.

(** ** Sizes and hashes *)

Section WfDefs.
Context {K : Type} `{Hashable K}.

(** What the nodes of every reachable store satisfy beyond [node_ok]: the
    [size] of a bitmap node is the length of its array and the population
    count of its bitmap, and the keys of a collision node all have the
    hash of the node. *)
Definition node_wf (n : node K) : Prop :=
  match n with
  | BitmapNode size bitmap array _ =>
      0 ≤ bitmap < 2 ^ 32
      ∧ size = Z.of_nat (length array)
      ∧ size = set_bitcount bitmap
  | CollisionNode size hash array _ =>
      Z.of_nat (length array) ≤ size
      ∧ Forall (λ k, set_hash k = hash) array
  end.

Definition heap_wf (h : list (node K)) : Prop :=
  ∀ l n, h !! l = Some n → node_wf n.

(** The invariant of the states that the interface reaches. *)
Definition world_inv (w : world K) : Prop :=
  world_ok w ∧ world_sealed w ∧ heap_wf (nodes w).

End WfDefs.

(** * More methods *)

Section MoreMethods.
Context {K : Type} `{Hashable K}.

(** [SetMutation.__enter__] *)
Definition SetMutation___enter__ (self : loc) : M K (world K) loc :=
  ret self.

(** [SetMutation.__exit__]: the exception arguments are not looked at;
    the [Set] that [finish] returns is dropped. *)
Definition SetMutation___exit__ (self : loc) : M K (world K) bool :=
  SetMutation_finish self;;'
  ret false.

(** The loop of [__eq__]: every key of [self] is looked up in the root of
    [other]; the first one missing ends the loop. *)
Fixpoint eq_loop (fuel : nat) (keys : list K) (other_root : loc)
    : M K (world K) bool :=
  match keys with
  | [] => ret true
  | key :: keys' =>
      found ←'
        read (λ w, node_find fuel (nodes w) other_root 0 (set_hash key) key);
      if found then eq_loop fuel keys' other_root else ret false
  end.

(** [Set.__eq__], [other] a [Set]. The keys of [self] are listed before
    the loop; listing them raises nothing in a well-formed store. *)
Definition Set___eq__ (fuel : nat) (self other : loc) : M K (world K) bool :=
  s ←' load_set self;
  o ←' load_set other;
  if negb (set_count s =? set_count o) then ret false
  else
    keys ←' read (λ w, node_iter fuel (nodes w) (set_root s));
    eq_loop fuel keys (set_root o).

(** [SetMutation.__eq__], [other] a [SetMutation]. *)
Definition SetMutation___eq__ (fuel : nat) (self other : loc)
    : M K (world K) bool :=
  s ←' load_mut self;
  o ←' load_mut other;
  if negb (mut_count s =? mut_count o) then ret false
  else
    keys ←' read (λ w, node_iter fuel (nodes w) (mut_root s));
    eq_loop fuel keys (mut_root o).

(** [Set(col)], [col] a [Set]: the empty root is built first, then count,
    root and memoised hash of [col] are taken over. *)
Definition Set_init_of_Set (col : loc) : M K (world K) loc :=
  on_nodes (BitmapNode_new 0 0 [] 0);;'
  c ←' load_set col;
  λ w, Ok (length (sets w))
          (World (nodes w)
             (sets w ++ [SetObj (set_count c) (set_root c) (set_hash_cache c)])
             (muts w) (mut_id_counter w)).

End MoreMethods.

(** ** More fixtures *)

(** [Set().include(k1).include(k2)], [Set().include(Z)],
    [Set().include(B).include(C)] and [Set().mutate()] as programs. *)
Definition collision_program : list (api_call (K:=HashKey)) :=
  [CallNew; CallSet 0%nat (OpInclude k_aaa); CallSet 1%nat (OpInclude k_bbb)].

Definition hash_program : list (api_call (K:=HashKey)) :=
  [CallNew; CallSet 0%nat (OpInclude k_Z)].

Definition delete_program : list (api_call (K:=HashKey)) :=
  [CallNew; CallSet 0%nat (OpInclude k_B); CallSet 1%nat (OpInclude k_C)].

Definition mutator_program : list (api_call (K:=HashKey)) :=
  [CallNew; CallSet 0%nat OpMutate].

(** [m = h3.mutate(); m.exclude(k1); m.include(Z); m.finish()] on the set
    [h3 = {k1, k2}] of [collision_world]. *)
Definition edit_program : list (api_call (K:=HashKey)) :=
  [CallSet 2%nat OpMutate; CallMut 0%nat (MutExclude k_aaa);
   CallMut 0%nat (MutInclude k_Z); CallMut 0%nat MutFinish].

Definition edited_world : world HashKey :=
  World
    [BitmapNode 0 0 [] 0;
     BitmapNode 1 1024 [Elem k_aaa] 0;
     CollisionNode 4 10 [k_aaa; k_bbb] 0;
     BitmapNode 1 1024 [Child 2%nat] 0;
     CollisionNode 3 10 [k_bbb] 1;
     BitmapNode 2 1032 [Elem k_Z; Child 4%nat] 1]
    [SetObj 0 0%nat (-1); SetObj 1 1%nat (-1); SetObj 2 3%nat (-1);
     SetObj 2 5%nat (-1)]
    [MutObj 2 5%nat 0] 2.

(** The state after [{B, C}.exclude(B)] in [delete_world]; the result is
    set 3. *)
Definition delete_world_excluded : world HashKey :=
  World
    (nodes delete_world
     ++ [BitmapNode 1 1048576 [Elem k_C] 0; BitmapNode 1 512 [Elem k_C] 0])
    (sets delete_world ++ [SetObj 1 7%nat (-1)])
    [] 1.

(** The state after [Set()]. *)
Definition set_world : world HashKey :=
  World [BitmapNode 0 0 [] 0] [SetObj 0 0%nat (-1)] [] 1.

(** The state after [Set(s)] in [hash_world], [s] the set [{Z}]; the copy
    is set 2. *)
Definition hash_world_copied : world HashKey :=
  World (nodes hash_world ++ [BitmapNode 0 0 [] 0])
    (sets hash_world ++ [SetObj 1 1%nat (-1)]) [] 1.
(** ** Positions

    A search for a hash [x] looks, at the level [shift] of the trie, at
    the five bits of [x] from [shift] on.  A bitmap node is made for one
    level and for the hashes that share the bits below that level; the
    labelling [lab] records both for every bitmap node of the store, as
    the level and one hash that passes through the node. *)

Section PlacedDefs.
Context {K : Type} `{Hashable K}.
Implicit Types (h : list (node K)) (lab : loc → Z * Z).

(** [a] and [b] have the same bits below [shift]. *)
Definition agree (shift a b : Z) : Prop :=
  ∀ i, 0 ≤ i < shift → Z.testbit a i = Z.testbit b i.

(** The class of a node, and for a collision node the hash of its keys;
    an edit in place keeps both. *)
Definition node_kind (n : node K) : option Z :=
  match n with
  | BitmapNode _ _ _ _ => None
  | CollisionNode _ hash _ _ => Some hash
  end.

(** The node at [l] may be met at level [shift] by the search for [x]. *)
Definition sits lab h (l : loc) (shift x : Z) : Prop :=
  match h !! l with
  | Some (BitmapNode _ _ _ _) => (lab l).1 = shift ∧ agree shift (lab l).2 x
  | Some (CollisionNode _ hash _ _) => agree shift hash x
  | None => False
  end.

(** What the search for [x] may find in a slot, [shift] the level below
    the slot. *)
Definition slot_on lab h (shift x : Z) (s : slot K) : Prop :=
  match s with
  | Elem k => agree shift (set_hash k) x
  | Child c => sits lab h c shift x
  end.

Definition elem_agree (lev rep : Z) (s : slot K) : Prop :=
  match s with
  | Elem k => agree lev (set_hash k) rep
  | Child _ => True
  end.

(** The array of a bitmap node for level [lev] and the hashes that agree
    with [rep]: every key agrees with [rep] below [lev], and the slot that
    such a hash selects holds what the search for it may find. *)
Definition slots_on lab h (lev rep bitmap : Z) (array : list (slot K))
    : Prop :=
  0 ≤ lev
  ∧ Forall (elem_agree lev rep) array
  ∧ ∀ x s, agree lev rep x →
      truthy (Z.land bitmap (set_bitpos x lev)) = true →
      list_getitem array (set_bitindex bitmap (set_bitpos x lev)) = Some s →
      slot_on lab h (lev + 5) x s.

Definition node_placed lab h (l : loc) (n : node K) : Prop :=
  match n with
  | BitmapNode _ bitmap array _ =>
      slots_on lab h (lab l).1 (lab l).2 bitmap array
  | CollisionNode _ _ _ _ => True
  end.

Definition placed lab h : Prop :=
  ∀ l n, h !! l = Some n → node_placed lab h l n.

(** The labelling [lab] with the label [v] for the node at [l]. *)
Definition lab_set lab (l : loc) (v : Z * Z) : loc → Z * Z :=
  λ l', if decide (l' = l) then v else lab l'.

(** No node disappears or changes its kind. *)
Definition same_kinds h h' : Prop :=
  ∀ l n, h !! l = Some n →
    ∃ n', h' !! l = Some n' ∧ node_kind n' = node_kind n.

(** The labels of the nodes of [h] are kept. *)
Definition grows h lab lab' : Prop :=
  ∀ l, (l < length h)%nat → lab' l = lab l.

(** The node at [l], of kind [k], may be changed by an edit for the hash
    [x] that starts at level [shift]. *)
Definition touched lab (shift x : Z) (l : loc) (k : option Z) : Prop :=
  match k with
  | None => shift ≤ (lab l).1 ∧ agree shift (lab l).2 x
  | Some hash => agree shift hash x
  end.

(** Every node keeps its kind, and is the same unless an edit for [x] from
    level [shift] on may change it. *)
Definition pframe lab (shift x : Z) h h' : Prop :=
  ∀ l n, h !! l = Some n →
    ∃ n', h' !! l = Some n' ∧ node_kind n' = node_kind n
          ∧ (n' = n ∨ touched lab shift x l (node_kind n)).

(** The node that [without] returns, if any. *)
Definition wres_loc (r : wres) : option loc :=
  match r with W_NEWNODE n => Some n | _ => None end.

(** What an edit for [x] at level [shift] leaves: a labelling of the new
    store that extends the old one, and a result that sits at [shift]. *)
Definition ppost lab (shift x : Z) h (r : option loc) h' : Prop :=
  ∃ lab', grows h lab lab' ∧ placed lab' h' ∧ pframe lab shift x h h'
          ∧ match r with
            | Some r => sits lab' h' r shift x
            | None => True
            end.

(** What an edit from a root leaves. *)
Definition rpost lab h (r : option loc) h' : Prop :=
  ∃ lab', grows h lab lab' ∧ placed lab' h' ∧ same_kinds h h'
          ∧ match r with
            | Some r => sits lab' h' r 0 0
            | None => True
            end.

(** The trie invariant of a state: some labelling places every node, and
    the roots of the sets and of the mutators are at level 0. *)
Definition world_placed (w : world K) : Prop :=
  ∃ lab, placed lab (nodes w)
    ∧ (∀ s so, sets w !! s = Some so → sits lab (nodes w) (set_root so) 0 0)
    ∧ (∀ m mo, muts w !! m = Some mo → sits lab (nodes w) (mut_root mo) 0 0).

(** A collision node holds no key twice. *)
Definition node_nodup (n : node K) : Prop :=
  match n with
  | BitmapNode _ _ _ _ => True
  | CollisionNode _ _ array _ => NoDup array
  end.

Definition heap_nodup h : Prop := ∀ l n, h !! l = Some n → node_nodup n.

(** The invariant of the reachable states, with the trie invariant. *)
Definition trie_inv (w : world K) : Prop :=
  world_inv w ∧ world_placed w ∧ heap_nodup (nodes w).

End PlacedDefs.

(** ** Fixtures with a mutator *)

(** The state after [m = {B, C}.mutate()] in [delete_world], and after
    [m.exclude(B)]. *)
Definition delete_mutating_world : world HashKey :=
  World (nodes delete_world) (sets delete_world) [MutObj 2 5%nat 1] 2.

Definition delete_mutated_world : world HashKey :=
  World
    (nodes delete_world
     ++ [BitmapNode 1 1048576 [Elem k_C] 1; BitmapNode 1 512 [Elem k_C] 1])
    (sets delete_world) [MutObj 1 7%nat 1] 2.

(** * Proofs *)

(** ** Bit-level facts *)

Lemma bits_count_nonneg n v : 0 ≤ bits_count n v.
Proof.
  revert v; induction n as [|n IH]; intros v; simpl; [lia|].
  specialize (IH (Z.div2 v)). destruct (Z.odd v); simpl; lia.
Qed.

Lemma bits_count_land_le n a b : bits_count n (Z.land a b) ≤ bits_count n a.
Proof.
  revert a b; induction n as [|n IH]; intros a b; simpl; [lia|].
  rewrite <- !Z.bit0_odd, Z.land_spec, !Z.div2_spec, Z.shiftr_land.
  specialize (IH (Z.shiftr a 1) (Z.shiftr b 1)).
  destruct (Z.testbit a 0), (Z.testbit b 0); simpl; lia.
Qed.

Lemma bits_count_app n m v :
  bits_count (n + m) v = bits_count n v + bits_count m (v / 2 ^ Z.of_nat n).
Proof.
  revert v; induction n as [|n IH]; intros v.
  - simpl. by rewrite Z.div_1_r.
  - replace (S n + m)%nat with (S (n + m)) by lia. simpl bits_count.
    rewrite IH, Nat2Z.inj_succ, Z.pow_succ_r by lia.
    rewrite Z.div2_div, Z.div_div by lia. lia.
Qed.

Lemma bits_count_mod n v : bits_count n (v mod 2 ^ Z.of_nat n) = bits_count n v.
Proof.
  revert v; induction n as [|n IH]; intros v; [done|].
  simpl bits_count. rewrite <- (IH (Z.div2 v)).
  rewrite Nat2Z.inj_succ, Z.pow_succ_r by lia.
  rewrite <- !Z.bit0_odd, !Z.div2_div.
  f_equal.
  - f_equal. rewrite <- (Z.mod_pow2_bits_low v (Z.succ (Z.of_nat n)) 0) by lia.
    by rewrite Z.pow_succ_r by lia.
  - f_equal. rewrite Z.rem_mul_r by lia.
    pose proof (Z.mod_pos_bound v 2 ltac:(lia)).
    generalize ((v / 2) mod 2 ^ Z.of_nat n). intros x.
    symmetry. apply (Z.div_unique _ 2 x (v mod 2)); lia.
Qed.

(** [Z.bitblast], then discharge the bits at negative positions. *)
Ltac bitblast_neg :=
  Z.bitblast; subst;
  repeat match goal with
         | |- context [Z.testbit ?a ?i] =>
             rewrite (Z.testbit_neg_r a i) by lia
         end;
  try reflexivity; try btauto.

Lemma land_pow2_bound a m n :
  0 ≤ n → 0 ≤ m < 2 ^ n → 0 ≤ Z.land a m < 2 ^ n.
Proof.
  intros Hn Hm.
  replace (Z.land a m) with (Z.land a m mod 2 ^ n).
  { apply Z.mod_pos_bound; lia. }
  rewrite <- Z.land_ones, <- Z.land_assoc by lia. f_equal.
  rewrite Z.land_ones by lia. apply Z.mod_small; lia.
Qed.

(** Splitting a number at a byte boundary. *)
Lemma byte_cons_lor f a :
  0 ≤ f < 256 → f + 256 * a = Z.lor (f mod 2 ^ 8) (Z.shiftl a 8).
Proof.
  intros Hf. rewrite Z.mod_small by (change (2 ^ 8) with 256; lia).
  rewrite Z.shiftl_mul_pow2 by lia. change (2 ^ 8) with 256.
  rewrite Z.or_to_plus; [lia|].
  rewrite <- (Z.mod_small f (2 ^ 8)) by (change (2 ^ 8) with 256; lia).
  replace (a * 256) with (Z.shiftl a 8) by (rewrite Z.shiftl_mul_pow2; lia).
  bitblast_neg.
Qed.

Lemma land_byte_cons f a m M :
  0 ≤ f < 256 → 0 ≤ m < 256 →
  Z.land (f + 256 * a) (m + 256 * M) = Z.land f m + 256 * Z.land a M.
Proof.
  intros Hf Hm.
  assert (0 ≤ Z.land f m < 256) as Hfm.
  { apply (land_pow2_bound f m 8); [lia|]. change (2 ^ 8) with 256. lia. }
  rewrite !byte_cons_lor by done.
  bitblast_neg.
Qed.

Lemma land_shiftr_byte_cons s f a m M :
  0 ≤ s < 8 → 0 ≤ f < 256 → 0 ≤ m < 2 ^ (8 - s) →
  Z.land (Z.shiftr (f + 256 * a) s) (m + 256 * M)
  = Z.land (Z.shiftr f s) m + 256 * Z.land (Z.shiftr a s) M.
Proof.
  intros Hs Hf Hm.
  assert (2 ^ (8 - s) ≤ 256).
  { change 256 with (2 ^ 8). apply Z.pow_le_mono_r; lia. }
  assert (0 ≤ Z.land (Z.shiftr f s) m < 256) as Hfm.
  { pose proof (land_pow2_bound (Z.shiftr f s) m (8 - s)). lia. }
  rewrite (byte_cons_lor f), (byte_cons_lor (Z.land _ _)) by done.
  replace (m + 256 * M) with (Z.lor (m mod 2 ^ (8 - s)) (Z.shiftl M 8)).
  2:{ rewrite Z.mod_small by lia. rewrite <- (Z.mod_small m (2 ^ 8)) at 1
        by (change (2 ^ 8) with 256; lia).
      rewrite <- byte_cons_lor by lia. done. }
  replace (Z.land (Z.shiftr f s) m)
    with (Z.land (Z.shiftr f s) (m mod 2 ^ (8 - s)))
    by (by rewrite (Z.mod_small m) by lia).
  bitblast_neg.
Qed.

(** *** Correctness of the SWAR population count *)

Lemma land_shiftr_word s m b0 b1 b2 b3 :
  0 ≤ s < 8 → 0 ≤ m < 2 ^ (8 - s) →
  0 ≤ b0 < 256 → 0 ≤ b1 < 256 → 0 ≤ b2 < 256 →
  Z.land (Z.shiftr (word b0 b1 b2 b3) s) (word m m m m)
  = word (Z.land (Z.shiftr b0 s) m) (Z.land (Z.shiftr b1 s) m)
      (Z.land (Z.shiftr b2 s) m) (Z.land (Z.shiftr b3 s) m).
Proof.
  intros. unfold word. by rewrite !land_shiftr_byte_cons.
Qed.

Lemma land_word m b0 b1 b2 b3 :
  0 ≤ m < 256 → 0 ≤ b0 < 256 → 0 ≤ b1 < 256 → 0 ≤ b2 < 256 →
  Z.land (word b0 b1 b2 b3) (word m m m m)
  = word (Z.land b0 m) (Z.land b1 m) (Z.land b2 m) (Z.land b3 m).
Proof.
  intros. rewrite <- (Z.shiftr_0_r (word b0 b1 b2 b3)).
  rewrite land_shiftr_word by (change (2 ^ (8 - 0)) with 256; lia).
  by rewrite !Z.shiftr_0_r.
Qed.

Lemma byte_ok_all b : 0 ≤ b < 256 → byte_ok b = true.
Proof.
  intros Hb.
  assert (forallb byte_ok (seqZ 0 256) = true) as Hall by (vm_compute; done).
  rewrite forallb_forall in Hall. apply Hall.
  apply list_elem_of_In, elem_of_seqZ. lia.
Qed.

Lemma set_bitcount_word b0 b1 b2 b3 :
  0 ≤ b0 < 256 → 0 ≤ b1 < 256 → 0 ≤ b2 < 256 → 0 ≤ b3 < 256 →
  set_bitcount (word b0 b1 b2 b3)
  = bits_count 8 b0 + bits_count 8 b1 + bits_count 8 b2 + bits_count 8 b3.
Proof.
  intros H0 H1 H2 H3.
  pose proof (byte_ok_all b0 H0) as K0. pose proof (byte_ok_all b1 H1) as K1.
  pose proof (byte_ok_all b2 H2) as K2. pose proof (byte_ok_all b3 H3) as K3.
  unfold byte_ok in *. cbv zeta in *.
  repeat match goal with
         | H : _ && _ = true |- _ => apply andb_true_iff in H; destruct H
         end.
  repeat match goal with
         | H : (_ <=? _) = true |- _ => apply Z.leb_le in H
         | H : (_ <? _) = true |- _ => apply Z.ltb_lt in H
         | H : (_ =? _) = true |- _ => apply Z.eqb_eq in H
         end.
  unfold set_bitcount.
  change 0x55555555 with (word 0x55 0x55 0x55 0x55).
  change 0x33333333 with (word 0x33 0x33 0x33 0x33).
  change 0x0F0F0F0F with (word 0x0F 0x0F 0x0F 0x0F).
  rewrite land_shiftr_word by (simpl; lia).
  replace (word b0 b1 b2 b3
           - word (Z.land (Z.shiftr b0 1) 85) (Z.land (Z.shiftr b1 1) 85)
               (Z.land (Z.shiftr b2 1) 85) (Z.land (Z.shiftr b3 1) 85))
    with (word (byte_step1 b0) (byte_step1 b1) (byte_step1 b2) (byte_step1 b3))
    by (unfold word, byte_step1; lia).
  rewrite land_word, land_shiftr_word by (simpl; lia).
  replace (word _ _ _ _ + word _ _ _ _)
    with (word (byte_step2 (byte_step1 b0)) (byte_step2 (byte_step1 b1))
            (byte_step2 (byte_step1 b2)) (byte_step2 (byte_step1 b3)))
    by (unfold word, byte_step2; lia).
  rewrite land_word, land_shiftr_word by (simpl; lia).
  replace (word _ _ _ _ + word _ _ _ _)
    with (word (byte_step3 (byte_step2 (byte_step1 b0)))
            (byte_step3 (byte_step2 (byte_step1 b1)))
            (byte_step3 (byte_step2 (byte_step1 b2)))
            (byte_step3 (byte_step2 (byte_step1 b3))))
    by (unfold word, byte_step3; lia).
  repeat match goal with
         | H : byte_step3 _ = _ |- _ => rewrite H; clear H
         end.
  pose proof (bits_count_nonneg 8 b0). pose proof (bits_count_nonneg 8 b1).
  pose proof (bits_count_nonneg 8 b2). pose proof (bits_count_nonneg 8 b3).
  generalize dependent (bits_count 8 b0). generalize dependent (bits_count 8 b1).
  generalize dependent (bits_count 8 b2). generalize dependent (bits_count 8 b3).
  intros c3 ? ? c2 ? ? c1 ? ? c0 ? ?.
  unfold word. rewrite !Z.shiftr_div_pow2 by lia.
  change 0x3F with (Z.ones 6). rewrite Z.land_ones by lia.
  change (2 ^ 8) with 256. change (2 ^ 16) with 65536. change (2 ^ 6) with 64.
  Z.div_mod_to_equations. lia.
Qed.

Theorem set_bitcount_spec v :
  0 ≤ v < 2 ^ 32 → set_bitcount v = bits_count 32 v.
Proof.
  intros Hv. change (2 ^ 32) with 4294967296 in Hv.
  set (b0 := v mod 256). set (b1 := (v / 256) mod 256).
  set (b2 := (v / 65536) mod 256). set (b3 := v / 16777216).
  assert (v = word b0 b1 b2 b3) as Hw.
  { unfold word, b0, b1, b2, b3. Z.div_mod_to_equations. lia. }
  assert (0 ≤ b0 < 256 ∧ 0 ≤ b1 < 256 ∧ 0 ≤ b2 < 256 ∧ 0 ≤ b3 < 256)
    as (?&?&?&?).
  { unfold b0, b1, b2, b3. Z.div_mod_to_equations. lia. }
  rewrite Hw at 1. rewrite set_bitcount_word by done.
  change 32%nat with (8 + (8 + (8 + 8)))%nat.
  rewrite !bits_count_app. change (2 ^ Z.of_nat 8) with 256.
  rewrite !Z.div_div by lia.
  rewrite <- (bits_count_mod 8 v), <- (bits_count_mod 8 (v / 256)),
    <- (bits_count_mod 8 (v / (256 * 256))). 
  change (2 ^ Z.of_nat 8) with 256. change (256 * 256) with 65536.
  change (65536 * 256) with 16777216. fold b0 b1 b2 b3. lia.
Qed.
Lemma set_mask_range hash shift : 0 ≤ set_mask hash shift < 32.
Proof.
  unfold set_mask. change 0x01f with (Z.ones 5).
  rewrite Z.land_ones by lia. apply Z.mod_pos_bound. lia.
Qed.

Lemma set_bitpos_pow2 hash shift :
  set_bitpos hash shift = 2 ^ set_mask hash shift.
Proof.
  unfold set_bitpos. rewrite Z.shiftl_mul_pow2; [lia|].
  pose proof (set_mask_range hash shift). lia.
Qed.

Lemma set_bitpos_range hash shift : 0 < set_bitpos hash shift < 2 ^ 32.
Proof.
  rewrite set_bitpos_pow2. pose proof (set_mask_range hash shift).
  split; [apply Z.pow_pos_nonneg; lia|].
  apply Z.pow_lt_mono_r; lia.
Qed.

Lemma set_bitcount_nonneg v : 0 ≤ set_bitcount v.
Proof. unfold set_bitcount. apply Z.land_nonneg. right. lia. Qed.

Lemma set_bitindex_nonneg bitmap bit : 0 ≤ set_bitindex bitmap bit.
Proof. apply set_bitcount_nonneg. Qed.

Lemma set_bitindex_le bitmap bit :
  0 ≤ bitmap < 2 ^ 32 → set_bitindex bitmap bit ≤ set_bitcount bitmap.
Proof.
  intros Hb. unfold set_bitindex.
  rewrite !set_bitcount_spec; [apply bits_count_land_le|done|].
  rewrite Z.land_comm. apply land_pow2_bound; lia.
Qed.

Lemma lor_bitpos_range bitmap hash shift :
  0 ≤ bitmap < 2 ^ 32 → 0 ≤ Z.lor bitmap (set_bitpos hash shift) < 2 ^ 32.
Proof.
  intros Hb. pose proof (set_bitpos_range hash shift) as Hp.
  split; [apply Z.lor_nonneg; lia|].
  rewrite <- (Z.mod_small bitmap (2 ^ 32)), <- (Z.mod_small (set_bitpos _ _) (2 ^ 32)) by lia.
  rewrite <- !Z.land_ones, <- Z.land_lor_distr_l, Z.land_ones by lia.
  apply Z.mod_pos_bound. lia.
Qed.

Lemma land_lnot_range bitmap bit :
  0 ≤ bitmap < 2 ^ 32 → 0 ≤ Z.land bitmap (Z.lnot bit) < 2 ^ 32.
Proof. intros. rewrite Z.land_comm. apply land_pow2_bound; lia. Qed.

Lemma land_lor_bitpos bitmap hash shift :
  truthy (Z.land (Z.lor bitmap (set_bitpos hash shift)) (set_bitpos hash shift))
  = true.
Proof.
  pose proof (set_bitpos_range hash shift) as Hp.
  replace (Z.land _ _) with (set_bitpos hash shift).
  { unfold truthy. apply negb_true_iff, Z.eqb_neq. lia. }
  Z.bitblast.
Qed.

Lemma set_bitindex_lor bitmap hash shift :
  set_bitindex (Z.lor bitmap (set_bitpos hash shift)) (set_bitpos hash shift)
  = set_bitindex bitmap (set_bitpos hash shift).
Proof.
  unfold set_bitindex. f_equal. rewrite set_bitpos_pow2.
  pose proof (set_mask_range hash shift).
  rewrite Z.sub_1_r, <- Z.ones_equiv.
  bitblast_neg.
  replace (set_mask hash shift =? i) with false by (symmetry; apply Z.eqb_neq; lia).
  btauto.
Qed.

Lemma set_bitindex_self hash shift :
  set_bitindex (set_bitpos hash shift) (set_bitpos hash shift) = 0.
Proof.
  rewrite <- (Z.lor_0_l (set_bitpos hash shift)) at 1.
  by rewrite set_bitindex_lor.
Qed.
(** ** Rules of the weakest precondition *)

Section WpRules.
Context {K S : Type}.
Implicit Types (E : exn K → S → Prop).

Lemma wp_ret {A} (a : A) s (Q : A → S → Prop) E :
  Q a s → wp (ret a) s Q E.
Proof. done. Qed.

Lemma wp_raise {A} e s (Q : A → S → Prop) E :
  E e s → wp (raise e) s Q E.
Proof. done. Qed.

Lemma wp_out_of_fuel {A} s (Q : A → S → Prop) E :
  wp out_of_fuel s Q E.
Proof. done. Qed.

Lemma wp_bind {A B} (m : M K S A) (f : A → M K S B) s (Q : B → S → Prop) E :
  wp m s (λ a s', wp (f a) s' Q E) E → wp (bind m f) s Q E.
Proof. unfold wp, bind. by destruct (m s). Qed.

Lemma wp_mono {A} (m : M K S A) s (Q Q' : A → S → Prop) E E' :
  wp m s Q E →
  (∀ a s', Q a s' → Q' a s') → (∀ e s', E e s' → E' e s') →
  wp m s Q' E'.
Proof. unfold wp. destruct (m s); auto. Qed.

Lemma wp_read {A} (f : S → res K A) s (Q : A → S → Prop) E :
  (∀ a, f s = Val a → Q a s) → (∀ e, f s = Exn e → E e s) →
  wp (read f) s Q E.
Proof.
  intros HQ HE. unfold wp, read.
  destruct (f s) eqn:Hf; [apply HQ|apply HE|]; done.
Qed.

Lemma wp_from_option {A} e (o : option A) s (Q : A → S → Prop) E :
  (∀ a, o = Some a → Q a s) → (o = None → E e s) →
  wp (from_option e o) s Q E.
Proof. intros HQ HE. destruct o; [apply HQ|apply HE]; done. Qed.

End WpRules.

Section NodeRules.
Context {K : Type} `{Hashable K}.
Implicit Types (h : list (node K)) (E : exn K → list (node K) → Prop).

Lemma wp_load l h (Q : node K → list (node K) → Prop) E :
  (∀ n, h !! l = Some n → Q n h) → (h !! l = None → E InvalidReference h) →
  wp (load l) h Q E.
Proof.
  intros HQ HE. unfold wp, load.
  destruct (h !! l) eqn:Hl; [apply HQ|apply HE]; done.
Qed.

Lemma wp_alloc n h (Q : loc → list (node K) → Prop) E :
  Q (length h) (h ++ [n]) → wp (alloc n) h Q E.
Proof. done. Qed.

Lemma wp_store l n h (Q : unit → list (node K) → Prop) E :
  Q tt (<[l := n]> h) → wp (store l n) h Q E.
Proof. done. Qed.

Lemma wp_BitmapNode_new size bitmap array mutid h
    (Q : loc → list (node K) → Prop) E :
  (Z.of_nat (length array) = size →
   Q (length h) (h ++ [BitmapNode size bitmap array mutid])) →
  (Z.of_nat (length array) ≠ size → E AssertionError h) →
  wp (BitmapNode_new size bitmap array mutid) h Q E.
Proof.
  intros HQ HE. unfold BitmapNode_new.
  destruct (Z.eqb_spec (Z.of_nat (length array)) size); [apply HQ|apply HE]; done.
Qed.

(** *** The frame relation *)

Lemma owned_zero m : owned 0 m = false.
Proof. done. Qed.

Lemma frame_refl mutid h : frame mutid h h.
Proof.
  split_and!; [done| |].
  - intros l n Hl. eauto.
  - intros l n Hlen Hl. apply lookup_lt_Some in Hl. lia.
Qed.

Lemma frame_trans mutid h0 h1 h2 :
  frame mutid h0 h1 → frame mutid h1 h2 → frame mutid h0 h2.
Proof.
  intros (Hlen1 & Hold1 & Hnew1) (Hlen2 & Hold2 & Hnew2).
  split_and!; [lia| |].
  - intros l n0 Hl.
    destruct (Hold1 l n0 Hl) as (n1 & Hl1 & Hm1 & Hu1).
    destruct (Hold2 l n1 Hl1) as (n2 & Hl2 & Hm2 & Hu2).
    exists n2. split_and!; [done|congruence|].
    intros Hu. rewrite Hu2, Hu1; [done..|]. by rewrite Hu1.
  - intros l n Hlen Hl.
    destruct (decide (l < length h1)%nat) as [Hlt|Hge].
    + apply lookup_lt_is_Some in Hlt as [n1 Hl1].
      destruct (Hold2 l n1 Hl1) as (n2 & Hl2 & Hm2 & _).
      assert (n2 = n) as -> by congruence.
      rewrite Hm2. eauto.
    + apply (Hnew2 l); [lia|done].
Qed.

Lemma frame_alloc mutid h n :
  node_mutid n = mutid → frame mutid h (h ++ [n]).
Proof.
  intros Hm. split_and!.
  - rewrite length_app. lia.
  - intros l n0 Hl. exists n0. split_and!; [|done..].
    by apply lookup_app_l_Some.
  - intros l n' Hlen Hl.
    rewrite lookup_app_r in Hl by done.
    apply list_lookup_singleton_Some in Hl as [_ <-]. done.
Qed.

Lemma frame_store mutid h l n n' :
  h !! l = Some n → node_mutid n' = node_mutid n →
  owned mutid (node_mutid n) = true →
  frame mutid h (<[l := n']> h).
Proof.
  intros Hl Hm Ho. split_and!.
  - by rewrite length_insert.
  - intros l0 n0 Hl0. destruct (decide (l0 = l)) as [->|Hne].
    + exists n'. rewrite list_lookup_insert_eq by (by eapply lookup_lt_Some).
      assert (n0 = n) as -> by congruence.
      split_and!; [done..|]. congruence.
    + exists n0. by rewrite list_lookup_insert_ne.
  - intros l0 n0 Hlen Hl0.
    apply lookup_lt_Some in Hl0. rewrite length_insert in Hl0. lia.
Qed.

Lemma frame_zero_preserved h0 h : frame 0 h0 h → preserved h0 h.
Proof.
  intros (_ & Hold & _) l n Hl.
  destruct (Hold l n Hl) as (n' & Hl' & _ & Hu). by rewrite <- Hu.
Qed.

Lemma frame_length mutid h0 h : frame mutid h0 h → (length h0 ≤ length h)%nat.
Proof. by intros (? & _). Qed.

Lemma preserved_refl h : preserved h h.
Proof. by intros l n. Qed.

Lemma preserved_trans h0 h1 h2 :
  preserved h0 h1 → preserved h1 h2 → preserved h0 h2.
Proof. intros H1 H2 l n Hl. eauto. Qed.

Lemma preserved_app h h' : preserved h (h ++ h').
Proof. intros l n Hl. by apply lookup_app_l_Some. Qed.

(** *** The store invariant *)

Lemma heap_ok_app h n : heap_ok h → node_ok n → heap_ok (h ++ [n]).
Proof.
  intros Hh Hn l n' Hl. apply lookup_app_Some in Hl as [Hl|[_ Hl]]; [eauto|].
  apply list_lookup_singleton_Some in Hl as [_ <-]. done.
Qed.

Lemma heap_ok_insert h l n : heap_ok h → node_ok n → heap_ok (<[l := n]> h).
Proof.
  intros Hh Hn l' n' Hl. apply list_lookup_insert_Some in Hl.
  destruct Hl as [(-> & -> & _)|[_ Hl]]; eauto.
Qed.

Lemma evolves_refl mutid h : evolves mutid h h.
Proof. split; [apply frame_refl|done]. Qed.

Lemma evolves_trans mutid h0 h1 h2 :
  evolves mutid h0 h1 → evolves mutid h1 h2 → evolves mutid h0 h2.
Proof. intros [? ?] [? ?]. split; [by eapply frame_trans|auto]. Qed.

Lemma evolves_alloc mutid h n :
  node_mutid n = mutid → (heap_ok h → node_ok n) → evolves mutid h (h ++ [n]).
Proof.
  intros Hm Hn. split; [by apply frame_alloc|].
  intros Hh. apply heap_ok_app; auto.
Qed.

Lemma evolves_store mutid h l n n' :
  h !! l = Some n → node_mutid n' = node_mutid n →
  owned mutid (node_mutid n) = true →
  (heap_ok h → node_ok n') →
  evolves mutid h (<[l := n']> h).
Proof.
  intros Hl Hm Ho Hn. split; [by eapply frame_store|].
  intros Hh. apply heap_ok_insert; auto.
Qed.

End NodeRules.
(** ** Every node operation evolves the store *)

Ltac wp_step :=
  lazymatch goal with
  | |- wp (bind _ _) _ _ _ => apply wp_bind
  | |- wp (ret _) _ _ _ => apply wp_ret
  | |- wp (raise _) _ _ _ => apply wp_raise
  | |- wp out_of_fuel _ _ _ => apply wp_out_of_fuel
  | |- wp (load _) _ _ _ => apply wp_load; [intros ? ?|intros ?]
  | |- wp (alloc _) _ _ _ => apply wp_alloc
  | |- wp (store _ _) _ _ _ => apply wp_store
  | |- wp (read _) _ _ _ => apply wp_read; [intros ? ?|intros ? ?]
  | |- wp (from_option _ _) _ _ _ => apply wp_from_option; [intros ? ?|intros ?]
  | |- wp (BitmapNode_new _ _ _ _) _ _ _ =>
      apply wp_BitmapNode_new; [intros ?|intros ?]
  | |- wp (CollisionNode_new _ _ _ _) _ _ _ => apply wp_alloc
  | |- wp (if ?b then _ else _) _ _ _ => destruct b eqn:?
  | |- wp (match ?x with _ => _ end) _ _ _ => destruct x eqn:?
  end.

Section Evolves.
Context {K : Type} `{Hashable K}.
Implicit Types (h : list (node K)) (n : node K).

Lemma insert_app_last h n n' : <[length h := n']> (h ++ [n]) = h ++ [n'].
Proof.
  rewrite insert_app_r_alt by done. by rewrite Nat.sub_diag.
Qed.

Lemma lookup_app_last h n : (h ++ [n]) !! length h = Some n.
Proof. by rewrite list_lookup_middle. Qed.

Lemma lookup_app_last_Some h n n' :
  (h ++ [n]) !! length h = Some n' → n' = n.
Proof. rewrite lookup_app_last. congruence. Qed.

Lemma lookup_app_last_None h n : (h ++ [n]) !! length h = None → False.
Proof. by rewrite lookup_app_last. Qed.

End Evolves.

(** Normalise facts about the node just allocated. *)
Ltac heap_norm :=
  repeat match goal with
         | H : (?h ++ [_]) !! length ?h = None |- _ =>
             destruct (lookup_app_last_None _ _ H)
         | H : (?h ++ [_]) !! length ?h = Some _ |- _ =>
             apply lookup_app_last_Some in H
         | H1 : ?h !! ?l = Some _, H2 : ?h !! ?l = Some _ |- _ =>
             rewrite H1 in H2
         | H1 : ?h !! ?l = Some _, H2 : ?h !! ?l = None |- _ =>
             rewrite H1 in H2
         end;
  simplify_eq;
  rewrite ?insert_app_last.

(** Use the store invariant at a node that was loaded. *)
Ltac use_heap_ok :=
  match goal with
  | Hh : heap_ok ?h, Hl : ?h !! _ = Some _ |- _ =>
      let Hn := fresh "Hn" in
      pose proof (Hh _ _ Hl) as Hn; simpl in Hn; simpl; first [exact Hn | lia]
  end.

Section Evolves2.
Context {K : Type} `{Hashable K}.
Implicit Types (h : list (node K)) (n : node K).

Lemma with_slot_evolves mutid h0 h self idx x :
  evolves mutid h0 h →
  wp (BitmapNode_with_slot self mutid idx x) h
    (λ _ h', evolves mutid h0 h') (λ _ h', evolves mutid h0 h').
Proof.
  intros Hev. unfold BitmapNode_with_slot, BitmapNode_clone, BitmapNode_setitem.
  repeat wp_step; heap_norm; try done.
  - (* in place *)
    eapply evolves_trans; [done|].
    eapply evolves_store; [done..|].
    intros Hh. use_heap_ok.
  - (* a copy, then the slot *)
    eapply evolves_trans; [done|]. apply evolves_alloc; [done|].
    intros Hh. use_heap_ok.
  - (* a copy, then IndexError *)
    eapply evolves_trans; [done|]. apply evolves_alloc; [done|].
    intros Hh. use_heap_ok.
Qed.
End Evolves2.

(** Close a goal [node_ok n] for a node built by the code. *)
Ltac node_ok_solve :=
  simpl;
  first
    [ lia
    | apply lor_bitpos_range; use_heap_ok
    | apply land_lnot_range; use_heap_ok
    | match goal with
      | |- 0 ≤ set_bitpos ?a ?b < _ =>
          pose proof (set_bitpos_range a b); lia
      end
    | rewrite length_app; simpl; use_heap_ok
    | use_heap_ok ].

(** Close a goal [evolves mutid h0 h] after one allocation or one store. *)
Ltac ev_close :=
  cbv beta in *;
  first
    [ eassumption
    | eapply evolves_trans; [eassumption|];
      first
        [ apply evolves_alloc; [reflexivity|intros ?; node_ok_solve]
        | eapply evolves_store;
          [eassumption|reflexivity|eassumption|intros ?; node_ok_solve] ] ].

Section Primitives.
Context {K : Type} `{Hashable K}.

(** *** List primitives at non-negative indices *)

Lemma list_getitem_nonneg {A} (l : list A) i :
  0 ≤ i → list_getitem l i = l !! Z.to_nat i.
Proof. intros. unfold list_getitem. by rewrite (proj2 (Z.ltb_ge i 0)). Qed.

Lemma list_getitem_lt {A} (l : list A) i x :
  0 ≤ i → list_getitem l i = Some x → i < Z.of_nat (length l).
Proof.
  intros Hi. rewrite list_getitem_nonneg by done.
  intros Hl%lookup_lt_Some. lia.
Qed.

Lemma slice_to_nonneg {A} (l : list A) i :
  0 ≤ i → slice_to l i = take (Z.to_nat i) l.
Proof. intros. unfold slice_to. by rewrite (proj2 (Z.ltb_ge i 0)). Qed.

Lemma slice_from_nonneg {A} (l : list A) i :
  0 ≤ i → slice_from l i = drop (Z.to_nat i) l.
Proof. intros. unfold slice_from. by rewrite (proj2 (Z.ltb_ge i 0)). Qed.

Lemma list_setitem_Some {A} (l l' : list A) i x :
  0 ≤ i → list_setitem l i x = Some l' →
  i < Z.of_nat (length l) ∧ l' = <[Z.to_nat i := x]> l.
Proof.
  intros Hi. unfold list_setitem. rewrite (proj2 (Z.ltb_ge i 0)) by done.
  destruct (Z.ltb_spec i (Z.of_nat (length l))); naive_solver.
Qed.

Lemma list_setitem_is_Some {A} (l : list A) i x y :
  0 ≤ i → list_getitem l i = Some y →
  list_setitem l i x = Some (<[Z.to_nat i := x]> l).
Proof.
  intros Hi Hg. pose proof (list_getitem_lt _ _ _ Hi Hg).
  unfold list_setitem. rewrite (proj2 (Z.ltb_ge i 0)) by done.
  by rewrite (proj2 (Z.ltb_lt _ _)).
Qed.

Lemma list_getitem_insert {A} (l : list A) i x :
  0 ≤ i < Z.of_nat (length l) →
  list_getitem (<[Z.to_nat i := x]> l) i = Some x.
Proof.
  intros Hi. rewrite list_getitem_nonneg by lia.
  apply list_lookup_insert_eq. lia.
Qed.

Lemma length_slice_delete {A} (l : list A) i :
  0 ≤ i < Z.of_nat (length l) →
  Z.of_nat (length (slice_to l i ++ slice_from l (i + 1)))
  = Z.of_nat (length l) - 1.
Proof.
  intros Hi. rewrite slice_to_nonneg, slice_from_nonneg by lia.
  rewrite length_app, length_take, length_drop. lia.
Qed.

Lemma length_slice_insert {A} (l : list A) i x :
  0 ≤ i →
  Z.of_nat (length (slice_to l i ++ [x] ++ slice_from l i))
  = Z.of_nat (length l) + 1.
Proof.
  intros Hi. rewrite slice_to_nonneg, slice_from_nonneg by lia.
  rewrite !length_app, length_take, length_drop. simpl. lia.
Qed.

(** *** The search loops of the collision node *)

Lemma find_index_loop_spec (array : list K) key i (n : nat) a :
  0 ≤ i → find_index_loop array key i n = Val a →
  (a = -1
   ∧ ∀ j, i ≤ j < i + Z.of_nat n →
       ∃ k, array !! Z.to_nat j = Some k ∧ k ≠ key)
  ∨ (i ≤ a < i + Z.of_nat n
     ∧ array !! Z.to_nat a = Some key
     ∧ ∀ j, i ≤ j < a → ∃ k, array !! Z.to_nat j = Some k ∧ k ≠ key).
Proof.
  revert i. induction n as [|n IH]; intros i Hi; simpl.
  - intros [= <-]. left. split; [done|]. intros; lia.
  - rewrite list_getitem_nonneg by done.
    destruct (array !! Z.to_nat i) as [k|] eqn:Hk; [|done].
    destruct (decide (k = key)) as [->|Hne].
    + intros [= <-]. right. split_and!; [lia|lia|done|]. intros; lia.
    + intros Hrec. apply IH in Hrec; [|lia].
      destruct Hrec as [[-> Hall]|(Hr & Ha & Hall)].
      * left. split; [done|]. intros j Hj.
        destruct (decide (j = i)) as [->|]; [eauto|]. apply Hall. lia.
      * right. split_and!; [lia|lia|done|]. intros j Hj.
        destruct (decide (j = i)) as [->|]; [eauto|]. apply Hall. lia.
Qed.

Lemma find_index_found size (array : list K) key a :
  CollisionNode_find_index size array key = Val a → a ≠ -1 →
  0 ≤ a < Z.of_nat (length array) ∧ a < size
  ∧ array !! Z.to_nat a = Some key.
Proof.
  intros Hf Ha. apply find_index_loop_spec in Hf; [|done].
  destruct Hf as [[-> _]|(Hr & Hl & _)]; [done|].
  pose proof (lookup_lt_Some _ _ _ Hl). split_and!; [lia..|done].
Qed.

End Primitives.

Section Evolves3.
Context {K : Type} `{Hashable K}.
Implicit Types (h : list (node K)) (n : node K).

Lemma node_add_evolves fuel : ∀ self shift hash key mutid h0 h,
  evolves mutid h0 h →
  wp (node_add fuel self shift hash key mutid) h
    (λ _ h', evolves mutid h0 h') (λ _ h', evolves mutid h0 h').
Proof.
  induction fuel as [|fuel IH]; intros self shift hash key mutid h0 h Hev;
    simpl; [done|].
  unfold BitmapNode_add, CollisionNode_add.
  repeat (first
    [ wp_step
    | eapply wp_mono;
      [apply (IH _ _ _ _ _ h0)|intros [??] ??|intros ???]
    | eapply wp_mono;
      [apply (with_slot_evolves _ h0)|intros ???|intros ???] ];
    heap_norm);
  try done; try ev_close.
Qed.

Lemma node_without_evolves fuel : ∀ self shift hash key mutid h0 h,
  evolves mutid h0 h →
  wp (node_without fuel self shift hash key mutid) h
    (λ _ h', evolves mutid h0 h') (λ _ h', evolves mutid h0 h').
Proof.
  induction fuel as [|fuel IH]; intros self shift hash key mutid h0 h Hev;
    simpl; [done|].
  unfold BitmapNode_without, CollisionNode_without.
  repeat (first
    [ wp_step
    | eapply wp_mono;
      [apply (IH _ _ _ _ _ h0)|intros ???|intros ???]
    | eapply wp_mono;
      [apply (with_slot_evolves _ h0)|intros ???|intros ???] ];
    heap_norm);
  try done; try ev_close.
  all: match goal with
       | Hf : CollisionNode_find_index _ _ _ = Val ?a,
         Hne : (?a =? -1) = false |- _ =>
           apply Z.eqb_neq in Hne;
           destruct (find_index_found _ _ _ _ Hf Hne) as (? & ? & ?)
       end.
  all: eapply evolves_trans; [eassumption|].
  - eapply evolves_store; [eassumption|reflexivity|eassumption|].
    intros Hh. simpl. rewrite length_slice_delete by lia. use_heap_ok.
  - apply evolves_alloc; [reflexivity|].
    intros Hh. simpl. rewrite length_slice_delete by lia. use_heap_ok.
Qed.

Lemma update_loop_evolves fuel it : ∀ root count mutid h0 h,
  evolves mutid h0 h →
  wp (update_loop fuel it root count mutid) h
    (λ _ h', evolves mutid h0 h') (λ _ h', evolves mutid h0 h').
Proof.
  induction it as [|element it IH]; intros root count mutid h0 h Hev; simpl.
  - by apply wp_ret.
  - apply wp_bind. eapply wp_mono; [by apply node_add_evolves| |done].
    intros [root' added] h' Hev'. by apply IH.
Qed.

End Evolves3.
(** ** Compaction on delete *)

Section MoreWp.
Context {K S : Type}.

Lemma wp_and {A} (m : M K S A) s (Q1 Q2 : A → S → Prop)
    (E1 E2 : exn K → S → Prop) :
  wp m s Q1 E1 → wp m s Q2 E2 →
  wp m s (λ a s', Q1 a s' ∧ Q2 a s') (λ e s', E1 e s' ∧ E2 e s').
Proof. unfold wp. by destruct (m s). Qed.

Lemma wp_Ok {A} (m : M K S A) s (Q : A → S → Prop) E a s' :
  wp m s Q E → m s = Ok a s' → Q a s'.
Proof. unfold wp. intros Hwp Hm. by rewrite Hm in Hwp. Qed.

Lemma wp_Raise {A} (m : M K S A) s (Q : A → S → Prop) E e s' :
  wp m s Q E → m s = Raise e s' → E e s'.
Proof. unfold wp. intros Hwp Hm. by rewrite Hm in Hwp. Qed.

End MoreWp.

(** Range goals about a compact index. *)
Ltac idx_range :=
  repeat match goal with
         | |- context [set_bitindex ?b ?p] =>
             lazymatch goal with
             | _ : 0 ≤ set_bitindex b p |- _ => fail
             | _ => pose proof (set_bitindex_nonneg b p)
             end
         | _ : context [set_bitindex ?b ?p] |- _ =>
             lazymatch goal with
             | _ : 0 ≤ set_bitindex b p |- _ => fail
             | _ => pose proof (set_bitindex_nonneg b p)
             end
         end;
  lia.

Section Compaction.
Context {K : Type} `{Hashable K}.
Implicit Types (h : list (node K)).

Lemma node_add_frame fuel self shift hash key mutid h :
  wp (node_add fuel self shift hash key mutid) h
    (λ _ h', evolves mutid h h') (λ _ h', evolves mutid h h').
Proof. apply node_add_evolves, evolves_refl. Qed.

Lemma node_without_frame fuel self shift hash key mutid h :
  wp (node_without fuel self shift hash key mutid) h
    (λ _ h', evolves mutid h h') (λ _ h', evolves mutid h h').
Proof. apply node_without_evolves, evolves_refl. Qed.

Lemma evolves_zero_preserved h0 h : evolves 0 h0 h → preserved h0 h.
Proof. intros [Hf _]. by apply frame_zero_preserved. Qed.

(** The copy-on-write step of a persistent edit. *)
Lemma with_slot_persistent self idx x h :
  0 ≤ idx →
  wp (BitmapNode_with_slot self 0 idx x) h
    (λ r h', ∃ size bitmap array mutid,
       h !! self = Some (BitmapNode size bitmap array mutid)
       ∧ Z.of_nat (length array) = size
       ∧ idx < size
       ∧ r = length h
       ∧ h' = h ++ [BitmapNode size bitmap (<[Z.to_nat idx := x]> array) 0])
    (λ _ h', True).
Proof.
  intros Hidx.
  unfold BitmapNode_with_slot, BitmapNode_clone, BitmapNode_setitem.
  repeat wp_step; heap_norm; try done.
  match goal with
  | Hs : list_setitem _ _ _ = Some _ |- _ =>
      apply list_setitem_Some in Hs as [? ->]; [|done]
  end.
  eauto 10.
Qed.

Lemma path_compact_preserved d : ∀ h h' l shift hash,
  preserved h h' → path_compact d h l shift hash →
  path_compact d h' l shift hash.
Proof.
  induction d as [|d IH]; intros h h' l shift hash Hp; simpl; [done|].
  destruct (h !! l) as [n|] eqn:Hl; [|done].
  rewrite (Hp _ _ Hl). destruct n as [size bitmap array m|]; [|done].
  destruct (truthy _); [|done].
  destruct (list_getitem _ _) as [[k|c]|]; try done.
  intros [(n & Hc & Hw) Hpath]. split; [eauto|]. by eapply IH.
Qed.

Lemma land_lnot_bit bitmap bit : Z.land (Z.land bitmap (Z.lnot bit)) bit = 0.
Proof. Z.bitblast. Qed.

Lemma node_without_compact fuel : ∀ self shift hash key h,
  wp (node_without fuel self shift hash key 0) h
    (λ res h',
       match res with
       | W_NEWNODE r => ∀ d, path_compact d h' r shift hash
       | _ => True
       end)
    (λ _ _, True).
Proof.
  induction fuel as [|fuel IH]; intros self shift hash key h; simpl; [done|].
  unfold BitmapNode_without, CollisionNode_without.
  repeat (first
    [ wp_step
    | eapply wp_mono;
      [apply wp_and; [apply IH|apply node_without_frame]
      |intros ? ? [? ?%evolves_zero_preserved]|intros ???]
    | eapply wp_mono;
      [apply with_slot_persistent, set_bitindex_nonneg
      |intros ? ? (?&?&?&?&?&?&?&?&?)|intros ???] ];
    heap_norm);
  try done.
  all: repeat match goal with
         | Hp : preserved ?h ?h', Hl : ?h !! _ = Some _ |- _ => apply Hp in Hl
         end; heap_norm.
  all: repeat match goal with
         | Hb : negb _ = false |- _ => apply negb_false_iff in Hb
         end.
  all: intros [|d]; [done|]; simpl; rewrite lookup_app_last.
  - (* an element removed from this node *)
    by rewrite land_lnot_bit.
  - (* the leaf of the child, inlined *)
    match goal with Hb : truthy _ = true |- _ => rewrite Hb end.
    rewrite list_getitem_insert by idx_range. done.
  - (* a size-1 child that holds a node *)
    match goal with Hb : truthy _ = true |- _ => rewrite Hb end.
    rewrite list_getitem_insert by idx_range.
    split.
    + eexists. split; [by apply lookup_app_l_Some|]. simpl.
      match goal with Hg : list_getitem _ 0 = _ |- _ => rewrite Hg end.
      apply andb_false_r.
    + eapply path_compact_preserved; [apply preserved_app|done].
  - (* a larger bitmap child *)
    match goal with Hb : truthy _ = true |- _ => rewrite Hb end.
    rewrite list_getitem_insert by idx_range.
    split.
    + eexists. split; [by apply lookup_app_l_Some|]. simpl.
      match goal with Hg : (_ =? 1) = false |- _ => by rewrite Hg end.
    + eapply path_compact_preserved; [apply preserved_app|done].
  - (* a collision child *)
    match goal with Hb : truthy _ = true |- _ => rewrite Hb end.
    rewrite list_getitem_insert by idx_range.
    split.
    + eexists. split; [by apply lookup_app_l_Some|]. done.
    + eapply path_compact_preserved; [apply preserved_app|done].
  - rewrite set_bitindex_self. by destruct (truthy _).
  - rewrite set_bitindex_self. by destruct (truthy _).
  - done.
Qed.

End Compaction.
(** ** Persistent operations leave every existing node as it is *)

Section WorldRules.
Context {K : Type} `{Hashable K}.
Implicit Types (w : world K) (E : exn K → world K → Prop).

Lemma wp_load_set s w (Q : set_obj → world K → Prop) E :
  (∀ so, sets w !! s = Some so → Q so w) →
  (sets w !! s = None → E InvalidReference w) →
  wp (load_set s) w Q E.
Proof.
  intros HQ HE. unfold wp, load_set.
  destruct (sets w !! s) eqn:Hs; [apply HQ|apply HE]; done.
Qed.

Lemma wp_load_mut m w (Q : mut_obj → world K → Prop) E :
  (∀ mo, muts w !! m = Some mo → Q mo w) →
  (muts w !! m = None → E InvalidReference w) →
  wp (load_mut m) w Q E.
Proof.
  intros HQ HE. unfold wp, load_mut.
  destruct (muts w !! m) eqn:Hm; [apply HQ|apply HE]; done.
Qed.

Lemma wp_on_nodes {A} (m : M K (list (node K)) A) w
    (Q : A → world K → Prop) E :
  wp m (nodes w) (λ a h', Q a (with_nodes w h'))
    (λ e h', E e (with_nodes w h')) →
  wp (on_nodes m) w Q E.
Proof. unfold wp, on_nodes. by destruct (m (nodes w)). Qed.

(** *** Tags under [frame] *)

Lemma frame_tags mutid c (h0 h : list (node K)) :
  frame mutid h0 h → mutid < c →
  (∀ l n, h0 !! l = Some n → node_mutid n < c) →
  ∀ l n, h !! l = Some n → node_mutid n < c.
Proof.
  intros (Hlen & Hold & Hnew) Hm Htags l n Hl.
  destruct (decide (l < length h0)%nat) as [Hlt|Hge].
  - apply lookup_lt_is_Some in Hlt as [n0 Hl0].
    destruct (Hold l n0 Hl0) as (n' & Hl' & Hm' & _).
    assert (n' = n) as -> by congruence. rewrite Hm'. eauto.
  - rewrite (Hnew l n); [done|lia|done].
Qed.

Lemma frame_fresh_preserved mutid (h0 h : list (node K)) :
  frame mutid h0 h →
  (∀ l n, h0 !! l = Some n → node_mutid n ≠ mutid) →
  preserved h0 h.
Proof.
  intros (_ & Hold & _) Hfresh l n Hl.
  destruct (Hold l n Hl) as (n' & Hl' & _ & Hu).
  rewrite Hl'. f_equal. apply Hu. unfold owned.
  apply andb_false_iff. right. apply Z.eqb_neq.
  intros Heq. by apply (Hfresh l n).
Qed.

(** *** [world_step] *)

Lemma world_step_refl w : world_step w w.
Proof. intros Hok. split_and!; [done|apply preserved_refl|eauto|done]. Qed.

Lemma world_step_trans w0 w1 w2 :
  world_step w0 w1 → world_step w1 w2 → world_step w0 w2.
Proof.
  intros H1 H2 Hok.
  destruct (H1 Hok) as (Hok1 & Hp1 & Hs1 & Hm1).
  destruct (H2 Hok1) as (Hok2 & Hp2 & Hs2 & Hm2).
  split_and!; [done|by eapply preserved_trans| |by eauto].
  intros s so Hs. destruct (Hs1 s so Hs) as (so1 & Hso1 & Hc1 & Hr1).
  destruct (Hs2 s so1 Hso1) as (so2 & Hso2 & Hc2 & Hr2).
  exists so2. split_and!; congruence.
Qed.

(** A persistent edit of the node store. *)
Lemma world_step_nodes w h' :
  evolves 0 (nodes w) h' → world_step w (with_nodes w h').
Proof.
  intros [Hf Hh] (Hok & Hc & Hn & Hm).
  split_and!; simpl; [|by apply frame_zero_preserved|eauto|done].
  split_and!; simpl; [by apply Hh|done| |done].
  by eapply frame_tags.
Qed.

(** An edit of the node store under a tag fresh from the counter. *)
Lemma world_step_fresh_nodes w h' :
  evolves (mut_id_counter w) (nodes w) h' →
  world_step w
    (World h' (sets w) (muts w) (mut_id_counter w + 1)).
Proof.
  intros [Hf Hh] (Hok & Hc & Hn & Hm).
  split_and!; simpl; [| |eauto|done].
  - split_and!; simpl; [by apply Hh|lia| |].
    + eapply frame_tags; [done|lia|]. intros l n Hl.
      specialize (Hn l n Hl). lia.
    + intros l m Hl. specialize (Hm l m Hl). lia.
  - eapply frame_fresh_preserved; [done|].
    intros l n Hl. specialize (Hn l n Hl). lia.
Qed.

Lemma world_step_new_set w so :
  world_step w (World (nodes w) (sets w ++ [so]) (muts w) (mut_id_counter w)).
Proof.
  intros Hok. split_and!; simpl; [done|apply preserved_refl| |done].
  intros s so' Hs. exists so'. split_and!; [|done..].
  by apply lookup_app_l_Some.
Qed.

Lemma world_step_memo w s so hv :
  sets w !! s = Some so →
  world_step w
    (World (nodes w) (<[s := SetObj (set_count so) (set_root so) hv]> (sets w))
       (muts w) (mut_id_counter w)).
Proof.
  intros Hs Hok. split_and!; simpl; [done|apply preserved_refl| |done].
  intros s' so' Hs'. destruct (decide (s' = s)) as [->|Hne].
  - rewrite list_lookup_insert_eq by (by eapply lookup_lt_Some).
    assert (so' = so) as -> by congruence. eauto.
  - rewrite list_lookup_insert_ne by done. eauto.
Qed.

Lemma world_step_new_mut w mo :
  mut_mutid mo = mut_id_counter w →
  world_step w
    (World (nodes w) (sets w) (muts w ++ [mo]) (mut_id_counter w + 1)).
Proof.
  intros Hmo (Hok & Hc & Hn & Hm).
  split_and!; simpl; [|apply preserved_refl|eauto|].
  - split_and!; simpl; [done|lia| |].
    + intros l n Hl. specialize (Hn l n Hl). lia.
    + intros l m Hl. apply lookup_app_Some in Hl as [Hl|[_ Hl]].
      * specialize (Hm l m Hl). lia.
      * apply list_lookup_singleton_Some in Hl as [_ <-]. lia.
  - intros m mo' Hl. by apply lookup_app_l_Some.
Qed.

End WorldRules.
Section WorldRules2.
Context {K : Type} `{Hashable K}.
Implicit Types (w : world K) (E : exn K → world K → Prop).

Lemma wp_Set__new count root w (Q : nat → world K → Prop) E :
  Q (length (sets w))
    (World (nodes w) (sets w ++ [SetObj count root (-1)]) (muts w)
       (mut_id_counter w)) →
  wp (Set__new count root) w Q E.
Proof. done. Qed.

Lemma wp_store_set s so w (Q : unit → world K → Prop) E :
  Q tt (World (nodes w) (<[s := so]> (sets w)) (muts w) (mut_id_counter w)) →
  wp (store_set s so) w Q E.
Proof. done. Qed.

Lemma wp_store_mut m mo w (Q : unit → world K → Prop) E :
  Q tt (World (nodes w) (sets w) (<[m := mo]> (muts w)) (mut_id_counter w)) →
  wp (store_mut m mo) w Q E.
Proof. done. Qed.

Lemma wp__mut_id w (Q : Z → world K → Prop) E :
  Q (mut_id_counter w)
    (World (nodes w) (sets w) (muts w) (mut_id_counter w + 1)) →
  wp _mut_id w Q E.
Proof. done. Qed.

End WorldRules2.

Ltac wp_wstep :=
  lazymatch goal with
  | |- wp (load_set _) _ _ _ => apply wp_load_set; [intros ? ?|intros ?]
  | |- wp (load_mut _) _ _ _ => apply wp_load_mut; [intros ? ?|intros ?]
  | |- wp (on_nodes _) _ _ _ => apply wp_on_nodes
  | |- wp (Set__new _ _) _ _ _ => apply wp_Set__new
  | |- wp (store_set _ _) _ _ _ => apply wp_store_set
  | |- wp (store_mut _ _) _ _ _ => apply wp_store_mut
  | |- wp _mut_id _ _ _ => apply wp__mut_id
  | |- wp Set_init _ _ _ => unfold Set_init
  | _ => wp_step
  end.

Section PersistentSteps.
Context {K : Type} `{Hashable K}.
Implicit Types (w : world K).

Lemma Set_init_step w0 w :
  world_step w0 w →
  wp Set_init w (λ _ w', world_step w0 w') (λ _ w', world_step w0 w').
Proof.
  intros Hstep. repeat wp_wstep; try done.
  eapply world_step_trans; [done|].
  eapply world_step_trans; [|apply world_step_new_set].
  apply (world_step_nodes w). apply evolves_alloc; [done|]. simpl. lia.
Qed.

Lemma Set_include_step fuel s e w0 w :
  world_step w0 w →
  wp (Set_include fuel s e) w
    (λ _ w', world_step w0 w') (λ _ w', world_step w0 w').
Proof.
  intros Hstep. unfold Set_include.
  repeat first
    [ wp_wstep
    | eapply wp_mono; [apply node_add_frame|intros [??] ??|intros ???] ];
  try done.
  all: eapply world_step_trans; [done|].
  all: try (eapply world_step_trans; [|apply world_step_new_set]).
  all: by apply (world_step_nodes w).
Qed.

Lemma Set_exclude_step fuel s e w0 w :
  world_step w0 w →
  wp (Set_exclude fuel s e) w
    (λ _ w', world_step w0 w') (λ _ w', world_step w0 w').
Proof.
  intros Hstep. unfold Set_exclude.
  repeat first
    [ eapply wp_mono; [apply (Set_init_step w0)|intros ???|intros ???]
    | wp_wstep
    | eapply wp_mono; [apply node_without_frame|intros ???|intros ???] ];
  try done.
  all: eapply world_step_trans; [done|].
  all: try (eapply world_step_trans; [|apply world_step_new_set]).
  all: by apply (world_step_nodes w).
Qed.

Lemma Set_update_step fuel s args w0 w :
  world_step w0 w →
  wp (Set_update fuel s args) w
    (λ _ w', world_step w0 w') (λ _ w', world_step w0 w').
Proof.
  intros Hstep. unfold Set_update. destruct args as [|arg args]; [done|].
  repeat first
    [ wp_wstep
    | eapply wp_mono; [apply update_loop_evolves, evolves_refl
                      |intros [??] ??|intros ???] ];
  try done.
  all: eapply world_step_trans; [done|].
  all: try (eapply world_step_trans; [|apply world_step_new_set]).
  all: try by apply (world_step_fresh_nodes w).
  all: by apply (world_step_fresh_nodes w), evolves_refl.
Qed.

Lemma Set_mutate_step s w0 w :
  world_step w0 w →
  wp (Set_mutate s) w (λ _ w', world_step w0 w') (λ _ w', world_step w0 w').
Proof.
  intros Hstep. unfold Set_mutate. repeat wp_wstep; try done.
  unfold wp. simpl.
  eapply world_step_trans; [done|]. by apply world_step_new_mut.
Qed.

Lemma Set___hash___step maxsize fuel s w0 w :
  world_step w0 w →
  wp (Set___hash__ maxsize fuel s) w
    (λ _ w', world_step w0 w') (λ _ w', world_step w0 w').
Proof.
  intros Hstep. unfold Set___hash__. repeat wp_wstep; try done.
  eapply world_step_trans; [done|]. by apply world_step_memo.
Qed.

End PersistentSteps.
(** ** Reading through a preserved store *)

Section Reads.
Context {K : Type} `{Hashable K}.
Implicit Types (h : list (node K)).

Lemma node_find_preserved fuel : ∀ h h' l shift hash key b,
  preserved h h' →
  node_find fuel h l shift hash key = Val b →
  node_find fuel h' l shift hash key = Val b.
Proof.
  induction fuel as [|fuel IH]; intros h h' l shift hash key b Hp; simpl;
    [done|].
  destruct (h !! l) as [n|] eqn:Hl; [|done]. rewrite (Hp _ _ Hl).
  destruct n as [size bitmap array m|]; [|done].
  unfold BitmapNode_find. destruct (negb _); [done|].
  destruct (list_getitem _ _) as [[k|c]|]; try done. by apply IH.
Qed.

Lemma iter_slots_preserved (rec rec' : nat → res K (list K))
    (array : list (slot K)) (n : nat) : ∀ i ks,
  (∀ c ks', rec c = Val ks' → rec' c = Val ks') →
  iter_slots rec array i n = Val ks →
  iter_slots rec' array i n = Val ks.
Proof.
  induction n as [|n IH]; intros i ks Hrec; simpl; [done|].
  destruct (list_getitem array i) as [[k|c]|]; try done.
  - destruct (iter_slots rec array (i + 1) n) as [ks'| |] eqn:Hi; try done.
    by rewrite (IH _ _ Hrec Hi).
  - destruct (rec c) as [ks0| |] eqn:Hc; try done. rewrite (Hrec _ _ Hc).
    destruct (iter_slots rec array (i + 1) n) as [ks'| |] eqn:Hi; try done.
    by rewrite (IH _ _ Hrec Hi).
Qed.

Lemma node_iter_preserved fuel : ∀ h h' l ks,
  preserved h h' →
  node_iter fuel h l = Val ks → node_iter fuel h' l = Val ks.
Proof.
  induction fuel as [|fuel IH]; intros h h' l ks Hp; simpl; [done|].
  destruct (h !! l) as [n|] eqn:Hl; [|done]. rewrite (Hp _ _ Hl).
  destruct n as [size bitmap array m|]; [|done].
  apply iter_slots_preserved. intros c ks'. by apply IH.
Qed.

Lemma read_Ok_inv {S A} (f : S → res K A) (s s' : S) (a : A) :
  read f s = Ok a s' → f s = Val a ∧ s' = s.
Proof. unfold read. destruct (f s); naive_solver. Qed.

Lemma same_view_of_step (s : loc) (w w' : world K) :
  preserved (nodes w) (nodes w') →
  (∀ so, sets w !! s = Some so →
     ∃ so', sets w' !! s = Some so'
            ∧ set_count so' = set_count so ∧ set_root so' = set_root so) →
  same_view s w w'.
Proof.
  intros Hp Hs. split_and!.
  - intros n. unfold Set___len__, bind, load_set.
    destruct (sets w !! s) as [so|] eqn:Hso; [|done].
    destruct (Hs so eq_refl) as (so' & -> & Hc & _).
    unfold ret. intros [= <-]. by rewrite Hc.
  - intros fuel k b. unfold Set___contains__, bind, load_set.
    destruct (sets w !! s) as [so|] eqn:Hso; [|done].
    destruct (Hs so eq_refl) as (so' & -> & _ & Hr).
    intros [Hf _]%read_Ok_inv. unfold read. rewrite Hr.
    by rewrite (node_find_preserved _ _ _ _ _ _ _ _ Hp Hf).
  - intros fuel ks. unfold Set___iter__, bind, load_set.
    destruct (sets w !! s) as [so|] eqn:Hso; [|done].
    destruct (Hs so eq_refl) as (so' & -> & _ & Hr).
    intros [Hf _]%read_Ok_inv. unfold read. rewrite Hr.
    by rewrite (node_iter_preserved _ _ _ _ _ Hp Hf).
Qed.

Lemma world_step_same_view (s : loc) (w w' : world K) :
  world_ok w → world_step w w' → same_view s w w'.
Proof.
  intros Hok Hstep. destruct (Hstep Hok) as (_ & Hp & Hs & _).
  apply same_view_of_step; eauto.
Qed.

Lemma wp_final_state {S A} (m : M K S A) (s s' : S) (P : S → Prop) :
  wp m s (λ _ s', P s') (λ _ s', P s') →
  final_state (m s) = Some s' → P s'.
Proof. unfold wp, final_state. destruct (m s); naive_solver. Qed.

Lemma read_only_step {A} (m : M K (world K) A) (w0 w : world K) :
  (∀ w, wp m w (λ _ w', w' = w) (λ _ w', w' = w)) →
  world_step w0 w →
  wp m w (λ _ w', world_step w0 w') (λ _ w', world_step w0 w').
Proof.
  intros Hro Hstep. eapply wp_mono; [apply Hro|..]; by intros ? ? ->.
Qed.

Lemma run_set_op_step maxsize fuel s op (w0 w w' : world K) :
  world_step w0 w →
  run_set_op maxsize fuel s op w = Some w' → world_step w0 w'.
Proof.
  intros Hstep. destruct op; simpl; apply wp_final_state.
  - by apply Set_include_step.
  - by apply Set_exclude_step.
  - by apply Set_update_step.
  - by apply Set_mutate_step.
  - by apply Set___hash___step.
  - apply read_only_step; [|done]. intros w1.
    unfold Set___contains__. repeat wp_wstep; done.
  - apply read_only_step; [|done]. intros w1.
    unfold Set___iter__. repeat wp_wstep; done.
  - apply read_only_step; [|done]. intros w1.
    unfold Set___len__. repeat wp_wstep; done.
Qed.

Lemma run_set_ops_step maxsize fuel ops : ∀ (w0 w w' : world K),
  world_step w0 w →
  run_set_ops maxsize fuel ops w = Some w' → world_step w0 w'.
Proof.
  induction ops as [|[s op] ops IH]; intros w0 w w' Hstep; simpl.
  - by intros [= <-].
  - destruct (run_set_op maxsize fuel s op w) as [w1|] eqn:Hop; [|done].
    apply IH. by eapply run_set_op_step.
Qed.

End Reads.
(** ** The methods of a mutator edit under its own tag *)

Section MutatorSteps.
Context {K : Type} `{Hashable K}.
Implicit Types (w : world K).

Lemma mut_step_refl mutid w : mut_step mutid w w.
Proof. split; [apply frame_refl|done]. Qed.

Lemma mut_step_trans mutid w0 w1 w2 :
  mut_step mutid w0 w1 → mut_step mutid w1 w2 → mut_step mutid w0 w2.
Proof. intros [? ?] [? ?]. split; [by eapply frame_trans|eauto]. Qed.

Lemma tagged_store mutid m w mo mo' (h : list (node K)) ss :
  muts w !! m = Some mo →
  mut_mutid mo' = mutid ∨ mut_mutid mo' = 0 →
  tagged mutid m (World h ss (<[m := mo']> (muts w)) (mut_id_counter w)).
Proof.
  intros Hm Hmo. exists mo'. split; [|done]. simpl.
  apply list_lookup_insert_eq. by eapply lookup_lt_Some.
Qed.

Lemma run_mut_op_step fuel m op mutid w w' :
  tagged mutid m w →
  run_mut_op fuel m op w = Some w' →
  mut_step mutid w w' ∧ tagged mutid m w'.
Proof.
  intros (mo & Hm & Hmo).
  assert (tagged mutid m w) as Htag by (by exists mo).
  destruct op; simpl;
    apply (wp_final_state _ _ _ (λ w', mut_step mutid w w' ∧ tagged mutid m w'));
    unfold SetMutation_include, SetMutation_exclude, SetMutation_update,
      SetMutation_finish.
  all: try destruct args as [|arg args].
  all: repeat first
      [ wp_wstep
      | eapply wp_mono; [apply node_add_frame|intros [??] ? [??]|intros ?? [??]]
      | eapply wp_mono; [apply node_without_frame|intros ?? [??]|intros ?? [??]]
      | eapply wp_mono; [apply update_loop_evolves, evolves_refl
                        |intros [??] ? [??]|intros ?? [??]] ];
    heap_norm; simplify_eq; try (split; [apply mut_step_refl|done]).
  all: repeat match goal with
         | Hz : (_ =? 0) = false |- _ => apply Z.eqb_neq in Hz
         end.
  all: try (destruct Hmo as [Hmo|Hmo]; [|done]; rewrite Hmo in * ).
  all: simpl; split;
    [ split; simpl;
      [ first [ done | apply frame_refl
              | eapply frame_trans; [done|]; by apply frame_alloc ]
      | first [ done | intros ???; by apply lookup_app_l_Some ] ]
    | first [ done | eapply tagged_store; [done|]; simpl; auto ] ].
Qed.

Lemma run_mut_ops_step fuel m mutid ops : ∀ w w',
  tagged mutid m w →
  run_mut_ops fuel m ops w = Some w' →
  mut_step mutid w w' ∧ tagged mutid m w'.
Proof.
  induction ops as [|op ops IH]; intros w w' Htag; simpl.
  - intros [= <-]. split; [apply mut_step_refl|done].
  - destruct (run_mut_op fuel m op w) as [w1|] eqn:Hop; [|done].
    destruct (run_mut_op_step _ _ _ _ _ _ Htag Hop) as [Hs1 Ht1].
    intros Hrest. destruct (IH _ _ Ht1 Hrest) as [Hs2 Ht2].
    split; [by eapply mut_step_trans|done].
Qed.

(** A mutator just made by [mutate()] owns no node. *)
Lemma Set_mutate_fresh s m w w' :
  world_ok w → Set_mutate s w = Ok m w' →
  nodes w' = nodes w ∧ sets w' = sets w
  ∧ tagged (mut_id_counter w) m w'
  ∧ ∀ l n, nodes w !! l = Some n → node_mutid n ≠ mut_id_counter w.
Proof.
  intros (_ & _ & Hn & _). unfold Set_mutate, bind, load_set, _mut_id.
  destruct (sets w !! s) as [so|]; [|done]. simpl. intros [= <- <-]. simpl.
  split_and!; [done..| |].
  - eexists. split; [by apply list_lookup_middle|]. simpl. auto.
  - intros l n Hl. specialize (Hn l n Hl). lia.
Qed.

End MutatorSteps.
(** ** Idempotent include *)

Section Idempotent.
Context {K : Type} `{Hashable K}.
Implicit Types (h : list (node K)).

Lemma present_mono fuel : ∀ fuel' h h' l shift hash key,
  (fuel ≤ fuel')%nat → preserved h h' →
  present fuel h l shift hash key → present fuel' h' l shift hash key.
Proof.
  induction fuel as [|fuel IH]; intros fuel' h h' l shift hash key Hle Hp;
    simpl; [done|].
  destruct fuel' as [|fuel']; [lia|]. simpl.
  destruct (h !! l) as [n|] eqn:Hl; [|done]. rewrite (Hp _ _ Hl).
  destruct n as [size bitmap array m|]; [|done].
  intros [Hbit Hslot]. split; [done|].
  destruct (list_getitem _ _) as [[k|c]|]; try done.
  eapply IH; [lia|done..].
Qed.

(** A key that is present is not added again: [add] returns the node it
    was called on, and touches nothing. *)
Lemma present_add fuel : ∀ h l shift hash key,
  present fuel h l shift hash key →
  node_add fuel l shift hash key 0 h = Ok (l, false) h.
Proof.
  induction fuel as [|fuel IH]; intros h l shift hash key; simpl; [done|].
  unfold bind at 1. unfold load at 1.
  destruct (h !! l) as [n|] eqn:Hl; [|done].
  destruct n as [size bitmap array m|size self_hash array m].
  - intros [Hbit Hslot].
    unfold BitmapNode_add, bind at 1. unfold load at 1. rewrite Hl, Hbit.
    unfold bind at 1.
    destruct (list_getitem _ _) as [[k|c]|]; simpl; [| |done].
    + subst k. by rewrite decide_True.
    + unfold bind at 1. rewrite (IH _ _ _ _ _ Hslot).
      by rewrite decide_True.
  - intros [-> (i & Hi & Hne)].
    unfold CollisionNode_add, bind at 1. unfold load at 1.
    rewrite Hl, Z.eqb_refl. unfold bind, read. rewrite Hi.
    by rewrite (proj2 (Z.eqb_neq _ _) Hne).
Qed.

Lemma find_index_loop_complete (array : list K) key a : ∀ (n : nat) i,
  0 ≤ i ≤ a → a < i + Z.of_nat n →
  array !! Z.to_nat a = Some key →
  (∀ j, i ≤ j < a → ∃ k, array !! Z.to_nat j = Some k ∧ k ≠ key) →
  find_index_loop array key i n = Val a.
Proof.
  induction n as [|n IH]; intros i Hi Hn Ha Hall; [lia|]. simpl.
  rewrite list_getitem_nonneg by lia.
  destruct (decide (i = a)) as [->|Hne].
  - rewrite Ha. by rewrite decide_True.
  - destruct (Hall i) as (k & -> & Hk); [lia|].
    rewrite decide_False by done. apply IH; [lia..|done|].
    intros j Hj. apply Hall. lia.
Qed.

Lemma find_index_append size (array : list K) key :
  CollisionNode_find_index size array key = Val (-1) →
  Z.of_nat (length array) ≤ size →
  CollisionNode_find_index (size + 1) (array ++ [key]) key = Val size
  ∧ 0 ≤ size.
Proof.
  intros Hf Hsize. apply find_index_loop_spec in Hf; [|done].
  destruct Hf as [[_ Hall]|(Hr & _)]; [|lia].
  assert (size = Z.of_nat (length array)) as ->.
  { destruct (decide (size = Z.of_nat (length array))) as [|Hne]; [done|].
    destruct (Hall (Z.of_nat (length array))) as (k & Hk & _); [lia|].
    apply lookup_lt_Some in Hk. lia. }
  split; [|lia]. apply find_index_loop_complete; [lia|lia| |].
  - rewrite Nat2Z.id. by apply list_lookup_middle.
  - intros j Hj. destruct (Hall j) as (k & Hk & Hne); [lia|].
    exists k. split; [|done]. by apply lookup_app_l_Some.
Qed.

End Idempotent.
(** Carry the lookups of a store over to the stores that preserve it. *)
Ltac lift_lookups :=
  repeat match goal with
    | Hp : preserved ?h ?h', Hl : ?h !! ?l = Some ?n |- _ =>
        lazymatch goal with
        | _ : h' !! l = Some n |- _ => fail
        | _ => pose proof (Hp _ _ Hl); heap_norm
        end
    | Hl : ?h !! ?l = Some ?n, Hl' : (?h ++ [?x]) !! ?l = Some _ |- _ =>
        pose proof (preserved_app h [x] _ _ Hl); heap_norm
    | Hl : ?h !! ?l = Some ?n, Hp : preserved (?h ++ [?x]) _ |- _ =>
        lazymatch goal with
        | _ : (h ++ [x]) !! l = Some _ |- _ => fail
        | _ => pose proof (preserved_app h [x] _ _ Hl)
        end
    end;
  heap_norm.

Ltac eqb_norm :=
  repeat match goal with
    | Hb : (_ =? _) = true |- _ => apply Z.eqb_eq in Hb
    | Hb : (_ =? _) = false |- _ => apply Z.eqb_neq in Hb
    end.

Section PresentUnfold.
Context {K : Type} `{Hashable K}.

Lemma present_S fuel (h : list (node K)) l shift hash key :
  present (S fuel) h l shift hash key
  = match h !! l with
    | None => False
    | Some (BitmapNode _ bitmap array _) =>
        truthy (Z.land bitmap (set_bitpos hash shift)) = true
        ∧ match list_getitem array
                  (set_bitindex bitmap (set_bitpos hash shift)) with
          | Some (Child c) => present fuel h c (shift + 5) hash key
          | Some (Elem k0) => key = k0
          | None => False
          end
    | Some (CollisionNode size self_hash array _) =>
        hash = self_hash
        ∧ ∃ i, CollisionNode_find_index size array key = Val i ∧ i ≠ -1
    end.
Proof. done. Qed.

End PresentUnfold.

Ltac present_unfold :=
  rewrite present_S;
  first
    [ rewrite lookup_app_last
    | match goal with
      | Hl : ?h !! ?l = Some _ |- context [?h !! ?l] => rewrite Hl
      end ].

Ltac rewrite_getitem :=
  match goal with
  | Hg : list_getitem ?a ?i = Some _ |- context [list_getitem ?a ?i] =>
      rewrite Hg
  end.

Section Idempotent2.
Context {K : Type} `{Hashable K}.
Implicit Types (h : list (node K)).

Lemma node_add_present fuel : ∀ l shift hash key h,
  heap_ok h →
  wp (node_add fuel l shift hash key 0) h
    (λ r h', present (S fuel) h' r.1 shift hash key) (λ _ _, True).
Proof.
  induction fuel as [|fuel IH]; intros l shift hash key h Hok;
    [done|].
  cbn [node_add]. unfold BitmapNode_add, CollisionNode_add.
  repeat (first
    [ wp_step
    | eapply wp_mono;
      [apply wp_and; [apply IH|apply node_add_frame]
      |intros [??] ? [? [?%frame_zero_preserved ?]]|intros ???]
    | eapply wp_mono;
      [apply with_slot_persistent, set_bitindex_nonneg
      |intros ? ? (?&?&?&?&?&?&?&?&?)|intros ???] ];
    heap_norm);
  try done.
  all: try (apply heap_ok_app; [done|node_ok_solve]).
  all: try (match goal with Hh : heap_ok _ → heap_ok ?s |- heap_ok ?s =>
              apply Hh; apply heap_ok_app; [done|node_ok_solve] end).
  all: lift_lookups; eqb_norm; cbn [fst] in *.
  - (* the slot holds the key *)
    present_unfold. split; [done|]. by rewrite_getitem.
  - (* a collision node for the two keys *)
    present_unfold. split; [done|].
    rewrite list_getitem_insert by idx_range. rewrite present_S.
    rewrite lookup_app_l by (rewrite length_app; simpl; lia).
    rewrite lookup_app_last. split; [done|]. exists 1. split; [|done].
    unfold CollisionNode_find_index. simpl.
    rewrite decide_False by done. simpl. by rewrite decide_True.
  - (* a sub-node for the two keys *)
    present_unfold. split; [done|].
    rewrite list_getitem_insert by idx_range.
    eapply present_mono; [|apply preserved_app|done]. lia.
  - (* the child did not change *)
    present_unfold. split; [done|]. by rewrite_getitem.
  - (* the child changed *)
    present_unfold. split; [done|].
    rewrite list_getitem_insert by idx_range.
    eapply present_mono; [|apply preserved_app|done]. lia.
  - (* a free slot *)
    present_unfold. split; [apply land_lor_bitpos|].
    rewrite set_bitindex_lor.
    match goal with
    | Hlen : Z.of_nat (length _) = set_bitcount ?bitmap + 1 |- _ =>
        rewrite length_slice_insert in Hlen by idx_range;
        assert (0 ≤ bitmap < 2 ^ 32) as Hrange by use_heap_ok;
        pose proof (set_bitindex_le bitmap (set_bitpos hash shift) Hrange)
    end.
    rewrite list_getitem_nonneg, slice_to_nonneg, slice_from_nonneg
      by idx_range.
    cbn [app]. rewrite list_lookup_middle; [done|].
    rewrite length_take. idx_range.
  - (* appended to the collision node *)
    present_unfold. split; [done|]. subst.
    match goal with
    | Hf : CollisionNode_find_index ?size ?array _ = Val (-1) |- _ =>
        assert (Z.of_nat (length array) ≤ size) as Hsize by use_heap_ok;
        destruct (find_index_append _ _ _ Hf Hsize) as [Hf' Hnn]
    end.
    eexists. split; [done|]. lia.
  - (* found in the collision node *)
    present_unfold. split; [done|]. eauto.
  - (* a collision node of another hash, wrapped *)
    eapply present_mono; [|apply preserved_refl|done]. lia.
Qed.
End Idempotent2.
(** ** Every state that the interface reaches is well-formed *)

Section Reachable.
Context {K : Type} `{Hashable K}.
Implicit Types (w : world K).

Lemma world_ok_init : world_ok (init_world (K:=K)).
Proof. split_and!; simpl; [done|lia|done..]. Qed.

(** An edit by a mutator, with or without the update of the mutator. *)
Lemma world_ok_edit w h' ss ms mo :
  world_ok w → mut_mutid mo < mut_id_counter w →
  evolves (mut_mutid mo) (nodes w) h' →
  (∀ l m', ms !! l = Some m' → mut_mutid m' < mut_id_counter w) →
  world_ok (World h' ss ms (mut_id_counter w)).
Proof.
  intros (Hok & Hc & Hn & Hm) Hlt [Hf Hh] Hms.
  split_and!; simpl; [by apply Hh|done| |done].
  by eapply frame_tags.
Qed.

Lemma muts_insert_tags (ms : list mut_obj) m mo c :
  (∀ l m', ms !! l = Some m' → mut_mutid m' < c) → mut_mutid mo < c →
  ∀ l m', <[m := mo]> ms !! l = Some m' → mut_mutid m' < c.
Proof.
  intros Hms Hmo l m' Hl. apply list_lookup_insert_Some in Hl.
  destruct Hl as [(-> & -> & _)|[_ Hl]]; eauto.
Qed.

Lemma run_mut_op_world_ok fuel m op w w' :
  world_ok w → run_mut_op fuel m op w = Some w' → world_ok w'.
Proof.
  intros Hok.
  destruct op; simpl; apply (wp_final_state _ _ _ world_ok);
    unfold SetMutation_include, SetMutation_exclude, SetMutation_update,
      SetMutation_finish.
  all: try destruct args as [|arg args].
  all: repeat first
      [ wp_wstep
      | eapply wp_mono; [apply node_add_frame|intros [??] ??|intros ???]
      | eapply wp_mono; [apply node_without_frame|intros ???|intros ???]
      | eapply wp_mono; [apply update_loop_evolves, evolves_refl
                        |intros [??] ??|intros ???] ];
    heap_norm; simplify_eq; try done.
  all: pose proof Hok as (Hh & Hc & Hn & Hm).
  all: match goal with
       | Hl : muts _ !! _ = Some ?mo |- _ => pose proof (Hm _ _ Hl)
       end.
  all: cbv beta in *; unfold with_nodes; simpl.
  all: match goal with
       | Hw : world_ok ?w0, Hl : muts ?w0 !! _ = Some ?mo0 |- _ =>
           eapply (world_ok_edit w0 _ _ _ mo0); [exact Hw|eassumption| |]
       end.
  all: first
    [ done
    | apply evolves_refl
    | eapply evolves_trans; [done|]; apply evolves_alloc; [done|simpl; lia]
    | apply muts_insert_tags; [done|simpl; lia] ].
Qed.

Lemma run_call_world_ok maxsize fuel c w w' :
  world_ok w → run_call maxsize fuel c w = Some w' → world_ok w'.
Proof.
  intros Hok. destruct c as [|s op|m op]; simpl.
  - intros Hrun.
    assert (world_step w w') as Hstep.
    { by apply (wp_final_state _ _ _ (world_step w)
                  (Set_init_step w w (world_step_refl w))). }
    by destruct (Hstep Hok).
  - intros Hrun.
    assert (world_step w w') as Hstep
      by (eapply run_set_op_step; [apply world_step_refl|done]).
    by destruct (Hstep Hok).
  - by apply run_mut_op_world_ok.
Qed.

(** Every world that a program reaches from the initial one is
    well-formed. *)
Lemma reachable_world_ok maxsize fuel cs : ∀ w w',
  world_ok w → run_calls maxsize fuel cs w = Some w' → world_ok w'.
Proof.
  induction cs as [|c cs IH]; intros w w' Hok; simpl.
  - by intros [= <-].
  - destruct (run_call maxsize fuel c w) as [w1|] eqn:Hc; [|done].
    apply IH. by eapply run_call_world_ok.
Qed.

End Reachable.
(** ** The transient mutator after [finish] and [update] without arguments *)

Section Mutator.
Context {K : Type} `{Hashable K}.

Lemma finish_zeroes_mutid (w w' : world K) (m s : loc) :
  SetMutation_finish m w = Ok s w' →
  ∃ mo, muts w !! m = Some mo
        ∧ muts w' !! m = Some (MutObj (mut_count mo) (mut_root mo) 0).
Proof.
  unfold SetMutation_finish, bind, load_mut, store_mut, Set__new.
  destruct (muts w !! m) as [mo|] eqn:Hm; [|done].
  intros [= <- <-]. exists mo. split; [done|]. simpl.
  apply list_lookup_insert_eq. by eapply lookup_lt_Some.
Qed.

(** C9: once [finish()] has zeroed the [mutid] of a mutator, [include],
    [exclude] and [update] all raise [ValueError] (MutatorFinished) and
    leave the whole state, hence the count and root of the mutator, as
    [finish] left it: the count and root the mutator had before. *)
Theorem finished_mutator_rejects_writes (w w' : world K) (m s : loc) :
  SetMutation_finish m w = Ok s w' →
  ∃ mo, muts w !! m = Some mo
    ∧ muts w' !! m = Some (MutObj (mut_count mo) (mut_root mo) 0)
    ∧ ∀ fuel element args,
        SetMutation_include fuel m element w' = Raise ValueError w'
        ∧ SetMutation_exclude fuel m element w' = Raise ValueError w'
        ∧ SetMutation_update fuel m args w' = Raise ValueError w'.
Proof.
  intros Hfin. destruct (finish_zeroes_mutid _ _ _ _ Hfin) as (mo & Hm & Hm').
  exists mo. split_and!; [done..|].
  intros fuel element args.
  unfold SetMutation_include, SetMutation_exclude, SetMutation_update,
    bind, load_mut.
  by rewrite Hm'.
Qed.

(** C10: [update()] without arguments returns the receiver itself. For
    every [Set] [s], in every state, whether or not a mutator lives in it,
    [s.update()] returns the object [s] and changes nothing. For every
    mutator [m] that is not finished, [m.update()] returns [m] and changes
    nothing, so that [m] keeps its count and its root. *)
Theorem update_without_arguments (w : world K) (fuel : nat) :
  (∀ s, Set_update fuel s [] w = Ok s w)
  ∧ (∀ m mo, muts w !! m = Some mo → mut_mutid mo ≠ 0 →
       SetMutation_update fuel m [] w = Ok (Some m) w).
Proof.
  split; [done|]. intros m mo Hm Hid.
  unfold SetMutation_update, bind, load_mut. rewrite Hm.
  by destruct (Z.eqb_spec (mut_mutid mo) 0).
Qed.

End Mutator.

(** The mutator of the empty set, finished. *)
Lemma finished_mutator_rejects_writes_witness :
  SetMutation_finish 0%nat mutator_world = Ok 1%nat finished_world
  ∧ ∃ mo, muts mutator_world !! 0%nat = Some mo
    ∧ muts finished_world !! 0%nat
      = Some (MutObj (mut_count mo) (mut_root mo) 0)
    ∧ ∀ fuel element args,
        SetMutation_include fuel 0%nat element finished_world
        = Raise ValueError finished_world
        ∧ SetMutation_exclude fuel 0%nat element finished_world
          = Raise ValueError finished_world
        ∧ SetMutation_update fuel 0%nat args finished_world
          = Raise ValueError finished_world.
Proof.
  split; [reflexivity|].
  apply (finished_mutator_rejects_writes mutator_world finished_world
           0%nat 1%nat).
  reflexivity.
Defined.

(** The empty set where no mutator lives, and the mutator of the empty
    set. *)
Lemma update_without_arguments_witness :
  muts set_world = []
  ∧ Set_update 3 0%nat [] set_world = Ok 0%nat set_world
  ∧ muts mutator_world !! 0%nat = Some (MutObj 0 0%nat 1)
  ∧ SetMutation_update 3 0%nat [] mutator_world
    = Ok (Some 0%nat) mutator_world.
Proof.
  split; [reflexivity|].
  split; [exact (proj1 (update_without_arguments set_world 3) 0%nat)|].
  split; [reflexivity|].
  apply (proj2 (update_without_arguments mutator_world 3) 0%nat
           (MutObj 0 0%nat 1)); [reflexivity|discriminate].
Defined.
(** ** The structural hash *)

Section StructuralHash.
Context {K : Type} `{Hashable K}.
Variable maxsize : Z.

Lemma hash_algorithm_not_sentinel (hx : K → Z) count keys :
  hash_algorithm maxsize hx count keys ≠ -1.
Proof.
  unfold hash_algorithm. cbv zeta.
  match goal with |- (if ?c then _ else _) ≠ _ => destruct c eqn:Hc end;
    [done|]. by apply Z.eqb_neq in Hc.
Qed.

(** C7, as the code has it: on a set whose hash is not yet memoised,
    [Set.__hash__] runs the specified algorithm with the specified
    constants over the keys in iteration order, where the hash [hx] of an
    element is the host hash [hash(key)] itself; it stores the result in
    the set and returns it, and any later call returns the stored value
    and changes nothing. *)
Theorem structural_hash_algorithm (w : world K) (fuel : nat) (s : loc)
    (so : set_obj) (keys : list K) :
  sets w !! s = Some so →
  node_iter fuel (nodes w) (set_root so) = Val keys →
  set_hash_cache so = -1 →
  let hv := structural_hash_host maxsize (set_count so) keys in
  let w' := with_sets w (<[s := SetObj (set_count so) (set_root so) hv]>
                           (sets w)) in
  Set___hash__ maxsize fuel s w = Ok hv w'
  ∧ ∀ fuel', Set___hash__ maxsize fuel' s w' = Ok hv w'.
Proof.
  intros Hs Hiter Hc hv w'. split.
  - unfold Set___hash__, bind, load_set, read, store_set. rewrite Hs, Hc.
    simpl. by rewrite Hiter.
  - intros fuel'. unfold Set___hash__, bind, load_set. subst w'. simpl.
    rewrite list_lookup_insert_eq by (by eapply lookup_lt_Some). simpl.
    pose proof (hash_algorithm_not_sentinel py_hash (set_count so) keys)
      as Hne.
    fold (structural_hash_host maxsize (set_count so) keys) in Hne.
    fold hv in Hne. by destruct (Z.eqb_spec hv (-1)).
Qed.

End StructuralHash.

(** The set [{Z}] with [Z = HashKey(-100, 'Z')]: the host hash of [Z] is
    [-100], its folded 32-bit hash is [99]. *)
Lemma structural_hash_algorithm_witness :
  sets hash_world !! 1%nat = Some (SetObj 1 1%nat (-1))
  ∧ node_iter 2 (nodes hash_world) 1%nat = Val [k_Z]
  ∧ Set___hash__ maxsize64 2 1%nat hash_world
    = Ok (structural_hash_host maxsize64 1 [k_Z])
        (with_sets hash_world
           (<[1%nat := SetObj 1 1%nat (structural_hash_host maxsize64 1 [k_Z])]>
              (sets hash_world)))
  ∧ ∀ fuel',
      Set___hash__ maxsize64 fuel' 1%nat
        (with_sets hash_world
           (<[1%nat := SetObj 1 1%nat (structural_hash_host maxsize64 1 [k_Z])]>
              (sets hash_world)))
      = Ok (structural_hash_host maxsize64 1 [k_Z])
          (with_sets hash_world
             (<[1%nat := SetObj 1 1%nat
                           (structural_hash_host maxsize64 1 [k_Z])]>
                (sets hash_world))).
Proof.
  split; [reflexivity|]. split; [reflexivity|].
  apply (structural_hash_algorithm maxsize64 hash_world 2 1%nat
           (SetObj 1 1%nat (-1)) [k_Z]); reflexivity.
Defined.

(** C7 as stated, with the folded 32-bit hash as element hash,
    fails on the set [{Z}]. *)
Lemma structural_hash_not_folded :
  ¬ (∀ (w : world HashKey) fuel s so keys,
       sets w !! s = Some so →
       node_iter fuel (nodes w) (set_root so) = Val keys →
       set_hash_cache so = -1 →
       ∃ w', Set___hash__ maxsize64 fuel s w
             = Ok (structural_hash_spec maxsize64 (set_count so) keys) w').
Proof.
  intros Hclaim.
  destruct (Hclaim hash_world 2%nat 1%nat (SetObj 1 1%nat (-1)) [k_Z])
    as [w' Hw']; [reflexivity..|].
  vm_compute in Hw'. discriminate Hw'.
Qed.
Section Inline.
Context {K : Type} `{Hashable K}.
Implicit Types (h : list (node K)).

Lemma with_slot_run self mutid idx x y h size bitmap array smutid :
  h !! self = Some (BitmapNode size bitmap array smutid) →
  Z.of_nat (length array) = size →
  0 ≤ idx → list_getitem array idx = Some y →
  BitmapNode_with_slot self mutid idx x h
  = if owned mutid smutid
    then Ok self
           (<[self := BitmapNode size bitmap (<[Z.to_nat idx := x]> array)
                        smutid]> h)
    else Ok (length h)
           (h ++ [BitmapNode size bitmap (<[Z.to_nat idx := x]> array) mutid]).
Proof.
  intros Hself Hsize Hidx Hget.
  pose proof (list_setitem_is_Some array idx x y Hidx Hget) as Hset.
  unfold BitmapNode_with_slot, BitmapNode_clone, BitmapNode_setitem,
    BitmapNode_new, bind, load, alloc, store, ret.
  rewrite Hself. simpl. destruct (owned mutid smutid).
  - rewrite Hself, Hset. done.
  - rewrite Hself, (proj2 (Z.eqb_eq _ _) Hsize). simpl.
    rewrite lookup_app_last, Hset. simpl. by rewrite insert_app_last.
Qed.

(** C6: when the recursive [without] on a child returns [NEWNODE(child')]
    and [child'] is a bitmap node of size 1 whose only slot is an element,
    the parent stores that element in its own slot (in place when it owns
    itself, in a copy otherwise) and returns [NEWNODE]; and after any
    persistent delete that returns [NEWNODE(r)], no child slot along the
    path of the deleted hash from [r] holds a size-1 bitmap node around a
    single element. *)
Theorem inline_on_delete (fuel : nat) h h1 (self c c' : loc)
    (shift hash : Z) (key k : K) (mutid size bitmap smutid bm m' : Z)
    (array : list (slot K)) :
  h !! self = Some (BitmapNode size bitmap array smutid) →
  Z.of_nat (length array) = size →
  truthy (Z.land bitmap (set_bitpos hash shift)) = true →
  list_getitem array (set_bitindex bitmap (set_bitpos hash shift))
  = Some (Child c) →
  node_without fuel c (shift + 5) hash key mutid h = Ok (W_NEWNODE c') h1 →
  h1 !! c' = Some (BitmapNode 1 bm [Elem k] m') →
  h1 !! self = Some (BitmapNode size bitmap array smutid) →
  let idx := Z.to_nat (set_bitindex bitmap (set_bitpos hash shift)) in
  node_without (S fuel) self shift hash key mutid h
  = (if owned mutid smutid
     then Ok (W_NEWNODE self)
            (<[self := BitmapNode size bitmap (<[idx := Elem k]> array)
                         smutid]> h1)
     else Ok (W_NEWNODE (length h1))
            (h1 ++ [BitmapNode size bitmap (<[idx := Elem k]> array) mutid]))
  ∧ ∀ fuel0 l0 shift0 hash0 key0 (h0 h0' : list (node K)) r d,
      node_without fuel0 l0 shift0 hash0 key0 0 h0 = Ok (W_NEWNODE r) h0' →
      path_compact d h0' r shift0 hash0.
Proof.
  intros Hself Hsize Hbit Hslot Hrec Hc' Hself1 idx. split.
  - simpl. unfold bind at 1. unfold load at 1. rewrite Hself.
    unfold BitmapNode_without, bind at 1. unfold load at 1. rewrite Hself.
    rewrite Hbit. simpl. unfold bind at 1. rewrite Hslot. simpl.
    unfold bind at 1. rewrite Hrec.
    unfold bind at 1. unfold load at 1. rewrite Hc'.
    unfold bind at 1. simpl. unfold bind at 1.
    erewrite with_slot_run; [|done|done|apply set_bitindex_nonneg|done].
    by destruct (owned mutid smutid).
  - intros fuel0 l0 shift0 hash0 key0 h0 h0' r d Hrun.
    by apply (wp_Ok _ _ _ _ _ _
                (node_without_compact fuel0 l0 shift0 hash0 key0 h0) Hrun).
Qed.

End Inline.

(** [test_set_delete_2]: [B] and [C] share a slot of the root; deleting
    [C] leaves the sub-node with [B] alone, which the root inlines. *)
Lemma inline_on_delete_witness :
  nodes delete_world !! 5%nat = Some (BitmapNode 1 512 [Child 4%nat] 0)
  ∧ Z.of_nat (length [Child (K:=HashKey) 4%nat]) = 1
  ∧ truthy (Z.land 512 (set_bitpos (set_hash k_C) 0)) = true
  ∧ list_getitem [Child (K:=HashKey) 4%nat]
      (set_bitindex 512 (set_bitpos (set_hash k_C) 0)) = Some (Child 4%nat)
  ∧ node_without 1 4%nat (0 + 5) (set_hash k_C) k_C 0 (nodes delete_world)
    = Ok (W_NEWNODE 6%nat)
        (nodes delete_world ++ [BitmapNode 1 512 [Elem k_B] 0])
  ∧ node_without 2 5%nat 0 (set_hash k_C) k_C 0 (nodes delete_world)
    = Ok (W_NEWNODE 7%nat)
        ((nodes delete_world ++ [BitmapNode 1 512 [Elem k_B] 0])
         ++ [BitmapNode 1 512 [Elem k_B] 0])
  ∧ path_compact 3
      ((nodes delete_world ++ [BitmapNode 1 512 [Elem k_B] 0])
       ++ [BitmapNode 1 512 [Elem k_B] 0]) 7%nat 0 (set_hash k_C).
Proof.
  pose proof (inline_on_delete 1 (nodes delete_world)
                (nodes delete_world ++ [BitmapNode 1 512 [Elem k_B] 0])
                5%nat 4%nat 6%nat 0 (set_hash k_C) k_C k_B 0 1 512 0 512 0
                [Child 4%nat]
                eq_refl eq_refl eq_refl eq_refl eq_refl eq_refl eq_refl)
    as [Hrun Hpath].
  do 5 (split; [reflexivity|]).
  split; [exact Hrun|].
  exact (Hpath 2%nat 5%nat 0 (set_hash k_C) k_C _ _ 7%nat 3%nat Hrun).
Defined.
(** ** Two colliding keys: what the code does

    [BitmapNode.add] creates the collision node of two keys with [size] 4
    although its array has two elements. *)

Lemma collision_world_built fuel :
  build_collision_set (S (S fuel)) init_world = Ok 2%nat collision_world.
Proof. vm_compute. reflexivity. Qed.

(** C1, on two colliding keys: in the set [{k1, k2}] of two keys with the
    same hash, excluding [k1] succeeds, but the survivor [k2] is not
    promoted into a bitmap node: the new root points to a collision node
    with [size] 3 and the single element [k2]. *)
Theorem exclude_of_colliding_pair_keeps_collision_node fuel :
  Set_exclude (S (S fuel)) 2%nat k_aaa collision_world
  = Ok 3%nat
      (World
         (nodes collision_world
          ++ [CollisionNode 3 10 [k_bbb] 0; BitmapNode 1 1024 [Child 4%nat] 0])
         (sets collision_world ++ [SetObj 1 5%nat (-1)]) [] 1).
Proof. vm_compute. reflexivity. Qed.

(** C2, on two colliding keys: adding a third key with the same hash to the
    collision node of [k1] and [k2] raises [IndexError] in the search of
    the array, whatever the [mutid]; nothing is appended. *)
Theorem add_third_colliding_key_raises fuel mutid :
  node_add (S fuel) 2%nat 5 (set_hash k_ccc) k_ccc mutid
    (nodes collision_world)
  = Raise IndexError (nodes collision_world).
Proof. vm_compute. reflexivity. Qed.

(** C3, on two colliding keys: [k3] is not in the set [{k1, k2}], and
    [exclude(k3)] raises [IndexError], not [KeyError]. *)
Theorem exclude_absent_colliding_key_raises_IndexError fuel :
  Set_exclude (S (S fuel)) 2%nat k_ccc collision_world
  = Raise IndexError collision_world.
Proof. vm_compute. reflexivity. Qed.

(** C4, on two colliding keys: [k3] is not in the set [{k1, k2}] of length
    2; the membership test and [len(s.include(k3))] both raise
    [IndexError] instead of giving [False] and 3. *)
Theorem include_absent_colliding_key_has_no_length fuel :
  Set___len__ 2%nat collision_world = Ok 2 collision_world
  ∧ Set___contains__ (S (S fuel)) 2%nat k_ccc collision_world
    = Raise IndexError collision_world
  ∧ (s' ←' Set_include (S (S fuel)) 2%nat k_ccc; Set___len__ s')
      collision_world
    = Raise IndexError collision_world.
Proof. vm_compute. done. Qed.

(** Excluding both keys leaves a set of count 0 whose root still points to
    a collision node, now with [size] 2 and no element. *)
Lemma exclude_both_colliding_keys_leaves_collision_node fuel :
  (s' ←' Set_exclude (S (S fuel)) 2%nat k_aaa;
   Set_exclude (S (S fuel)) s' k_bbb) collision_world
  = Ok 4%nat
      (World
         (nodes collision_world
          ++ [CollisionNode 3 10 [k_bbb] 0; BitmapNode 1 1024 [Child 4%nat] 0;
              CollisionNode 2 10 [] 0; BitmapNode 1 1024 [Child 6%nat] 0])
         (sets collision_world ++ [SetObj 1 5%nat (-1); SetObj 0 7%nat (-1)])
         [] 1).
Proof. vm_compute. reflexivity. Qed.
(** ** Structural sharing *)

Section Sharing.
Context {K : Type} `{Hashable K}.
Implicit Types (w : world K).

Lemma same_view_trans s w0 w1 w2 :
  same_view s w0 w1 → same_view s w1 w2 → same_view s w0 w2.
Proof.
  intros (Hl1 & Hc1 & Hi1) (Hl2 & Hc2 & Hi2). split_and!; eauto.
Qed.

Lemma Set_include_sets fuel s e w s2 w2 :
  Set_include fuel s e w = Ok s2 w2 →
  is_Some (sets w !! s)
  ∧ (sets w2 = sets w ∨ ∃ so, sets w2 = sets w ++ [so]).
Proof.
  unfold Set_include, bind, load_set, on_nodes, Set__new, ret, raise.
  destruct (sets w !! s) as [so|]; [|done].
  destruct (node_add _ _ _ _ _ _ _) as [[r a] h'| |]; [|done..].
  simpl. repeat case_match; intros [= <- <-]; simpl; eauto.
Qed.

(** C5: after [s2 = s.include(e)] in a well-formed world, the original set
    is as it was: every node that existed is unchanged, the object [s] has
    the count, root and hash it had, and its length, membership tests and
    iteration give what they gave.  Whatever is then done, by any sequence
    of methods of any sets, [s2] among them ([include], [exclude],
    [update], [mutate], [__hash__] and the read methods), or by any
    sequence of methods of a mutator of [s2], no node that existed before
    is changed, and [s] is still observed as it was. *)
Theorem include_leaves_original_unchanged (maxsize : Z) w w2 (fuel : nat)
    (s s2 : loc) (e : K) :
  world_ok w →
  Set_include fuel s e w = Ok s2 w2 →
  (preserved (nodes w) (nodes w2) ∧ sets w2 !! s = sets w !! s
   ∧ same_view s w w2)
  ∧ (∀ fuel' ops w3,
       run_set_ops maxsize fuel' ops w2 = Some w3 →
       preserved (nodes w) (nodes w3) ∧ same_view s w w3)
  ∧ (∀ m w3 fuel' ops w4,
       Set_mutate s2 w2 = Ok m w3 →
       run_mut_ops fuel' m ops w3 = Some w4 →
       preserved (nodes w) (nodes w4) ∧ same_view s w w4).
Proof.
  intros Hok Hinc.
  assert (world_step w w2) as Hstep.
  { apply (wp_Ok _ _ _ _ _ _
             (Set_include_step fuel s e w w (world_step_refl w)) Hinc). }
  destruct (Hstep Hok) as (Hok2 & Hp2 & Hs2 & Hm2).
  split_and!.
  - done.
  - destruct (Set_include_sets _ _ _ _ _ _ Hinc) as [[so Hso] [->|[so' ->]]];
      [done|]. rewrite Hso. by apply lookup_app_l_Some.
  - by apply world_step_same_view.
  - intros fuel' ops w3 Hops.
    assert (world_step w w3) as Hstep3
      by (by eapply run_set_ops_step).
    destruct (Hstep3 Hok) as (_ & Hp3 & _). split; [done|].
    by apply world_step_same_view.
  - intros m w3 fuel' ops w4 Hmut Hops.
    destruct (Set_mutate_fresh _ _ _ _ Hok2 Hmut)
      as (Hn3 & Hs3 & Htag & Hfresh).
    destruct (run_mut_ops_step _ _ _ _ _ _ Htag Hops) as [[Hf Hsets] _].
    rewrite Hn3 in Hf. rewrite Hs3 in Hsets.
    assert (preserved (nodes w2) (nodes w4)) as Hp4
      by (by eapply frame_fresh_preserved).
    split; [by eapply preserved_trans|].
    eapply same_view_trans; [by apply world_step_same_view|].
    apply same_view_of_step; [done|]. intros so Hso. eauto.
Qed.

End Sharing.

Lemma world_ok_hash_world : world_ok hash_world.
Proof.
  split_and!; simpl; [|lia| |done].
  - intros l n Hl.
    repeat (destruct l as [|l]; simpl in Hl; simplify_eq; simpl; try lia).
  - intros l n Hl.
    repeat (destruct l as [|l]; simpl in Hl; simplify_eq; simpl; try lia).
Qed.

(** [s2 = {Z}.include(k1)]. *)
Lemma include_leaves_original_unchanged_witness :
  world_ok hash_world
  ∧ Set_include 2 1%nat k_aaa hash_world = Ok 2%nat hash_world_included
  ∧ (preserved (nodes hash_world) (nodes hash_world_included)
     ∧ sets hash_world_included !! 1%nat = sets hash_world !! 1%nat
     ∧ same_view 1%nat hash_world hash_world_included)
  ∧ (∀ fuel' ops w3,
       run_set_ops maxsize64 fuel' ops hash_world_included = Some w3 →
       preserved (nodes hash_world) (nodes w3)
       ∧ same_view 1%nat hash_world w3)
  ∧ (∀ m w3 fuel' ops w4,
       Set_mutate 2%nat hash_world_included = Ok m w3 →
       run_mut_ops fuel' m ops w3 = Some w4 →
       preserved (nodes hash_world) (nodes w4)
       ∧ same_view 1%nat hash_world w4).
Proof.
  split; [exact world_ok_hash_world|]. split; [reflexivity|].
  apply (include_leaves_original_unchanged maxsize64 hash_world
           hash_world_included 2 1%nat 2%nat k_aaa);
    [exact world_ok_hash_world|reflexivity].
Defined.
Section IdempotentInclude.
Context {K : Type} `{Hashable K}.
Implicit Types (w : world K).

Lemma Set_include_present fuel s e w so :
  sets w !! s = Some so →
  present fuel (nodes w) (set_root so) 0 (set_hash e) e →
  Set_include fuel s e w = Ok s w.
Proof.
  intros Hs Hp. unfold Set_include, bind, load_set, on_nodes.
  rewrite Hs, (present_add _ _ _ _ _ _ Hp). simpl.
  rewrite decide_True by done. by destruct w.
Qed.

Lemma Set_include_again fuel fuel' s s1 e w w1 :
  world_ok w → (fuel < fuel')%nat →
  Set_include fuel s e w = Ok s1 w1 →
  ∃ so1, sets w1 !! s1 = Some so1
         ∧ present fuel' (nodes w1) (set_root so1) 0 (set_hash e) e.
Proof.
  intros (Hok & _) Hfuel.
  unfold Set_include, bind, load_set, on_nodes, ret, raise.
  destruct (sets w !! s) as [so|] eqn:Hs; [|done].
  pose proof (node_add_present fuel (set_root so) 0 (set_hash e) e (nodes w)
                Hok) as Hwp.
  destruct (node_add _ _ _ _ _ _ _) as [[r a] h'| |] eqn:Hadd; [|done..].
  apply (wp_Ok _ _ _ _ _ _ Hwp) in Hadd. cbn [fst] in Hadd. simpl.
  assert (present fuel' h' r 0 (set_hash e) e) as Hp
    by (eapply present_mono; [|apply preserved_refl|done]; lia).
  destruct (decide (r = set_root so)) as [->|Hne].
  - destruct a; simpl; [done|]. intros [= <- <-]. simpl. eauto.
  - unfold Set__new. intros [= <- <-]. simpl.
    eexists. split; [by apply list_lookup_middle|done].
Qed.

(** C8: in a well-formed world, [s.include(e).include(e)] does what
    [s.include(e)] does: whenever the first [include] returns, the second
    returns the very object the first returned and changes nothing, so the
    two programs have the same outcome; and including an element that the
    search finds, in a collision node or elsewhere, returns the receiver
    itself and changes nothing, its count included. *)
Theorem include_idempotent (w : world K) (fuel fuel' : nat) (s : loc)
    (e : K) :
  world_ok w → (fuel < fuel')%nat →
  (s1 ←' Set_include fuel s e; Set_include fuel' s1 e) w
  = Set_include fuel s e w
  ∧ (∀ s1 w1, Set_include fuel s e w = Ok s1 w1 →
       Set_include fuel' s1 e w1 = Ok s1 w1)
  ∧ (∀ so, sets w !! s = Some so →
       present fuel (nodes w) (set_root so) 0 (set_hash e) e →
       Set_include fuel s e w = Ok s w).
Proof.
  intros Hok Hfuel.
  assert (∀ s1 w1, Set_include fuel s e w = Ok s1 w1 →
            Set_include fuel' s1 e w1 = Ok s1 w1) as Hsame.
  { intros s1 w1 Hinc.
    destruct (Set_include_again _ _ _ _ _ _ _ Hok Hfuel Hinc)
      as (so1 & Hs1 & Hp).
    by eapply Set_include_present. }
  split_and!; [|done|].
  - unfold bind. destruct (Set_include fuel s e w) as [s1 w1| |] eqn:Hinc;
      [|done..]. by apply Hsame.
  - intros so Hs Hp. by eapply Set_include_present.
Qed.

End IdempotentInclude.

Lemma world_ok_collision_world : world_ok collision_world.
Proof.
  split_and!; simpl; [|lia| |done].
  - intros l n Hl.
    repeat (destruct l as [|l]; simpl in Hl; simplify_eq; simpl; try lia).
  - intros l n Hl.
    repeat (destruct l as [|l]; simpl in Hl; simplify_eq; simpl; try lia).
Qed.

(** Scenario S1: [k2] is in the collision node of the set [{k1, k2}];
    including it again returns the same set object. *)
Lemma include_idempotent_witness :
  world_ok collision_world ∧ (2 < 3)%nat
  ∧ (s1 ←' Set_include 2 2%nat k_bbb; Set_include 3 s1 k_bbb) collision_world
    = Set_include 2 2%nat k_bbb collision_world
  ∧ (∀ s1 w1, Set_include 2 2%nat k_bbb collision_world = Ok s1 w1 →
       Set_include 3 s1 k_bbb w1 = Ok s1 w1)
  ∧ (∀ so, sets collision_world !! 2%nat = Some so →
       present 2 (nodes collision_world) (set_root so) 0 (set_hash k_bbb)
         k_bbb →
       Set_include 2 2%nat k_bbb collision_world = Ok 2%nat collision_world).
Proof.
  split; [exact world_ok_collision_world|]. split; [lia|].
  apply (include_idempotent collision_world 2 3 2%nat k_bbb);
    [exact world_ok_collision_world|lia].
Defined.
(** * More of the code

    Facts about the bit primitives, the list primitives and the node
    operations that the properties below rest on. *)

(** ** Population counts and compact indices *)

Lemma bits_count_snoc n v :
  bits_count (S n) v = bits_count n v + Z.b2z (Z.testbit v (Z.of_nat n)).
Proof.
  replace (S n) with (n + 1)%nat by lia. rewrite bits_count_app. simpl.
  rewrite Z.add_0_r. do 2 f_equal.
  rewrite <- Z.bit0_odd, <- Z.shiftr_div_pow2, Z.shiftr_spec by lia.
  f_equal.
Qed.

Lemma bits_count_low n : ∀ m v,
  (n ≤ m)%nat → 0 ≤ v < 2 ^ Z.of_nat n → bits_count m v = bits_count n v.
Proof.
  intros m v Hle Hv. induction Hle as [|m Hle IH]; [done|].
  rewrite bits_count_snoc, IH.
  replace (Z.testbit v (Z.of_nat m)) with false; [simpl; lia|].
  symmetry. destruct (decide (v = 0)) as [->|Hne]; [apply Z.bits_0|].
  apply Z.bits_above_log2; [lia|].
  apply Z.log2_lt_pow2; [lia|].
  assert (2 ^ Z.of_nat n ≤ 2 ^ Z.of_nat m) by (apply Z.pow_le_mono_r; lia).
  lia.
Qed.

Lemma truthy_land_bitpos bitmap hash shift :
  truthy (Z.land bitmap (set_bitpos hash shift))
  = Z.testbit bitmap (set_mask hash shift).
Proof.
  pose proof (set_mask_range hash shift) as Hm.
  rewrite set_bitpos_pow2. unfold truthy.
  destruct (Z.testbit bitmap (set_mask hash shift)) eqn:Hb.
  - apply negb_true_iff, Z.eqb_neq. intros Hz.
    apply (f_equal (λ z, Z.testbit z (set_mask hash shift))) in Hz.
    rewrite Z.land_spec, Hb, Z.pow2_bits_true, Z.bits_0 in Hz by lia. done.
  - apply negb_false_iff, Z.eqb_eq. Z.bitblast.
    destruct (Z.eqb_spec (set_mask hash shift) i) as [<-|]; [by rewrite Hb|].
    apply andb_false_r.
Qed.

Lemma set_bitindex_count bitmap hash shift :
  set_bitindex bitmap (set_bitpos hash shift)
  = bits_count (Z.to_nat (set_mask hash shift)) bitmap.
Proof.
  pose proof (set_mask_range hash shift) as Hm.
  unfold set_bitindex. rewrite set_bitpos_pow2.
  rewrite Z.sub_1_r, <- Z.ones_equiv, Z.land_ones by lia.
  assert (0 ≤ bitmap mod 2 ^ set_mask hash shift < 2 ^ set_mask hash shift)
    as Hr by (apply Z.mod_pos_bound, Z.pow_pos_nonneg; lia).
  assert (2 ^ set_mask hash shift ≤ 2 ^ 32) by (apply Z.pow_le_mono_r; lia).
  rewrite set_bitcount_spec by lia.
  rewrite (bits_count_low (Z.to_nat (set_mask hash shift)) 32)
    by (rewrite ?Z2Nat.id; lia).
  rewrite <- (bits_count_mod (Z.to_nat (set_mask hash shift)) bitmap).
  by rewrite Z2Nat.id by lia.
Qed.

Section HashRange.
Context {K : Type} `{Hashable K}.
Lemma set_hash_range (o : K) : 0 ≤ set_hash o < 2 ^ 32.
Proof.
  unfold set_hash. change 0xffffffff with (Z.ones 32).
  rewrite !Z.land_ones by lia.
  pose proof (Z.mod_pos_bound (py_hash o) (2 ^ 32) ltac:(lia)).
  pose proof (Z.mod_pos_bound (Z.shiftr (py_hash o) 32) (2 ^ 32) ltac:(lia)).
  split; [apply Z.lxor_nonneg; lia|].
  generalize dependent (py_hash o mod 2 ^ 32).
  generalize dependent (Z.shiftr (py_hash o) 32 mod 2 ^ 32). intros a Ha b Hb.
  destruct (decide (Z.lxor b a = 0)) as [->|Hne]; [lia|].
  apply Z.log2_lt_pow2; [pose proof (Z.lxor_nonneg b a); lia|].
  eapply Z.le_lt_trans; [apply Z.log2_lxor; lia|].
  apply Z.max_lub_lt.
  - destruct (decide (b = 0)) as [->|]; [simpl; lia|]. apply Z.log2_lt_pow2; lia.
  - destruct (decide (a = 0)) as [->|]; [simpl; lia|]. apply Z.log2_lt_pow2; lia.
Qed.

Lemma set_hash_small (o : K) : 0 ≤ py_hash o < 2 ^ 32 → set_hash o = py_hash o.
Proof.
  intros Hr. unfold set_hash. change 0xffffffff with (Z.ones 32).
  rewrite !Z.land_ones by lia. rewrite Z.shiftr_div_pow2 by lia.
  rewrite (Z.div_small (py_hash o)) by lia.
  rewrite Z.mod_0_l by lia. rewrite Z.lxor_0_r. apply Z.mod_small. lia.
Qed.
End HashRange.

Lemma bits_count_lor_pow2 n : ∀ B j,
  0 ≤ j →
  bits_count n (Z.lor B (2 ^ j))
  = bits_count n B + Z.b2z ((j <? Z.of_nat n) && negb (Z.testbit B j)).
Proof.
  induction n as [|n IH]; intros B j Hj.
  - destruct (Z.ltb_spec j (Z.of_nat 0)); [lia|]. simpl. lia.
  - rewrite !bits_count_snoc, IH, Z.lor_spec, Z.pow2_bits_eqb by done.
    destruct (Z.eqb_spec j (Z.of_nat n)) as [->|Hne].
    + replace (Z.of_nat n <? Z.of_nat n) with false
        by (symmetry; apply Z.ltb_ge; lia).
      replace (Z.of_nat n <? Z.of_nat (S n)) with true
        by (symmetry; apply Z.ltb_lt; lia).
      destruct (Z.testbit B (Z.of_nat n)); simpl; lia.
    + rewrite orb_false_r.
      destruct (Z.ltb_spec j (Z.of_nat n)), (Z.ltb_spec j (Z.of_nat (S n)));
        try lia; destruct (Z.testbit B j); simpl; lia.
Qed.

Lemma bits_count_clear n : ∀ B j,
  0 ≤ j →
  bits_count n (Z.land B (Z.lnot (2 ^ j)))
  = bits_count n B - Z.b2z ((j <? Z.of_nat n) && Z.testbit B j).
Proof.
  induction n as [|n IH]; intros B j Hj.
  - destruct (Z.ltb_spec j (Z.of_nat 0)); [lia|]. simpl. lia.
  - rewrite !bits_count_snoc, IH, Z.land_spec, Z.lnot_spec, Z.pow2_bits_eqb
      by lia.
    destruct (Z.eqb_spec j (Z.of_nat n)) as [->|Hne].
    + replace (Z.of_nat n <? Z.of_nat n) with false
        by (symmetry; apply Z.ltb_ge; lia).
      replace (Z.of_nat n <? Z.of_nat (S n)) with true
        by (symmetry; apply Z.ltb_lt; lia).
      destruct (Z.testbit B (Z.of_nat n)); simpl; lia.
    + simpl. rewrite andb_true_r.
      destruct (Z.ltb_spec j (Z.of_nat n)), (Z.ltb_spec j (Z.of_nat (S n)));
        try lia; destruct (Z.testbit B j); simpl; lia.
Qed.

Lemma bits_count_le n m B : (n ≤ m)%nat → bits_count n B ≤ bits_count m B.
Proof.
  induction 1 as [|m Hle IH]; [done|]. rewrite bits_count_snoc.
  destruct (Z.testbit B (Z.of_nat m)); simpl; lia.
Qed.

Lemma bits_count_lt n m B :
  (n < m)%nat → Z.testbit B (Z.of_nat n) = true →
  bits_count n B < bits_count m B.
Proof.
  intros Hlt Hb. pose proof (bits_count_le (S n) m B ltac:(lia)) as Hle.
  rewrite bits_count_snoc, Hb in Hle. simpl in Hle. lia.
Qed.

Lemma set_bitcount_lor bitmap hash shift :
  0 ≤ bitmap < 2 ^ 32 →
  truthy (Z.land bitmap (set_bitpos hash shift)) = false →
  set_bitcount (Z.lor bitmap (set_bitpos hash shift)) = set_bitcount bitmap + 1.
Proof.
  intros Hr Hb. pose proof (set_mask_range hash shift) as Hm.
  rewrite !set_bitcount_spec by (done || by apply lor_bitpos_range).
  rewrite truthy_land_bitpos in Hb.
  rewrite set_bitpos_pow2, bits_count_lor_pow2, Hb by lia.
  replace (set_mask hash shift <? Z.of_nat 32) with true
    by (symmetry; apply Z.ltb_lt; lia).
  done.
Qed.

Lemma set_bitcount_clear bitmap hash shift :
  0 ≤ bitmap < 2 ^ 32 →
  truthy (Z.land bitmap (set_bitpos hash shift)) = true →
  set_bitcount (Z.land bitmap (Z.lnot (set_bitpos hash shift)))
  = set_bitcount bitmap - 1.
Proof.
  intros Hr Hb. pose proof (set_mask_range hash shift) as Hm.
  rewrite !set_bitcount_spec by (done || by apply land_lnot_range).
  rewrite truthy_land_bitpos in Hb.
  rewrite set_bitpos_pow2, bits_count_clear, Hb by lia.
  replace (set_mask hash shift <? Z.of_nat 32) with true
    by (symmetry; apply Z.ltb_lt; lia).
  done.
Qed.

Lemma set_bitcount_bitpos hash shift :
  set_bitcount (set_bitpos hash shift) = 1.
Proof.
  rewrite <- (Z.lor_0_l (set_bitpos hash shift)).
  rewrite set_bitcount_lor; [done|lia|]. by rewrite Z.land_0_l.
Qed.

(** ** Lists *)

Section ListFacts.

Lemma list_setitem_Forall {A} (P : A → Prop) (l l' : list A) i x :
  list_setitem l i x = Some l' → Forall P l → P x → Forall P l'.
Proof.
  unfold list_setitem. intros Hs Hl Hx.
  repeat case_match; simplify_eq; by apply Forall_insert.
Qed.

Lemma list_setitem_length {A} (l l' : list A) i x :
  list_setitem l i x = Some l' → length l' = length l.
Proof.
  unfold list_setitem. intros Hs.
  repeat case_match; simplify_eq; by rewrite length_insert.
Qed.

Lemma list_getitem_elem_of {A} (l : list A) i x :
  list_getitem l i = Some x → x ∈ l.
Proof.
  unfold list_getitem. repeat case_match; try done;
    intros Hl; by eapply list_elem_of_lookup_2.
Qed.

Lemma Forall_slice_to {A} (P : A → Prop) (l : list A) i :
  Forall P l → Forall P (slice_to l i).
Proof. unfold slice_to. case_match; apply Forall_take. Qed.

Lemma Forall_slice_from {A} (P : A → Prop) (l : list A) i :
  Forall P l → Forall P (slice_from l i).
Proof. unfold slice_from. case_match; apply Forall_drop. Qed.

End ListFacts.

(** ** Compact indices of two slots *)

Section IndexLemmas.

Lemma set_bitindex_le_mask bitmap h1 h2 shift :
  set_mask h1 shift ≤ set_mask h2 shift →
  set_bitindex bitmap (set_bitpos h1 shift)
  ≤ set_bitindex bitmap (set_bitpos h2 shift).
Proof.
  intros Hle. rewrite !set_bitindex_count. apply bits_count_le.
  pose proof (set_mask_range h1 shift). lia.
Qed.

Lemma set_bitindex_lt_mask bitmap h1 h2 shift :
  set_mask h1 shift < set_mask h2 shift →
  truthy (Z.land bitmap (set_bitpos h1 shift)) = true →
  set_bitindex bitmap (set_bitpos h1 shift)
  < set_bitindex bitmap (set_bitpos h2 shift).
Proof.
  intros Hlt Hb. rewrite truthy_land_bitpos in Hb.
  pose proof (set_mask_range h1 shift).
  rewrite !set_bitindex_count. apply bits_count_lt; [lia|].
  by rewrite Z2Nat.id by lia.
Qed.

(** Two occupied slots with the same compact index are the same slot. *)
Lemma set_bitindex_inj bitmap h1 h2 shift :
  truthy (Z.land bitmap (set_bitpos h1 shift)) = true →
  truthy (Z.land bitmap (set_bitpos h2 shift)) = true →
  set_bitindex bitmap (set_bitpos h1 shift)
  = set_bitindex bitmap (set_bitpos h2 shift) →
  set_mask h1 shift = set_mask h2 shift.
Proof.
  intros Hb1 Hb2 Heq.
  destruct (Z.lt_trichotomy (set_mask h1 shift) (set_mask h2 shift))
    as [Hlt|[?|Hlt]]; [|done|].
  - pose proof (set_bitindex_lt_mask bitmap _ _ _ Hlt Hb1). lia.
  - pose proof (set_bitindex_lt_mask bitmap _ _ _ Hlt Hb2). lia.
Qed.

Lemma set_bitpos_mask h1 h2 shift :
  set_mask h1 shift = set_mask h2 shift →
  set_bitpos h1 shift = set_bitpos h2 shift.
Proof. unfold set_bitpos. by intros ->. Qed.

Lemma truthy_lor_other bitmap he hk shift :
  set_mask he shift ≠ set_mask hk shift →
  truthy (Z.land (Z.lor bitmap (set_bitpos he shift)) (set_bitpos hk shift))
  = truthy (Z.land bitmap (set_bitpos hk shift)).
Proof.
  intros Hne. pose proof (set_mask_range he shift).
  pose proof (set_mask_range hk shift).
  rewrite !truthy_land_bitpos, set_bitpos_pow2, Z.lor_spec,
    Z.pow2_bits_eqb by lia.
  destruct (Z.eqb_spec (set_mask he shift) (set_mask hk shift)); [done|].
  apply orb_false_r.
Qed.

Lemma truthy_clear_other bitmap he hk shift :
  set_mask he shift ≠ set_mask hk shift →
  truthy (Z.land (Z.land bitmap (Z.lnot (set_bitpos he shift)))
            (set_bitpos hk shift))
  = truthy (Z.land bitmap (set_bitpos hk shift)).
Proof.
  intros Hne. pose proof (set_mask_range he shift).
  pose proof (set_mask_range hk shift).
  rewrite !truthy_land_bitpos, set_bitpos_pow2, Z.land_spec, Z.lnot_spec,
    Z.pow2_bits_eqb by lia.
  destruct (Z.eqb_spec (set_mask he shift) (set_mask hk shift)); [done|].
  apply andb_true_r.
Qed.

Lemma set_bitindex_lor_other bitmap he hk shift :
  truthy (Z.land bitmap (set_bitpos he shift)) = false →
  set_bitindex (Z.lor bitmap (set_bitpos he shift)) (set_bitpos hk shift)
  = set_bitindex bitmap (set_bitpos hk shift)
    + Z.b2z (set_mask he shift <? set_mask hk shift).
Proof.
  intros Hb. rewrite truthy_land_bitpos in Hb.
  pose proof (set_mask_range he shift). pose proof (set_mask_range hk shift).
  rewrite !set_bitindex_count, set_bitpos_pow2, bits_count_lor_pow2, Hb
    by lia.
  rewrite Z2Nat.id by lia. by rewrite andb_true_r.
Qed.

Lemma set_bitindex_clear_other bitmap he hk shift :
  truthy (Z.land bitmap (set_bitpos he shift)) = true →
  set_bitindex (Z.land bitmap (Z.lnot (set_bitpos he shift)))
    (set_bitpos hk shift)
  = set_bitindex bitmap (set_bitpos hk shift)
    - Z.b2z (set_mask he shift <? set_mask hk shift).
Proof.
  intros Hb. rewrite truthy_land_bitpos in Hb.
  pose proof (set_mask_range he shift). pose proof (set_mask_range hk shift).
  rewrite !set_bitindex_count, set_bitpos_pow2, bits_count_clear, Hb
    by lia.
  rewrite Z2Nat.id by lia. by rewrite andb_true_r.
Qed.

Lemma getitem_slice_insert {A} (l : list A) i x j :
  0 ≤ i ≤ Z.of_nat (length l) → 0 ≤ j →
  list_getitem (slice_to l i ++ [x] ++ slice_from l i) j
  = if j <? i then list_getitem l j
    else if j =? i then Some x else list_getitem l (j - 1).
Proof.
  intros Hi Hj.
  rewrite slice_to_nonneg, slice_from_nonneg, !list_getitem_nonneg by lia.
  destruct (Z.ltb_spec j i).
  - rewrite lookup_app_l by (rewrite length_take; lia).
    apply lookup_take_lt. lia.
  - rewrite lookup_app_r by (rewrite length_take; lia).
    rewrite length_take, Nat.min_l by lia.
    destruct (Z.eqb_spec j i) as [->|Hne].
    + by rewrite Nat.sub_diag.
    + rewrite list_getitem_nonneg by lia.
      replace (Z.to_nat j - Z.to_nat i)%nat
        with (S (Z.to_nat (j - 1) - Z.to_nat i)) by lia.
      simpl. rewrite lookup_drop. f_equal. lia.
Qed.

Lemma getitem_slice_delete {A} (l : list A) i j :
  0 ≤ i < Z.of_nat (length l) → 0 ≤ j →
  list_getitem (slice_to l i ++ slice_from l (i + 1)) j
  = if j <? i then list_getitem l j else list_getitem l (j + 1).
Proof.
  intros Hi Hj.
  rewrite slice_to_nonneg, slice_from_nonneg, !list_getitem_nonneg by lia.
  destruct (Z.ltb_spec j i).
  - rewrite lookup_app_l by (rewrite length_take; lia).
    apply lookup_take_lt. lia.
  - rewrite lookup_app_r by (rewrite length_take; lia).
    rewrite length_take, Nat.min_l by lia.
    rewrite lookup_drop. f_equal. lia.
Qed.

Lemma getitem_insert_ne {A} (l : list A) i j x :
  0 ≤ i → 0 ≤ j → i ≠ j →
  list_getitem (<[Z.to_nat i := x]> l) j = list_getitem l j.
Proof.
  intros Hi Hj Hne. rewrite !list_getitem_nonneg by done.
  apply list_lookup_insert_ne. lia.
Qed.

End IndexLemmas.
(** ** Sizes and hashes are kept *)

Section Wf.
Context {K : Type} `{Hashable K}.
Implicit Types (h : list (node K)).

Lemma node_wf_ok (n : node K) : node_wf n → node_ok n.
Proof. destruct n; simpl; by intros [? ?]. Qed.

Lemma heap_wf_ok h : heap_wf h → heap_ok h.
Proof. intros Hw l n Hl. apply node_wf_ok. eauto. Qed.

Lemma heap_wf_app h n : heap_wf h → node_wf n → heap_wf (h ++ [n]).
Proof.
  intros Hh Hn l n' Hl. apply lookup_app_Some in Hl as [Hl|[_ Hl]]; [eauto|].
  apply list_lookup_singleton_Some in Hl as [_ <-]. done.
Qed.

Lemma heap_wf_insert h l n : heap_wf h → node_wf n → heap_wf (<[l := n]> h).
Proof.
  intros Hh Hn l' n' Hl. apply list_lookup_insert_Some in Hl.
  destruct Hl as [(-> & -> & _)|[_ Hl]]; eauto.
Qed.

Lemma with_slot_wf mutid h self idx x :
  heap_wf h →
  wp (BitmapNode_with_slot self mutid idx x) h
    (λ _ h', heap_wf h') (λ _ h', heap_wf h').
Proof.
  intros Hw.
  unfold BitmapNode_with_slot, BitmapNode_clone, BitmapNode_setitem.
  repeat wp_step; heap_norm; try done.
  all: repeat match goal with
         | Hs : list_setitem _ _ _ = Some _ |- _ =>
             apply list_setitem_length in Hs
         end.
  all: match goal with Hw' : heap_wf ?h0, Hl : ?h0 !! _ = Some _ |- _ =>
         pose proof (Hw' _ _ Hl) as Hn; simpl in Hn end.
  all: destruct Hn as (? & ? & ?).
  - apply (heap_wf_insert _ _ _ Hw). simpl. split_and!; first [done|congruence|lia].
  - apply (heap_wf_app _ _ Hw). simpl. split_and!; first [done|congruence|lia].
  - apply (heap_wf_app _ _ Hw). simpl. split_and!; first [done|congruence|lia].
Qed.

End Wf.

Ltac use_heap_wf :=
  match goal with
  | Hw : heap_wf ?h, Hl : ?h !! _ = Some _ |- _ =>
      let Hn := fresh "Hn" in
      pose proof (Hw _ _ Hl) as Hn; simpl in Hn; destruct_and? Hn
  end.

Ltac wf_length :=
  try match goal with
    | Hf : CollisionNode_find_index _ _ _ = Val ?a, Hne : ?a ≠ -1 |- _ =>
        destruct (find_index_found _ _ _ _ Hf Hne) as (? & ? & ?)
    end;
  repeat match goal with
    | Hg : list_getitem _ ?i = Some _ |- _ =>
        lazymatch type of Hg with
        | list_getitem _ (set_bitindex ?b ?p) = _ =>
            apply list_getitem_lt in Hg; [|apply set_bitindex_nonneg]
        end
    end;
  repeat match goal with
    | |- context [slice_to ?l ?i ++ ?x :: slice_from ?l ?i] =>
        change (slice_to l i ++ x :: slice_from l i)
          with (slice_to l i ++ [x] ++ slice_from l i)
    end;
  rewrite ?length_slice_insert, ?length_slice_delete, ?length_app
    by (idx_range || (split; idx_range));
  simpl; idx_range.

(** Close a goal [node_wf n] for a node built by the code. *)
Ltac node_wf_solve :=
  eqb_norm; subst; simpl; split_and?;
  first
    [ done
    | lia
    | by apply lor_bitpos_range
    | by apply land_lnot_range
    | match goal with
      | |- _ ≤ set_bitpos ?a ?b =>
          pose proof (set_bitpos_range a b); lia
      | |- set_bitpos ?a ?b < _ =>
          pose proof (set_bitpos_range a b); lia
      end
    | by rewrite set_bitcount_bitpos
    | rewrite set_bitcount_lor by done; lia
    | rewrite set_bitcount_clear by done; lia
    | wf_length
    | repeat first
        [ assumption
        | apply Forall_nil_2
        | apply Forall_cons; split; [eqb_norm; congruence|]
        | apply Forall_app; split
        | apply Forall_slice_to
        | apply Forall_slice_from ] ].

Ltac wf_close :=
  lazymatch goal with
  | |- heap_wf (_ ++ [_]) =>
      refine (heap_wf_app _ _ _ _); [assumption|use_heap_wf; node_wf_solve]
  | |- heap_wf (<[_ := _]> _) =>
      refine (heap_wf_insert _ _ _ _ _); [assumption|use_heap_wf; node_wf_solve]
  | |- heap_wf _ => assumption
  end.

Section Wf2.
Context {K : Type} `{Hashable K}.
Implicit Types (h : list (node K)).

Lemma node_add_wf fuel : ∀ self shift key mutid h,
  heap_wf h →
  wp (node_add fuel self shift (set_hash key) key mutid) h
    (λ _ h', heap_wf h') (λ _ h', heap_wf h').
Proof.
  induction fuel as [|fuel IH]; intros self shift key mutid h Hw; [done|].
  cbn [node_add]. unfold BitmapNode_add, CollisionNode_add.
  repeat (first
    [ wp_step
    | eapply wp_mono; [apply IH|intros [??] ??|intros ???]
    | eapply wp_mono; [apply with_slot_wf|intros ???|intros ???] ];
    heap_norm);
  try done.
  all: try wf_close.
Qed.

Lemma node_without_wf fuel : ∀ self shift hash key mutid h,
  heap_wf h →
  wp (node_without fuel self shift hash key mutid) h
    (λ _ h', heap_wf h') (λ _ h', heap_wf h').
Proof.
  induction fuel as [|fuel IH]; intros self shift hash key mutid h Hw; [done|].
  cbn [node_without]. unfold BitmapNode_without, CollisionNode_without.
  repeat (first
    [ wp_step
    | eapply wp_mono; [apply IH|intros ???|intros ???]
    | eapply wp_mono; [apply with_slot_wf|intros ???|intros ???] ];
    heap_norm);
  try done.
  all: repeat match goal with
         | Hb : negb _ = false |- _ => apply negb_false_iff in Hb
         end.
  all: try wf_close.
Qed.

Lemma update_loop_wf fuel it : ∀ root count mutid h,
  heap_wf h →
  wp (update_loop fuel it root count mutid) h
    (λ _ h', heap_wf h') (λ _ h', heap_wf h').
Proof.
  induction it as [|element it IH]; intros root count mutid h Hw; simpl.
  - by apply wp_ret.
  - apply wp_bind. eapply wp_mono; [by apply node_add_wf| |done].
    intros [root' added] h' Hw'. by apply IH.
Qed.

End Wf2.

Section WfOps.
Context {K : Type} `{Hashable K}.
Implicit Types (w : world K) (h : list (node K)).

Lemma heap_wf_empty_node h mutid :
  heap_wf h → heap_wf (h ++ [BitmapNode 0 0 [] mutid]).
Proof. intros Hw. apply heap_wf_app; [done|]. simpl. split_and!; done. Qed.

Lemma run_set_op_wf maxsize fuel s op w w' :
  heap_wf (nodes w) →
  run_set_op maxsize fuel s op w = Some w' → heap_wf (nodes w').
Proof.
  intros Hw.
  destruct op; simpl;
    apply (wp_final_state _ _ _ (λ w', heap_wf (nodes w')));
    unfold Set_include, Set_exclude, Set_update, Set_mutate, Set___hash__,
      Set___contains__, Set___iter__, Set___len__.
  all: try destruct args as [|arg args].
  all: repeat first
      [ wp_wstep
      | eapply wp_mono; [by apply node_add_wf|intros [??] ??|intros ???]
      | eapply wp_mono; [by apply node_without_wf|intros ???|intros ???]
      | eapply wp_mono; [by apply update_loop_wf|intros [??] ??|intros ???] ];
    heap_norm; simplify_eq; try done.
  by apply heap_wf_empty_node.
Qed.

Lemma run_mut_op_wf fuel m op w w' :
  heap_wf (nodes w) →
  run_mut_op fuel m op w = Some w' → heap_wf (nodes w').
Proof.
  intros Hw.
  destruct op; simpl;
    apply (wp_final_state _ _ _ (λ w', heap_wf (nodes w')));
    unfold SetMutation_include, SetMutation_exclude, SetMutation_update,
      SetMutation_finish.
  all: try destruct args as [|arg args].
  all: repeat first
      [ wp_wstep
      | eapply wp_mono; [by apply node_add_wf|intros [??] ??|intros ???]
      | eapply wp_mono; [by apply node_without_wf|intros ???|intros ???]
      | eapply wp_mono; [by apply update_loop_wf|intros [??] ??|intros ???] ];
    heap_norm; simplify_eq; try done.
  by apply heap_wf_empty_node.
Qed.

Lemma run_call_wf maxsize fuel c w w' :
  heap_wf (nodes w) →
  run_call maxsize fuel c w = Some w' → heap_wf (nodes w').
Proof.
  intros Hw. destruct c as [|s op|m op]; cbn [run_call].
  - apply (wp_final_state _ _ _ (λ w', heap_wf (nodes w'))).
    unfold Set_init. repeat wp_wstep; try done.
    by apply heap_wf_empty_node.
  - by apply run_set_op_wf.
  - by apply run_mut_op_wf.
Qed.

End WfOps.
(** ** Generations are kept apart *)

Section Sealed.
Context {K : Type} `{Hashable K}.
Implicit Types (h : list (node K)) (L : Z → Prop).

Lemma frame_same_tags mutid h h' : frame mutid h h' → same_tags h h'.
Proof.
  intros (_ & Hold & _) l n Hl. destruct (Hold l n Hl) as (n' & ? & ? & _).
  eauto.
Qed.

Lemma slot_sealed_tags L h h' tag x :
  same_tags h h' → slot_sealed L h tag x → slot_sealed L h' tag x.
Proof.
  intros Ht. destruct x as [k|c]; [done|]. intros (n & Hc & Htag).
  destruct (Ht c n Hc) as (n' & Hc' & Hm). exists n'. by rewrite Hm.
Qed.

Lemma slot_sealed_retag L h tag tag' x :
  tag = tag' ∨ ¬ L tag →
  slot_sealed L h tag x → slot_sealed L h tag' x.
Proof.
  intros Ht. destruct x as [k|c]; [done|]. intros (n & Hc & Htag).
  exists n. split; [done|]. destruct Htag as [->|?]; [|by right].
  destruct Ht as [->|?]; [by left|by right].
Qed.

Lemma node_sealed_tags L h h' n :
  same_tags h h' → node_sealed L h n → node_sealed L h' n.
Proof.
  intros Ht. destruct n as [size bitmap array m|]; [|done]. simpl.
  intros Hf. eapply Forall_impl; [done|]. intros x. by apply slot_sealed_tags.
Qed.

Lemma same_tags_app h n : same_tags h (h ++ [n]).
Proof. intros l n' Hl. exists n'. split; [by apply lookup_app_l_Some|done]. Qed.

Lemma same_tags_insert h l n n' :
  h !! l = Some n → node_mutid n' = node_mutid n →
  same_tags h (<[l := n']> h).
Proof.
  intros Hl Hm l0 n0 Hl0. destruct (decide (l0 = l)) as [->|Hne].
  - exists n'. rewrite list_lookup_insert_eq by (by eapply lookup_lt_Some).
    split; [done|]. congruence.
  - exists n0. by rewrite list_lookup_insert_ne.
Qed.

Lemma same_tags_trans h0 h1 h2 :
  same_tags h0 h1 → same_tags h1 h2 → same_tags h0 h2.
Proof.
  intros H1 H2 l n Hl. destruct (H1 l n Hl) as (n1 & Hl1 & Hm1).
  destruct (H2 l n1 Hl1) as (n2 & Hl2 & Hm2). exists n2. split; congruence.
Qed.

Lemma sealed_app L h n : sealed L h → node_sealed L h n → sealed L (h ++ [n]).
Proof.
  intros Hs Hn l n' Hl.
  apply (node_sealed_tags L h); [apply same_tags_app|].
  apply lookup_app_Some in Hl as [Hl|[_ Hl]]; [eauto|].
  apply list_lookup_singleton_Some in Hl as [_ <-]. done.
Qed.

Lemma sealed_insert L h l n n' :
  sealed L h → h !! l = Some n → node_mutid n' = node_mutid n →
  node_sealed L h n' → sealed L (<[l := n']> h).
Proof.
  intros Hs Hl Hm Hn l0 n0 Hl0.
  apply (node_sealed_tags L h); [by eapply same_tags_insert|].
  apply list_lookup_insert_Some in Hl0.
  destruct Hl0 as [(-> & -> & _)|[_ Hl0]]; eauto.
Qed.

End Sealed.

Section Sealed2.
Context {K : Type} `{Hashable K}.
Implicit Types (h : list (node K)) (L : Z → Prop).

Lemma owned_true mutid m : owned mutid m = true → m = mutid ∧ mutid ≠ 0.
Proof.
  unfold owned, truthy. intros [Hn Heq]%andb_true_iff.
  apply negb_true_iff, Z.eqb_neq in Hn. apply Z.eqb_eq in Heq. done.
Qed.

(** The children of a node that an edit may reach, seen from a copy that
    carries the tag of the edit. *)
Lemma node_sealed_clone L h mutid l size bitmap array m size' bitmap' :
  sealed L h → slot_sealed L h mutid (Child l) →
  h !! l = Some (BitmapNode size bitmap array m) →
  node_sealed L h (BitmapNode size' bitmap' array mutid).
Proof.
  intros Hs (n & Hl & Htag) Hl'. rewrite Hl' in Hl. simplify_eq.
  specialize (Hs _ _ Hl'). simpl in *.
  eapply Forall_impl; [done|]. intros x. apply slot_sealed_retag.
  destruct Htag; auto.
Qed.

Lemma slot_sealed_new L h n mutid :
  node_mutid n = mutid → slot_sealed L (h ++ [n]) mutid (Child (length h)).
Proof. intros Hm. exists n. split; [apply lookup_app_last|by left]. Qed.

Lemma with_slot_sealed L mutid h self idx x :
  sealed L h → slot_sealed L h mutid (Child self) → slot_sealed L h mutid x →
  wp (BitmapNode_with_slot self mutid idx x) h
    (λ r h', sealed L h' ∧ slot_sealed L h' mutid (Child r))
    (λ _ h', sealed L h').
Proof.
  intros Hs Hself Hx.
  unfold BitmapNode_with_slot, BitmapNode_clone, BitmapNode_setitem.
  repeat wp_step; heap_norm; try done.
  - (* in place *)
    match goal with Ho : owned _ _ = true |- _ =>
      apply owned_true in Ho as [Ho ?]; simpl in Ho; subst end.
    match goal with Hl : h !! self = Some _ |- _ =>
      pose proof (Hs _ _ Hl) as Hn; simpl in Hn; split;
      [ eapply (sealed_insert L h self _ _ Hs Hl); [done|]; simpl;
        by eapply list_setitem_Forall
      | eexists; split;
        [apply list_lookup_insert_eq; by eapply lookup_lt_Some|by left] ]
    end.
  - (* a copy, then the slot *)
    split; [|by apply slot_sealed_new].
    apply sealed_app; [done|].
    match goal with Hl : h !! self = Some _ |- _ =>
      pose proof (node_sealed_clone _ _ _ _ _ _ _ _ (Z.of_nat (length array))
                    bitmap Hs Hself Hl) as Hn
    end.
    simpl in *. by eapply list_setitem_Forall.
  - (* a copy, then IndexError *)
    apply sealed_app; [done|]. by eapply node_sealed_clone.
Qed.

(** What a node that an edit may reach holds, the edit may reach. *)
Lemma child_sealed L h mutid l size bitmap array m i x :
  sealed L h → slot_sealed L h mutid (Child l) →
  h !! l = Some (BitmapNode size bitmap array m) →
  list_getitem array i = Some x → slot_sealed L h mutid x.
Proof.
  intros Hs Hself Hl Hx.
  pose proof (node_sealed_clone _ _ _ _ _ _ _ _ 0 0 Hs Hself Hl) as Hn.
  simpl in Hn. rewrite Forall_forall in Hn. apply Hn.
  by eapply list_getitem_elem_of.
Qed.

Lemma slot_sealed_self L h l n :
  h !! l = Some n → slot_sealed L h (node_mutid n) (Child l).
Proof. intros Hl. exists n. auto. Qed.

End Sealed2.

Ltac sealed_tags :=
  repeat (eapply slot_sealed_tags; [eassumption|]);
  try (eapply slot_sealed_tags; [apply same_tags_app|]);
  try eassumption.

Ltac sealed_node :=
  simpl;
  match goal with
  | |- True => exact I
  | |- Forall _ [] => constructor
  | |- Forall _ [_] =>
      constructor; [first [exact I|sealed_tags]|constructor]
  | Hs : sealed ?L ?h, Hself : slot_sealed ?L ?h ?mutid (Child ?l),
    Hl : ?h !! ?l = Some (BitmapNode _ _ ?array _)
    |- Forall (slot_sealed ?L ?h ?mutid) _ =>
      let Hn := fresh "Hn" in
      pose proof (node_sealed_clone _ _ _ _ _ _ _ _ 0 0 Hs Hself Hl) as Hn;
      simpl in Hn;
      repeat first
        [ assumption
        | apply Forall_app; split
        | apply Forall_slice_to
        | apply Forall_slice_from
        | apply Forall_cons; split; [exact I|] ]
  end.

Ltac sealed_solve :=
  cbn [fst] in *;
  lazymatch goal with
  | |- _ ∧ _ => split
  | _ => idtac
  end;
  lazymatch goal with
  | |- sealed _ (_ ++ [_]) => apply sealed_app; [assumption|sealed_node]
  | |- sealed _ (<[_ := _]> _) =>
      match goal with
      | Hs : sealed ?L ?h, Hl : ?h !! ?l = Some _ |- sealed ?L (<[?l := _]> ?h) =>
          eapply (sealed_insert L h l _ _ Hs Hl); [reflexivity|sealed_node]
      end
  | |- sealed _ _ => assumption
  | |- slot_sealed _ (?h ++ [_]) _ (Child (length ?h)) =>
      apply slot_sealed_new; reflexivity
  | |- slot_sealed _ (<[?l := _]> _) _ (Child ?l) =>
      eexists; split;
      [apply list_lookup_insert_eq; eapply lookup_lt_Some; eassumption
      |left; reflexivity]
  | |- slot_sealed _ _ _ _ =>
      first [ sealed_tags; fail
            | eapply child_sealed; eassumption ]
  end.

Section Sealed3.
Context {K : Type} `{Hashable K}.
Implicit Types (h : list (node K)) (L : Z → Prop).

Lemma node_add_sealed L fuel : ∀ self shift hash key mutid h,
  sealed L h → slot_sealed L h mutid (Child self) →
  wp (node_add fuel self shift hash key mutid) h
    (λ r h', sealed L h' ∧ slot_sealed L h' mutid (Child r.1))
    (λ _ h', sealed L h').
Proof.
  induction fuel as [|fuel IH]; intros self shift hash key mutid h Hs Hself;
    [done|].
  cbn [node_add]. unfold BitmapNode_add, CollisionNode_add.
  repeat (first
    [ wp_step
    | eapply wp_mono;
      [apply wp_and; [apply IH|apply node_add_frame]
      |intros [??] ? [[??] [?%frame_same_tags _]]
      |intros ?? [? _] ]
    | eapply wp_mono;
      [apply with_slot_sealed
      |intros ?? [??]|intros ???] ];
    heap_norm);
  try done.
  all: repeat match goal with
         | Ho : owned _ _ = true |- _ => apply owned_true in Ho as [? ?]
         end; subst.
  all: try sealed_solve.
  all: try sealed_solve.
Qed.
End Sealed3.

Section Sealed4.
Context {K : Type} `{Hashable K}.
Implicit Types (h : list (node K)) (L : Z → Prop).

Lemma node_without_sealed L fuel : ∀ self shift hash key mutid h,
  sealed L h → slot_sealed L h mutid (Child self) →
  wp (node_without fuel self shift hash key mutid) h
    (λ r h', sealed L h'
       ∧ match r with
         | W_NEWNODE r => slot_sealed L h' mutid (Child r)
         | _ => True
         end)
    (λ _ h', sealed L h').
Proof.
  induction fuel as [|fuel IH]; intros self shift hash key mutid h Hs Hself;
    [done|].
  cbn [node_without]. unfold BitmapNode_without, CollisionNode_without.
  repeat (first
    [ wp_step
    | eapply wp_mono;
      [apply wp_and; [apply IH|apply node_without_frame]
      |intros ? ? [[??] [?%frame_same_tags _]]
      |intros ?? [? _] ]
    | eapply wp_mono;
      [apply with_slot_sealed
      |intros ?? [??]|intros ???] ];
    heap_norm);
  try done.
  all: repeat match goal with
         | Ho : owned _ _ = true |- _ => apply owned_true in Ho as [? ?]
         end; subst.
  all: try sealed_solve.
  all: try sealed_solve.
Qed.

Lemma update_loop_sealed L fuel it : ∀ root count mutid h,
  sealed L h → slot_sealed L h mutid (Child root) →
  wp (update_loop fuel it root count mutid) h
    (λ r h', sealed L h' ∧ slot_sealed L h' mutid (Child r.1))
    (λ _ h', sealed L h').
Proof.
  induction it as [|element it IH]; intros root count mutid h Hs Hroot; simpl.
  - by apply wp_ret.
  - apply wp_bind. eapply wp_mono; [by apply node_add_sealed| |done].
    intros [root' added] h' [Hs' Hr']. by apply IH.
Qed.
End Sealed4.

(** *** Reading below a frozen node *)

Section Frozen.
Context {K : Type} `{Hashable K}.
Implicit Types (h : list (node K)) (L : Z → Prop).

Lemma frozen_node L m h h' l n :
  L m → frame m h h' → h !! l = Some n → ¬ L (node_mutid n) →
  h' !! l = Some n.
Proof.
  intros Hm (_ & Hold & _) Hl Hn.
  destruct (Hold l n Hl) as (n' & Hl' & _ & Hu). rewrite Hl'. f_equal.
  apply Hu. unfold owned. apply andb_false_iff. right. apply Z.eqb_neq.
  intros Heq. apply Hn. by rewrite <- Heq.
Qed.

Lemma frozen_child L h l size bitmap array m i c :
  sealed L h → h !! l = Some (BitmapNode size bitmap array m) → ¬ L m →
  list_getitem array i = Some (Child c) → frozen L h c.
Proof.
  intros Hs Hl Hm Hc. specialize (Hs _ _ Hl). simpl in Hs.
  rewrite Forall_forall in Hs.
  destruct (Hs _ (list_getitem_elem_of _ _ _ Hc)) as (n & Hn & Htag).
  exists n. split; [done|]. destruct Htag as [->|?]; done.
Qed.

Lemma frozen_find L m h h' fuel : ∀ l shift hash key,
  sealed L h → L m → frame m h h' → frozen L h l →
  node_find fuel h' l shift hash key = node_find fuel h l shift hash key.
Proof.
  induction fuel as [|fuel IH]; intros l shift hash key Hs Hm Hf (n & Hl & Hn);
    [done|].
  simpl. rewrite Hl, (frozen_node _ _ _ _ _ _ Hm Hf Hl Hn).
  destruct n as [size bitmap array t|]; [|done].
  unfold BitmapNode_find. destruct (negb _); [done|].
  destruct (list_getitem _ _) as [[k|c]|] eqn:Hg; try done.
  apply IH; try done. by eapply frozen_child.
Qed.

Lemma iter_slots_ext (rec rec' : nat → res K (list K))
    (array : list (slot K)) (n : nat) : ∀ i,
  (∀ j c, list_getitem array j = Some (Child c) → rec' c = rec c) →
  iter_slots rec' array i n = iter_slots rec array i n.
Proof.
  induction n as [|n IH]; intros i Hrec; simpl; [done|].
  destruct (list_getitem array i) as [[k|c]|] eqn:Hg; try done.
  - by rewrite IH.
  - by rewrite (Hrec _ _ Hg), IH.
Qed.

Lemma frozen_iter L m h h' fuel : ∀ l,
  sealed L h → L m → frame m h h' → frozen L h l →
  node_iter fuel h' l = node_iter fuel h l.
Proof.
  induction fuel as [|fuel IH]; intros l Hs Hm Hf (n & Hl & Hn); [done|].
  simpl. rewrite Hl, (frozen_node _ _ _ _ _ _ Hm Hf Hl Hn).
  destruct n as [size bitmap array t|]; [|done].
  apply iter_slots_ext. intros j c Hg. apply IH; try done.
  by eapply frozen_child.
Qed.

Lemma sealed_weaken L L' h :
  (∀ l n, h !! l = Some n → L' (node_mutid n) → L (node_mutid n)) →
  sealed L h → sealed L' h.
Proof.
  intros HL Hs l n Hl. specialize (Hs l n Hl).
  destruct n as [size bitmap array m|]; [|done]. simpl in *.
  eapply Forall_impl; [done|]. intros [k|c]; [done|].
  intros (nc & Hc & Htag). exists nc. split; [done|].
  destruct Htag as [?|Hn]; [by left|]. right. intros HL'. apply Hn. eauto.
Qed.

Lemma slot_sealed_weaken L L' h tag x :
  (∀ l n, h !! l = Some n → L' (node_mutid n) → L (node_mutid n)) →
  slot_sealed L h tag x → slot_sealed L' h tag x.
Proof.
  intros HL. destruct x as [k|c]; [done|].
  intros (nc & Hc & Htag). exists nc. split; [done|].
  destruct Htag as [?|Hn]; [by left|]. right. intros HL'. apply Hn. eauto.
Qed.

Lemma frozen_weaken L L' h l :
  (∀ l n, h !! l = Some n → L' (node_mutid n) → L (node_mutid n)) →
  frozen L h l → frozen L' h l.
Proof. intros HL (n & Hl & Hn). exists n. split; [done|]. eauto. Qed.

Lemma frozen_tags L h h' l : same_tags h h' → frozen L h l → frozen L h' l.
Proof.
  intros Ht (n & Hl & Hn). destruct (Ht l n Hl) as (n' & Hl' & Hm).
  exists n'. by rewrite Hm.
Qed.

Lemma frozen_slot_sealed L h tag l :
  frozen L h l → slot_sealed L h tag (Child l).
Proof. intros (n & Hl & Hn). exists n. auto. Qed.

Lemma slot_sealed_frozen L h tag l :
  ¬ L tag → slot_sealed L h tag (Child l) → frozen L h l.
Proof.
  intros Ht (n & Hl & Hn). exists n. split; [done|].
  destruct Hn as [->|?]; done.
Qed.

Lemma live_zero ms : ¬ live ms 0.
Proof. by intros [? _]. Qed.

Lemma live_lt (ms : list mut_obj) c t :
  (∀ l m, ms !! l = Some m → mut_mutid m < c) → live ms t → t < c.
Proof. intros Hms (_ & m & mo & Hm & <-). eauto. Qed.

End Frozen.

(** *** Worlds *)

Ltac wsimpl := unfold with_nodes; cbn [nodes sets muts mut_id_counter].

Section WorldSealed.
Context {K : Type} `{Hashable K}.
Implicit Types (w : world K) (h : list (node K)).

Lemma world_sealed_nodes w h' :
  world_sealed w → sealed (live (muts w)) h' → same_tags (nodes w) h' →
  world_sealed (with_nodes w h').
Proof.
  intros (Hs & Hsets & Hmuts & Huniq) Hs' Ht. split_and!; wsimpl; [done| | |done].
  - intros s so Hso. eapply frozen_tags; eauto.
  - intros m mo Hmo. eapply slot_sealed_tags; eauto.
Qed.

Lemma world_sealed_new_set w so c :
  world_sealed w → frozen (live (muts w)) (nodes w) (set_root so) →
  world_sealed (World (nodes w) (sets w ++ [so]) (muts w) c).
Proof.
  intros (Hs & Hsets & Hmuts & Huniq) Hr. split_and!; wsimpl; [done| |done..].
  intros s so' Hso. apply lookup_app_Some in Hso as [Hso|[_ Hso]]; [eauto|].
  apply list_lookup_singleton_Some in Hso as [_ <-]. done.
Qed.

Lemma world_sealed_store_set w s so so' c :
  world_sealed w → sets w !! s = Some so → set_root so' = set_root so →
  world_sealed (World (nodes w) (<[s := so']> (sets w)) (muts w) c).
Proof.
  intros (Hs & Hsets & Hmuts & Huniq) Hso Hr.
  split_and!; wsimpl; [done| |done..].
  intros s0 so0 Hs0. apply list_lookup_insert_Some in Hs0.
  destruct Hs0 as [(-> & -> & _)|[_ Hs0]]; [|eauto]. rewrite Hr. eauto.
Qed.

Lemma live_insert_same (ms : list mut_obj) m mo mo' t :
  ms !! m = Some mo → mut_mutid mo' = mut_mutid mo →
  live (<[m := mo']> ms) t → live ms t.
Proof.
  intros Hm Hid (Hnz & m0 & mo0 & Hm0 & <-). split; [done|].
  apply list_lookup_insert_Some in Hm0.
  destruct Hm0 as [(-> & -> & _)|[_ Hm0]]; [|eauto].
  exists m0, mo. by rewrite Hid.
Qed.

Lemma world_sealed_store_mut w m mo mo' c :
  world_sealed w → muts w !! m = Some mo → mut_mutid mo' = mut_mutid mo →
  slot_sealed (live (muts w)) (nodes w) (mut_mutid mo) (Child (mut_root mo')) →
  world_sealed (World (nodes w) (sets w) (<[m := mo']> (muts w)) c).
Proof.
  intros (Hs & Hsets & Hmuts & Huniq) Hm Hid Hr.
  assert (∀ l n, nodes w !! l = Some n →
            live (<[m := mo']> (muts w)) (node_mutid n) →
            live (muts w) (node_mutid n)) as HL
    by (intros l n _; by apply live_insert_same with mo).
  split_and!; wsimpl.
  - by eapply sealed_weaken.
  - intros s so Hso. eapply frozen_weaken; eauto.
  - intros m0 mo0 Hm0. eapply slot_sealed_weaken; [done|].
    apply list_lookup_insert_Some in Hm0.
    destruct Hm0 as [(-> & -> & _)|[_ Hm0]]; [|eauto]. by rewrite Hid.
  - intros m1 m2 mo1 mo2 Hm1 Hm2 Heq Hnz.
    apply list_lookup_insert_Some in Hm1, Hm2.
    destruct Hm1 as [(-> & -> & _)|[? Hm1]],
             Hm2 as [(-> & -> & _)|[? Hm2]]; try done.
    + apply (Huniq _ _ _ _ Hm Hm2); congruence.
    + apply (Huniq _ _ _ _ Hm1 Hm); congruence.
    + by apply (Huniq _ _ _ _ Hm1 Hm2).
Qed.

Lemma world_sealed_finish w m mo c count :
  world_sealed w → muts w !! m = Some mo →
  world_sealed
    (World (nodes w) (sets w) (<[m := MutObj count (mut_root mo) 0]> (muts w))
       c)
  ∧ frozen (live (<[m := MutObj count (mut_root mo) 0]> (muts w))) (nodes w)
      (mut_root mo).
Proof.
  intros (Hs & Hsets & Hmuts & Huniq) Hm.
  set (ms' := <[m := MutObj count (mut_root mo) 0]> (muts w)).
  assert (∀ t, live ms' t → live (muts w) t ∧ t ≠ mut_mutid mo) as Hlive.
  { intros t (Hnz & m0 & mo0 & Hm0 & <-).
    apply list_lookup_insert_Some in Hm0.
    destruct Hm0 as [(-> & <- & _)|[Hne Hm0]]; [done|].
    split; [split; eauto|].
    intros Heq. apply Hne. symmetry. by apply (Huniq _ _ _ _ Hm0 Hm). }
  assert (∀ l n, nodes w !! l = Some n →
            live ms' (node_mutid n) → live (muts w) (node_mutid n)) as HL
    by (intros l n _ Hl; by apply Hlive).
  assert (frozen (live ms') (nodes w) (mut_root mo)) as Hroot.
  { destruct (Hmuts _ _ Hm) as (n & Hn & Htag). exists n. split; [done|].
    intros Hl. destruct (Hlive _ Hl) as [Hl' Hne].
    destruct Htag; done. }
  split; [|done]. split_and!; wsimpl.
  - by eapply sealed_weaken.
  - intros s so Hso. eapply frozen_weaken; eauto.
  - intros m0 mo0 Hm0. apply list_lookup_insert_Some in Hm0.
    destruct Hm0 as [(-> & <- & _)|[_ Hm0]].
    + by apply frozen_slot_sealed.
    + eapply slot_sealed_weaken; eauto.
  - intros m1 m2 mo1 mo2 Hm1 Hm2 Heq Hnz.
    apply list_lookup_insert_Some in Hm1, Hm2.
    destruct Hm1 as [(-> & <- & _)|[? Hm1]]; [done|].
    destruct Hm2 as [(-> & <- & _)|[? Hm2]]; [simpl in *; congruence|].
    by apply (Huniq _ _ _ _ Hm1 Hm2).
Qed.

Lemma world_sealed_new_mut w s so count c :
  world_ok w → world_sealed w → sets w !! s = Some so →
  world_sealed
    (World (nodes w) (sets w)
       (muts w ++ [MutObj count (set_root so) (mut_id_counter w)]) c).
Proof.
  intros (_ & _ & Hn & Hm) (Hs & Hsets & Hmuts & Huniq) Hso.
  set (ms' := muts w ++ [MutObj count (set_root so) (mut_id_counter w)]).
  assert (∀ l n, nodes w !! l = Some n →
            live ms' (node_mutid n) → live (muts w) (node_mutid n)) as HL.
  { intros l n Hl (Hnz & m0 & mo0 & Hm0 & Heq). split; [done|].
    apply lookup_app_Some in Hm0 as [Hm0|[_ Hm0]]; [eauto|].
    apply list_lookup_singleton_Some in Hm0 as [_ <-]. simpl in Heq.
    specialize (Hn l n Hl). lia. }
  split_and!; wsimpl.
  - by eapply sealed_weaken.
  - intros s0 so0 Hso0. eapply frozen_weaken; eauto.
  - intros m0 mo0 Hm0. apply lookup_app_Some in Hm0 as [Hm0|[_ Hm0]].
    + eapply slot_sealed_weaken; eauto.
    + apply list_lookup_singleton_Some in Hm0 as [_ <-]. simpl.
      apply frozen_slot_sealed. eapply frozen_weaken; eauto.
  - intros m1 m2 mo1 mo2 Hm1 Hm2 Heq Hnz.
    apply lookup_app_Some in Hm1 as [Hm1|[Hl1 Hm1]];
      apply lookup_app_Some in Hm2 as [Hm2|[Hl2 Hm2]].
    + by apply (Huniq _ _ _ _ Hm1 Hm2).
    + apply list_lookup_singleton_Some in Hm2 as [_ <-]. simpl in *.
      specialize (Hm _ _ Hm1). lia.
    + apply list_lookup_singleton_Some in Hm1 as [_ <-]. simpl in *.
      specialize (Hm _ _ Hm2). lia.
    + apply list_lookup_singleton_Some in Hm1 as [? _].
      apply list_lookup_singleton_Some in Hm2 as [? _]. lia.
Qed.

End WorldSealed.

Section SealedOps.
Context {K : Type} `{Hashable K}.
Implicit Types (w : world K) (h : list (node K)) (L : Z → Prop).

Lemma node_add_sealed_tags L fuel self shift hash key mutid h :
  sealed L h → slot_sealed L h mutid (Child self) →
  wp (node_add fuel self shift hash key mutid) h
    (λ r h', sealed L h' ∧ same_tags h h'
             ∧ slot_sealed L h' mutid (Child r.1))
    (λ _ h', sealed L h' ∧ same_tags h h').
Proof.
  intros Hs Hr. eapply wp_mono;
    [apply wp_and; [by apply (node_add_sealed L)|apply node_add_frame]|..].
  - intros r h' [[? ?] [?%frame_same_tags _]]. done.
  - intros e h' [? [?%frame_same_tags _]]. done.
Qed.

Lemma node_without_sealed_tags L fuel self shift hash key mutid h :
  sealed L h → slot_sealed L h mutid (Child self) →
  wp (node_without fuel self shift hash key mutid) h
    (λ r h', sealed L h' ∧ same_tags h h'
             ∧ match r with
               | W_NEWNODE r => slot_sealed L h' mutid (Child r)
               | _ => True
               end)
    (λ _ h', sealed L h' ∧ same_tags h h').
Proof.
  intros Hs Hr. eapply wp_mono;
    [apply wp_and; [by apply (node_without_sealed L)|apply node_without_frame]
    |..].
  - intros r h' [[? ?] [?%frame_same_tags _]]. done.
  - intros e h' [? [?%frame_same_tags _]]. done.
Qed.

Lemma update_loop_sealed_tags L fuel it root count mutid h :
  sealed L h → slot_sealed L h mutid (Child root) →
  wp (update_loop fuel it root count mutid) h
    (λ r h', sealed L h' ∧ same_tags h h'
             ∧ slot_sealed L h' mutid (Child r.1))
    (λ _ h', sealed L h' ∧ same_tags h h').
Proof.
  intros Hs Hr. eapply wp_mono;
    [apply wp_and;
     [by apply (update_loop_sealed L)
     |apply update_loop_evolves, evolves_refl]|..].
  - intros r h' [[? ?] [?%frame_same_tags _]]. done.
  - intros e h' [? [?%frame_same_tags _]]. done.
Qed.

Lemma Set_init_sealed w :
  world_sealed w →
  wp Set_init w (λ _ w', world_sealed w') (λ _ w', world_sealed w').
Proof.
  intros Hws. pose proof Hws as (Hs & _).
  unfold Set_init. repeat wp_wstep; try done.
  apply (world_sealed_new_set (with_nodes w _)).
  - apply world_sealed_nodes; [done| |apply same_tags_app].
    apply sealed_app; [done|]. by constructor.
  - eexists. split; [apply lookup_app_last|]. apply live_zero.
Qed.

Lemma Set_include_sealed fuel s e w :
  world_sealed w →
  wp (Set_include fuel s e) w
    (λ _ w', world_sealed w') (λ _ w', world_sealed w').
Proof.
  intros Hws. pose proof Hws as (Hs & Hsets & _).
  unfold Set_include.
  repeat first
    [ wp_wstep
    | eapply wp_mono;
      [apply (node_add_sealed_tags (live (muts w)))
      |intros [??] ? (?&?&?)|intros ?? (?&?)] ];
  try done.
  all: try (apply frozen_slot_sealed; eauto; fail).
  all: try (by apply world_sealed_nodes).
  apply (world_sealed_new_set (with_nodes w _)); [by apply world_sealed_nodes|].
  eapply slot_sealed_frozen; [apply live_zero|done].
Qed.

Lemma Set_exclude_sealed fuel s e w :
  world_sealed w →
  wp (Set_exclude fuel s e) w
    (λ _ w', world_sealed w') (λ _ w', world_sealed w').
Proof.
  intros Hws. pose proof Hws as (Hs & Hsets & _).
  unfold Set_exclude.
  repeat first
    [ eapply wp_mono; [apply Set_init_sealed|intros ???|intros ???]
    | wp_wstep
    | eapply wp_mono;
      [apply (node_without_sealed_tags (live (muts w)))
      |intros ?? (?&?&?)|intros ?? (?&?)] ];
  try done.
  all: try (apply frozen_slot_sealed; eauto; fail).
  all: try (by apply world_sealed_nodes).
  apply (world_sealed_new_set (with_nodes w _)); [by apply world_sealed_nodes|].
  eapply slot_sealed_frozen; [apply live_zero|done].
Qed.

Lemma Set_update_sealed fuel s args w :
  world_ok w → world_sealed w →
  wp (Set_update fuel s args) w
    (λ _ w', world_sealed w') (λ _ w', world_sealed w').
Proof.
  intros (_ & _ & _ & Hlt) Hws. pose proof Hws as (Hs & Hsets & _).
  assert (¬ live (muts w) (mut_id_counter w)) as Hfresh.
  { intros Hl. pose proof (live_lt _ _ _ Hlt Hl). lia. }
  unfold Set_update. destruct args as [|arg args]; [done|].
  repeat first
    [ wp_wstep
    | eapply wp_mono;
      [apply (update_loop_sealed_tags (live (muts w)))
      |intros [??] ? (?&?&?)|intros ?? (?&?)] ];
  try done.
  all: try (apply frozen_slot_sealed; eauto; fail).
  - apply (world_sealed_new_set
             (World _ (sets w) (muts w) (mut_id_counter w + 1))).
    + by apply (world_sealed_nodes w).
    + by eapply slot_sealed_frozen.
  - by apply (world_sealed_nodes w).
Qed.

Lemma Set_mutate_sealed s w :
  world_ok w → world_sealed w →
  wp (Set_mutate s) w (λ _ w', world_sealed w') (λ _ w', world_sealed w').
Proof.
  intros Hok Hws. unfold Set_mutate. repeat wp_wstep; try done.
  unfold wp. wsimpl.
  by apply (world_sealed_new_mut w s).
Qed.

Lemma Set___hash___sealed maxsize fuel s w :
  world_sealed w →
  wp (Set___hash__ maxsize fuel s) w
    (λ _ w', world_sealed w') (λ _ w', world_sealed w').
Proof.
  intros Hws. unfold Set___hash__. repeat wp_wstep; try done.
  by eapply world_sealed_store_set.
Qed.

Lemma read_only_sealed {A} (m : M K (world K) A) w :
  (∀ w, wp m w (λ _ w', w' = w) (λ _ w', w' = w)) →
  world_sealed w →
  wp m w (λ _ w', world_sealed w') (λ _ w', world_sealed w').
Proof.
  intros Hro Hws. eapply wp_mono; [apply Hro|..]; by intros ? ? ->.
Qed.

Lemma run_set_op_sealed maxsize fuel s op w w' :
  world_ok w → world_sealed w →
  run_set_op maxsize fuel s op w = Some w' → world_sealed w'.
Proof.
  intros Hok Hws. destruct op; simpl; apply wp_final_state.
  - by apply Set_include_sealed.
  - by apply Set_exclude_sealed.
  - by apply Set_update_sealed.
  - by apply Set_mutate_sealed.
  - by apply Set___hash___sealed.
  - apply read_only_sealed; [|done]. intros w1.
    unfold Set___contains__. repeat wp_wstep; done.
  - apply read_only_sealed; [|done]. intros w1.
    unfold Set___iter__. repeat wp_wstep; done.
  - apply read_only_sealed; [|done]. intros w1.
    unfold Set___len__. repeat wp_wstep; done.
Qed.

End SealedOps.

Section SealedMutOps.
Context {K : Type} `{Hashable K}.
Implicit Types (w : world K) (h : list (node K)) (L : Z → Prop).

(** A mutator takes the root that an edit under its tag returned. *)
Lemma world_sealed_edit_mut w h' m mo mo' c :
  world_sealed w → muts w !! m = Some mo → mut_mutid mo' = mut_mutid mo →
  sealed (live (muts w)) h' → same_tags (nodes w) h' →
  slot_sealed (live (muts w)) h' (mut_mutid mo) (Child (mut_root mo')) →
  world_sealed (World h' (sets w) (<[m := mo']> (muts w)) c).
Proof.
  intros Hws Hm Hid Hs Ht Hr.
  by apply (world_sealed_store_mut (with_nodes w h') m mo);
    [apply world_sealed_nodes|..].
Qed.

Lemma SetMutation_include_sealed fuel m e w :
  world_sealed w →
  wp (SetMutation_include fuel m e) w
    (λ _ w', world_sealed w') (λ _ w', world_sealed w').
Proof.
  intros Hws. pose proof Hws as (Hs & _ & Hmuts & _).
  unfold SetMutation_include.
  repeat first
    [ wp_wstep
    | eapply wp_mono;
      [apply (node_add_sealed_tags (live (muts w)))
      |intros [??] ? (?&?&?)|intros ?? (?&?)] ];
  try done.
  all: try (eapply Hmuts; eassumption).
  all: try (by apply world_sealed_nodes).
  wsimpl. by eapply world_sealed_edit_mut.
Qed.

Lemma SetMutation_exclude_sealed fuel m e w :
  world_sealed w →
  wp (SetMutation_exclude fuel m e) w
    (λ _ w', world_sealed w') (λ _ w', world_sealed w').
Proof.
  intros Hws. pose proof Hws as (Hs & _ & Hmuts & _).
  unfold SetMutation_exclude.
  repeat first
    [ wp_wstep
    | eapply wp_mono;
      [apply (node_without_sealed_tags (live (muts w)))
      |intros ?? (?&?&?)|intros ?? (?&?)] ];
  try done.
  all: try (eapply Hmuts; eassumption).
  all: try (by apply world_sealed_nodes).
  - (* the mutator is now empty *)
    wsimpl. eapply world_sealed_edit_mut; [done..| | |].
    + apply sealed_app; [done|]. by constructor.
    + eapply same_tags_trans; [done|apply same_tags_app].
    + by apply slot_sealed_new.
  - wsimpl. by eapply world_sealed_edit_mut.
Qed.

End SealedMutOps.

Section SealedMutOps2.
Context {K : Type} `{Hashable K}.
Implicit Types (w : world K) (h : list (node K)) (L : Z → Prop).

Lemma SetMutation_update_sealed fuel m args w :
  world_sealed w →
  wp (SetMutation_update fuel m args) w
    (λ _ w', world_sealed w') (λ _ w', world_sealed w').
Proof.
  intros Hws. pose proof Hws as (Hs & _ & Hmuts & _).
  unfold SetMutation_update. destruct args as [|arg args].
  { repeat wp_wstep; done. }
  repeat first
    [ wp_wstep
    | eapply wp_mono;
      [apply (update_loop_sealed_tags (live (muts w)))
      |intros [??] ? (?&?&?)|intros ?? (?&?)] ];
  try done.
  all: try (eapply Hmuts; eassumption).
  all: try (by apply world_sealed_nodes).
  wsimpl. by eapply world_sealed_edit_mut.
Qed.

Lemma SetMutation_finish_sealed m w :
  world_sealed w →
  wp (SetMutation_finish m) w
    (λ _ w', world_sealed w') (λ _ w', world_sealed w').
Proof.
  intros Hws. unfold SetMutation_finish. repeat wp_wstep; try done.
  wsimpl.
  match goal with Hm : muts w !! m = Some ?mo |- _ =>
    destruct (world_sealed_finish w m mo (mut_id_counter w) (mut_count mo)
                Hws Hm) as [Hws' Hroot]
  end.
  by apply (world_sealed_new_set _ _ _ Hws').
Qed.

Lemma run_mut_op_sealed fuel m op w w' :
  world_sealed w → run_mut_op fuel m op w = Some w' → world_sealed w'.
Proof.
  intros Hws. destruct op; simpl; apply wp_final_state.
  - by apply SetMutation_include_sealed.
  - by apply SetMutation_exclude_sealed.
  - by apply SetMutation_update_sealed.
  - by apply SetMutation_finish_sealed.
Qed.

Lemma world_inv_init : world_inv (init_world (K:=K)).
Proof.
  split_and!; [apply world_ok_init| |by intros l n].
  split_and!; by intros.
Qed.

Lemma run_call_inv maxsize fuel c w w' :
  world_inv w → run_call maxsize fuel c w = Some w' → world_inv w'.
Proof.
  intros (Hok & Hws & Hwf) Hrun.
  split_and!; [by eapply run_call_world_ok| |by eapply run_call_wf].
  destruct c as [|s op|m op]; simpl in Hrun.
  - by apply (wp_final_state _ _ _ world_sealed (Set_init_sealed w Hws)).
  - by eapply run_set_op_sealed.
  - by eapply run_mut_op_sealed.
Qed.

Lemma run_calls_inv maxsize fuel cs : ∀ w w',
  world_inv w → run_calls maxsize fuel cs w = Some w' → world_inv w'.
Proof.
  induction cs as [|c cs IH]; intros w w' Hinv; simpl.
  - by intros [= <-].
  - destruct (run_call maxsize fuel c w) as [w1|] eqn:Hc; [|done].
    apply IH. by eapply run_call_inv.
Qed.

(** *** No call changes what a set shows *)

Lemma same_view_frozen s w w' mutid :
  world_sealed w → live (muts w) mutid →
  frame mutid (nodes w) (nodes w') → sets_kept w w' →
  same_view s w w'.
Proof.
  intros (Hs & Hsets & _) Hlive Hf Hkept. split_and!.
  - intros n. unfold Set___len__, bind, load_set.
    destruct (sets w !! s) as [so|] eqn:Hso; [|done].
    destruct (Hkept s so Hso) as (so' & -> & Hc & _).
    unfold ret. intros [= <-]. by rewrite Hc.
  - intros fuel' k b. unfold Set___contains__, bind, load_set.
    destruct (sets w !! s) as [so|] eqn:Hso; [|done].
    destruct (Hkept s so Hso) as (so' & -> & _ & Hr).
    intros [Hfind _]%read_Ok_inv. unfold read. rewrite Hr.
    rewrite (frozen_find _ _ _ _ _ _ _ _ _ Hs Hlive Hf (Hsets _ _ Hso)).
    by rewrite Hfind.
  - intros fuel' ks. unfold Set___iter__, bind, load_set.
    destruct (sets w !! s) as [so|] eqn:Hso; [|done].
    destruct (Hkept s so Hso) as (so' & -> & _ & Hr).
    intros [Hit _]%read_Ok_inv. unfold read. rewrite Hr.
    rewrite (frozen_iter _ _ _ _ _ _ Hs Hlive Hf (Hsets _ _ Hso)).
    by rewrite Hit.
Qed.

Lemma sets_kept_refl w : sets_kept w w.
Proof. intros s so Hso. eauto. Qed.

Lemma sets_kept_trans w0 w1 w2 :
  sets_kept w0 w1 → sets_kept w1 w2 → sets_kept w0 w2.
Proof.
  intros H1 H2 s so Hso. destruct (H1 s so Hso) as (so1 & Hso1 & Hc1 & Hr1).
  destruct (H2 s so1 Hso1) as (so2 & Hso2 & Hc2 & Hr2).
  exists so2. split_and!; congruence.
Qed.

Lemma same_view_refl s w : same_view s w w.
Proof. split_and!; eauto. Qed.

Lemma run_mut_op_unknown fuel m op w w' :
  muts w !! m = None → run_mut_op fuel m op w = Some w' → w' = w.
Proof.
  intros Hm. destruct op; simpl;
    unfold SetMutation_include, SetMutation_exclude, SetMutation_update,
      SetMutation_finish, bind, load_mut; rewrite Hm; simpl; congruence.
Qed.

Lemma run_call_same_view maxsize fuel c w w' :
  world_inv w → run_call maxsize fuel c w = Some w' →
  sets_kept w w' ∧ ∀ s, same_view s w w'.
Proof.
  intros (Hok & Hws & _) Hrun.
  assert (world_step w w' → sets_kept w w' ∧ ∀ s, same_view s w w') as Hstep.
  { intros Hstep. destruct (Hstep Hok) as (_ & Hp & Hs & _).
    split; [done|]. intros s. by apply world_step_same_view. }
  destruct c as [|s op|m op]; simpl in Hrun.
  - apply Hstep.
    by apply (wp_final_state _ _ _ (world_step w)
                (Set_init_step w w (world_step_refl w))).
  - apply Hstep. eapply run_set_op_step; [apply world_step_refl|done].
  - destruct (muts w !! m) as [mo|] eqn:Hm.
    2:{ rewrite (run_mut_op_unknown _ _ _ _ _ Hm Hrun).
        split; [apply sets_kept_refl|]. intros s. apply same_view_refl. }
    assert (tagged (mut_mutid mo) m w) as Htag by (exists mo; auto).
    destruct (run_mut_op_step _ _ _ _ _ _ Htag Hrun) as [[Hf Hsets] _].
    assert (sets_kept w w') as Hkept by (intros s so Hso; eauto).
    split; [done|]. intros s.
    destruct (decide (mut_mutid mo = 0)) as [Hz|Hnz].
    + rewrite Hz in Hf. apply same_view_of_step; [|by apply Hkept].
      by apply frame_zero_preserved.
    + eapply same_view_frozen; [done| |done..]. split; eauto.
Qed.

End SealedMutOps2.
(** ** Membership *)

Section FindPresent.
Context {K : Type} `{Hashable K}.
Implicit Types (h : list (node K)).

Lemma find_loop_index (array : list K) key (n : nat) : ∀ i,
  0 ≤ i →
  find_loop array key i n
  = match find_index_loop array key i n with
    | Val a => Val (negb (a =? -1))
    | Exn e => Exn e
    | Diverge => Diverge
    end.
Proof.
  induction n as [|n IH]; intros i Hi; simpl; [done|].
  destruct (list_getitem array i) as [k|]; [|done].
  destruct (decide (k = key)).
  - f_equal. symmetry. apply negb_true_iff, Z.eqb_neq. lia.
  - apply IH. lia.
Qed.

Lemma find_of_find_index size (array : list K) key a :
  CollisionNode_find_index size array key = Val a →
  CollisionNode_find size array key = Val (negb (a =? -1)).
Proof.
  unfold CollisionNode_find, CollisionNode_find_index. intros Hf.
  by rewrite find_loop_index, Hf.
Qed.

Lemma find_index_of_find size (array : list K) key b :
  CollisionNode_find size array key = Val b →
  ∃ a, CollisionNode_find_index size array key = Val a
       ∧ b = negb (a =? -1).
Proof.
  unfold CollisionNode_find, CollisionNode_find_index.
  rewrite find_loop_index by done.
  destruct (find_index_loop _ _ _ _) as [a| |]; [|done..].
  intros [= <-]. eauto.
Qed.

(** A search that [present] describes is a search that [find] makes. *)
Lemma present_find fuel : ∀ h l shift hash key,
  present fuel h l shift hash key →
  node_find fuel h l shift hash key = Val true.
Proof.
  induction fuel as [|fuel IH]; intros h l shift hash key; [done|].
  rewrite present_S. cbn [node_find].
  destruct (h !! l) as [[size bitmap array m|size self_hash array m]|];
    [| |done].
  - intros [Hbit Hslot]. unfold BitmapNode_find. rewrite Hbit. simpl.
    destruct (list_getitem _ _) as [[k|c]|]; [| |done].
    + by rewrite decide_True.
    + by apply IH.
  - intros [_ (i & Hi & Hne)]. rewrite (find_of_find_index _ _ _ _ Hi).
    f_equal. by apply negb_true_iff, Z.eqb_neq.
Qed.

(** In a well-formed store, a successful [find] of a key under its own
    hash is a search that [present] describes. *)
Lemma find_present fuel : ∀ h l shift key,
  heap_wf h →
  node_find fuel h l shift (set_hash key) key = Val true →
  present fuel h l shift (set_hash key) key.
Proof.
  induction fuel as [|fuel IH]; intros h l shift key Hw; [done|].
  rewrite present_S. cbn [node_find].
  destruct (h !! l) as [[size bitmap array m|size self_hash array m]|] eqn:Hl;
    [| |done].
  - unfold BitmapNode_find.
    destruct (truthy _) eqn:Hbit; [|done]. simpl.
    destruct (list_getitem _ _) as [[k|c]|]; [| |done].
    + destruct (decide (key = k)); [done|done].
    + intros Hf. split; [done|]. by apply IH.
  - intros (a & Ha & Hb)%find_index_of_find.
    symmetry in Hb. apply negb_true_iff, Z.eqb_neq in Hb.
    destruct (find_index_found _ _ _ _ Ha Hb) as (_ & _ & Hk).
    destruct (Hw _ _ Hl) as [_ Hall]. rewrite Forall_forall in Hall.
    split; [|eauto]. apply Hall. by eapply list_elem_of_lookup_2.
Qed.

End FindPresent.

Section Keeps.
Context {K : Type} `{Hashable K}.
Implicit Types (h : list (node K)).

(** The search in a collision node does not depend on the level. *)
Lemma present_collision_shift f h l shift shift' hash key size sh array m :
  h !! l = Some (CollisionNode size sh array m) →
  present f h l shift hash key → present f h l shift' hash key.
Proof. intros Hl. destruct f as [|f]; [done|]. by rewrite !present_S, Hl. Qed.

Lemma find_index_extend size (array : list K) key x a :
  CollisionNode_find_index size array key = Val a → a ≠ -1 →
  CollisionNode_find_index (size + 1) (array ++ [x]) key = Val a.
Proof.
  intros Hf Hne. apply find_index_loop_spec in Hf; [|done].
  destruct Hf as [[-> _]|(Hr & Ha & Hall)]; [done|].
  apply find_index_loop_complete; [lia|lia| |].
  - by apply lookup_app_l_Some.
  - intros j Hj. destruct (Hall j Hj) as (k & Hk & Hnk).
    exists k. split; [by apply lookup_app_l_Some|done].
Qed.

(** The slot of [he] was replaced by a child: a key on another slot is
    found as before, a key on that slot is found if the child has it. *)
Lemma present_with_slot f h h' l l' shift he hk k size size' bitmap array
    m m' sub :
  h !! l = Some (BitmapNode size bitmap array m) →
  h' !! l' = Some (BitmapNode size' bitmap
                     (<[Z.to_nat (set_bitindex bitmap (set_bitpos he shift))
                        := Child sub]> array) m') →
  preserved h h' →
  truthy (Z.land bitmap (set_bitpos he shift)) = true →
  set_bitindex bitmap (set_bitpos he shift) < Z.of_nat (length array) →
  present f h l shift hk k →
  (∀ f0, set_bitpos hk shift = set_bitpos he shift →
     match list_getitem array (set_bitindex bitmap (set_bitpos he shift)) with
     | Some (Child c) => present f0 h c (shift + 5) hk k
     | Some (Elem k0) => k = k0
     | None => False
     end →
     ∃ f', present f' h' sub (shift + 5) hk k) →
  ∃ f', present f' h' l' shift hk k.
Proof.
  intros Hl Hl' Hpre Hbit Hlen Hp Hsub.
  destruct f as [|f]; [done|]. rewrite present_S, Hl in Hp.
  destruct Hp as [Hbk Hslot].
  pose proof (set_bitindex_nonneg bitmap (set_bitpos he shift)).
  pose proof (set_bitindex_nonneg bitmap (set_bitpos hk shift)).
  destruct (decide (set_mask hk shift = set_mask he shift)) as [Heq|Hne].
  - apply set_bitpos_mask in Heq. rewrite Heq in Hslot.
    destruct (Hsub f Heq Hslot) as [f' Hf'].
    exists (S f'). rewrite present_S, Hl', Heq. split; [done|].
    by rewrite list_getitem_insert by lia.
  - exists (S f). rewrite present_S, Hl'. split; [done|].
    rewrite getitem_insert_ne; [|lia..|].
    + destruct (list_getitem _ _) as [[k0|c]|]; [done| |done].
      eapply present_mono; [|done..]. lia.
    + intros Hidx. apply Hne. symmetry. by eapply set_bitindex_inj.
Qed.

(** A free slot was filled. *)
Lemma present_free_slot f h h' l l' shift he hk k e size size' bitmap array
    m m' :
  h !! l = Some (BitmapNode size bitmap array m) →
  h' !! l' = Some (BitmapNode size' (Z.lor bitmap (set_bitpos he shift))
                     (slice_to array (set_bitindex bitmap (set_bitpos he shift))
                      ++ [Elem e]
                      ++ slice_from array
                           (set_bitindex bitmap (set_bitpos he shift))) m') →
  preserved h h' →
  truthy (Z.land bitmap (set_bitpos he shift)) = false →
  set_bitindex bitmap (set_bitpos he shift) ≤ Z.of_nat (length array) →
  present f h l shift hk k →
  present f h' l' shift hk k.
Proof.
  intros Hl Hl' Hpre Hbit Hlen Hp.
  destruct f as [|f]; [done|]. rewrite present_S, Hl in Hp.
  destruct Hp as [Hbk Hslot]. rewrite present_S, Hl'.
  pose proof (set_bitindex_nonneg bitmap (set_bitpos he shift)).
  pose proof (set_bitindex_nonneg bitmap (set_bitpos hk shift)).
  assert (set_mask he shift ≠ set_mask hk shift) as Hne.
  { intros Heq%set_bitpos_mask. rewrite Heq in Hbit. congruence. }
  rewrite truthy_lor_other by done. split; [done|].
  rewrite set_bitindex_lor_other by done.
  destruct (Z.ltb_spec (set_mask he shift) (set_mask hk shift)) as [Hlt|Hge];
    cbn [Z.b2z]; rewrite getitem_slice_insert by lia.
  - pose proof (set_bitindex_le_mask bitmap he hk shift ltac:(lia)).
    destruct (Z.ltb_spec (set_bitindex bitmap (set_bitpos hk shift) + 1)
                (set_bitindex bitmap (set_bitpos he shift))); [lia|].
    destruct (Z.eqb_spec (set_bitindex bitmap (set_bitpos hk shift) + 1)
                (set_bitindex bitmap (set_bitpos he shift))); [lia|].
    replace (set_bitindex bitmap (set_bitpos hk shift) + 1 - 1)
      with (set_bitindex bitmap (set_bitpos hk shift)) by lia.
    destruct (list_getitem _ _) as [[k0|c]|]; [done| |done].
    eapply present_mono; [|done..]. lia.
  - pose proof (set_bitindex_lt_mask bitmap hk he shift ltac:(lia) Hbk).
    rewrite Z.add_0_r.
    destruct (Z.ltb_spec (set_bitindex bitmap (set_bitpos hk shift))
                (set_bitindex bitmap (set_bitpos he shift))); [|lia].
    destruct (list_getitem _ _) as [[k0|c]|]; [done| |done].
    eapply present_mono; [|done..]. lia.
Qed.

End Keeps.

Section Keeps2.
Context {K : Type} `{Hashable K}.
Implicit Types (h : list (node K)).

Lemma node_add_keeps fuel : ∀ l shift hash e h,
  heap_ok h →
  wp (node_add fuel l shift hash e 0) h
    (λ r h', ∀ f k,
       present f h l shift (set_hash k) k →
       ∃ f', present f' h' r.1 shift (set_hash k) k)
    (λ _ _, True).
Proof.
  induction fuel as [|fuel IH]; intros l shift hash e h Hok; [done|].
  cbn [node_add]. unfold BitmapNode_add, CollisionNode_add.
  repeat (first
    [ wp_step
    | eapply wp_mono;
      [apply wp_and;
       [apply wp_and; [apply IH|apply node_add_present]|apply node_add_frame]
      |intros [??] ? [[??] [?%frame_zero_preserved ?]]|intros ???]
    | eapply wp_mono;
      [apply with_slot_persistent, set_bitindex_nonneg
      |intros ? ? (?&?&?&?&?&?&?&?&?)|intros ???] ];
    heap_norm);
  try done.
  all: try (apply heap_ok_app; [done|node_ok_solve]).
  all: try (match goal with Hh : heap_ok _ → heap_ok ?s |- heap_ok ?s =>
              apply Hh; apply heap_ok_app; [done|node_ok_solve] end).
  all: lift_lookups; eqb_norm; cbn [fst] in *.
  all: intros fq kq Hp.
  - (* the slot holds the key *)
    eauto.
  - (* a collision node for the two keys *)
    eapply (present_with_slot _ h);
      [done|apply lookup_app_last
      |eapply preserved_trans; apply preserved_app|done..|].
    intros f0 Hpos. rewrite_getitem. intros ->.
    exists 1%nat. rewrite present_S.
    rewrite lookup_app_l by (rewrite length_app; simpl; lia).
    rewrite lookup_app_last. split; [done|]. exists 0. split; [|done].
    unfold CollisionNode_find_index. simpl. by rewrite decide_True.
  - (* a sub-node for the two keys *)
    eapply (present_with_slot _ h);
      [done|apply lookup_app_last
      |eapply preserved_trans; [apply preserved_app|];
       eapply preserved_trans; [done|];
       eapply preserved_trans; [done|apply preserved_app]
      |done..|].
    intros f0 Hpos. rewrite_getitem. intros ->.
    match goal with
    | Hk : ∀ f k, present f ?s _ _ _ _ → ∃ f', present f' ?s' ?n _ _ _,
      Hp1 : present _ ?s _ _ (set_hash ?k) ?k |- _ =>
        destruct (Hk _ _ Hp1) as [f' Hf']
    end.
    exists f'. eapply present_mono; [|apply preserved_app|done]. lia.
  - (* the child did not change *)
    destruct fq as [|fq]; [done|]. rewrite present_S in Hp.
    match goal with Hl : h !! l = Some _ |- _ => rewrite Hl in Hp end.
    destruct Hp as [Hbk Hslot].
    destruct (list_getitem array (set_bitindex bitmap
                (set_bitpos (set_hash kq) shift))) as [[k0|c]|] eqn:Hg;
      [| |done].
    + exists 1%nat. rewrite present_S.
      match goal with Hl : ?s !! l = Some _ |- context [?s !! l] =>
        rewrite Hl end.
      split; [done|]. by rewrite Hg.
    + assert (∃ f', present f' s' c (shift + 5) (set_hash kq) kq)
        as [f' Hf'].
      { destruct (decide (c = n)) as [->|Hne]; [eauto|].
        exists fq. eapply present_mono; [|done..]. lia. }
      exists (S f'). rewrite present_S.
      match goal with Hl : ?s !! l = Some _ |- context [?s !! l] =>
        rewrite Hl end.
      split; [done|]. by rewrite Hg.
  - (* the child changed *)
    eapply (present_with_slot _ h);
      [done|apply lookup_app_last
      |eapply preserved_trans; [done|apply preserved_app]
      |done..|].
    intros f0 Hpos. rewrite_getitem. intros Hc.
    match goal with
    | Hk : ∀ f k, present f _ _ _ _ _ → ∃ f', _ |- _ =>
        destruct (Hk _ _ Hc) as [f' Hf']
    end.
    exists f'. eapply present_mono; [|apply preserved_app|done]. lia.
  - (* a free slot *)
    exists fq. eapply (present_free_slot _ h);
      [done|apply lookup_app_last|apply preserved_app|done| |done].
    match goal with
    | Hlen : Z.of_nat (length _) = set_bitcount ?bitmap + 1 |- _ =>
        rewrite length_slice_insert in Hlen by idx_range;
        assert (0 ≤ bitmap < 2 ^ 32) as Hrange by use_heap_ok;
        pose proof (set_bitindex_le bitmap (set_bitpos hash shift) Hrange)
    end.
    lia.
  - (* appended to the collision node *)
    destruct fq as [|fq]; [done|]. rewrite present_S in Hp.
    match goal with Hl : h !! l = Some _ |- _ => rewrite Hl in Hp end.
    destruct Hp as [Hh (i & Hi & Hne)].
    exists 1%nat. rewrite present_S, lookup_app_last. split; [congruence|].
    exists i. split; [|done]. by apply find_index_extend.
  - (* found in the collision node *)
    eauto.
  - (* a collision node of another hash, wrapped *)
    match goal with
    | Hk : ∀ f k, present f _ _ _ _ _ → ∃ f', _ |- _ => apply (Hk (S fq))
    end.
    pose proof Hp as Hp'.
    destruct fq as [|fq]; [done|]. rewrite present_S in Hp'.
    match goal with Hl : h !! l = Some _ |- _ => rewrite Hl in Hp' end.
    destruct Hp' as [Hh _]. subst hash0.
    rewrite present_S, lookup_app_last.
    pose proof (set_bitpos_range (set_hash kq) shift).
    split.
    + replace (Z.land _ _) with (set_bitpos (set_hash kq) shift)
        by Z.bitblast.
      unfold truthy. apply negb_true_iff, Z.eqb_neq. lia.
    + rewrite set_bitindex_self.
      replace (list_getitem [Child l] 0) with (Some (Child (K:=K) l)) by done.
      eapply present_collision_shift;
        [by apply lookup_app_l_Some|].
      eapply present_mono; [|apply preserved_app|done]. lia.
Qed.
End Keeps2.

Section IncludeMembers.
Context {K : Type} `{Hashable K}.
Implicit Types (w : world K).

Lemma Set___contains___present fuel s k w so :
  sets w !! s = Some so →
  present fuel (nodes w) (set_root so) 0 (set_hash k) k →
  Set___contains__ fuel s k w = Ok true w.
Proof.
  intros Hs Hp. unfold Set___contains__, bind, load_set, read.
  by rewrite Hs, (present_find _ _ _ _ _ _ Hp).
Qed.

Lemma Set___contains___true fuel s k w :
  heap_wf (nodes w) →
  Set___contains__ fuel s k w = Ok true w →
  ∃ so, sets w !! s = Some so
        ∧ present fuel (nodes w) (set_root so) 0 (set_hash k) k.
Proof.
  intros Hw. unfold Set___contains__, bind, load_set.
  destruct (sets w !! s) as [so|]; [|done].
  intros [Hf _]%read_Ok_inv. exists so. split; [done|].
  by apply find_present.
Qed.

Lemma Set_include_keeps fuel s s1 e w w1 so f k :
  world_ok w → sets w !! s = Some so →
  Set_include fuel s e w = Ok s1 w1 →
  present f (nodes w) (set_root so) 0 (set_hash k) k →
  ∃ so1 f', sets w1 !! s1 = Some so1
            ∧ present f' (nodes w1) (set_root so1) 0 (set_hash k) k.
Proof.
  intros (Hok & _) Hs. unfold Set_include, bind, load_set, on_nodes, ret, raise.
  rewrite Hs.
  pose proof (node_add_keeps fuel (set_root so) 0 (set_hash e) e (nodes w)
                Hok) as Hwp.
  destruct (node_add _ _ _ _ _ _ _) as [[r a] h'| |] eqn:Hadd; [|done..].
  pose proof (wp_Ok _ _ _ _ _ _ Hwp Hadd) as Hkeep. cbn [fst] in Hkeep.
  simpl. intros Hinc Hp. destruct (Hkeep _ _ Hp) as [f' Hf'].
  destruct (decide (r = set_root so)) as [->|Hne].
  - destruct a; simpl in Hinc; [done|]. injection Hinc as <- <-. simpl. eauto.
  - unfold Set__new in Hinc. injection Hinc as <- <-. simpl.
    eexists _, f'. split; [by apply list_lookup_middle|done].
Qed.

End IncludeMembers.
(** ** What [exclude] does not find, and what it keeps *)

Section NotFound.
Context {K : Type} `{Hashable K}.
Implicit Types (h : list (node K)).

Lemma find_index_loop_exn (array : list K) key (n : nat) : ∀ i e,
  find_index_loop array key i n = Exn e → e = IndexError.
Proof.
  induction n as [|n IH]; intros i e; simpl; [done|].
  destruct (list_getitem array i) as [k|]; [|congruence].
  destruct (decide (k = key)); [done|]. apply IH.
Qed.

Lemma with_slot_no_KeyError self mutid idx (x : slot K) h :
  wp (BitmapNode_with_slot self mutid idx x) h
    (λ _ _, True) (λ e _, ∀ k, e ≠ KeyError k).
Proof.
  unfold BitmapNode_with_slot, BitmapNode_clone, BitmapNode_setitem.
  repeat wp_step; heap_norm; done.
Qed.

(** [W_NOT_FOUND]: nothing was touched, and the search that [find] makes
    for the key fails too.  No node method raises [KeyError]. *)
Lemma node_without_not_found fuel : ∀ l shift hash key mutid h,
  wp (node_without fuel l shift hash key mutid) h
    (λ r h', r = W_NOT_FOUND →
       h' = h ∧ ∀ f, ¬ present f h l shift hash key)
    (λ e _, ∀ k, e ≠ KeyError k).
Proof.
  induction fuel as [|fuel IH]; intros l shift hash key mutid h; [done|].
  cbn [node_without]. unfold BitmapNode_without, CollisionNode_without.
  repeat (first
    [ wp_step
    | eapply wp_mono; [apply IH|intros ???|intros ???]
    | eapply wp_mono; [apply with_slot_no_KeyError|intros ???|intros ???] ];
    heap_norm);
  try done.
  all: try match goal with
         | Hf : CollisionNode_find_index _ _ _ = Exn _ |- _ =>
             apply find_index_loop_exn in Hf; subst; intros ?; discriminate
         end.
  all: repeat match goal with
         | Hb : negb _ = true |- _ => apply negb_true_iff in Hb
         | Hb : negb _ = false |- _ => apply negb_false_iff in Hb
         end; eqb_norm.
  all: intros _.
  all: try match goal with
         | Hrec : W_NOT_FOUND = W_NOT_FOUND → _ |- _ =>
             destruct (Hrec eq_refl) as [-> Hrec']
         end.
  all: split; [done|]; intros [|f] Hp; [exact Hp|]; revert Hp; present_unfold.
  - (* the slot is free *)
    intros [Hb _]. congruence.
  - (* the slot holds another key *)
    rewrite_getitem. by intros [_ ->].
  - (* the child does not have the key *)
    rewrite_getitem. intros [_ Hc]. by eapply Hrec'.
  - (* a collision node of another hash *)
    by intros [? _].
  - (* the search of the collision node fails *)
    intros [_ (i & Hi & Hne)]. congruence.
Qed.
End NotFound.

(** A bitmap with one bit has one occupied slot. *)
Lemma set_bitcount_one bitmap h1 h2 shift :
  0 ≤ bitmap < 2 ^ 32 → set_bitcount bitmap = 1 →
  truthy (Z.land bitmap (set_bitpos h1 shift)) = true →
  truthy (Z.land bitmap (set_bitpos h2 shift)) = true →
  set_mask h1 shift = set_mask h2 shift.
Proof.
  intros Hr Hc Hb1 Hb2. rewrite set_bitcount_spec in Hc by done.
  pose proof (set_mask_range h1 shift). pose proof (set_mask_range h2 shift).
  assert (∀ ha hb,
            truthy (Z.land bitmap (set_bitpos ha shift)) = true →
            truthy (Z.land bitmap (set_bitpos hb shift)) = true →
            0 ≤ set_mask ha shift < set_mask hb shift → set_mask hb shift < 32 →
            False) as Hlt.
  { intros ha hb Ha Hb Hab Hb32. rewrite truthy_land_bitpos in Ha, Hb.
    pose proof (bits_count_nonneg (Z.to_nat (set_mask ha shift)) bitmap).
    pose proof (bits_count_lt (Z.to_nat (set_mask ha shift))
                  (Z.to_nat (set_mask hb shift)) bitmap ltac:(lia)
                  ltac:(by rewrite Z2Nat.id by lia)).
    pose proof (bits_count_lt (Z.to_nat (set_mask hb shift)) 32 bitmap
                  ltac:(lia) ltac:(by rewrite Z2Nat.id by lia)).
    lia. }
  destruct (Z.lt_trichotomy (set_mask h1 shift) (set_mask h2 shift))
    as [?|[?|?]]; [|done|].
  - destruct (Hlt h1 h2); (done || lia).
  - destruct (Hlt h2 h1); (done || lia).
Qed.

Section KeepsOthers.
Context {K : Type} `{Hashable K}.
Implicit Types (h : list (node K)).

(** The slot of [he] was overwritten: a key on another slot is found as
    before, a key on that slot is found if the new content has it. *)
Lemma present_set_slot f h h' l l' shift he hk k size size' bitmap array
    m m' x :
  h !! l = Some (BitmapNode size bitmap array m) →
  h' !! l' = Some (BitmapNode size' bitmap
                     (<[Z.to_nat (set_bitindex bitmap (set_bitpos he shift))
                        := x]> array) m') →
  preserved h h' →
  truthy (Z.land bitmap (set_bitpos he shift)) = true →
  set_bitindex bitmap (set_bitpos he shift) < Z.of_nat (length array) →
  present f h l shift hk k →
  (∀ f0, set_bitpos hk shift = set_bitpos he shift →
     match list_getitem array (set_bitindex bitmap (set_bitpos he shift)) with
     | Some (Child c) => present f0 h c (shift + 5) hk k
     | Some (Elem k0) => k = k0
     | None => False
     end →
     match x with
     | Child sub => ∃ f', present f' h' sub (shift + 5) hk k
     | Elem k' => k = k'
     end) →
  ∃ f', present f' h' l' shift hk k.
Proof.
  intros Hl Hl' Hpre Hbit Hlen Hp Hsub.
  destruct f as [|f]; [done|]. rewrite present_S, Hl in Hp.
  destruct Hp as [Hbk Hslot].
  pose proof (set_bitindex_nonneg bitmap (set_bitpos he shift)).
  pose proof (set_bitindex_nonneg bitmap (set_bitpos hk shift)).
  destruct (decide (set_mask hk shift = set_mask he shift)) as [Heq|Hne].
  - apply set_bitpos_mask in Heq. rewrite Heq in Hslot.
    specialize (Hsub f Heq Hslot). destruct x as [k'|sub].
    + exists 1%nat. rewrite present_S, Hl', Heq. split; [done|].
      by rewrite list_getitem_insert by lia.
    + destruct Hsub as [f' Hf'].
      exists (S f'). rewrite present_S, Hl', Heq. split; [done|].
      by rewrite list_getitem_insert by lia.
  - exists (S f). rewrite present_S, Hl'. split; [done|].
    rewrite getitem_insert_ne; [|lia..|].
    + destruct (list_getitem _ _) as [[k0|c]|]; [done| |done].
      eapply present_mono; [|done..]. lia.
    + intros Hidx. apply Hne. symmetry. by eapply set_bitindex_inj.
Qed.

(** The slot of [he] was freed. *)
Lemma present_freed_slot f h h' l l' shift he hk k size size' bitmap array
    m m' :
  h !! l = Some (BitmapNode size bitmap array m) →
  h' !! l' = Some (BitmapNode size'
                     (Z.land bitmap (Z.lnot (set_bitpos he shift)))
                     (slice_to array (set_bitindex bitmap (set_bitpos he shift))
                      ++ slice_from array
                           (set_bitindex bitmap (set_bitpos he shift) + 1))
                     m') →
  preserved h h' →
  truthy (Z.land bitmap (set_bitpos he shift)) = true →
  set_bitindex bitmap (set_bitpos he shift) < Z.of_nat (length array) →
  set_mask hk shift ≠ set_mask he shift →
  present f h l shift hk k →
  present f h' l' shift hk k.
Proof.
  intros Hl Hl' Hpre Hbit Hlen Hne Hp.
  destruct f as [|f]; [done|]. rewrite present_S, Hl in Hp.
  destruct Hp as [Hbk Hslot]. rewrite present_S, Hl'.
  pose proof (set_bitindex_nonneg bitmap (set_bitpos he shift)).
  pose proof (set_bitindex_nonneg bitmap (set_bitpos hk shift)).
  rewrite truthy_clear_other by done. split; [done|].
  rewrite set_bitindex_clear_other by done.
  destruct (Z.ltb_spec (set_mask he shift) (set_mask hk shift)) as [Hlt|Hge];
    cbn [Z.b2z].
  - pose proof (set_bitindex_lt_mask bitmap he hk shift ltac:(lia) Hbit).
    rewrite getitem_slice_delete by lia.
    destruct (Z.ltb_spec (set_bitindex bitmap (set_bitpos hk shift) - 1)
                (set_bitindex bitmap (set_bitpos he shift))); [lia|].
    replace (set_bitindex bitmap (set_bitpos hk shift) - 1 + 1)
      with (set_bitindex bitmap (set_bitpos hk shift)) by lia.
    destruct (list_getitem _ _) as [[k0|c]|]; [done| |done].
    eapply present_mono; [|done..]. lia.
  - pose proof (set_bitindex_lt_mask bitmap hk he shift ltac:(lia) Hbk).
    rewrite Z.sub_0_r, getitem_slice_delete by lia.
    destruct (Z.ltb_spec (set_bitindex bitmap (set_bitpos hk shift))
                (set_bitindex bitmap (set_bitpos he shift))); [|lia].
    destruct (list_getitem _ _) as [[k0|c]|]; [done| |done].
    eapply present_mono; [|done..]. lia.
Qed.

(** The search of a collision node after another key was removed. *)
Lemma find_index_delete size (array : list K) key e a i :
  CollisionNode_find_index size array e = Val a → a ≠ -1 →
  CollisionNode_find_index size array key = Val i → i ≠ -1 →
  key ≠ e →
  CollisionNode_find_index (size - 1)
    (slice_to array a ++ slice_from array (a + 1)) key
  = Val (if i <? a then i else i - 1).
Proof.
  intros Ha Hane Hi Hine Hne.
  apply find_index_loop_spec in Ha; [|done].
  destruct Ha as [[-> _]|(Har & Hae & _)]; [done|].
  apply find_index_loop_spec in Hi; [|done].
  destruct Hi as [[-> _]|(Hir & Hik & Hall)]; [done|].
  pose proof (lookup_lt_Some _ _ _ Hae). pose proof (lookup_lt_Some _ _ _ Hik).
  assert (i ≠ a) as Hia by (intros ->; congruence).
  assert (∀ j, 0 ≤ j →
            (slice_to array a ++ slice_from array (a + 1)) !! Z.to_nat j
            = if j <? a then array !! Z.to_nat j
              else array !! Z.to_nat (j + 1)) as Hdel.
  { intros j Hj. rewrite <- !list_getitem_nonneg by lia.
    apply getitem_slice_delete; lia. }
  apply find_index_loop_complete.
  - destruct (Z.ltb_spec i a); lia.
  - destruct (Z.ltb_spec i a); lia.
  - destruct (Z.ltb_spec i a) as [Hlt|Hge].
    + rewrite Hdel by lia. by rewrite (proj2 (Z.ltb_lt _ _) Hlt).
    + rewrite Hdel by lia.
      rewrite (proj2 (Z.ltb_ge _ _)) by lia.
      by replace (i - 1 + 1) with i by lia.
  - intros j Hj. rewrite Hdel by lia.
    destruct (Z.ltb_spec j a); apply Hall; destruct (Z.ltb_spec i a); lia.
Qed.

End KeepsOthers.

Section KeepsOthers2.
Context {K : Type} `{Hashable K}.
Implicit Types (h : list (node K)).

Lemma node_without_keeps fuel : ∀ l shift hash e h,
  heap_wf h →
  wp (node_without fuel l shift hash e 0) h
    (λ r h', ∀ f k, k ≠ e → present f h l shift (set_hash k) k →
       match r with
       | W_NEWNODE r' => ∃ f', present f' h' r' shift (set_hash k) k
       | W_EMPTY => False
       | W_NOT_FOUND => True
       end)
    (λ _ _, True).
Proof.
  induction fuel as [|fuel IH]; intros l shift hash e h Hw; [done|].
  cbn [node_without]. unfold BitmapNode_without, CollisionNode_without.
  repeat (first
    [ wp_step
    | eapply wp_mono;
      [apply wp_and;
       [apply wp_and; [apply IH|apply node_without_wf]
       |apply node_without_frame]
      |intros ? ? [[??] ?%evolves_zero_preserved]|intros ???]
    | eapply wp_mono;
      [apply with_slot_persistent, set_bitindex_nonneg
      |intros ? ? (?&?&?&?&?&?&?&?&?)|intros ???] ];
    heap_norm);
  try done.
  all: lift_lookups; eqb_norm; cbn [fst] in *.
  all: repeat match goal with
         | Hb : negb _ = true |- _ => apply negb_true_iff in Hb
         | Hb : negb _ = false |- _ => apply negb_false_iff in Hb
         end; eqb_norm.
  all: intros fq kq Hkq Hp.
  - (* the only slot of the node *)
    destruct fq as [|fq]; [done|]. rewrite present_S in Hp.
    match goal with Hl : h !! l = Some _ |- _ =>
      rewrite Hl in Hp; destruct (Hw _ _ Hl) as (Hr & Hlen & Hcnt) end.
    destruct Hp as [Hbk Hslot].
    assert (set_mask (set_hash kq) shift = set_mask hash shift) as Heq
      by (eapply set_bitcount_one; [done|congruence|done..]).
    apply set_bitpos_mask in Heq. rewrite Heq in Hslot.
    revert Hslot. rewrite_getitem. done.
  - (* the slot of the key is freed *)
    exists fq. eapply (present_freed_slot _ h);
      [done|apply lookup_app_last|apply preserved_app|done| | |done].
    + match goal with Hg : list_getitem _ _ = Some _ |- _ =>
        apply list_getitem_lt in Hg; [done|apply set_bitindex_nonneg] end.
    + intros Heq%set_bitpos_mask.
      destruct fq as [|fq]; [done|]. rewrite present_S in Hp.
      match goal with Hl : h !! l = Some _ |- _ => rewrite Hl in Hp end.
      destruct Hp as [_ Hslot]. rewrite Heq in Hslot.
      revert Hslot. rewrite_getitem. done.
  - (* the leaf of the child, inlined *)
    eapply (present_set_slot _ h);
      [done|apply lookup_app_last
      |eapply preserved_trans; [done|apply preserved_app]
      |done..|].
    intros f0 Hpos. rewrite_getitem. intros Hc.
    match goal with
    | Hk : ∀ f k, k ≠ _ → present f _ _ _ _ _ → ∃ f', _ |- _ =>
        destruct (Hk _ _ Hkq Hc) as [[|f'] Hf']; [done|]
    end.
    rewrite present_S in Hf'.
    match goal with Hl : ?s !! n = Some _, Hw' : heap_wf ?s |- _ =>
      rewrite Hl in Hf'; destruct (Hw' _ _ Hl) as (_ & Hlen & _) end.
    destruct Hf' as [_ Hslot].
    pose proof (set_bitindex_nonneg bitmap0
                  (set_bitpos (set_hash kq) (shift + 5))) as Hnn.
    destruct (list_getitem array0 (set_bitindex bitmap0 _)) as [x|] eqn:Hg;
      [|done].
    pose proof (list_getitem_lt _ _ _ Hnn Hg).
    replace (set_bitindex bitmap0 (set_bitpos (set_hash kq) (shift + 5)))
      with 0 in Hg by lia.
    rewrite Hg in *. by simplify_eq.
  - (* a size-1 child that holds a node *)
    eapply (present_set_slot _ h);
      [done|apply lookup_app_last
      |eapply preserved_trans; [done|apply preserved_app]
      |done..|].
    intros f0 Hpos. rewrite_getitem. intros Hc.
    match goal with
    | Hk : ∀ f k, k ≠ _ → present f _ _ _ _ _ → ∃ f', _ |- _ =>
        destruct (Hk _ _ Hkq Hc) as [f' Hf']
    end.
    exists f'. eapply present_mono; [|apply preserved_app|done]. lia.
  - (* a larger bitmap child *)
    eapply (present_set_slot _ h);
      [done|apply lookup_app_last
      |eapply preserved_trans; [done|apply preserved_app]
      |done..|].
    intros f0 Hpos. rewrite_getitem. intros Hc.
    match goal with
    | Hk : ∀ f k, k ≠ _ → present f _ _ _ _ _ → ∃ f', _ |- _ =>
        destruct (Hk _ _ Hkq Hc) as [f' Hf']
    end.
    exists f'. eapply present_mono; [|apply preserved_app|done]. lia.
  - (* a collision child *)
    eapply (present_set_slot _ h);
      [done|apply lookup_app_last
      |eapply preserved_trans; [done|apply preserved_app]
      |done..|].
    intros f0 Hpos. rewrite_getitem. intros Hc.
    match goal with
    | Hk : ∀ f k, k ≠ _ → present f _ _ _ _ _ → ∃ f', _ |- _ =>
        destruct (Hk _ _ Hkq Hc) as [f' Hf']
    end.
    exists f'. eapply present_mono; [|apply preserved_app|done]. lia.
  - (* a collision node of size 1 *)
    destruct fq as [|fq]; [done|]. rewrite present_S in Hp.
    match goal with Hl : h !! l = Some _ |- _ => rewrite Hl in Hp end.
    destruct Hp as [_ (i & Hi & Hine)].
    match goal with Hf : CollisionNode_find_index _ _ e = Val ?a,
                    Hne : ?a ≠ -1 |- _ =>
      destruct (find_index_found _ _ _ _ Hf Hne) as (? & ? & Hea) end.
    destruct (find_index_found _ _ _ _ Hi Hine) as (? & ? & Hki).
    replace i with a in Hki by lia. congruence.
  - (* two keys, the first removed *)
    destruct fq as [|fq]; [done|]. rewrite present_S in Hp.
    match goal with Hl : h !! l = Some _ |- _ => rewrite Hl in Hp end.
    destruct Hp as [Hh (i & Hi & Hine)].
    match goal with Hf : CollisionNode_find_index _ _ e = Val ?a,
                    Hne : ?a ≠ -1 |- _ =>
      destruct (find_index_found _ _ _ _ Hf Hne) as (? & ? & Hea) end.
    destruct (find_index_found _ _ _ _ Hi Hine) as (? & ? & Hki).
    assert (i = 1) as -> by (destruct (decide (i = 0)) as [->|]; [|lia];
                             subst; congruence).
    match goal with Hg : list_getitem array 1 = Some _ |- _ =>
      rewrite list_getitem_nonneg in Hg by lia end.
    assert (a0 = kq) as -> by congruence.
    exists 1%nat. rewrite present_S, lookup_app_last, Hh. subst hash.
    pose proof (set_bitpos_range hash0 shift). split.
    + replace (Z.land _ _) with (set_bitpos hash0 shift) by Z.bitblast.
      unfold truthy. apply negb_true_iff, Z.eqb_neq. lia.
    + by rewrite set_bitindex_self.
  - (* two keys, the second removed *)
    destruct fq as [|fq]; [done|]. rewrite present_S in Hp.
    match goal with Hl : h !! l = Some _ |- _ => rewrite Hl in Hp end.
    destruct Hp as [Hh (i & Hi & Hine)].
    match goal with Hf : CollisionNode_find_index _ _ e = Val ?a,
                    Hne : ?a ≠ -1 |- _ =>
      destruct (find_index_found _ _ _ _ Hf Hne) as (? & ? & Hea) end.
    destruct (find_index_found _ _ _ _ Hi Hine) as (? & ? & Hki).
    assert (i = 0) as -> by (destruct (decide (i = 1)) as [->|]; [|lia];
                             subst; congruence).
    match goal with Hg : list_getitem array 0 = Some _ |- _ =>
      rewrite list_getitem_nonneg in Hg by lia end.
    assert (a0 = kq) as -> by congruence.
    exists 1%nat. rewrite present_S, lookup_app_last, Hh. subst hash.
    pose proof (set_bitpos_range hash0 shift). split.
    + replace (Z.land _ _) with (set_bitpos hash0 shift) by Z.bitblast.
      unfold truthy. apply negb_true_iff, Z.eqb_neq. lia.
    + by rewrite set_bitindex_self.
  - (* a larger collision node *)
    destruct fq as [|fq]; [done|]. rewrite present_S in Hp.
    match goal with Hl : h !! l = Some _ |- _ => rewrite Hl in Hp end.
    destruct Hp as [Hh (i & Hi & Hine)].
    exists 1%nat. rewrite present_S, lookup_app_last. split; [done|].
    eexists. split; [by eapply find_index_delete|].
    match goal with Hf : CollisionNode_find_index _ _ e = Val ?a,
                    Hne : ?a ≠ -1 |- _ =>
      destruct (find_index_found _ _ _ _ Hf Hne) as (? & ? & Hea) end.
    destruct (find_index_found _ _ _ _ Hi Hine) as (? & ? & Hki).
    assert (i ≠ a) by (intros ->; congruence).
    destruct (Z.ltb_spec i a); lia.
Qed.
End KeepsOthers2.

Section ExcludeMembers.
Context {K : Type} `{Hashable K}.
Implicit Types (w : world K).

Lemma with_nodes_same w : with_nodes w (nodes w) = w.
Proof. by destruct w. Qed.

Lemma Set_init_returns w : ∃ s w', Set_init (K:=K) w = Ok s w'.
Proof. unfold Set_init, bind, on_nodes, BitmapNode_new. simpl. eauto. Qed.

Lemma Set_exclude_KeyError fuel s e k w w' :
  Set_exclude fuel s e w = Raise (KeyError k) w' →
  k = e ∧ w' = w
  ∧ ∃ so, sets w !! s = Some so
          ∧ ∀ f, ¬ present f (nodes w) (set_root so) 0 (set_hash e) e.
Proof.
  unfold Set_exclude, bind, load_set, on_nodes.
  destruct (sets w !! s) as [so|] eqn:Hs; [|done].
  pose proof (node_without_not_found fuel (set_root so) 0 (set_hash e) e 0
                (nodes w)) as Hwp.
  destruct (node_without _ _ _ _ _ _ _) as [r h'|ex h'|] eqn:Hwo; [| |done].
  - pose proof (wp_Ok _ _ _ _ _ _ Hwp Hwo) as Hnf.
    destruct r as [|r|].
    + destruct (Set_init_returns (with_nodes w h')) as (s0 & w0 & ->). done.
    + done.
    + destruct (Hnf eq_refl) as [-> Habs]. unfold raise.
      intros [= <- <-]. rewrite with_nodes_same. eauto.
  - pose proof (wp_Raise _ _ _ _ _ _ Hwp Hwo) as Hne.
    intros [= -> _]. by destruct (Hne k).
Qed.

Lemma SetMutation_exclude_KeyError fuel m e k w w' :
  SetMutation_exclude fuel m e w = Raise (KeyError k) w' →
  k = e ∧ w' = w
  ∧ ∃ mo, muts w !! m = Some mo
          ∧ ∀ f, ¬ present f (nodes w) (mut_root mo) 0 (set_hash e) e.
Proof.
  unfold SetMutation_exclude, bind, load_mut, on_nodes.
  destruct (muts w !! m) as [mo|] eqn:Hm; [|done].
  destruct (mut_mutid mo =? 0); [done|].
  pose proof (node_without_not_found fuel (mut_root mo) 0 (set_hash e) e
                (mut_mutid mo) (nodes w)) as Hwp.
  destruct (node_without _ _ _ _ _ _ _) as [r h'|ex h'|] eqn:Hwo; [| |done].
  - pose proof (wp_Ok _ _ _ _ _ _ Hwp Hwo) as Hnf.
    destruct r as [|r|]; [done|done|].
    destruct (Hnf eq_refl) as [-> Habs]. unfold raise.
    intros [= <- <-]. rewrite with_nodes_same. eauto.
  - pose proof (wp_Raise _ _ _ _ _ _ Hwp Hwo) as Hne.
    intros [= -> _]. by destruct (Hne k).
Qed.

Lemma Set_exclude_keeps fuel s s1 e w w1 so f k :
  heap_wf (nodes w) → sets w !! s = Some so →
  Set_exclude fuel s e w = Ok s1 w1 → k ≠ e →
  present f (nodes w) (set_root so) 0 (set_hash k) k →
  ∃ so1 f', sets w1 !! s1 = Some so1
            ∧ present f' (nodes w1) (set_root so1) 0 (set_hash k) k.
Proof.
  intros Hw Hs. unfold Set_exclude, bind, load_set, on_nodes. rewrite Hs.
  pose proof (node_without_keeps fuel (set_root so) 0 (set_hash e) e (nodes w)
                Hw) as Hwp.
  destruct (node_without _ _ _ _ _ _ _) as [r h'| |] eqn:Hwo; [|done..].
  pose proof (wp_Ok _ _ _ _ _ _ Hwp Hwo) as Hkeep.
  intros Hex Hne Hp. specialize (Hkeep _ _ Hne Hp).
  destruct r as [|r|]; [done| |done].
  destruct Hkeep as [f' Hf']. unfold Set__new in Hex.
  injection Hex as <- <-. simpl.
  eexists _, f'. split; [by apply list_lookup_middle|done].
Qed.

End ExcludeMembers.

(** ** What [include] adds *)

Section OnlyHelpers.
Context {K : Type} `{Hashable K}.
Implicit Types (h : list (node K)).

Lemma sealed_closed L h : sealed L h → closed h.
Proof. apply sealed_weaken. by intros. Qed.

Lemma closed_child h l size bitmap array m i c :
  closed h → h !! l = Some (BitmapNode size bitmap array m) →
  list_getitem array i = Some (Child c) → is_Some (h !! c).
Proof.
  intros Hc Hl Hg. specialize (Hc _ _ Hl). simpl in Hc.
  rewrite Forall_forall in Hc.
  destruct (Hc _ (list_getitem_elem_of _ _ _ Hg)) as (n & Hn & _). eauto.
Qed.

(** What is found in a store that extends a closed one, from one of its
    nodes, was there before. *)
Lemma present_restrict f : ∀ h h' l shift hash key,
  preserved h h' → closed h → is_Some (h !! l) →
  present f h' l shift hash key → present f h l shift hash key.
Proof.
  induction f as [|f IH]; intros h h' l shift hash key Hp Hc [n Hl]; [done|].
  rewrite !present_S, Hl, (Hp _ _ Hl).
  destruct n as [size bitmap array m|]; [|done].
  intros [Hb Hslot]. split; [done|].
  destruct (list_getitem _ _) as [[k|c]|] eqn:Hg; [done| |done].
  eapply IH; [done..| |done]. by eapply closed_child.
Qed.

Lemma present_S_inv f h l shift hash (key : K) :
  present f h l shift hash key → ∃ f0, f = S f0.
Proof. destruct f; [done|eauto]. Qed.

(** The converse of [present_set_slot]. *)
Lemma present_set_slot_inv f h h' l l' shift he hk k size size' bitmap array
    m m' x :
  h !! l = Some (BitmapNode size bitmap array m) →
  h' !! l' = Some (BitmapNode size' bitmap
                     (<[Z.to_nat (set_bitindex bitmap (set_bitpos he shift))
                        := x]> array) m') →
  preserved h h' → closed h →
  truthy (Z.land bitmap (set_bitpos he shift)) = true →
  set_bitindex bitmap (set_bitpos he shift) < Z.of_nat (length array) →
  present (S f) h' l' shift hk k →
  present (S f) h l shift hk k
  ∨ (set_bitpos hk shift = set_bitpos he shift
     ∧ match x with
       | Child sub => present f h' sub (shift + 5) hk k
       | Elem k' => k = k'
       end).
Proof.
  intros Hl Hl' Hpre Hc Hbit Hlen. rewrite !present_S, Hl, Hl'.
  intros [Hbk Hslot].
  pose proof (set_bitindex_nonneg bitmap (set_bitpos he shift)).
  pose proof (set_bitindex_nonneg bitmap (set_bitpos hk shift)).
  destruct (decide (set_mask hk shift = set_mask he shift)) as [Heq|Hne].
  - right. apply set_bitpos_mask in Heq. split; [done|].
    rewrite Heq, list_getitem_insert in Hslot by lia. by destruct x.
  - left. split; [done|]. rewrite getitem_insert_ne in Hslot; [|lia..|].
    + destruct (list_getitem _ _) as [[k0|c]|] eqn:Hg; [done| |done].
      eapply present_restrict; [done..| |done]. by eapply closed_child.
    + intros Hidx. apply Hne. symmetry. by eapply set_bitindex_inj.
Qed.

(** The converse of [present_free_slot]. *)
Lemma present_free_slot_inv f h h' l l' shift he hk k e size size' bitmap
    array m m' :
  h !! l = Some (BitmapNode size bitmap array m) →
  h' !! l' = Some (BitmapNode size' (Z.lor bitmap (set_bitpos he shift))
                     (slice_to array (set_bitindex bitmap (set_bitpos he shift))
                      ++ [Elem e]
                      ++ slice_from array
                           (set_bitindex bitmap (set_bitpos he shift))) m') →
  preserved h h' → closed h →
  truthy (Z.land bitmap (set_bitpos he shift)) = false →
  set_bitindex bitmap (set_bitpos he shift) ≤ Z.of_nat (length array) →
  present f h' l' shift hk k →
  k = e ∨ present f h l shift hk k.
Proof.
  intros Hl Hl' Hpre Hc Hbit Hlen Hp.
  destruct f as [|f]; [done|]. rewrite present_S, Hl' in Hp.
  destruct Hp as [Hbk Hslot]. rewrite present_S, Hl.
  pose proof (set_bitindex_nonneg bitmap (set_bitpos he shift)).
  pose proof (set_bitindex_nonneg bitmap (set_bitpos hk shift)).
  destruct (decide (set_mask he shift = set_mask hk shift)) as [Heq|Hne].
  - left. apply set_bitpos_mask in Heq. rewrite <- Heq in Hslot.
    rewrite set_bitindex_lor, getitem_slice_insert in Hslot by lia.
    rewrite Z.ltb_irrefl, Z.eqb_refl in Hslot. done.
  - right. rewrite truthy_lor_other in Hbk by done. split; [done|].
    rewrite set_bitindex_lor_other in Hslot by done.
    destruct (Z.ltb_spec (set_mask he shift) (set_mask hk shift))
      as [Hlt|Hge]; cbn [Z.b2z] in Hslot;
      rewrite getitem_slice_insert in Hslot by lia.
    + pose proof (set_bitindex_le_mask bitmap he hk shift ltac:(lia)).
      destruct (Z.ltb_spec (set_bitindex bitmap (set_bitpos hk shift) + 1)
                  (set_bitindex bitmap (set_bitpos he shift))); [lia|].
      destruct (Z.eqb_spec (set_bitindex bitmap (set_bitpos hk shift) + 1)
                  (set_bitindex bitmap (set_bitpos he shift))); [lia|].
      replace (set_bitindex bitmap (set_bitpos hk shift) + 1 - 1)
        with (set_bitindex bitmap (set_bitpos hk shift)) in Hslot by lia.
      destruct (list_getitem _ _) as [[k0|c]|] eqn:Hg; [done| |done].
      eapply present_restrict; [done..| |done]. by eapply closed_child.
    + pose proof (set_bitindex_lt_mask bitmap hk he shift ltac:(lia) Hbk).
      rewrite Z.add_0_r in Hslot.
      destruct (Z.ltb_spec (set_bitindex bitmap (set_bitpos hk shift))
                  (set_bitindex bitmap (set_bitpos he shift))); [|lia].
      destruct (list_getitem _ _) as [[k0|c]|] eqn:Hg; [done| |done].
      eapply present_restrict; [done..| |done]. by eapply closed_child.
Qed.

(** The converse of [find_index_extend]. *)
Lemma find_index_extend_inv size (array : list K) key x a :
  Z.of_nat (length array) ≤ size →
  CollisionNode_find_index size array x = Val (-1) →
  CollisionNode_find_index (size + 1) (array ++ [x]) key = Val a → a ≠ -1 →
  key = x ∨ CollisionNode_find_index size array key = Val a.
Proof.
  intros Hsize Hx Hf Hne.
  apply find_index_loop_spec in Hx; [|done].
  destruct Hx as [[_ Hallx]|(Hr & _)]; [|lia].
  assert (size = Z.of_nat (length array)) as ->.
  { destruct (decide (size = Z.of_nat (length array))) as [|Hn]; [done|].
    destruct (Hallx (Z.of_nat (length array))) as (k & Hk & _); [lia|].
    apply lookup_lt_Some in Hk. lia. }
  apply find_index_loop_spec in Hf; [|done].
  destruct Hf as [[-> _]|(Hr & Ha & Hall)]; [done|].
  destruct (decide (a = Z.of_nat (length array))) as [->|Hlt].
  - left. rewrite Nat2Z.id, list_lookup_middle in Ha by done. congruence.
  - right. apply find_index_loop_complete; [lia|lia| |].
    + rewrite lookup_app_l in Ha by lia. done.
    + intros j Hj. destruct (Hall j Hj) as (k & Hk & Hnk).
      rewrite lookup_app_l in Hk by lia. eauto.
Qed.

End OnlyHelpers.

Section Only.
Context {K : Type} `{Hashable K}.
Implicit Types (h : list (node K)).

Lemma closed_rooted h l mutid :
  is_Some (h !! l) → slot_sealed (λ _, False) h mutid (Child l).
Proof.
  intros [n Hl]. exists n. split; [done|]. right. intros Hf. exact Hf.
Qed.

Lemma rooted_is_Some (L : Z → Prop) h l mutid :
  slot_sealed L h mutid (Child l) → is_Some (h !! l).
Proof. intros (n & Hl & _). eauto. Qed.

Lemma node_add_closed fuel l shift hash e mutid h :
  closed h → is_Some (h !! l) →
  wp (node_add fuel l shift hash e mutid) h
    (λ r h', closed h' ∧ is_Some (h' !! r.1)) (λ _ h', closed h').
Proof.
  intros Hc Hl. eapply wp_mono;
    [apply (node_add_sealed (λ _, False)); [done|by apply closed_rooted]|..].
  - intros r h' [? (n & Hn & _)]. eauto.
  - done.
Qed.

Lemma truthy_bitpos_bitpos ha hb shift :
  truthy (Z.land (set_bitpos ha shift) (set_bitpos hb shift)) = true →
  set_bitpos hb shift = set_bitpos ha shift.
Proof.
  pose proof (set_mask_range ha shift). pose proof (set_mask_range hb shift).
  intros Hb.
  rewrite truthy_land_bitpos, set_bitpos_pow2, Z.pow2_bits_eqb in Hb by lia.
  apply Z.eqb_eq in Hb. by apply set_bitpos_mask.
Qed.

Lemma node_add_only fuel : ∀ l shift hash e h,
  heap_ok h → closed h → is_Some (h !! l) →
  wp (node_add fuel l shift hash e 0) h
    (λ r h', ∀ f k,
       present f h' r.1 shift (set_hash k) k →
       k = e ∨ present f h l shift (set_hash k) k)
    (λ _ _, True).
Proof.
  induction fuel as [|fuel IH]; intros l shift hash e h Hok Hc Hsome; [done|].
  cbn [node_add]. unfold BitmapNode_add, CollisionNode_add.
  repeat (first
    [ wp_step
    | eapply wp_mono;
      [apply wp_and;
       [apply wp_and; [apply IH|apply node_add_closed]|apply node_add_frame]
      |intros [??] ? [[? [??]] [?%frame_zero_preserved ?]]|intros ???]
    | eapply wp_mono;
      [apply with_slot_persistent, set_bitindex_nonneg
      |intros ? ? (?&?&?&?&?&?&?&?&?)|intros ???] ];
    heap_norm);
  try done.
  all: try (apply heap_ok_app; [done|node_ok_solve]).
  all: try (match goal with Hh : heap_ok _ → heap_ok ?s |- heap_ok ?s =>
              apply Hh; apply heap_ok_app; [done|node_ok_solve] end).
  all: try (by eapply closed_child).
  all: try (rewrite lookup_app_last; by eexists).
  all: try (apply sealed_app; [done|]; simpl;
            first [ by constructor
                  | constructor; [by apply closed_rooted|constructor] ]).
  all: lift_lookups; eqb_norm; cbn [fst] in *.
  all: intros fq kq Hp.
  - (* the slot holds the key *)
    by right.
  - (* a collision node for the two keys *)
    destruct fq as [|fq]; [done|].
    eapply (present_set_slot_inv _ h) in Hp;
      [|done|apply lookup_app_last
       |eapply preserved_trans; apply preserved_app|done..].
    destruct Hp as [?|[Hpos Hsub]]; [by right|].
    destruct fq as [|fq]; [done|]. rewrite present_S in Hsub.
    rewrite lookup_app_l in Hsub by (rewrite length_app; simpl; lia).
    rewrite lookup_app_last in Hsub. destruct Hsub as [_ (i & Hi & Hne)].
    unfold CollisionNode_find_index in Hi. simpl in Hi.
    destruct (decide (k = kq)) as [->|Hk].
    + right. rewrite present_S.
      match goal with Hl : h !! l = Some _ |- _ => rewrite Hl end.
      rewrite Hpos. split; [done|]. by rewrite_getitem.
    + simpl in Hi. destruct (decide (e = kq)) as [->|]; [by left|done].
  - (* a sub-node for the two keys *)
    destruct fq as [|fq]; [done|].
    eapply (present_set_slot_inv _ h) in Hp;
      [|done|apply lookup_app_last
       |eapply preserved_trans; [apply preserved_app|];
        eapply preserved_trans; [done|];
        eapply preserved_trans; [done|apply preserved_app]
       |done..].
    destruct Hp as [?|[Hpos Hsub]]; [by right|].
    eapply present_restrict in Hsub; [|apply preserved_app|done..].
    match goal with
    | Hk : ∀ f k, present f ?s ?n _ _ _ → k = e ∨ _ |- _ =>
        destruct (Hk _ _ Hsub) as [?|Hsub1]; [by left|]
    end.
    match goal with
    | Hk : ∀ f k0, present f ?s ?n _ _ _ → k0 = k ∨ _ |- _ =>
        destruct (Hk _ _ Hsub1) as [->|Hsub0]
    end.
    + right. rewrite present_S.
      match goal with Hl : h !! l = Some _ |- _ => rewrite Hl end.
      rewrite Hpos. split; [done|]. by rewrite_getitem.
    + destruct fq as [|fq]; [done|].
      rewrite present_S, lookup_app_last in Hsub0. by destruct Hsub0.
  - (* the child did not change *)
    destruct fq as [|fq]; [done|]. rewrite present_S in Hp.
    match goal with Hl : ?s !! l = Some _, Hpre : preserved h ?s |- _ =>
      rewrite Hl in Hp end.
    destruct Hp as [Hbk Hslot].
    assert (kq = e
            ∨ match list_getitem array
                      (set_bitindex bitmap
                         (set_bitpos (set_hash kq) shift)) with
              | Some (Child c) => present fq h c (shift + 5) (set_hash kq) kq
              | Some (Elem k0) => kq = k0
              | None => False
              end) as [?|Hslot'].
    { destruct (list_getitem array (set_bitindex bitmap
                  (set_bitpos (set_hash kq) shift))) as [[k0|c]|] eqn:Hg;
        [by right| |done].
      destruct (decide (c = n)) as [->|Hne].
      - match goal with
        | Hk : ∀ f k, present f ?s ?n _ _ _ → k = e ∨ _ |- _ =>
            destruct (Hk _ _ Hslot) as [?|?]; [by left|by right]
        end.
      - right. eapply present_restrict; [done..|by eapply closed_child|done]. }
    { by left. }
    right. rewrite present_S.
    match goal with Hl : h !! l = Some _ |- _ => rewrite Hl end.
    done.
  - (* the child changed *)
    destruct fq as [|fq]; [done|].
    eapply (present_set_slot_inv _ h) in Hp;
      [|done|apply lookup_app_last
       |eapply preserved_trans; [done|apply preserved_app]
       |done..].
    destruct Hp as [?|[Hpos Hsub]]; [by right|].
    eapply present_restrict in Hsub; [|apply preserved_app|done..].
    match goal with
    | Hk : ∀ f k, present f ?s ?n _ _ _ → k = e ∨ _ |- _ =>
        destruct (Hk _ _ Hsub) as [?|Hsub1]; [by left|]
    end.
    right. rewrite present_S.
    match goal with Hl : h !! l = Some _ |- _ => rewrite Hl end.
    rewrite Hpos. split; [done|]. by rewrite_getitem.
  - (* a free slot *)
    eapply (present_free_slot_inv _ h);
      [done|apply lookup_app_last|apply preserved_app|done..| |done].
    match goal with
    | Hlen : Z.of_nat (length _) = set_bitcount ?bitmap + 1 |- _ =>
        rewrite length_slice_insert in Hlen by idx_range;
        assert (0 ≤ bitmap < 2 ^ 32) as Hrange by use_heap_ok;
        pose proof (set_bitindex_le bitmap (set_bitpos hash shift) Hrange)
    end.
    lia.
  - (* appended to the collision node *)
    destruct fq as [|fq]; [done|].
    rewrite present_S, lookup_app_last in Hp.
    destruct Hp as [Hh (i & Hi & Hne)]. subst.
    match goal with
    | Hf : CollisionNode_find_index ?size ?array e = Val (-1) |- _ =>
        assert (Z.of_nat (length array) ≤ size) as Hsize by use_heap_ok;
        destruct (find_index_extend_inv _ _ _ _ _ Hsize Hf Hi Hne)
          as [?|Hi']; [by left|]
    end.
    right. rewrite present_S.
    match goal with Hl : h !! l = Some _ |- _ => rewrite Hl end.
    split; [done|]. eauto.
  - (* found in the collision node *)
    by right.
  - (* a collision node of another hash, wrapped *)
    match goal with
    | Hk : ∀ f k, present f ?s ?n _ _ _ → k = e ∨ _ |- _ =>
        destruct (Hk _ _ Hp) as [?|Hw]; [by left|]
    end.
    right. destruct fq as [|fq]; [done|].
    rewrite present_S, lookup_app_last in Hw. destruct Hw as [Hb Hslot].
    apply truthy_bitpos_bitpos in Hb. rewrite Hb, set_bitindex_self in Hslot.
    replace (list_getitem [Child l] 0) with (Some (Child (K:=K) l)) in Hslot
      by done.
    eapply present_restrict in Hslot; [|apply preserved_app|done..].
    eapply present_mono; [|apply preserved_refl|].
    2:{ eapply present_collision_shift; done. }
    lia.
Qed.
End Only.

Section IncludeOnly.
Context {K : Type} `{Hashable K}.
Implicit Types (w : world K).

Lemma Set_include_only fuel s s1 e w w1 so1 f k :
  world_ok w → closed (nodes w) →
  (∀ s so, sets w !! s = Some so → is_Some (nodes w !! set_root so)) →
  Set_include fuel s e w = Ok s1 w1 →
  sets w1 !! s1 = Some so1 →
  present f (nodes w1) (set_root so1) 0 (set_hash k) k →
  k = e
  ∨ ∃ so, sets w !! s = Some so
          ∧ present f (nodes w) (set_root so) 0 (set_hash k) k.
Proof.
  intros (Hok & _) Hc Hroots.
  unfold Set_include, bind, load_set, on_nodes, ret, raise.
  destruct (sets w !! s) as [so|] eqn:Hs; [|done].
  pose proof (node_add_only fuel (set_root so) 0 (set_hash e) e (nodes w)
                Hok Hc (Hroots _ _ Hs)) as Hwp.
  destruct (node_add _ _ _ _ _ _ _) as [[r a] h'| |] eqn:Hadd; [|done..].
  pose proof (wp_Ok _ _ _ _ _ _ Hwp Hadd) as Honly. cbn [fst] in Honly.
  simpl. intros Hinc Hs1 Hp.
  assert (set_root so1 = r) as Hr.
  { destruct (decide (r = set_root so)) as [->|Hne].
    - destruct a; simpl in Hinc; [done|]. injection Hinc as <- <-.
      simpl in Hs1. congruence.
    - unfold Set__new in Hinc. injection Hinc as <- <-. simpl in Hs1.
      rewrite list_lookup_middle in Hs1 by done. by injection Hs1 as <-. }
  assert (nodes w1 = h') as Hn.
  { destruct (decide (r = set_root so)) as [->|Hne].
    - destruct a; simpl in Hinc; [done|]. by injection Hinc as <- <-.
    - unfold Set__new in Hinc. by injection Hinc as <- <-. }
  rewrite Hr, Hn in Hp. destruct (Honly _ _ Hp) as [?|?]; [by left|].
  right. eauto.
Qed.

End IncludeOnly.
(** ** Absent keys, and iteration *)

Section Absent.
Context {K : Type} `{Hashable K}.
Implicit Types (h : list (node K)).

(** A key that [find] does not find is not removed: [without] answers
    [W_NOT_FOUND] and touches nothing. *)
Lemma find_false_without fuel : ∀ h l shift hash key mutid,
  node_find fuel h l shift hash key = Val false →
  node_without fuel l shift hash key mutid h = Ok W_NOT_FOUND h.
Proof.
  induction fuel as [|fuel IH]; intros h l shift hash key mutid; [done|].
  cbn [node_find node_without]. unfold bind at 1. unfold load at 1.
  destruct (h !! l) as [[size bitmap array m|size self_hash array m]|] eqn:Hl;
    [| |done].
  - unfold BitmapNode_find, BitmapNode_without, bind at 1. unfold load at 1.
    rewrite Hl. destruct (negb _); [done|].
    unfold bind at 1.
    destruct (list_getitem _ _) as [[k|c]|]; simpl; [| |done].
    + destruct (decide (key = k)); [done|done].
    + intros Hf. unfold bind at 1. by rewrite (IH _ _ _ _ _ _ Hf).
  - intros (a & Ha & Hb)%find_index_of_find.
    symmetry in Hb. apply negb_false_iff in Hb.
    unfold CollisionNode_without, bind at 1. unfold load at 1. rewrite Hl.
    destruct (negb _); [done|].
    unfold bind, read. by rewrite Ha, Hb.
Qed.

Lemma wp_trivial {S A} (m : M K S A) (s : S) :
  wp m s (λ _ _, True) (λ _ _, True).
Proof. unfold wp. by destruct (m s). Qed.

(** A key that [find] does not find is added: [add] answers [added]. *)
Lemma find_false_add fuel : ∀ f h l shift hash key mutid,
  node_find f h l shift hash key = Val false →
  wp (node_add fuel l shift hash key mutid) h
    (λ r _, r.2 = true) (λ _ _, True).
Proof.
  induction fuel as [|fuel IH]; intros f h l shift hash key mutid Hf; [done|].
  destruct f as [|f]; [done|]. cbn [node_find] in Hf.
  cbn [node_add]. unfold BitmapNode_add, CollisionNode_add.
  apply wp_bind, wp_load; [intros n Hl|done]. rewrite Hl in Hf.
  destruct n as [size bitmap array m|size self_hash array m].
  - apply wp_bind, wp_load; [intros n' Hl'|done]. heap_norm.
    unfold BitmapNode_find in Hf.
    destruct (truthy _) eqn:Hb; simpl in Hf.
    + destruct (list_getitem _ _) as [[k|c]|] eqn:Hg; [| |done].
      * destruct (decide (key = k)); [done|].
        repeat (first
          [ wp_step
          | eapply wp_mono; [apply wp_trivial|intros [??] ? _|done]
          | eapply wp_mono; [apply wp_trivial|intros ?? _|done] ]);
        try done; by simplify_eq.
      * simpl.
        repeat (first
          [ eapply wp_mono;
            [by eapply IH|intros [??] ? Ha; simpl in Ha; subst|done]
          | wp_step
          | eapply wp_mono; [apply wp_trivial|intros ?? _|done] ]);
        done.
    + repeat wp_step; done.
  - apply wp_bind, wp_load; [intros n' Hl'|done]. heap_norm.
    destruct (find_index_of_find _ _ _ _ Hf) as (a & Ha & Hb).
    symmetry in Hb. apply negb_false_iff in Hb.
    destruct (hash =? self_hash) eqn:Hh.
    + apply wp_bind, wp_read; [intros a' Ha'|congruence].
      rewrite Ha in Ha'. injection Ha' as <-. rewrite Hb.
      repeat wp_step; done.
    + apply wp_bind, wp_BitmapNode_new; [intros _|done].
      apply (IH 2%nat). cbn [node_find]. rewrite lookup_app_last.
      unfold BitmapNode_find.
      destruct (truthy _) eqn:Hb'; [|done]. simpl.
      apply truthy_bitpos_bitpos in Hb'. rewrite Hb', set_bitindex_self.
      replace (list_getitem [Child l] 0) with (Some (Child (K:=K) l)) by done.
      by rewrite (lookup_app_l_Some _ _ _ _ Hl).
Qed.
End Absent.

Section IterMembers.
Context {K : Type} `{Hashable K}.
Implicit Types (h : list (node K)).

Lemma iter_slots_elem (rec : nat → res K (list K)) (array : list (slot K))
    (n : nat) : ∀ i j ks x,
  iter_slots rec array i n = Val ks →
  0 ≤ i ≤ j → j < i + Z.of_nat n →
  list_getitem array j = Some x →
  match x with
  | Elem k => k ∈ ks
  | Child c => ∃ ks', rec c = Val ks' ∧ ks' ⊆ ks
  end.
Proof.
  induction n as [|n IH]; intros i j ks x Hit Hij Hn Hx; [lia|].
  simpl in Hit.
  destruct (list_getitem array i) as [y|] eqn:Hy; [|done].
  destruct (match y with Child c => rec c | Elem k => Val [k] end)
    as [ks0| |] eqn:Hy0; [|done..].
  destruct (iter_slots rec array (i + 1) n) as [ks1| |] eqn:Hrest; [|done..].
  injection Hit as <-.
  destruct (decide (j = i)) as [->|Hne].
  - rewrite Hy in Hx. injection Hx as ->. destruct x as [k|c].
    + injection Hy0 as <-. apply elem_of_app. left. apply list_elem_of_here.
    + exists ks0. split; [done|]. intros k Hk. apply elem_of_app. by left.
  - specialize (IH (i + 1) j ks1 x Hrest ltac:(lia) ltac:(lia) Hx).
    destruct x as [k|c]; [apply elem_of_app; by right|].
    destruct IH as (ks' & ? & Hsub). exists ks'. split; [done|].
    intros k Hk. apply elem_of_app. right. by apply Hsub.
Qed.

(** Every key that the search finds is a key that iteration yields. *)
Lemma present_iter f : ∀ f' h l shift hash key ks,
  heap_wf h → present f h l shift hash key →
  node_iter f' h l = Val ks → key ∈ ks.
Proof.
  induction f as [|f IH]; intros f' h l shift hash key ks Hw; [done|].
  rewrite present_S. destruct f' as [|f']; [done|]. cbn [node_iter].
  destruct (h !! l) as [[size bitmap array m|size self_hash array m]|] eqn:Hl;
    [| |done].
  - intros [Hb Hslot] Hit. destruct (Hw _ _ Hl) as (_ & Hlen & _).
    pose proof (set_bitindex_nonneg bitmap (set_bitpos hash shift)) as Hnn.
    destruct (list_getitem array _) as [x|] eqn:Hg; [|done].
    pose proof (list_getitem_lt _ _ _ Hnn Hg).
    assert (match x with
            | Elem k => k ∈ ks
            | Child c => ∃ ks', node_iter f' h c = Val ks' ∧ ks' ⊆ ks
            end) as Hx
      by (eapply iter_slots_elem; [exact Hit| | |exact Hg]; lia).
    destruct x as [k|c]; [by subst|].
    destruct Hx as (ks' & Hc & Hsub). apply Hsub. by eapply IH.
  - intros [_ (i & Hi & Hne)] [= <-].
    destruct (find_index_found _ _ _ _ Hi Hne) as (_ & _ & Hk).
    by eapply list_elem_of_lookup_2.
Qed.

End IterMembers.

Section AbsentSets.
Context {K : Type} `{Hashable K}.
Implicit Types (w : world K).

Lemma Set___contains___inv fuel s k b w :
  Set___contains__ fuel s k w = Ok b w →
  ∃ so, sets w !! s = Some so
        ∧ node_find fuel (nodes w) (set_root so) 0 (set_hash k) k = Val b.
Proof.
  unfold Set___contains__, bind, load_set.
  destruct (sets w !! s) as [so|]; [|done].
  intros [Hf _]%read_Ok_inv. eauto.
Qed.

Lemma Set_exclude_absent fuel s e w :
  Set___contains__ fuel s e w = Ok false w →
  Set_exclude fuel s e w = Raise (KeyError e) w.
Proof.
  intros (so & Hs & Hf)%Set___contains___inv.
  unfold Set_exclude, bind, load_set, on_nodes. rewrite Hs.
  by rewrite (find_false_without _ _ _ _ _ _ 0 Hf), with_nodes_same.
Qed.

Lemma SetMutation_exclude_absent fuel m e w mo :
  muts w !! m = Some mo → mut_mutid mo ≠ 0 →
  SetMutation___contains__ fuel m e w = Ok false w →
  SetMutation_exclude fuel m e w = Raise (KeyError e) w.
Proof.
  intros Hm Hid. unfold SetMutation___contains__, SetMutation_exclude, bind,
    load_mut, on_nodes. rewrite Hm.
  rewrite (proj2 (Z.eqb_neq _ _) Hid).
  intros [Hf _]%read_Ok_inv.
  by rewrite (find_false_without _ _ _ _ _ _ (mut_mutid mo) Hf),
    with_nodes_same.
Qed.

(** [include] of an element that the membership test does not find makes
    a new set, one longer. *)
Lemma Set_include_absent f fuel s s1 e w w1 so :
  sets w !! s = Some so →
  Set___contains__ f s e w = Ok false w →
  Set_include fuel s e w = Ok s1 w1 →
  s1 = length (sets w)
  ∧ ∃ r, sets w1 = sets w ++ [SetObj (set_count so + 1) r (-1)].
Proof.
  intros Hs (so' & Hs' & Hf)%Set___contains___inv.
  rewrite Hs in Hs'. injection Hs' as <-.
  unfold Set_include, bind, load_set, on_nodes, ret, raise. rewrite Hs.
  pose proof (find_false_add fuel _ _ _ _ _ _ 0 Hf) as Hwp.
  destruct (node_add _ _ _ _ _ _ _) as [[r a] h'| |] eqn:Hadd; [|done..].
  pose proof (wp_Ok _ _ _ _ _ _ Hwp Hadd) as Ha. simpl in Ha. subst a.
  simpl. destruct (decide (r = set_root so)); [done|].
  unfold Set__new. intros [= <- <-]. simpl. eauto.
Qed.

Lemma Set___iter___members f f' s k ks w :
  heap_wf (nodes w) →
  Set___contains__ f s k w = Ok true w →
  Set___iter__ f' s w = Ok ks w → k ∈ ks.
Proof.
  intros Hw (so & Hs & Hp)%Set___contains___true; [|done].
  unfold Set___iter__, bind, load_set. rewrite Hs.
  intros [Hit _]%read_Ok_inv. by eapply present_iter.
Qed.

End AbsentSets.
(** * The trie invariant *)

(** ** Hashes that agree below a level *)

Section AgreeFacts.

Lemma agree_refl shift a : agree shift a a.
Proof. by intros i ?. Qed.

Lemma agree_sym shift a b : agree shift a b → agree shift b a.
Proof. intros Hab i Hi. symmetry. by apply Hab. Qed.

Lemma agree_trans shift a b c :
  agree shift a b → agree shift b c → agree shift a c.
Proof. intros Hab Hbc i Hi. rewrite Hab by done. by apply Hbc. Qed.

Lemma agree_mono shift shift' a b :
  shift' ≤ shift → agree shift a b → agree shift' a b.
Proof. intros Hle Hab i Hi. apply Hab. lia. Qed.

Lemma agree_0 a b : agree 0 a b.
Proof. intros i Hi. lia. Qed.

Lemma testbit_31 i : 0 ≤ i → Z.testbit 31 i = (i <? 5).
Proof.
  intros Hi. change 31 with (Z.ones 5).
  destruct (Z.ltb_spec i 5).
  - apply Z.ones_spec_low. lia.
  - apply Z.ones_spec_high. lia.
Qed.

Lemma set_mask_testbit a shift i :
  0 ≤ shift → 0 ≤ i →
  Z.testbit (set_mask a shift) i = Z.testbit a (i + shift) && (i <? 5).
Proof.
  intros Hs Hi. unfold set_mask.
  by rewrite Z.land_spec, Z.shiftr_spec, testbit_31 by done.
Qed.

Lemma agree_mask shift a b :
  0 ≤ shift → agree (shift + 5) a b → set_mask a shift = set_mask b shift.
Proof.
  intros Hs Hab. apply Z.bits_inj'. intros i Hi.
  rewrite !set_mask_testbit by done.
  destruct (Z.ltb_spec i 5); [|by rewrite !andb_false_r].
  rewrite Hab by lia. done.
Qed.

Lemma agree_S shift a b :
  0 ≤ shift → agree shift a b → set_mask a shift = set_mask b shift →
  agree (shift + 5) a b.
Proof.
  intros Hs Hab Hm i Hi.
  destruct (Z.lt_ge_cases i shift) as [Hlt|Hge]; [apply Hab; lia|].
  assert (Z.testbit (set_mask a shift) (i - shift)
          = Z.testbit (set_mask b shift) (i - shift)) as Hbit by by rewrite Hm.
  rewrite !set_mask_testbit in Hbit by lia.
  replace (i - shift + shift) with i in Hbit by lia.
  destruct (Z.ltb_spec (i - shift) 5); [|lia].
  by rewrite !andb_true_r in Hbit.
Qed.

(** Some hash agrees with [rep] below [shift] and selects slot [b]. *)
Lemma agree_exists shift rep b :
  0 ≤ shift → 0 ≤ b < 32 →
  ∃ x, agree shift rep x ∧ set_mask x shift = b.
Proof.
  intros Hs Hb.
  exists (Z.lor (Z.land rep (Z.ones shift)) (Z.shiftl b shift)). split.
  - intros i Hi.
    rewrite Z.lor_spec, Z.land_spec, Z.ones_spec_low, Z.shiftl_spec_low by lia.
    by rewrite andb_true_r, orb_false_r.
  - apply Z.bits_inj'. intros i Hi.
    rewrite set_mask_testbit by done.
    rewrite Z.lor_spec, Z.land_spec, Z.ones_spec_high, Z.shiftl_spec by lia.
    rewrite andb_false_r, orb_false_l.
    replace (i + shift - shift) with i by lia.
    destruct (Z.ltb_spec i 5); [by rewrite andb_true_r|].
    rewrite andb_false_r. symmetry. apply Z.bits_above_log2; [lia|].
    destruct (decide (b = 0)) as [->|]; [simpl; lia|].
    assert (Z.log2 b < 5); [|lia].
    apply Z.log2_lt_pow2; lia.
Qed.

End AgreeFacts.

(** ** Labels, kinds and frames *)

Section PlacedFacts.
Context {K : Type} `{Hashable K}.
Implicit Types (h : list (node K)) (lab : loc → Z * Z) (s : slot K).

Lemma sits_agree lab h l shift x y :
  agree shift x y → sits lab h l shift x → sits lab h l shift y.
Proof.
  intros Hxy. unfold sits. destruct (h !! l) as [[]|]; [|by eauto using agree_trans|done].
  intros [? ?]. eauto using agree_trans.
Qed.

Lemma slot_on_agree lab h shift x y s :
  agree shift x y → slot_on lab h shift x s → slot_on lab h shift y s.
Proof.
  intros Hxy. destruct s; simpl; [by eauto using agree_trans|].
  by apply sits_agree.
Qed.

Lemma sits_is_Some lab h l shift x : sits lab h l shift x → is_Some (h !! l).
Proof. unfold sits. by destruct (h !! l). Qed.

Lemma sits_0 lab h l x y : sits lab h l 0 x → sits lab h l 0 y.
Proof. apply sits_agree, agree_0. Qed.

Lemma same_kinds_refl h : same_kinds h h.
Proof. intros l n Hl. eauto. Qed.

Lemma same_kinds_trans h0 h1 h2 :
  same_kinds h0 h1 → same_kinds h1 h2 → same_kinds h0 h2.
Proof.
  intros H1 H2 l n Hl. destruct (H1 _ _ Hl) as (n1 & Hl1 & Hk1).
  destruct (H2 _ _ Hl1) as (n2 & Hl2 & Hk2). exists n2. split; [done|congruence].
Qed.

Lemma same_kinds_app h h' : same_kinds h (h ++ h').
Proof. intros l n Hl. exists n. split; [by apply lookup_app_l_Some|done]. Qed.

Lemma same_kinds_insert h l n n' :
  h !! l = Some n → node_kind n' = node_kind n → same_kinds h (<[l := n']> h).
Proof.
  intros Hl Hk l0 n0 Hl0. destruct (decide (l0 = l)) as [->|Hne].
  - exists n'. rewrite list_lookup_insert_eq by (by eapply lookup_lt_Some).
    split; [done|congruence].
  - exists n0. by rewrite list_lookup_insert_ne.
Qed.

Lemma same_kinds_length h h' : same_kinds h h' → (length h ≤ length h')%nat.
Proof.
  intros Hk. destruct (decide (length h = 0)%nat) as [->|Hne]; [lia|].
  destruct (lookup_lt_is_Some_2 h (length h - 1)) as [n Hn]; [lia|].
  destruct (Hk _ _ Hn) as (n' & Hn'%lookup_lt_Some & _). lia.
Qed.

Lemma pframe_same_kinds lab shift x h h' :
  pframe lab shift x h h' → same_kinds h h'.
Proof. intros Hp l n Hl. destruct (Hp _ _ Hl) as (n' & ? & ? & _). eauto. Qed.

Lemma grows_refl h lab : grows h lab lab.
Proof. by intros l ?. Qed.

Lemma grows_trans h h1 lab lab1 lab2 :
  (length h ≤ length h1)%nat →
  grows h lab lab1 → grows h1 lab1 lab2 → grows h lab lab2.
Proof. intros Hlen H1 H2 l Hl. rewrite H2 by lia. by apply H1. Qed.

Lemma lab_set_eq lab l v : lab_set lab l v l = v.
Proof. unfold lab_set. by rewrite decide_True. Qed.

Lemma grows_insert h lab v : grows h lab (lab_set lab (length h) v).
Proof. intros l Hl. unfold lab_set. rewrite decide_False; [done|lia]. Qed.

Lemma sits_transfer lab lab' h h' l shift x :
  same_kinds h h' → grows h lab lab' →
  sits lab h l shift x → sits lab' h' l shift x.
Proof.
  intros Hk Hg. unfold sits.
  destruct (h !! l) as [n|] eqn:Hl; [|done].
  destruct (Hk _ _ Hl) as (n' & -> & Hkind).
  rewrite (Hg l) by (by eapply lookup_lt_Some).
  destruct n, n'; simpl in Hkind; simplify_eq; done.
Qed.

Lemma slot_on_transfer lab lab' h h' shift x s :
  same_kinds h h' → grows h lab lab' →
  slot_on lab h shift x s → slot_on lab' h' shift x s.
Proof. intros Hk Hg. destruct s; [done|]. by apply sits_transfer. Qed.

Lemma slots_on_transfer lab lab' h h' lev rep bitmap array :
  same_kinds h h' → grows h lab lab' →
  slots_on lab h lev rep bitmap array → slots_on lab' h' lev rep bitmap array.
Proof.
  intros Hk Hg (Hlev & Hall & Hslots). split_and!; [done..|].
  intros x s Hx Hb Hs. eapply slot_on_transfer; [done..|]. by apply Hslots.
Qed.

Lemma placed_alloc lab h n lev rep :
  placed lab h →
  match n with
  | BitmapNode _ bitmap array _ => slots_on lab h lev rep bitmap array
  | CollisionNode _ _ _ _ => True
  end →
  placed (lab_set lab (length h) (lev, rep)) (h ++ [n]).
Proof.
  intros Hp Hn l n0 Hl.
  pose proof (same_kinds_app h [n]) as Hk.
  pose proof (grows_insert h lab (lev, rep)) as Hg.
  apply lookup_app_Some in Hl as [Hl|[Hlen Hl]].
  - specialize (Hp _ _ Hl). destruct n0; [|done]. simpl in *.
    rewrite (Hg l) by (by eapply lookup_lt_Some).
    by eapply slots_on_transfer.
  - apply list_lookup_singleton_Some in Hl as [Hl0 <-].
    assert (l = length h) as -> by lia.
    destruct n; [|done]. simpl. rewrite lab_set_eq. simpl.
    by eapply slots_on_transfer.
Qed.

Lemma placed_store lab h l n n' :
  placed lab h → h !! l = Some n → node_kind n' = node_kind n →
  match n' with
  | BitmapNode _ bitmap array _ =>
      slots_on lab h (lab l).1 (lab l).2 bitmap array
  | CollisionNode _ _ _ _ => True
  end →
  placed lab (<[l := n']> h).
Proof.
  intros Hp Hl Hkind Hn l0 n0 Hl0.
  pose proof (same_kinds_insert h l n n' Hl Hkind) as Hk.
  apply list_lookup_insert_Some in Hl0 as [(-> & -> & _)|[_ Hl0]].
  - destruct n0; [|done]. simpl.
    eapply slots_on_transfer; [done|apply grows_refl|done].
  - specialize (Hp _ _ Hl0). destruct n0; [|done]. simpl in *.
    eapply slots_on_transfer; [done|apply grows_refl|done].
Qed.

(** *** Frames *)

Lemma touched_weaken lab shift shift' x y l k :
  shift ≤ shift' → agree shift x y →
  touched lab shift' x l k → touched lab shift y l k.
Proof.
  intros Hle Hxy. destruct k as [hash|]; simpl.
  - intros Hh. eapply agree_trans; [|done]. by eapply agree_mono.
  - intros [? Hh]. split; [lia|].
    eapply agree_trans; [|done]. by eapply agree_mono.
Qed.

Lemma pframe_refl lab shift x h : pframe lab shift x h h.
Proof. intros l n Hl. exists n. eauto. Qed.

Lemma pframe_app lab shift x h h' : pframe lab shift x h (h ++ h').
Proof.
  intros l n Hl. exists n. split_and!; [by apply lookup_app_l_Some|done|by left].
Qed.

Lemma pframe_insert lab shift x h l n n' :
  h !! l = Some n → node_kind n' = node_kind n →
  touched lab shift x l (node_kind n) →
  pframe lab shift x h (<[l := n']> h).
Proof.
  intros Hl Hk Ht l0 n0 Hl0. destruct (decide (l0 = l)) as [->|Hne].
  - exists n'. rewrite list_lookup_insert_eq by (by eapply lookup_lt_Some).
    assert (n0 = n) as -> by congruence. split_and!; [done..|by right].
  - exists n0. rewrite list_lookup_insert_ne by done. eauto.
Qed.

Lemma pframe_trans lab lab1 shift x h h1 h2 :
  grows h lab lab1 →
  pframe lab shift x h h1 → pframe lab1 shift x h1 h2 →
  pframe lab shift x h h2.
Proof.
  intros Hg H1 H2 l n Hl.
  destruct (H1 _ _ Hl) as (n1 & Hl1 & Hk1 & Hc1).
  destruct (H2 _ _ Hl1) as (n2 & Hl2 & Hk2 & Hc2).
  exists n2. split_and!; [done|congruence|].
  destruct Hc2 as [->|Ht]; [done|]. right.
  rewrite Hk1 in Ht. unfold touched in *.
  by rewrite (Hg l) in Ht by (by eapply lookup_lt_Some).
Qed.

Lemma pframe_weaken lab shift shift' x y h h' :
  shift ≤ shift' → agree shift x y →
  pframe lab shift' x h h' → pframe lab shift y h h'.
Proof.
  intros Hle Hxy Hp l n Hl. destruct (Hp _ _ Hl) as (n' & ? & ? & Hc).
  exists n'. split_and!; [done..|].
  destruct Hc; [by left|right]. by eapply touched_weaken.
Qed.

(** A bitmap node above the level of the edit is not changed. *)
Lemma pframe_above lab shift x h h' l size bitmap array m :
  pframe lab shift x h h' → (lab l).1 < shift →
  h !! l = Some (BitmapNode size bitmap array m) →
  h' !! l = Some (BitmapNode size bitmap array m).
Proof.
  intros Hp Hlt Hl. destruct (Hp _ _ Hl) as (n' & Hl' & _ & [->|[? _]]);
    [done|]. simpl in *. lia.
Qed.

End PlacedFacts.

(** ** Arrays of placed nodes *)

Section SlotsOn.
Context {K : Type} `{Hashable K}.
Implicit Types (h : list (node K)) (lab : loc → Z * Z) (s : slot K).

Lemma slot_on_elem_agree lab h lev rep x s :
  agree lev rep x → slot_on lab h (lev + 5) x s → elem_agree lev rep s.
Proof.
  intros Hx. destruct s as [k|c]; [|done]. simpl. intros Hk.
  eapply agree_trans; [|by apply agree_sym].
  eapply agree_mono; [|done]. lia.
Qed.

(** Two hashes through the same node that select the same slot. *)
Lemma agree_same_slot lev rep x y :
  0 ≤ lev → agree lev rep x → agree lev rep y →
  set_mask x lev = set_mask y lev → agree (lev + 5) x y.
Proof.
  intros Hlev Hx Hy Hm. apply agree_S; [done| |done].
  eapply agree_trans; [by apply agree_sym|done].
Qed.

Lemma slots_on_nil lab h lev rep : 0 ≤ lev → slots_on lab h lev rep 0 [].
Proof.
  intros Hlev. split_and!; [done|apply Forall_nil_2|].
  intros x s _ Hb. by rewrite Z.land_0_l in Hb.
Qed.

Lemma slots_on_single lab h lev rep y s :
  0 ≤ lev → agree lev rep y → slot_on lab h (lev + 5) y s →
  slots_on lab h lev rep (set_bitpos y lev) [s].
Proof.
  intros Hlev Hy Hs. split_and!; [done| |].
  - apply Forall_singleton. by eapply slot_on_elem_agree.
  - intros x s' Hx Hb.
    rewrite truthy_land_bitpos, set_bitpos_pow2, Z.pow2_bits_eqb in Hb
      by apply set_mask_range.
    apply Z.eqb_eq in Hb.
    rewrite <- (set_bitpos_mask y x lev Hb), set_bitindex_self.
    intros [= <-]. eapply slot_on_agree; [|done].
    by eapply agree_same_slot.
Qed.

Lemma slots_on_setitem lab h lev rep bitmap array x s :
  slots_on lab h lev rep bitmap array →
  agree lev rep x →
  truthy (Z.land bitmap (set_bitpos x lev)) = true →
  slot_on lab h (lev + 5) x s →
  slots_on lab h lev rep bitmap
    (<[Z.to_nat (set_bitindex bitmap (set_bitpos x lev)) := s]> array).
Proof.
  intros (Hlev & Hall & Hslots) Hx Hb Hs. split_and!; [done| |].
  - apply Forall_insert; [done|]. by eapply slot_on_elem_agree.
  - intros y s' Hy Hby.
    pose proof (set_bitindex_nonneg bitmap (set_bitpos x lev)).
    pose proof (set_bitindex_nonneg bitmap (set_bitpos y lev)).
    destruct (decide (set_mask x lev = set_mask y lev)) as [Heq|Hne].
    + rewrite <- (set_bitpos_mask _ _ _ Heq).
      rewrite list_getitem_nonneg by done. intros Hl.
      pose proof (lookup_lt_Some _ _ _ Hl) as Hlen.
      rewrite length_insert in Hlen.
      rewrite list_lookup_insert_eq in Hl by done. injection Hl as <-.
      eapply slot_on_agree; [|done]. by eapply agree_same_slot.
    + rewrite getitem_insert_ne; [by apply Hslots|done..|].
      intros Hidx. apply Hne. by eapply set_bitindex_inj.
Qed.

Lemma slots_on_insert lab h lev rep bitmap array x s :
  slots_on lab h lev rep bitmap array →
  agree lev rep x →
  truthy (Z.land bitmap (set_bitpos x lev)) = false →
  set_bitindex bitmap (set_bitpos x lev) ≤ Z.of_nat (length array) →
  slot_on lab h (lev + 5) x s →
  slots_on lab h lev rep (Z.lor bitmap (set_bitpos x lev))
    (slice_to array (set_bitindex bitmap (set_bitpos x lev))
     ++ [s] ++ slice_from array (set_bitindex bitmap (set_bitpos x lev))).
Proof.
  intros (Hlev & Hall & Hslots) Hx Hb Hlen Hs. split_and!; [done| |].
  - apply Forall_app. split; [by apply Forall_slice_to|].
    apply Forall_app. split; [|by apply Forall_slice_from].
    apply Forall_singleton. by eapply slot_on_elem_agree.
  - intros y s' Hy Hby.
    pose proof (set_bitindex_nonneg bitmap (set_bitpos x lev)).
    pose proof (set_bitindex_nonneg bitmap (set_bitpos y lev)).
    destruct (decide (set_mask x lev = set_mask y lev)) as [Heq|Hne].
    + rewrite <- (set_bitpos_mask _ _ _ Heq), set_bitindex_lor.
      rewrite getitem_slice_insert by lia.
      rewrite Z.ltb_irrefl, Z.eqb_refl. intros [= <-].
      eapply slot_on_agree; [|done]. by eapply agree_same_slot.
    + rewrite truthy_lor_other in Hby by done.
      rewrite set_bitindex_lor_other by done.
      destruct (Z.ltb_spec (set_mask x lev) (set_mask y lev)) as [Hlt|Hge];
        cbn [Z.b2z]; rewrite getitem_slice_insert by lia.
      * pose proof (set_bitindex_le_mask bitmap x y lev ltac:(lia)).
        destruct (Z.ltb_spec (set_bitindex bitmap (set_bitpos y lev) + 1)
                    (set_bitindex bitmap (set_bitpos x lev))); [lia|].
        destruct (Z.eqb_spec (set_bitindex bitmap (set_bitpos y lev) + 1)
                    (set_bitindex bitmap (set_bitpos x lev))); [lia|].
        replace (set_bitindex bitmap (set_bitpos y lev) + 1 - 1)
          with (set_bitindex bitmap (set_bitpos y lev)) by lia.
        by apply Hslots.
      * pose proof (set_bitindex_lt_mask bitmap y x lev ltac:(lia) Hby).
        rewrite Z.add_0_r.
        destruct (Z.ltb_spec (set_bitindex bitmap (set_bitpos y lev))
                    (set_bitindex bitmap (set_bitpos x lev))); [|lia].
        by apply Hslots.
Qed.

Lemma slots_on_delete lab h lev rep bitmap array x :
  slots_on lab h lev rep bitmap array →
  truthy (Z.land bitmap (set_bitpos x lev)) = true →
  set_bitindex bitmap (set_bitpos x lev) < Z.of_nat (length array) →
  slots_on lab h lev rep (Z.land bitmap (Z.lnot (set_bitpos x lev)))
    (slice_to array (set_bitindex bitmap (set_bitpos x lev))
     ++ slice_from array (set_bitindex bitmap (set_bitpos x lev) + 1)).
Proof.
  intros (Hlev & Hall & Hslots) Hb Hlen. split_and!; [done| |].
  - apply Forall_app. split; [by apply Forall_slice_to|by apply Forall_slice_from].
  - intros y s' Hy Hby.
    pose proof (set_bitindex_nonneg bitmap (set_bitpos x lev)).
    pose proof (set_bitindex_nonneg bitmap (set_bitpos y lev)).
    destruct (decide (set_mask x lev = set_mask y lev)) as [Heq|Hne].
    + rewrite <- (set_bitpos_mask _ _ _ Heq) in Hby.
      rewrite land_lnot_bit in Hby. done.
    + rewrite truthy_clear_other in Hby by done.
      rewrite set_bitindex_clear_other by done.
      destruct (Z.ltb_spec (set_mask x lev) (set_mask y lev)) as [Hlt|Hge];
        cbn [Z.b2z].
      * pose proof (set_bitindex_lt_mask bitmap x y lev ltac:(lia) Hb).
        rewrite getitem_slice_delete by lia.
        destruct (Z.ltb_spec (set_bitindex bitmap (set_bitpos y lev) - 1)
                    (set_bitindex bitmap (set_bitpos x lev))); [lia|].
        replace (set_bitindex bitmap (set_bitpos y lev) - 1 + 1)
          with (set_bitindex bitmap (set_bitpos y lev)) by lia.
        by apply Hslots.
      * pose proof (set_bitindex_lt_mask bitmap y x lev ltac:(lia) Hby).
        rewrite Z.sub_0_r, getitem_slice_delete by lia.
        destruct (Z.ltb_spec (set_bitindex bitmap (set_bitpos y lev))
                    (set_bitindex bitmap (set_bitpos x lev))); [|lia].
        by apply Hslots.
Qed.

(** The slot that the search for [x] selects in a placed node. *)
Lemma placed_slot lab h l shift x size bitmap array m s :
  placed lab h → h !! l = Some (BitmapNode size bitmap array m) →
  sits lab h l shift x →
  truthy (Z.land bitmap (set_bitpos x shift)) = true →
  list_getitem array (set_bitindex bitmap (set_bitpos x shift)) = Some s →
  slot_on lab h (shift + 5) x s.
Proof.
  intros Hp Hl Hsits Hb Hs. pose proof (Hp _ _ Hl) as (Hlev & _ & Hslots).
  unfold sits in Hsits. rewrite Hl in Hsits. destruct Hsits as [<- Hx].
  by apply Hslots.
Qed.

Lemma placed_slots lab h l shift x size bitmap array m :
  placed lab h → h !! l = Some (BitmapNode size bitmap array m) →
  sits lab h l shift x →
  (lab l).1 = shift ∧ 0 ≤ shift ∧ agree shift (lab l).2 x
  ∧ slots_on lab h shift (lab l).2 bitmap array.
Proof.
  intros Hp Hl Hsits. pose proof (Hp _ _ Hl) as Hn. simpl in Hn.
  unfold sits in Hsits. rewrite Hl in Hsits. destruct Hsits as [<- Hx].
  split_and!; [done| |done..]. by destruct Hn.
Qed.

End SlotsOn.

(** ** [add] and [without] keep every node in its place *)

Section EditsPlaced.
Context {K : Type} `{Hashable K}.
Implicit Types (h : list (node K)) (lab : loc → Z * Z) (s : slot K).

Lemma sits_bitmap lab h l shift x size bitmap array m :
  h !! l = Some (BitmapNode size bitmap array m) →
  (lab l).1 = shift → agree shift (lab l).2 x → sits lab h l shift x.
Proof. intros Hl ??. unfold sits. by rewrite Hl. Qed.

Lemma ppost_store lab h l shift x size bitmap array m size' bitmap' array'
    (r : bool) :
  placed lab h → h !! l = Some (BitmapNode size bitmap array m) →
  sits lab h l shift x →
  slots_on lab h shift (lab l).2 bitmap' array' →
  ppost lab shift x h (if r then Some l else None)
    (<[l := BitmapNode size' bitmap' array' m]> h).
Proof.
  intros Hp Hl Hsits Hslots.
  destruct (placed_slots _ _ _ _ _ _ _ _ _ Hp Hl Hsits) as (Hlev & ? & Hx & _).
  exists lab. split_and!.
  - apply grows_refl.
  - eapply placed_store; [done..|]. by rewrite Hlev.
  - eapply pframe_insert; [done..|]. simpl. split; [lia|done].
  - destruct r; [|done]. eapply sits_bitmap; [|done..].
    apply list_lookup_insert_eq. by eapply lookup_lt_Some.
Qed.

Lemma ppost_alloc lab h shift x rep size bitmap array m (r : bool) :
  placed lab h → agree shift rep x →
  slots_on lab h shift rep bitmap array →
  ppost lab shift x h (if r then Some (length h) else None)
    (h ++ [BitmapNode size bitmap array m]).
Proof.
  intros Hp Hx Hslots.
  exists (lab_set lab (length h) (shift, rep)). split_and!.
  - apply grows_insert.
  - by apply placed_alloc.
  - apply pframe_app.
  - destruct r; [|done]. eapply sits_bitmap; [apply lookup_app_last|..];
      by rewrite lab_set_eq.
Qed.

Lemma ppost_refl lab h shift x : placed lab h → ppost lab shift x h None h.
Proof.
  intros Hp. exists lab. split_and!; [apply grows_refl|done|apply pframe_refl|done].
Qed.

Lemma ppost_None lab h shift x r h' :
  ppost lab shift x h r h' → ppost lab shift x h None h'.
Proof. intros (lab' & ? & ? & ? & _). exists lab'. done. Qed.

Lemma with_slot_placed lab h self shift x mutid size bitmap array m s :
  placed lab h → h !! self = Some (BitmapNode size bitmap array m) →
  sits lab h self shift x →
  truthy (Z.land bitmap (set_bitpos x shift)) = true →
  slot_on lab h (shift + 5) x s →
  wp (BitmapNode_with_slot self mutid
        (set_bitindex bitmap (set_bitpos x shift)) s) h
    (λ r h', ppost lab shift x h (Some r) h')
    (λ _ h', ppost lab shift x h None h').
Proof.
  intros Hp Hl Hsits Hb Hs.
  destruct (placed_slots _ _ _ _ _ _ _ _ _ Hp Hl Hsits)
    as (Hlev & ? & Hx & Hslots).
  pose proof (set_bitindex_nonneg bitmap (set_bitpos x shift)).
  unfold BitmapNode_with_slot, BitmapNode_clone, BitmapNode_setitem.
  repeat wp_step; heap_norm; try done.
  all: repeat match goal with
         | Hs : list_setitem _ _ _ = Some _ |- _ =>
             apply list_setitem_Some in Hs as [? ->]; [|done]
         end.
  all: try by apply ppost_refl.
  - eapply (ppost_store _ _ _ _ _ _ _ _ _ _ _ _ true); [done..|].
    by apply slots_on_setitem.
  - eapply (ppost_alloc _ _ _ _ _ _ _ _ _ true); [done..|].
    by apply slots_on_setitem.
  - by eapply (ppost_alloc _ _ _ _ _ _ _ _ _ false).
Qed.

End EditsPlaced.

Section EditsPlaced2.
Context {K : Type} `{Hashable K}.
Implicit Types (h : list (node K)) (lab : loc → Z * Z) (s : slot K).

Lemma ppost_trans lab lab1 shift x h h1 r h2 :
  grows h lab lab1 → pframe lab shift x h h1 →
  ppost lab1 shift x h1 r h2 → ppost lab shift x h r h2.
Proof.
  intros Hg Hf (lab2 & Hg2 & Hp2 & Hf2 & Hr). exists lab2. split_and!; [|done| |done].
  - eapply grows_trans; [|done..].
    by eapply same_kinds_length, pframe_same_kinds.
  - by eapply pframe_trans.
Qed.

Lemma ppost_weaken lab shift shift' x y h h' :
  shift ≤ shift' → agree shift x y →
  ppost lab shift' x h None h' → ppost lab shift y h None h'.
Proof.
  intros Hle Hxy (lab' & ? & ? & ? & _). exists lab'.
  split_and!; [done..| |done]. by eapply pframe_weaken.
Qed.

Lemma ppost_same lab h l shift x :
  placed lab h → sits lab h l shift x → ppost lab shift x h (Some l) h.
Proof.
  intros Hp Hs. exists lab.
  split_and!; [apply grows_refl|done|apply pframe_refl|done].
Qed.

Lemma sits_collision lab h l shift x size hash array m :
  h !! l = Some (CollisionNode size hash array m) →
  agree shift hash x → sits lab h l shift x.
Proof. intros Hl ?. unfold sits. by rewrite Hl. Qed.

Lemma ppost_alloc_collision lab h shift x size hash array m (r : bool) :
  placed lab h → agree shift hash x →
  ppost lab shift x h (if r then Some (length h) else None)
    (h ++ [CollisionNode size hash array m]).
Proof.
  intros Hp Hx. exists (lab_set lab (length h) (0, 0)). split_and!.
  - apply grows_insert.
  - by apply placed_alloc.
  - apply pframe_app.
  - destruct r; [|done]. eapply sits_collision; [apply lookup_app_last|done].
Qed.

Lemma ppost_store_collision lab h l shift x size hash array m size' array'
    (r : bool) :
  placed lab h → h !! l = Some (CollisionNode size hash array m) →
  agree shift hash x →
  ppost lab shift x h (if r then Some l else None)
    (<[l := CollisionNode size' hash array' m]> h).
Proof.
  intros Hp Hl Hx. exists lab. split_and!.
  - apply grows_refl.
  - by eapply placed_store.
  - by eapply pframe_insert.
  - destruct r; [|done]. eapply sits_collision; [|done].
    apply list_lookup_insert_eq. by eapply lookup_lt_Some.
Qed.

Section AddStep.
Variable fuel : nat.
Hypothesis IH : ∀ l shift e mutid h lab,
  heap_wf h → placed lab h → 0 ≤ shift → sits lab h l shift (set_hash e) →
  wp (node_add fuel l shift (set_hash e) e mutid) h
    (λ r h', ppost lab shift (set_hash e) h (Some r.1) h')
    (λ _ h', ppost lab shift (set_hash e) h None h').

Lemma rec_add_placed l shift e mutid h lab :
  heap_wf h → placed lab h → 0 ≤ shift → sits lab h l shift (set_hash e) →
  wp (node_add fuel l shift (set_hash e) e mutid) h
    (λ r h', ppost lab shift (set_hash e) h (Some r.1) h' ∧ heap_wf h')
    (λ _ h', ppost lab shift (set_hash e) h None h' ∧ heap_wf h').
Proof.
  intros. apply wp_and; [by apply IH|by apply node_add_wf].
Qed.

Lemma BitmapNode_add_placed l shift e mutid h lab size bitmap array m :
  heap_wf h → placed lab h →
  h !! l = Some (BitmapNode size bitmap array m) →
  sits lab h l shift (set_hash e) →
  wp (BitmapNode_add (node_add fuel) l shift (set_hash e) e mutid) h
    (λ r h', ppost lab shift (set_hash e) h (Some r.1) h')
    (λ _ h', ppost lab shift (set_hash e) h None h').
Proof.
  intros Hw Hp Hl Hsits.
  destruct (placed_slots _ _ _ _ _ _ _ _ _ Hp Hl Hsits)
    as (Hlev & Hshift & Hx & Hslots).
  pose proof (Hw _ _ Hl) as (Hbm & Hsize & Hcount).
  unfold BitmapNode_add. apply wp_bind, wp_load; [|congruence].
  intros n Hn. rewrite Hl in Hn. injection Hn as <-.
  destruct (truthy _) eqn:Hb.
  - (* the slot is taken *)
    apply wp_bind, wp_from_option; [|intros; by apply ppost_refl].
    intros s Hs.
    pose proof (placed_slot _ _ _ _ _ _ _ _ _ _ Hp Hl Hsits Hb Hs) as Hon.
    destruct s as [k0|c].
    + (* by a key *)
      destruct (decide (e = k0)) as [->|Hne].
      { apply wp_ret. by apply ppost_same. }
      simpl in Hon.
      apply wp_bind.
      eapply wp_mono with
        (Q := λ sub h1, ∃ lab1, grows h lab lab1 ∧ placed lab1 h1
                ∧ pframe lab (shift + 5) (set_hash e) h h1
                ∧ sits lab1 h1 sub (shift + 5) (set_hash e))
        (E := λ _ h1, ppost lab shift (set_hash e) h None h1).
      * destruct (set_hash k0 =? set_hash e) eqn:Heq.
        -- apply wp_alloc.
           destruct (ppost_alloc_collision lab h (shift + 5) (set_hash e) 4
                       (set_hash e) [k0; e] mutid true Hp (agree_refl _ _))
             as (lab1 & ? & ? & ? & ?).
           exists lab1. split_and!; [done..|apply pframe_app|done].
        -- apply wp_bind, wp_BitmapNode_new; [intros _|done].
           destruct (ppost_alloc lab h (shift + 5) (set_hash e) (set_hash e)
                       0 0 [] mutid true Hp (agree_refl _ _))
             as (lab1 & Hg1 & Hp1 & Hf1 & Hs1).
           { apply slots_on_nil. lia. }
           apply wp_bind. eapply wp_mono.
           { apply (rec_add_placed (length h) (shift + 5) k0 mutid _ lab1);
               [by apply heap_wf_empty_node|done|lia|].
             eapply sits_agree; [|done]. by apply agree_sym. }
           ++ intros [s1 a1] h2 [(lab2 & Hg2 & Hp2 & Hf2 & Hs2) Hw2].
              cbn [fst] in Hs2.
              apply wp_bind. eapply wp_mono.
              { apply (rec_add_placed s1 (shift + 5) e mutid _ lab2);
                  [done..|lia|]. by eapply sits_agree. }
              ** intros [s2 a2] h3 [(lab3 & Hg3 & Hp3 & Hf3 & Hs3) Hw3].
                 cbn [fst] in Hs3. apply wp_ret.
                 assert (pframe lab (shift + 5) (set_hash e) h h2) as Hf02.
                 { eapply pframe_trans; [done|apply pframe_app|].
                   eapply pframe_weaken; [|exact Hon|done]; lia. }
                 assert (grows h lab lab2) as Hg02.
                 { eapply grows_trans; [|done..]. rewrite length_app. lia. }
                 exists lab3. split_and!; [| done| |done].
                 --- eapply grows_trans; [|done..].
                     by eapply same_kinds_length, pframe_same_kinds.
                 --- by eapply pframe_trans.
              ** intros ex h3 [(lab3 & Hg3 & Hp3 & Hf3 & _) Hw3].
                 assert (pframe lab shift (set_hash e) h h2) as Hf02.
                 { eapply pframe_trans; [done|apply pframe_app|].
                   eapply pframe_weaken; [|eapply agree_mono; [|exact Hon]|done]; lia. }
                 assert (grows h lab lab2) as Hg02.
                 { eapply grows_trans; [|done..]. rewrite length_app. lia. }
                 exists lab3. split_and!; [| done| |done].
                 --- eapply grows_trans; [|done..].
                     by eapply same_kinds_length, pframe_same_kinds.
                 --- eapply pframe_trans; [done..|].
                     eapply pframe_weaken; [|apply agree_refl|done]. lia.
           ++ intros ex h2 [(lab2 & Hg2 & Hp2 & Hf2 & _) Hw2].
              exists lab2. split_and!; [|done| |done].
              ** eapply grows_trans; [|done..]. rewrite length_app. lia.
              ** eapply pframe_trans; [done|apply pframe_app|].
                 eapply pframe_weaken; [|eapply agree_mono; [|exact Hon]|done]; lia.
      * intros sub h1 (lab1 & Hg1 & Hp1 & Hf1 & Hs1).
        apply wp_bind. eapply wp_mono.
        { eapply (with_slot_placed lab1 h1 l shift (set_hash e)); [done| | |done..].
          - eapply pframe_above; [done| |done]. lia.
          - eapply sits_transfer; [by eapply pframe_same_kinds|done..]. }
        all: assert (pframe lab shift (set_hash e) h h1)
          by (eapply pframe_weaken; [|apply agree_refl|done]; lia).
        -- intros r h2 Hpost. apply wp_ret. by eapply ppost_trans.
        -- intros ex h2 Hpost. by eapply ppost_trans.
      * done.
    + (* by a child *)
      simpl in Hon. apply wp_bind. eapply wp_mono.
      { by apply (rec_add_placed c (shift + 5) e mutid h lab); [..|lia|]. }
      * intros [sub added] h1 [(lab1 & Hg1 & Hp1 & Hf1 & Hs1) Hw1].
        cbn [fst] in Hs1.
        assert (pframe lab shift (set_hash e) h h1) as Hf01.
        { eapply pframe_weaken; [|apply agree_refl|done]. lia. }
        assert (sits lab1 h1 l shift (set_hash e)) as Hsits1.
        { eapply sits_transfer; [by eapply pframe_same_kinds|done..]. }
        destruct (decide (c = sub)) as [<-|Hne].
        { apply wp_ret. exists lab1. done. }
        apply wp_bind. eapply wp_mono.
        { eapply (with_slot_placed lab1 h1 l shift (set_hash e)); [done| |done..].
          eapply pframe_above; [exact Hf1| |done]. lia. }
        -- intros r h2 Hpost. apply wp_ret. by eapply ppost_trans.
        -- intros ex h2 Hpost. by eapply ppost_trans.
      * intros ex h1 [Hpost _].
        eapply ppost_weaken; [|apply agree_refl|done]. lia.
  - (* the slot is free *)
    assert (set_bitindex bitmap (set_bitpos (set_hash e) shift)
            ≤ Z.of_nat (length array)) as Hidx.
    { pose proof (set_bitindex_le bitmap (set_bitpos (set_hash e) shift) Hbm).
      lia. }
    assert (slots_on lab h shift (lab l).2
              (Z.lor bitmap (set_bitpos (set_hash e) shift))
              (slice_to array (set_bitindex bitmap (set_bitpos (set_hash e) shift))
               ++ [Elem e]
               ++ slice_from array
                    (set_bitindex bitmap (set_bitpos (set_hash e) shift))))
      as Hnew.
    { apply slots_on_insert; [done..|]. apply agree_refl. }
    destruct (owned mutid m).
    + apply wp_bind, wp_store, wp_ret.
      by eapply (ppost_store _ _ _ _ _ _ _ _ _ _ _ _ true).
    + apply wp_bind, wp_BitmapNode_new; [intros _|intros _; by apply ppost_refl].
      apply wp_ret. by eapply (ppost_alloc _ _ _ _ _ _ _ _ _ true).
Qed.

Lemma CollisionNode_add_placed l shift e mutid h lab size hash array m :
  heap_wf h → placed lab h → 0 ≤ shift →
  h !! l = Some (CollisionNode size hash array m) →
  sits lab h l shift (set_hash e) →
  wp (CollisionNode_add (node_add fuel) l shift (set_hash e) e mutid) h
    (λ r h', ppost lab shift (set_hash e) h (Some r.1) h')
    (λ _ h', ppost lab shift (set_hash e) h None h').
Proof.
  intros Hw Hp Hshift Hl Hsits.
  assert (agree shift hash (set_hash e)) as Hx.
  { unfold sits in Hsits. by rewrite Hl in Hsits. }
  unfold CollisionNode_add. apply wp_bind, wp_load; [|congruence].
  intros n Hn. rewrite Hl in Hn. injection Hn as <-.
  destruct (Z.eqb_spec (set_hash e) hash) as [Heq|Hne].
  - apply wp_bind, wp_read; [|intros; by apply ppost_refl].
    intros key_idx _. destruct (key_idx =? -1).
    + destruct (owned mutid m).
      * apply wp_bind, wp_store, wp_ret.
        by eapply (ppost_store_collision _ _ _ _ _ _ _ _ _ _ _ true).
      * apply wp_bind, wp_alloc, wp_ret.
        eapply (ppost_alloc_collision _ _ _ _ _ _ _ _ true); [done|].
        apply agree_refl.
    + apply wp_ret. by apply ppost_same.
  - apply wp_bind, wp_BitmapNode_new; [intros _|done].
    destruct (ppost_alloc lab h shift (set_hash e) (set_hash e)
                1 (set_bitpos hash shift) [Child l] mutid true Hp
                (agree_refl _ _))
      as (lab1 & Hg1 & Hp1 & Hf1 & Hs1).
    { apply slots_on_single; [done|by apply agree_sym|].
      simpl. eapply sits_collision; [done|]. apply agree_refl. }
    eapply wp_mono.
    { apply (IH (length h) shift e mutid _ lab1); [|done..].
      apply heap_wf_app; [done|]. simpl.
      pose proof (set_bitpos_range hash shift).
      split_and!; [lia..|done|by rewrite set_bitcount_bitpos]. }
    + intros r h2 Hpost. by eapply ppost_trans.
    + intros ex h2 Hpost. by eapply ppost_trans.
Qed.

End AddStep.

Lemma node_add_placed fuel : ∀ l shift e mutid h lab,
  heap_wf h → placed lab h → 0 ≤ shift → sits lab h l shift (set_hash e) →
  wp (node_add fuel l shift (set_hash e) e mutid) h
    (λ r h', ppost lab shift (set_hash e) h (Some r.1) h')
    (λ _ h', ppost lab shift (set_hash e) h None h').
Proof.
  induction fuel as [|fuel IH]; intros l shift e mutid h lab Hw Hp Hshift Hsits;
    [done|].
  cbn [node_add]. apply wp_bind, wp_load.
  - intros [size bitmap array m|size hash array m] Hl.
    + by eapply BitmapNode_add_placed.
    + by eapply CollisionNode_add_placed.
  - intros _. by apply ppost_refl.
Qed.

End EditsPlaced2.

Section WithoutPlaced.
Context {K : Type} `{Hashable K}.
Implicit Types (h : list (node K)) (lab : loc → Z * Z) (s : slot K).

Lemma ppost_weaken_ret lab shift x h r h' :
  ppost lab shift x h r h' → ppost lab shift x h None h'.
Proof. apply ppost_None. Qed.

Section WithoutStep.
Variable fuel : nat.
Hypothesis IH : ∀ l shift x e mutid h lab,
  heap_wf h → placed lab h → 0 ≤ shift → sits lab h l shift x →
  wp (node_without fuel l shift x e mutid) h
    (λ r h', ppost lab shift x h (wres_loc r) h')
    (λ _ h', ppost lab shift x h None h').

Lemma BitmapNode_without_placed l shift x e mutid h lab size bitmap array m :
  heap_wf h → placed lab h →
  h !! l = Some (BitmapNode size bitmap array m) →
  sits lab h l shift x →
  wp (BitmapNode_without (node_without fuel) l shift x e mutid) h
    (λ r h', ppost lab shift x h (wres_loc r) h')
    (λ _ h', ppost lab shift x h None h').
Proof.
  intros Hw Hp Hl Hsits.
  destruct (placed_slots _ _ _ _ _ _ _ _ _ Hp Hl Hsits)
    as (Hlev & Hshift & Hx & Hslots).
  pose proof (set_bitindex_nonneg bitmap (set_bitpos x shift)) as Hnn.
  unfold BitmapNode_without. apply wp_bind, wp_load; [|congruence].
  intros n Hn. rewrite Hl in Hn. injection Hn as <-.
  destruct (truthy _) eqn:Hb; cbn [negb]; [|apply wp_ret; by apply ppost_refl].
  apply wp_bind, wp_from_option; [|intros; by apply ppost_refl].
  intros s Hs.
  pose proof (placed_slot _ _ _ _ _ _ _ _ _ _ Hp Hl Hsits Hb Hs) as Hon.
  destruct s as [k0|c].
  - (* a key *)
    destruct (decide (e = k0)) as [->|Hne]; [|apply wp_ret; by apply ppost_refl].
    destruct (size =? 1); [apply wp_ret; by apply ppost_refl|].
    assert (slots_on lab h shift (lab l).2
              (Z.land bitmap (Z.lnot (set_bitpos x shift)))
              (slice_to array (set_bitindex bitmap (set_bitpos x shift))
               ++ slice_from array
                    (set_bitindex bitmap (set_bitpos x shift) + 1)))
      as Hnew.
    { apply slots_on_delete; [done..|]. by eapply list_getitem_lt. }
    destruct (owned mutid m).
    + apply wp_bind, wp_store, wp_ret.
      by eapply (ppost_store _ _ _ _ _ _ _ _ _ _ _ _ true).
    + apply wp_bind, wp_BitmapNode_new; [intros _|intros _; by apply ppost_refl].
      apply wp_ret. by eapply (ppost_alloc _ _ _ _ _ _ _ _ _ true).
  - (* a child *)
    simpl in Hon. apply wp_bind. eapply wp_mono.
    { by apply (IH c (shift + 5) x e mutid h lab); [..|lia|]. }
    + intros r h1 Hpost.
      assert (ppost lab shift x h None h1) as Hnone.
      { eapply ppost_weaken; [|apply agree_refl|exact (ppost_None _ _ _ _ _ _ Hpost)]. lia. }
      destruct r as [|sub|]; [by apply wp_raise| |by apply wp_ret].
      destruct Hpost as (lab1 & Hg1 & Hp1 & Hf1 & Hs1). cbn [wres_loc] in Hs1.
      assert (pframe lab shift x h h1) as Hf01.
      { eapply pframe_weaken; [|apply agree_refl|done]. lia. }
      apply wp_bind, wp_load; [|done]. intros sn Hsn.
      apply wp_bind.
      eapply wp_mono with
        (Q := λ new_slot h', h' = h1 ∧ slot_on lab1 h1 (shift + 5) x new_slot)
        (E := λ _ h', h' = h1).
      * destruct sn as [sub_size sub_bitmap sub_array sub_m|];
          [|by apply wp_ret].
        destruct (sub_size =? 1); [|by apply wp_ret].
        apply wp_bind, wp_from_option; [|done].
        intros [k|c'] Hk; apply wp_ret; [|done].
        split; [done|]. simpl.
        pose proof (Hp1 _ _ Hsn) as (_ & Hall & _).
        unfold sits in Hs1. rewrite Hsn in Hs1. destruct Hs1 as [Hlev1 Hrep1].
        apply list_getitem_elem_of in Hk.
        rewrite Forall_forall in Hall. specialize (Hall _ Hk). simpl in Hall.
        rewrite Hlev1 in Hall. by eapply agree_trans.
      * intros new_slot h' [-> Hslot].
        apply wp_bind. eapply wp_mono.
        { eapply (with_slot_placed lab1 h1 l shift x); [done| | |done..].
          - eapply pframe_above; [exact Hf1| |done]. lia.
          - eapply sits_transfer; [by eapply pframe_same_kinds|done..]. }
        -- intros r h2 Hpost. apply wp_ret. by eapply ppost_trans.
        -- intros ex h2 Hpost. by eapply ppost_trans.
      * by intros ex h' ->.
    + intros ex h1 Hpost.
      eapply ppost_weaken; [|apply agree_refl|exact Hpost]. lia.
Qed.

End WithoutStep.

Lemma CollisionNode_without_placed l shift x e mutid h lab size hash array m :
  heap_wf h → placed lab h → 0 ≤ shift →
  h !! l = Some (CollisionNode size hash array m) →
  sits lab h l shift x →
  wp (CollisionNode_without l shift x e mutid) h
    (λ r h', ppost lab shift x h (wres_loc r) h')
    (λ _ h', ppost lab shift x h None h').
Proof.
  intros Hw Hp Hshift Hl Hsits.
  assert (agree shift hash x) as Hx.
  { unfold sits in Hsits. by rewrite Hl in Hsits. }
  pose proof (Hw _ _ Hl) as [Hlen Hall].
  unfold CollisionNode_without. apply wp_bind, wp_load; [|congruence].
  intros n Hn. rewrite Hl in Hn. injection Hn as <-.
  destruct (Z.eqb_spec x hash) as [->|Hne]; cbn [negb];
    [|apply wp_ret; by apply ppost_refl].
  apply wp_bind, wp_read; [|intros; by apply ppost_refl].
  intros key_idx _.
  destruct (key_idx =? -1); [apply wp_ret; by apply ppost_refl|].
  destruct (size - 1 =? 0); [apply wp_ret; by apply ppost_refl|].
  destruct (size - 1 =? 1).
  - apply wp_bind.
    eapply wp_mono with
      (Q := λ k h', h' = h ∧ k ∈ array) (E := λ _ h', h' = h).
    + repeat first
        [ match goal with
          | |- wp (if ?b then _ else _) _ _ _ => destruct b
          end
        | apply wp_from_option;
          [intros k Hk%list_getitem_elem_of; by split|done]
        | by apply wp_raise ].
    + intros k h' [-> Hk].
      apply wp_bind, wp_BitmapNode_new; [intros _|intros _; by apply ppost_refl].
      apply wp_ret. cbn [wres_loc].
      eapply (ppost_alloc _ _ _ _ hash _ _ _ _ true); [done|apply agree_refl|].
      apply slots_on_single; [done|apply agree_refl|]. simpl.
      rewrite Forall_forall in Hall. rewrite (Hall _ Hk). apply agree_refl.
    + intros ex h' ->. by apply ppost_refl.
  - destruct (owned mutid m).
    + apply wp_bind, wp_store, wp_ret.
      by eapply (ppost_store_collision _ _ _ _ _ _ _ _ _ _ _ true).
    + apply wp_bind, wp_alloc, wp_ret.
      by eapply (ppost_alloc_collision _ _ _ _ _ _ _ _ true).
Qed.

Lemma node_without_placed fuel : ∀ l shift x e mutid h lab,
  heap_wf h → placed lab h → 0 ≤ shift → sits lab h l shift x →
  wp (node_without fuel l shift x e mutid) h
    (λ r h', ppost lab shift x h (wres_loc r) h')
    (λ _ h', ppost lab shift x h None h').
Proof.
  induction fuel as [|fuel IH]; intros l shift x e mutid h lab Hw Hp Hshift Hsits;
    [done|].
  cbn [node_without]. apply wp_bind, wp_load.
  - intros [size bitmap array m|size hash array m] Hl.
    + by eapply BitmapNode_without_placed.
    + by eapply CollisionNode_without_placed.
  - intros _. by apply ppost_refl.
Qed.

End WithoutPlaced.

(** ** States *)

Section WorldPlaced.
Context {K : Type} `{Hashable K}.
Implicit Types (h : list (node K)) (lab : loc → Z * Z) (w : world K).

Lemma rpost_of_ppost lab x h r h' : ppost lab 0 x h r h' → rpost lab h r h'.
Proof.
  intros (lab' & ? & ? & ? & Hr). exists lab'.
  split_and!; [done..|by eapply pframe_same_kinds|].
  destruct r; [|done]. by eapply sits_0.
Qed.

Lemma rpost_refl lab h : placed lab h → rpost lab h None h.
Proof.
  intros. exists lab. split_and!; [apply grows_refl|done|apply same_kinds_refl|done].
Qed.

Lemma rpost_None lab h r h' : rpost lab h r h' → rpost lab h None h'.
Proof. intros (lab' & ? & ? & ? & _). by exists lab'. Qed.

Lemma rpost_trans lab lab1 h h1 r h2 :
  grows h lab lab1 → same_kinds h h1 →
  rpost lab1 h1 r h2 → rpost lab h r h2.
Proof.
  intros Hg Hk (lab2 & Hg2 & Hp2 & Hk2 & Hr). exists lab2.
  split_and!; [|done| |done].
  - eapply grows_trans; [|done..]. by apply same_kinds_length.
  - by eapply same_kinds_trans.
Qed.

Lemma rpost_empty_node lab h r h' m :
  rpost lab h r h' →
  rpost lab h (Some (length h')) (h' ++ [BitmapNode 0 0 [] m]).
Proof.
  intros (lab' & Hg & Hp & Hk & _).
  eapply rpost_trans; [done..|].
  apply (rpost_of_ppost _ 0).
  eapply (ppost_alloc _ _ _ _ 0 _ _ _ _ true); [done|apply agree_0|].
  by apply slots_on_nil.
Qed.

Lemma update_loop_placed fuel it : ∀ root count mutid h lab,
  heap_wf h → placed lab h → sits lab h root 0 0 →
  wp (update_loop fuel it root count mutid) h
    (λ r h', rpost lab h (Some r.1) h') (λ _ h', rpost lab h None h').
Proof.
  induction it as [|e it IH]; intros root count mutid h lab Hw Hp Hs;
    cbn [update_loop].
  - apply wp_ret. exists lab.
    split_and!; [apply grows_refl|done|apply same_kinds_refl|done].
  - apply wp_bind. eapply wp_mono.
    { apply wp_and; [|by apply (node_add_wf fuel root 0 e mutid)].
      apply (node_add_placed fuel root 0 e mutid h lab); [done..|].
      by eapply sits_0. }
    + intros [root' added] h1 [[lab1 (Hg1 & Hp1 & Hk1 & Hs1)]%rpost_of_ppost Hw1].
      eapply wp_mono; [apply (IH root' _ mutid h1 lab1); done|..].
      * intros r h2 Hpost. by eapply rpost_trans.
      * intros ex h2 Hpost. by eapply rpost_trans.
    + intros ex h1 [Hpost%rpost_of_ppost _]. done.
Qed.

(** After an edit, a state whose sets and mutators have the roots they
    had, or the root that the edit returned, satisfies the invariant. *)
Lemma world_placed_edit lab w h' r ss ms c :
  (∀ s so, sets w !! s = Some so → sits lab (nodes w) (set_root so) 0 0) →
  (∀ m mo, muts w !! m = Some mo → sits lab (nodes w) (mut_root mo) 0 0) →
  rpost lab (nodes w) r h' →
  (∀ s so, ss !! s = Some so →
     (∃ s0 so0, sets w !! s0 = Some so0 ∧ set_root so0 = set_root so)
     ∨ (∃ m0 mo0, muts w !! m0 = Some mo0 ∧ mut_root mo0 = set_root so)
     ∨ r = Some (set_root so)) →
  (∀ m mo, ms !! m = Some mo →
     (∃ s0 so0, sets w !! s0 = Some so0 ∧ set_root so0 = mut_root mo)
     ∨ (∃ m0 mo0, muts w !! m0 = Some mo0 ∧ mut_root mo0 = mut_root mo)
     ∨ r = Some (mut_root mo)) →
  world_placed (World h' ss ms c).
Proof.
  intros Hsets Hmuts (lab' & Hg & Hp & Hk & Hr) Hss Hms.
  exists lab'. cbn [nodes sets muts]. split_and!; [done| |].
  - intros s so Hs. destruct (Hss _ _ Hs) as [(s0 & so0 & Hs0 & <-)|
      [(m0 & mo0 & Hm0 & <-)| ->]]; [| |done].
    + eapply sits_transfer; [done..|]. by eapply Hsets.
    + eapply sits_transfer; [done..|]. by eapply Hmuts.
  - intros m mo Hm. destruct (Hms _ _ Hm) as [(s0 & so0 & Hs0 & <-)|
      [(m0 & mo0 & Hm0 & <-)| ->]]; [| |done].
    + eapply sits_transfer; [done..|]. by eapply Hsets.
    + eapply sits_transfer; [done..|]. by eapply Hmuts.
Qed.

End WorldPlaced.
Section RunPlaced.
Context {K : Type} `{Hashable K}.
Implicit Types (h : list (node K)) (lab : loc → Z * Z) (w : world K).

Lemma world_placed_init : world_placed (init_world (K:=K)).
Proof. exists (λ _, (0, 0)). split_and!; by intros ???. Qed.

End RunPlaced.

(** Where the root of an object of the new state comes from. *)
Ltac roots_solve :=
  let Hlk := fresh "Hlk" in
  intros ? ? Hlk; cbn [sets muts nodes with_nodes] in Hlk;
  repeat first
    [ apply lookup_app_Some in Hlk as [Hlk|[_ Hlk]]
    | apply list_lookup_singleton_Some in Hlk as [_ <-]
    | apply list_lookup_insert_Some in Hlk as [(-> & <- & _)|[_ Hlk]] ];
  cbn [set_root mut_root]; eauto 8.

Ltac placed_close :=
  cbv beta in *; unfold with_nodes; cbn [nodes sets muts mut_id_counter];
  match goal with
  | Hs : ∀ s so, sets ?w !! s = Some so → sits ?lab (nodes ?w) _ 0 0,
    Hm : ∀ m mo, muts ?w !! m = Some mo → sits ?lab (nodes ?w) _ 0 0,
    Hr : rpost ?lab (nodes ?w) ?r ?h' |- _ =>
      apply (world_placed_edit lab w h' r _ _ _ Hs Hm Hr); roots_solve
  end.

Section RunPlaced2.
Context {K : Type} `{Hashable K}.
Implicit Types (h : list (node K)) (lab : loc → Z * Z) (w : world K).

Lemma Set_init_placed w :
  world_placed w →
  wp Set_init w (λ _ w', world_placed w') (λ _ w', world_placed w').
Proof.
  intros (lab & Hp & Hsets & Hmuts). unfold Set_init.
  apply wp_bind, wp_on_nodes, wp_BitmapNode_new; [intros _|done].
  pose proof (rpost_empty_node lab _ _ _ 0 (rpost_refl lab _ Hp)) as Hr.
  apply wp_Set__new. placed_close.
Qed.

Lemma Set_include_placed fuel s e w :
  heap_wf (nodes w) → world_placed w →
  wp (Set_include fuel s e) w
    (λ _ w', world_placed w') (λ _ w', world_placed w').
Proof.
  intros Hw (lab & Hp & Hsets & Hmuts). unfold Set_include.
  apply wp_bind, wp_load_set; [intros so Hs|intros; by exists lab].
  apply wp_bind, wp_on_nodes. eapply wp_mono.
  { apply (node_add_placed fuel (set_root so) 0 e 0 _ lab); [done..|].
    apply (sits_0 _ _ _ 0). by eapply Hsets. }
  - intros [r a] h' Hr%rpost_of_ppost. cbn [fst] in Hr.
    destruct (decide _); [destruct (negb a); [apply wp_ret|apply wp_raise]|
                          apply wp_Set__new]; placed_close.
  - intros ex h' Hr%rpost_of_ppost. placed_close.
Qed.

Lemma Set_exclude_placed fuel s e w :
  heap_wf (nodes w) → world_placed w →
  wp (Set_exclude fuel s e) w
    (λ _ w', world_placed w') (λ _ w', world_placed w').
Proof.
  intros Hw (lab & Hp & Hsets & Hmuts). unfold Set_exclude.
  apply wp_bind, wp_load_set; [intros so Hs|intros; by exists lab].
  apply wp_bind, wp_on_nodes. eapply wp_mono.
  { apply (node_without_placed fuel (set_root so) 0 (set_hash e) e 0 _ lab);
      [done..|]. apply (sits_0 _ _ _ 0). by eapply Hsets. }
  - intros r h' Hr%rpost_of_ppost.
    destruct r as [|r|]; cbn [wres_loc] in Hr.
    + apply Set_init_placed. placed_close.
    + apply wp_Set__new. placed_close.
    + apply wp_raise. placed_close.
  - intros ex h' Hr%rpost_of_ppost. placed_close.
Qed.

Lemma Set_update_placed fuel s args w :
  heap_wf (nodes w) → world_placed w →
  wp (Set_update fuel s args) w
    (λ _ w', world_placed w') (λ _ w', world_placed w').
Proof.
  intros Hw (lab & Hp & Hsets & Hmuts). unfold Set_update.
  destruct args as [|arg args]; [apply wp_ret; by exists lab|].
  apply wp_bind, wp__mut_id.
  apply wp_bind, wp_load_set; [intros so Hs|intros; by exists lab].
  cbn [sets] in Hs.
  apply wp_bind, wp_on_nodes. cbn [nodes]. eapply wp_mono.
  { apply (update_loop_placed fuel _ (set_root so) _ _ _ lab); [done..|].
    by eapply Hsets. }
  - intros [r c] h' Hr. cbn [fst] in Hr. apply wp_Set__new. placed_close.
  - intros ex h' Hr. placed_close.
Qed.

Lemma Set_mutate_placed s w :
  world_placed w →
  wp (Set_mutate s) w (λ _ w', world_placed w') (λ _ w', world_placed w').
Proof.
  intros (lab & Hp & Hsets & Hmuts). unfold Set_mutate.
  apply wp_bind, wp_load_set; [intros so Hs|intros; by exists lab].
  apply wp_bind, wp__mut_id.
  pose proof (rpost_refl lab _ Hp) as Hr.
  unfold wp. placed_close.
Qed.

Lemma Set___hash___placed maxsize fuel s w :
  world_placed w →
  wp (Set___hash__ maxsize fuel s) w
    (λ _ w', world_placed w') (λ _ w', world_placed w').
Proof.
  intros (lab & Hp & Hsets & Hmuts). unfold Set___hash__.
  pose proof (rpost_refl lab _ Hp) as Hr.
  apply wp_bind, wp_load_set; [intros so Hs|intros; by exists lab].
  destruct (negb _); [apply wp_ret; by exists lab|].
  apply wp_bind, wp_read; [intros ks _|intros; by exists lab].
  apply wp_bind, wp_store_set, wp_ret. placed_close.
Qed.

Lemma run_set_op_placed maxsize fuel s op w w' :
  heap_wf (nodes w) → world_placed w →
  run_set_op maxsize fuel s op w = Some w' → world_placed w'.
Proof.
  intros Hw Hwp.
  destruct op; simpl;
    apply (wp_final_state _ _ _ (λ w', world_placed w')).
  - by apply Set_include_placed.
  - by apply Set_exclude_placed.
  - by apply Set_update_placed.
  - by apply Set_mutate_placed.
  - by apply Set___hash___placed.
  - unfold Set___contains__. apply wp_bind, wp_load_set; [intros so Hs|done].
    by apply wp_read.
  - unfold Set___iter__. apply wp_bind, wp_load_set; [intros so Hs|done].
    by apply wp_read.
  - unfold Set___len__. apply wp_bind, wp_load_set; [intros so Hs|done].
    by apply wp_ret.
Qed.

Lemma SetMutation_include_placed fuel m e w :
  heap_wf (nodes w) → world_placed w →
  wp (SetMutation_include fuel m e) w
    (λ _ w', world_placed w') (λ _ w', world_placed w').
Proof.
  intros Hw (lab & Hp & Hsets & Hmuts). unfold SetMutation_include.
  apply wp_bind, wp_load_mut; [intros mo Hm|intros; by exists lab].
  destruct (mut_mutid mo =? 0); [apply wp_raise; by exists lab|].
  apply wp_bind, wp_on_nodes. eapply wp_mono.
  { apply (node_add_placed fuel (mut_root mo) 0 e _ _ lab); [done..|].
    apply (sits_0 _ _ _ 0). by eapply Hmuts. }
  - intros [r a] h' Hr%rpost_of_ppost. cbn [fst] in Hr.
    apply wp_store_mut. placed_close.
  - intros ex h' Hr%rpost_of_ppost. placed_close.
Qed.

Lemma SetMutation_exclude_placed fuel m e w :
  heap_wf (nodes w) → world_placed w →
  wp (SetMutation_exclude fuel m e) w
    (λ _ w', world_placed w') (λ _ w', world_placed w').
Proof.
  intros Hw (lab & Hp & Hsets & Hmuts). unfold SetMutation_exclude.
  apply wp_bind, wp_load_mut; [intros mo Hm|intros; by exists lab].
  destruct (mut_mutid mo =? 0); [apply wp_raise; by exists lab|].
  apply wp_bind, wp_on_nodes. eapply wp_mono.
  { apply (node_without_placed fuel (mut_root mo) 0 (set_hash e) e _ _ lab);
      [done..|]. apply (sits_0 _ _ _ 0). by eapply Hmuts. }
  - intros r h' Hr%rpost_of_ppost.
    destruct r as [|r|]; cbn [wres_loc] in Hr.
    + apply wp_bind, wp_on_nodes, wp_BitmapNode_new; [intros _|intros _].
      * apply (rpost_empty_node _ _ _ _ (mut_mutid mo)) in Hr.
        apply wp_store_mut. placed_close.
      * placed_close.
    + apply wp_store_mut. placed_close.
    + apply wp_raise. placed_close.
  - intros ex h' Hr%rpost_of_ppost. placed_close.
Qed.

Lemma SetMutation_update_placed fuel m args w :
  heap_wf (nodes w) → world_placed w →
  wp (SetMutation_update fuel m args) w
    (λ _ w', world_placed w') (λ _ w', world_placed w').
Proof.
  intros Hw (lab & Hp & Hsets & Hmuts). unfold SetMutation_update.
  apply wp_bind, wp_load_mut; [intros mo Hm|intros; by exists lab].
  destruct (mut_mutid mo =? 0); [apply wp_raise; by exists lab|].
  destruct args as [|arg args]; [apply wp_ret; by exists lab|].
  apply wp_bind, wp_on_nodes. eapply wp_mono.
  { apply (update_loop_placed fuel _ (mut_root mo) _ _ _ lab); [done..|].
    by eapply Hmuts. }
  - intros [r c] h' Hr. cbn [fst] in Hr.
    apply wp_bind, wp_store_mut, wp_ret. placed_close.
  - intros ex h' Hr. placed_close.
Qed.

Lemma SetMutation_finish_placed m w :
  world_placed w →
  wp (SetMutation_finish m) w
    (λ _ w', world_placed w') (λ _ w', world_placed w').
Proof.
  intros (lab & Hp & Hsets & Hmuts). unfold SetMutation_finish.
  pose proof (rpost_refl lab _ Hp) as Hr.
  apply wp_bind, wp_load_mut; [intros mo Hm|intros; by exists lab].
  apply wp_bind, wp_store_mut, wp_Set__new. placed_close.
Qed.

Lemma run_mut_op_placed fuel m op w w' :
  heap_wf (nodes w) → world_placed w →
  run_mut_op fuel m op w = Some w' → world_placed w'.
Proof.
  intros Hw Hwp.
  destruct op; simpl;
    apply (wp_final_state _ _ _ (λ w', world_placed w')).
  - by apply SetMutation_include_placed.
  - by apply SetMutation_exclude_placed.
  - by apply SetMutation_update_placed.
  - by apply SetMutation_finish_placed.
Qed.

Lemma run_call_placed maxsize fuel c w w' :
  heap_wf (nodes w) → world_placed w →
  run_call maxsize fuel c w = Some w' → world_placed w'.
Proof.
  intros Hw Hwp. destruct c as [|s op|m op]; cbn [run_call].
  - apply (wp_final_state _ _ _ (λ w', world_placed w')).
    by apply Set_init_placed.
  - by apply run_set_op_placed.
  - by apply run_mut_op_placed.
Qed.

Lemma run_calls_placed maxsize fuel cs : ∀ w w',
  world_inv w → world_placed w →
  run_calls maxsize fuel cs w = Some w' → world_placed w'.
Proof.
  induction cs as [|c cs IH]; intros w w' Hinv Hwp; simpl.
  - by intros [= <-].
  - destruct (run_call maxsize fuel c w) as [w1|] eqn:Hc; [|done].
    apply IH.
    + by eapply run_call_inv.
    + eapply run_call_placed; [|done..]. by destruct Hinv as (_ & _ & ?).
Qed.

End RunPlaced2.
(** ** Collision nodes hold no key twice *)

Section NoDupFacts.
Context {K : Type} `{Hashable K}.
Implicit Types (h : list (node K)).

Lemma heap_nodup_app h n : heap_nodup h → node_nodup n → heap_nodup (h ++ [n]).
Proof.
  intros Hh Hn l n' Hl. apply lookup_app_Some in Hl as [Hl|[_ Hl]]; [eauto|].
  apply list_lookup_singleton_Some in Hl as [_ <-]. done.
Qed.

Lemma heap_nodup_insert h l n :
  heap_nodup h → node_nodup n → heap_nodup (<[l := n]> h).
Proof.
  intros Hh Hn l' n' Hl. apply list_lookup_insert_Some in Hl.
  destruct Hl as [(-> & -> & _)|[_ Hl]]; eauto.
Qed.

Lemma find_index_absent size (array : list K) key :
  CollisionNode_find_index size array key = Val (-1) →
  Z.of_nat (length array) ≤ size → key ∉ array.
Proof.
  intros Hf Hsize. apply find_index_loop_spec in Hf; [|done].
  destruct Hf as [[_ Hall]|(Hr & _)]; [|lia].
  intros (i & Hi)%list_elem_of_lookup_1.
  pose proof (lookup_lt_Some _ _ _ Hi).
  destruct (Hall (Z.of_nat i)) as (k & Hk & Hne); [lia|].
  rewrite Nat2Z.id in Hk. congruence.
Qed.

Lemma NoDup_slice_delete {A} (l : list A) i :
  0 ≤ i → NoDup l → NoDup (slice_to l i ++ slice_from l (i + 1)).
Proof.
  intros Hi Hnd. rewrite slice_to_nonneg, slice_from_nonneg by lia.
  eapply sublist_NoDup; [exact Hnd|].
  rewrite <- (take_drop (Z.to_nat i) l) at 3.
  apply sublist_app; [done|].
  replace (Z.to_nat (i + 1)) with (Z.to_nat i + 1)%nat by lia.
  rewrite <- drop_drop. apply sublist_drop.
Qed.

Lemma not_elem_of_slice_delete {A} (l : list A) i x :
  0 ≤ i → NoDup l → l !! Z.to_nat i = Some x →
  x ∉ slice_to l i ++ slice_from l (i + 1).
Proof.
  intros Hi Hnd Hx. rewrite slice_to_nonneg, slice_from_nonneg by lia.
  replace (Z.to_nat (i + 1)) with (S (Z.to_nat i)) by lia.
  rewrite <- (take_drop_middle _ _ _ Hx) in Hnd.
  apply NoDup_app in Hnd as (_ & Hnot & Hnd).
  apply NoDup_cons in Hnd as [Hx' _].
  intros [Hin|Hin]%elem_of_app; [|done].
  apply (Hnot _ Hin). apply list_elem_of_here.
Qed.

Lemma with_slot_nodup mutid h self idx x :
  heap_nodup h →
  wp (BitmapNode_with_slot self mutid idx x) h
    (λ _ h', heap_nodup h') (λ _ h', heap_nodup h').
Proof.
  intros Hw.
  unfold BitmapNode_with_slot, BitmapNode_clone, BitmapNode_setitem.
  repeat wp_step; heap_norm; try done.
  all: first [by apply heap_nodup_insert | by apply heap_nodup_app].
Qed.

End NoDupFacts.

Ltac nodup_close :=
  lazymatch goal with
  | |- heap_nodup (_ ++ [BitmapNode _ _ _ _]) => by apply heap_nodup_app
  | |- heap_nodup (<[_ := BitmapNode _ _ _ _]> _) => by apply heap_nodup_insert
  | |- heap_nodup (_ ++ [_]) => apply heap_nodup_app; [assumption|]
  | |- heap_nodup (<[_ := _]> _) => apply heap_nodup_insert; [assumption|]
  | |- heap_nodup _ => assumption
  end.

Ltac use_heap_nodup :=
  match goal with
  | Hn : heap_nodup ?h, Hl : ?h !! _ = Some (CollisionNode _ _ _ _) |- _ =>
      let Hd := fresh "Hd" in
      pose proof (Hn _ _ Hl) as Hd; simpl in Hd
  end.

Section NoDupOps.
Context {K : Type} `{Hashable K}.
Implicit Types (h : list (node K)).

Lemma node_add_nodup fuel : ∀ self shift key mutid h,
  heap_wf h → heap_nodup h →
  wp (node_add fuel self shift (set_hash key) key mutid) h
    (λ _ h', heap_wf h' ∧ heap_nodup h') (λ _ h', heap_wf h' ∧ heap_nodup h').
Proof.
  induction fuel as [|fuel IH]; intros self shift key mutid h Hw Hn; [done|].
  apply wp_and; [by apply node_add_wf|].
  cbn [node_add]. unfold BitmapNode_add, CollisionNode_add.
  repeat (first
    [ wp_step
    | eapply wp_mono; [apply IH|intros [??] ? [??]|intros ?? [??]]
    | eapply wp_mono; [apply with_slot_nodup|intros ???|intros ???] ];
    heap_norm);
  try done.
  all: try (by apply heap_wf_empty_node).
  all: try nodup_close.
  - simpl. apply NoDup_cons. split; [|apply NoDup_singleton].
    intros ?%list_elem_of_singleton. congruence.
  - simpl. eqb_norm. subst. use_heap_wf. use_heap_nodup.
    apply NoDup_app. split_and!; [done| |apply NoDup_singleton].
    intros x Hx ?%list_elem_of_singleton. subst.
    by eapply find_index_absent.
  - simpl. eqb_norm. subst. use_heap_wf. use_heap_nodup.
    apply NoDup_app. split_and!; [done| |apply NoDup_singleton].
    intros x Hx ?%list_elem_of_singleton. subst.
    by eapply find_index_absent.
  - apply heap_wf_app; [done|]. simpl.
    pose proof (set_bitpos_range hash shift).
    split_and!; [lia..|done|by rewrite set_bitcount_bitpos].
Qed.

Lemma node_without_nodup fuel : ∀ self shift hash key mutid h,
  heap_nodup h →
  wp (node_without fuel self shift hash key mutid) h
    (λ _ h', heap_nodup h') (λ _ h', heap_nodup h').
Proof.
  induction fuel as [|fuel IH]; intros self shift hash key mutid h Hn; [done|].
  cbn [node_without]. unfold BitmapNode_without, CollisionNode_without.
  repeat (first
    [ wp_step
    | eapply wp_mono; [apply IH|intros ???|intros ???]
    | eapply wp_mono; [apply with_slot_nodup|intros ???|intros ???] ];
    heap_norm);
  try done.
  all: try nodup_close.
  all: simpl; eqb_norm; use_heap_nodup;
    match goal with
    | Hf : CollisionNode_find_index _ _ _ = Val ?a, Hne : ?a ≠ -1 |- _ =>
        destruct (find_index_found _ _ _ _ Hf Hne) as (? & ? & ?)
    end;
    apply NoDup_slice_delete; [lia|done].
Qed.

Lemma update_loop_nodup fuel it : ∀ root count mutid h,
  heap_wf h → heap_nodup h →
  wp (update_loop fuel it root count mutid) h
    (λ _ h', heap_wf h' ∧ heap_nodup h') (λ _ h', heap_wf h' ∧ heap_nodup h').
Proof.
  induction it as [|element it IH]; intros root count mutid h Hw Hn; simpl.
  - by apply wp_ret.
  - apply wp_bind. eapply wp_mono; [by apply node_add_nodup| |done].
    intros [root' added] h' [Hw' Hn']. by apply IH.
Qed.

Lemma run_set_op_nodup maxsize fuel s op (w w' : world K) :
  heap_wf (nodes w) → heap_nodup (nodes w) →
  run_set_op maxsize fuel s op w = Some w' → heap_nodup (nodes w').
Proof.
  intros Hw Hn.
  destruct op; simpl;
    apply (wp_final_state _ _ _ (λ w', heap_nodup (nodes w')));
    unfold Set_include, Set_exclude, Set_update, Set_mutate, Set___hash__,
      Set___contains__, Set___iter__, Set___len__.
  all: try destruct args as [|arg args].
  all: repeat first
      [ wp_wstep
      | eapply wp_mono; [by apply node_add_nodup|intros [??] ? [??]|intros ?? [??]]
      | eapply wp_mono; [by apply node_without_nodup|intros ???|intros ???]
      | eapply wp_mono; [by apply update_loop_nodup|intros [??] ? [??]|intros ?? [??]] ];
    heap_norm; simplify_eq; try done.
  by apply heap_nodup_app.
Qed.

Lemma run_mut_op_nodup fuel m op (w w' : world K) :
  heap_wf (nodes w) → heap_nodup (nodes w) →
  run_mut_op fuel m op w = Some w' → heap_nodup (nodes w').
Proof.
  intros Hw Hn.
  destruct op; simpl;
    apply (wp_final_state _ _ _ (λ w', heap_nodup (nodes w')));
    unfold SetMutation_include, SetMutation_exclude, SetMutation_update,
      SetMutation_finish.
  all: try destruct args as [|arg args].
  all: repeat first
      [ wp_wstep
      | eapply wp_mono; [by apply node_add_nodup|intros [??] ? [??]|intros ?? [??]]
      | eapply wp_mono; [by apply node_without_nodup|intros ???|intros ???]
      | eapply wp_mono; [by apply update_loop_nodup|intros [??] ? [??]|intros ?? [??]] ];
    heap_norm; simplify_eq; try done.
  by apply heap_nodup_app.
Qed.

Lemma run_call_nodup maxsize fuel c (w w' : world K) :
  heap_wf (nodes w) → heap_nodup (nodes w) →
  run_call maxsize fuel c w = Some w' → heap_nodup (nodes w').
Proof.
  intros Hw Hn. destruct c as [|s op|m op]; cbn [run_call].
  - apply (wp_final_state _ _ _ (λ w', heap_nodup (nodes w'))).
    unfold Set_init. repeat wp_wstep; try done.
    by apply heap_nodup_app.
  - by eapply run_set_op_nodup.
  - by eapply run_mut_op_nodup.
Qed.

Lemma trie_inv_init : trie_inv (init_world (K:=K)).
Proof.
  split_and!; [apply world_inv_init|apply world_placed_init|by intros ???].
Qed.

Lemma run_call_trie_inv maxsize fuel c (w w' : world K) :
  trie_inv w → run_call maxsize fuel c w = Some w' → trie_inv w'.
Proof.
  intros (Hinv & Hp & Hn) Hc.
  pose proof Hinv as (_ & _ & Hw). split_and!.
  - by eapply run_call_inv.
  - by eapply run_call_placed.
  - by eapply run_call_nodup.
Qed.

Lemma run_calls_trie_inv maxsize fuel cs : ∀ (w w' : world K),
  trie_inv w → run_calls maxsize fuel cs w = Some w' → trie_inv w'.
Proof.
  induction cs as [|c cs IH]; intros w w' Hinv; simpl.
  - by intros [= <-].
  - destruct (run_call maxsize fuel c w) as [w1|] eqn:Hc; [|done].
    apply IH. by eapply run_call_trie_inv.
Qed.

End NoDupOps.
(** ** Every slot is the slot of a hash *)

Lemma bits_count_select n v : ∀ i,
  0 ≤ i < bits_count n v →
  ∃ b, (b < n)%nat ∧ Z.testbit v (Z.of_nat b) = true ∧ bits_count b v = i.
Proof.
  induction n as [|n IH]; intros i Hi; [simpl in Hi; lia|].
  rewrite bits_count_snoc in Hi.
  destruct (decide (i < bits_count n v)) as [Hlt|Hge].
  - destruct (IH i) as (b & ? & ? & ?); [lia|]. exists b. split_and!; [lia|done..].
  - destruct (Z.testbit v (Z.of_nat n)) eqn:Hb; simpl in Hi; [|lia].
    exists n. split_and!; [lia|done|lia].
Qed.

Section SlotSelect.
Context {K : Type} `{Hashable K}.
Implicit Types (h : list (node K)) (lab : loc → Z * Z) (s : slot K).

Lemma slot_select lev rep bitmap i :
  0 ≤ lev → 0 ≤ bitmap < 2 ^ 32 → 0 ≤ i < set_bitcount bitmap →
  ∃ x, agree lev rep x
       ∧ truthy (Z.land bitmap (set_bitpos x lev)) = true
       ∧ set_bitindex bitmap (set_bitpos x lev) = i.
Proof.
  intros Hlev Hbm Hi. rewrite set_bitcount_spec in Hi by done.
  destruct (bits_count_select 32 bitmap i Hi) as (b & Hb & Hbit & Hcount).
  destruct (agree_exists lev rep (Z.of_nat b)) as (x & Hx & Hm); [lia..|].
  exists x. split_and!; [done| |].
  - by rewrite truthy_land_bitpos, Hm.
  - by rewrite set_bitindex_count, Hm, Nat2Z.id.
Qed.

(** What a slot of a placed node holds is what the search for some hash
    through the node finds there. *)
Lemma placed_array_slot lab h l size bitmap array m i s :
  heap_wf h → placed lab h →
  h !! l = Some (BitmapNode size bitmap array m) →
  0 ≤ i → list_getitem array i = Some s →
  ∃ x, agree (lab l).1 (lab l).2 x
       ∧ truthy (Z.land bitmap (set_bitpos x (lab l).1)) = true
       ∧ set_bitindex bitmap (set_bitpos x (lab l).1) = i
       ∧ slot_on lab h ((lab l).1 + 5) x s.
Proof.
  intros Hw Hp Hl Hi Hs.
  pose proof (Hw _ _ Hl) as (Hbm & Hsize & Hcount).
  pose proof (Hp _ _ Hl) as (Hlev & _ & Hslots).
  pose proof (list_getitem_lt _ _ _ Hi Hs).
  destruct (slot_select (lab l).1 (lab l).2 bitmap i) as (x & Hx & Hb & Hidx);
    [done..|lia|].
  exists x. split_and!; [done..|]. apply Hslots; [done..|]. by rewrite Hidx.
Qed.

(** A key in the array of a placed node is found there. *)
Lemma elem_present lab h l size bitmap array m i k :
  heap_wf h → placed lab h →
  h !! l = Some (BitmapNode size bitmap array m) →
  0 ≤ i → list_getitem array i = Some (Elem k) →
  present 1 h l (lab l).1 (set_hash k) k.
Proof.
  intros Hw Hp Hl Hi Hs.
  destruct (placed_array_slot _ _ _ _ _ _ _ _ _ Hw Hp Hl Hi Hs)
    as (x & Hx & Hb & Hidx & Hon).
  pose proof (Hp _ _ Hl) as (Hlev & _ & _).
  simpl in Hon. apply agree_mask in Hon; [|done].
  apply set_bitpos_mask in Hon.
  rewrite present_S, Hl, Hon, Hidx, Hs. done.
Qed.

(** The search does not look above its level. *)
Lemma present_edit_above lab f : ∀ h h' c shift x (e : K),
  placed lab h → sits lab h c shift x →
  (∀ l n, h !! l = Some n →
     h' !! l = Some n ∨ (node_kind n = None ∧ (lab l).1 < shift)) →
  present f h' c shift x e → present f h c shift x e.
Proof.
  induction f as [|f IH]; intros h h' c shift x e Hp Hsits Hsame; [done|].
  destruct (sits_is_Some _ _ _ _ _ Hsits) as [n Hc].
  assert (h' !! c = Some n) as Hc'.
  { destruct (Hsame _ _ Hc) as [?|[Hk Hlt]]; [done|].
    unfold sits in Hsits. rewrite Hc in Hsits.
    destruct n; [|done]. destruct Hsits. lia. }
  rewrite !present_S, Hc, Hc'.
  destruct n as [size bitmap array m|]; [|done].
  intros [Hb Hslot]. split; [done|].
  destruct (list_getitem _ _) as [[k|c']|] eqn:Hg; [done| |done].
  eapply IH; [done| | |done].
  - exact (placed_slot lab h c shift x _ _ _ _ (Child c') Hp Hc Hsits Hb Hg).
  - intros l n Hl. destruct (Hsame _ _ Hl) as [?|[? ?]]; [by left|right].
    split; [done|lia].
Qed.

End SlotSelect.
(** ** [without] removes its key *)

Section WithoutAbsent.
Context {K : Type} `{Hashable K}.
Implicit Types (h : list (node K)) (lab : loc → Z * Z) (s : slot K).

Lemma not_present_cleared f h l shift x (e : K) size bitmap array m :
  h !! l = Some (BitmapNode size (Z.land bitmap (Z.lnot (set_bitpos x shift)))
                   array m) →
  ¬ present f h l shift x e.
Proof.
  intros Hl Hpr. destruct f as [|f]; [exact Hpr|].
  rewrite present_S, Hl in Hpr. destruct Hpr as [Hb _].
  by rewrite land_lnot_bit in Hb.
Qed.

Lemma not_present_collision f h l shift x (e : K) size hash array m :
  h !! l = Some (CollisionNode size hash array m) → e ∉ array →
  ¬ present f h l shift x e.
Proof.
  intros Hl Hnot Hpr. destruct f as [|f]; [exact Hpr|].
  rewrite present_S, Hl in Hpr. destruct Hpr as (_ & i & Hf & Hne).
  destruct (find_index_found _ _ _ _ Hf Hne) as (_ & _ & Hi).
  apply Hnot. by eapply list_elem_of_lookup_2.
Qed.

Lemma not_present_single f h l shift x (e k : K) size bitmap m :
  h !! l = Some (BitmapNode size bitmap [Elem k] m) → k ≠ e →
  ¬ present f h l shift x e.
Proof.
  intros Hl Hne Hpr. destruct f as [|f]; [exact Hpr|].
  rewrite present_S, Hl in Hpr. destruct Hpr as [_ Hs].
  destruct (list_getitem _ _) as [s|] eqn:Hg; [|done].
  apply list_getitem_elem_of, list_elem_of_singleton in Hg. subst s.
  congruence.
Qed.

Section AbsentStep.
Variable fuel : nat.
Hypothesis IH : ∀ l shift e mutid h lab,
  heap_wf h → heap_nodup h → placed lab h → 0 ≤ shift →
  sits lab h l shift (set_hash e) →
  wp (node_without fuel l shift (set_hash e) e mutid) h
    (λ r h', match r with
             | W_NEWNODE r' => ∀ f, ¬ present f h' r' shift (set_hash e) e
             | _ => True
             end)
    (λ _ _, True).

Lemma BitmapNode_without_absent l shift e mutid h lab size bitmap array m :
  heap_wf h → heap_nodup h → placed lab h →
  h !! l = Some (BitmapNode size bitmap array m) →
  sits lab h l shift (set_hash e) →
  wp (BitmapNode_without (node_without fuel) l shift (set_hash e) e mutid) h
    (λ r h', match r with
             | W_NEWNODE r' => ∀ f, ¬ present f h' r' shift (set_hash e) e
             | _ => True
             end)
    (λ _ _, True).
Proof.
  intros Hw Hn Hp Hl Hsits.
  destruct (placed_slots _ _ _ _ _ _ _ _ _ Hp Hl Hsits)
    as (Hlev & Hshift & Hx & Hslots).
  pose proof (Hw _ _ Hl) as (Hbm & Hsize & Hcount).
  pose proof (set_bitindex_nonneg bitmap (set_bitpos (set_hash e) shift)) as Hnn.
  unfold BitmapNode_without. apply wp_bind, wp_load; [|done].
  intros n Hn0. rewrite Hl in Hn0. injection Hn0 as <-.
  destruct (truthy _) eqn:Hb; cbn [negb]; [|by apply wp_ret].
  apply wp_bind, wp_from_option; [|done].
  intros s Hs.
  pose proof (placed_slot _ _ _ _ _ _ _ _ _ _ Hp Hl Hsits Hb Hs) as Hon.
  destruct s as [k0|c].
  - (* the key *)
    destruct (decide (e = k0)) as [->|Hne]; [|by apply wp_ret].
    destruct (size =? 1); [by apply wp_ret|].
    destruct (owned mutid m).
    + apply wp_bind, wp_store, wp_ret. intros f.
      eapply not_present_cleared.
      apply list_lookup_insert_eq. by eapply lookup_lt_Some.
    + apply wp_bind, wp_BitmapNode_new; [intros _|done].
      apply wp_ret. intros f.
      eapply not_present_cleared. apply lookup_app_last.
  - (* a child *)
    simpl in Hon. apply wp_bind. eapply wp_mono.
    { apply wp_and; [apply wp_and|].
      - by apply (IH c (shift + 5) e mutid h lab); [..|lia|].
      - by apply (node_without_placed fuel c (shift + 5) (set_hash e) e mutid
                    h lab); [..|lia|].
      - by apply (node_without_wf fuel c (shift + 5) (set_hash e) e mutid). }
    + intros r h1 [[Habs Hpost] Hw1].
      destruct r as [|sub|]; [by apply wp_raise| |by apply wp_ret].
      destruct Hpost as (lab1 & Hg1 & Hp1 & Hf1 & Hs1). cbn [wres_loc] in Hs1.
      assert (h1 !! l = Some (BitmapNode size bitmap array m)) as Hl1
        by (eapply pframe_above; [exact Hf1|lia|exact Hl]).
      assert (lab1 l = lab l) as Hlab1
        by (apply Hg1; by eapply lookup_lt_Some).
      apply wp_bind, wp_load; [|done]. intros sn Hsn.
      apply wp_bind.
      eapply wp_mono with
        (Q := λ new_slot h', h' = h1
                ∧ match new_slot with
                  | Elem k => k ≠ e
                  | Child c' => c' = sub
                  end)
        (E := λ _ _, True).
      * destruct sn as [sub_size sub_bitmap sub_array sub_m|];
          [|by apply wp_ret].
        destruct (sub_size =? 1); [|by apply wp_ret].
        apply wp_bind, wp_from_option; [|done].
        intros [k|c'] Hk; apply wp_ret; [|done].
        split; [done|]. intros ->.
        pose proof (elem_present lab1 h1 sub _ _ _ _ 0 e Hw1 Hp1 Hsn
                      ltac:(lia) Hk) as Hpres.
        unfold sits in Hs1. rewrite Hsn in Hs1. destruct Hs1 as [Hlev1 _].
        rewrite Hlev1 in Hpres. by apply (Habs 1%nat).
      * intros new_slot h' [-> Hslot].
        unfold wp, bind.
        rewrite (with_slot_run l mutid _ new_slot _ h1 _ _ _ _ Hl1
                   ltac:(lia) Hnn Hs).
        destruct (owned mutid m); simpl; intros [|f] Hpr0;
          try exact Hpr0; revert Hpr0.
        -- rewrite present_S, list_lookup_insert_eq
             by (by eapply lookup_lt_Some).
           intros [_ Hpr]. rewrite list_getitem_insert in Hpr
             by (split; [done|by eapply list_getitem_lt]).
           destruct new_slot as [k|c']; [congruence|]. subst c'.
           apply (Habs f).
           eapply (present_edit_above lab1); [done..| |exact Hpr].
           intros l0 n0 Hl0. destruct (decide (l0 = l)) as [->|Hne].
           ++ right. rewrite Hl1 in Hl0. injection Hl0 as <-.
              split; [done|]. rewrite Hlab1. lia.
           ++ left. by rewrite list_lookup_insert_ne.
        -- rewrite present_S, lookup_app_last.
           intros [_ Hpr]. rewrite list_getitem_insert in Hpr
             by (split; [done|by eapply list_getitem_lt]).
           destruct new_slot as [k|c']; [congruence|]. subst c'.
           apply (Habs f).
           eapply (present_edit_above lab1); [done..| |exact Hpr].
           intros l0 n0 Hl0. left. by apply lookup_app_l_Some.
      * done.
    + done.
Qed.

End AbsentStep.

Lemma CollisionNode_without_absent l shift e mutid h size hash array m :
  heap_wf h → heap_nodup h →
  h !! l = Some (CollisionNode size hash array m) →
  wp (CollisionNode_without l shift (set_hash e) e mutid) h
    (λ r h', match r with
             | W_NEWNODE r' => ∀ f, ¬ present f h' r' shift (set_hash e) e
             | _ => True
             end)
    (λ _ _, True).
Proof.
  intros Hw Hn Hl.
  pose proof (Hw _ _ Hl) as [Hlen Hall].
  pose proof (Hn _ _ Hl) as Hd. simpl in Hd.
  unfold CollisionNode_without. apply wp_bind, wp_load; [|done].
  intros n Hn0. rewrite Hl in Hn0. injection Hn0 as <-.
  destruct (Z.eqb_spec (set_hash e) hash) as [Heq|Hne]; cbn [negb];
    [|by apply wp_ret].
  apply wp_bind, wp_read; [|done].
  intros a Hf.
  destruct (Z.eqb_spec a (-1)) as [|Hne]; [by apply wp_ret|].
  destruct (find_index_found _ _ _ _ Hf Hne) as (Ha & _ & Hae).
  destruct (size - 1 =? 0); [by apply wp_ret|].
  destruct (size - 1 =? 1).
  - apply wp_bind.
    eapply wp_mono with (Q := λ k h', h' = h ∧ k ≠ e) (E := λ _ _, True).
    + destruct (Z.eqb_spec a 0) as [->|Hne0].
      * apply wp_from_option; [|done]. intros k Hk. split; [done|].
        intros ->. rewrite list_getitem_nonneg in Hk by lia.
        pose proof (NoDup_lookup _ _ _ _ Hd Hae Hk). done.
      * destruct (Z.eqb_spec a 1) as [->|Hne1]; [|done].
        apply wp_from_option; [|done]. intros k Hk. split; [done|].
        intros ->. rewrite list_getitem_nonneg in Hk by lia.
        pose proof (NoDup_lookup _ _ _ _ Hd Hae Hk). done.
    + intros k h' [-> Hk].
      apply wp_bind, wp_BitmapNode_new; [intros _|done].
      apply wp_ret. intros f.
      eapply not_present_single; [apply lookup_app_last|done].
    + done.
  - assert (e ∉ slice_to array a ++ slice_from array (a + 1)) as Hnot
      by (apply not_elem_of_slice_delete; [lia|done..]).
    destruct (owned mutid m).
    + apply wp_bind, wp_store, wp_ret. intros f.
      eapply not_present_collision; [|done].
      apply list_lookup_insert_eq. by eapply lookup_lt_Some.
    + apply wp_bind, wp_alloc, wp_ret. intros f.
      eapply not_present_collision; [apply lookup_app_last|done].
Qed.

Lemma node_without_absent fuel : ∀ l shift e mutid h lab,
  heap_wf h → heap_nodup h → placed lab h → 0 ≤ shift →
  sits lab h l shift (set_hash e) →
  wp (node_without fuel l shift (set_hash e) e mutid) h
    (λ r h', match r with
             | W_NEWNODE r' => ∀ f, ¬ present f h' r' shift (set_hash e) e
             | _ => True
             end)
    (λ _ _, True).
Proof.
  induction fuel as [|fuel IH];
    intros l shift e mutid h lab Hw Hn Hp Hshift Hsits; [done|].
  cbn [node_without]. apply wp_bind, wp_load; [|done].
  intros [size bitmap array m|size hash array m] Hl.
  - by eapply BitmapNode_without_absent.
  - by eapply CollisionNode_without_absent.
Qed.

End WithoutAbsent.
(** ** What is iterated is found *)

Section IterSound.
Context {K : Type} `{Hashable K}.
Implicit Types (h : list (node K)) (lab : loc → Z * Z) (s : slot K).

Lemma iter_slots_inv (rec : nat → res K (list K)) (array : list (slot K))
    (n : nat) : ∀ i ks k,
  iter_slots rec array i n = Val ks → k ∈ ks →
  ∃ j, i ≤ j < i + Z.of_nat n
       ∧ (list_getitem array j = Some (Elem k)
          ∨ ∃ c ks', list_getitem array j = Some (Child c)
                     ∧ rec c = Val ks' ∧ k ∈ ks').
Proof.
  induction n as [|n IH]; intros i ks k Hit Hk.
  { simpl in Hit. injection Hit as <-. by apply elem_of_nil in Hk. }
  simpl in Hit.
  destruct (list_getitem array i) as [y|] eqn:Hy; [|done].
  destruct (match y with Child c => rec c | Elem k => Val [k] end)
    as [ks0| |] eqn:Hy0; [|done..].
  destruct (iter_slots rec array (i + 1) n) as [ks1| |] eqn:Hrest; [|done..].
  injection Hit as <-. apply elem_of_app in Hk as [Hk|Hk].
  - exists i. split; [lia|]. destruct y as [k0|c].
    + injection Hy0 as <-. apply list_elem_of_singleton in Hk as ->. by left.
    + right. by exists c, ks0.
  - destruct (IH _ _ _ Hrest Hk) as (j & Hj & Hcase).
    exists j. split; [lia|done].
Qed.

Lemma find_index_elem_of size (array : list K) k :
  NoDup array → Z.of_nat (length array) ≤ size → k ∈ array →
  ∃ i, CollisionNode_find_index size array k = Val i ∧ i ≠ -1.
Proof.
  intros Hd Hlen (i & Hi)%list_elem_of_lookup_1.
  pose proof (lookup_lt_Some _ _ _ Hi).
  exists (Z.of_nat i). split; [|lia].
  apply find_index_loop_complete; [lia|lia|by rewrite Nat2Z.id|].
  intros j Hj.
  destruct (lookup_lt_is_Some_2 array (Z.to_nat j)) as [k' Hk']; [lia|].
  exists k'. split; [done|]. intros ->.
  pose proof (NoDup_lookup _ _ _ _ Hd Hi Hk'). lia.
Qed.

Lemma iter_sound lab f : ∀ h l shift x ks,
  heap_wf h → heap_nodup h → placed lab h → sits lab h l shift x →
  node_iter f h l = Val ks →
  ∀ k, k ∈ ks →
    agree shift (set_hash k) x ∧ present f h l shift (set_hash k) k.
Proof.
  induction f as [|f IH]; intros h l shift x ks Hw Hn Hp Hsits; [done|].
  cbn [node_iter].
  destruct (h !! l) as [[size bitmap array m|size hash array m]|] eqn:Hl;
    [| |done].
  - intros Hit k Hk. rewrite present_S, Hl.
    destruct (placed_slots _ _ _ _ _ _ _ _ _ Hp Hl Hsits)
      as (Hlev & Hshift & Hx & Hslots).
    destruct (iter_slots_inv _ _ _ _ _ _ Hit Hk) as (j & Hj & Hcase).
    assert (∃ s, list_getitem array j = Some s
                 ∧ match s with
                   | Elem k0 => k0 = k
                   | Child c => ∃ ks', node_iter f h c = Val ks' ∧ k ∈ ks'
                   end) as (s & Hs & Hcase').
    { destruct Hcase as [Hg|(c & ks' & Hg & Hr & Hin)];
        [by exists (Elem k)|exists (Child c); eauto]. }
    assert (0 ≤ j) as Hj0 by lia.
    destruct (placed_array_slot _ _ _ _ _ _ _ _ _ Hw Hp Hl Hj0 Hs)
      as (x' & Hx' & Hb & Hidx & Hon).
    rewrite Hlev in Hx', Hb, Hidx, Hon.
    assert (agree (shift + 5) (set_hash k) x'
            ∧ match s with
              | Elem k0 => k = k0
              | Child c => present f h c (shift + 5) (set_hash k) k
              end) as [Hk5 Hpres].
    { destruct s as [k0|c].
      - subst k0. done.
      - destruct Hcase' as (ks' & Hks' & Hk').
        by eapply IH. }
    pose proof (agree_mask _ _ _ Hshift Hk5) as Hm.
    apply set_bitpos_mask in Hm.
    split.
    + eapply agree_trans; [eapply agree_mono; [|exact Hk5]; lia|].
      eapply agree_trans; [by apply agree_sym|done].
    + rewrite Hm, Hidx, Hs. split; [done|]. by destruct s.
  - intros [= <-] k Hk. rewrite present_S, Hl.
    pose proof (Hw _ _ Hl) as [Hlen Hall].
    pose proof (Hn _ _ Hl) as Hd. simpl in Hd.
    rewrite Forall_forall in Hall. rewrite (Hall _ Hk).
    unfold sits in Hsits. rewrite Hl in Hsits.
    split_and!; [done..|]. by apply find_index_elem_of.
Qed.

End IterSound.
(** ** Sets and mutators under the trie invariant *)

Section TrieSets.
Context {K : Type} `{Hashable K}.
Implicit Types (h : list (node K)) (lab : loc → Z * Z) (w : world K).

Lemma trie_inv_wf w : trie_inv w → heap_wf (nodes w).
Proof. by intros ((_ & _ & ?) & _). Qed.

Lemma not_present_empty f h l shift x (e : K) m :
  h !! l = Some (BitmapNode 0 0 [] m) → ¬ present f h l shift x e.
Proof.
  intros Hl Hpr. destruct f as [|f]; [exact Hpr|].
  rewrite present_S, Hl in Hpr. destruct Hpr as [Hb _].
  by rewrite Z.land_0_l in Hb.
Qed.

Lemma Set_exclude_removes fuel s s1 e w w1 :
  trie_inv w → Set_exclude fuel s e w = Ok s1 w1 →
  ∃ so1, sets w1 !! s1 = Some so1
         ∧ ∀ f, ¬ present f (nodes w1) (set_root so1) 0 (set_hash e) e.
Proof.
  intros (Hinv & (lab & Hp & Hsets & _) & Hn).
  pose proof Hinv as (_ & _ & Hw).
  unfold Set_exclude, bind, load_set, on_nodes.
  destruct (sets w !! s) as [so|] eqn:Hs; [|done].
  pose proof (node_without_absent fuel (set_root so) 0 e 0 (nodes w) lab
                Hw Hn Hp ltac:(lia)) as Hwp.
  destruct (node_without _ _ _ _ _ _ _) as [r h'| |] eqn:Hwo; [|done..].
  pose proof (wp_Ok _ _ _ _ _ _
                (Hwp (sits_0 _ _ _ 0 _ (Hsets _ _ Hs))) Hwo) as Habs.
  destruct r as [|r|]; [| |done].
  - unfold Set_init, bind, on_nodes, BitmapNode_new, alloc, Set__new.
    change (Z.of_nat (length (@nil (slot K))) =? 0) with true.
    unfold with_nodes. cbn [nodes sets muts mut_id_counter].
    intros [= <- <-]. cbn [nodes sets]. eexists. split.
    { by rewrite lookup_app_r, Nat.sub_diag. }
    intros f. cbn [set_root]. eapply not_present_empty. apply lookup_app_last.
  - unfold Set__new, with_nodes. cbn [nodes sets muts mut_id_counter].
    intros [= <- <-]. cbn [nodes sets]. eexists. split.
    { by rewrite lookup_app_r, Nat.sub_diag. }
    done.
Qed.

Lemma SetMutation_exclude_removes fuel m e w w1 u :
  trie_inv w → SetMutation_exclude fuel m e w = Ok u w1 →
  ∃ mo1, muts w1 !! m = Some mo1
         ∧ ∀ f, ¬ present f (nodes w1) (mut_root mo1) 0 (set_hash e) e.
Proof.
  intros (Hinv & (lab & Hp & _ & Hmuts) & Hn). destruct u.
  pose proof Hinv as (_ & _ & Hw).
  unfold SetMutation_exclude, bind, load_mut, on_nodes.
  destruct (muts w !! m) as [mo|] eqn:Hm; [|done].
  destruct (mut_mutid mo =? 0); [done|].
  pose proof (node_without_absent fuel (mut_root mo) 0 e (mut_mutid mo)
                (nodes w) lab Hw Hn Hp ltac:(lia)) as Hwp.
  destruct (node_without _ _ _ _ _ _ _) as [r h'| |] eqn:Hwo; [|done..].
  pose proof (wp_Ok _ _ _ _ _ _
                (Hwp (sits_0 _ _ _ 0 _ (Hmuts _ _ Hm))) Hwo) as Habs.
  pose proof (lookup_lt_Some _ _ _ Hm) as Hlt.
  destruct r as [|r|]; [| |done].
  - unfold BitmapNode_new, alloc, store_mut.
    change (Z.of_nat (length (@nil (slot K))) =? 0) with true.
    unfold with_nodes. cbn [nodes sets muts mut_id_counter].
    intros [= <-]. cbn [nodes muts]. eexists. split.
    { by apply list_lookup_insert_eq. }
    intros f. cbn [mut_root]. eapply not_present_empty. apply lookup_app_last.
  - unfold store_mut, with_nodes. cbn [nodes sets muts mut_id_counter].
    intros [= <-]. cbn [nodes muts]. eexists. split.
    { by apply list_lookup_insert_eq. }
    done.
Qed.

Lemma Set___iter___sound f s ks k w :
  trie_inv w → Set___iter__ f s w = Ok ks w → k ∈ ks →
  Set___contains__ f s k w = Ok true w.
Proof.
  intros (Hinv & (lab & Hp & Hsets & _) & Hn).
  pose proof Hinv as (_ & _ & Hw).
  unfold Set___iter__, bind, load_set.
  destruct (sets w !! s) as [so|] eqn:Hs; [|done].
  intros [Hit _]%read_Ok_inv Hk.
  eapply Set___contains___present; [done|].
  by eapply (iter_sound lab f (nodes w) _ 0 0); [..|apply Hk]; eauto.
Qed.

Lemma SetMutation___contains___present fuel m k w mo :
  muts w !! m = Some mo →
  present fuel (nodes w) (mut_root mo) 0 (set_hash k) k →
  SetMutation___contains__ fuel m k w = Ok true w.
Proof.
  intros Hm Hp. unfold SetMutation___contains__, bind, load_mut, read.
  by rewrite Hm, (present_find _ _ _ _ _ _ Hp).
Qed.

Lemma SetMutation___contains___true fuel m k w :
  heap_wf (nodes w) →
  SetMutation___contains__ fuel m k w = Ok true w →
  ∃ mo, muts w !! m = Some mo
        ∧ present fuel (nodes w) (mut_root mo) 0 (set_hash k) k.
Proof.
  intros Hw. unfold SetMutation___contains__, bind, load_mut.
  destruct (muts w !! m) as [mo|]; [|done].
  intros [Hf _]%read_Ok_inv. exists mo. split; [done|].
  by apply find_present.
Qed.

Lemma eq_loop_all fuel keys r w :
  (∀ k, k ∈ keys → node_find fuel (nodes w) r 0 (set_hash k) k = Val true) →
  eq_loop fuel keys r w = Ok true w.
Proof.
  induction keys as [|key keys IH]; intros Hall; cbn [eq_loop]; [done|].
  unfold bind, read. rewrite Hall by apply list_elem_of_here.
  apply IH. intros k Hk. apply Hall. by apply list_elem_of_further.
Qed.

Lemma Set___eq___refl f s ks w :
  trie_inv w → Set___iter__ f s w = Ok ks w →
  Set___eq__ f s s w = Ok true w.
Proof.
  intros Hinv Hit. pose proof Hit as Hit'. revert Hit'.
  unfold Set___iter__, Set___eq__, bind, load_set.
  destruct (sets w !! s) as [so|] eqn:Hs; [|done].
  intros [Hks _]%read_Ok_inv. rewrite ?Hs, Z.eqb_refl. cbn [negb].
  unfold read at 1. rewrite Hks. apply eq_loop_all. intros k Hk.
  pose proof (Set___iter___sound _ _ _ _ _ Hinv Hit Hk) as Hc.
  revert Hc. unfold Set___contains__, bind, load_set. rewrite Hs.
  by intros [? _]%read_Ok_inv.
Qed.

End TrieSets.
(** * What returns

    Where the search for a key answers [False], a persistent [add] of the
    key returns. *)

(** ** The steps of a persistent [add] *)

Section AddRuns.
Context {K : Type} `{Hashable K}.
Implicit Types (h : list (node K)) (lab : loc → Z * Z).

Lemma node_add_S_bitmap fuel l shift hash (key : K) mutid h size bitmap array m :
  h !! l = Some (BitmapNode size bitmap array m) →
  node_add (S fuel) l shift hash key mutid h
  = BitmapNode_add (node_add fuel) l shift hash key mutid h.
Proof. intros Hl. cbn [node_add]. unfold bind at 1, load at 1. by rewrite Hl. Qed.

Lemma node_add_S_collision fuel l shift hash (key : K) mutid h size self_hash
    array m :
  h !! l = Some (CollisionNode size self_hash array m) →
  node_add (S fuel) l shift hash key mutid h
  = CollisionNode_add (node_add fuel) l shift hash key mutid h.
Proof. intros Hl. cbn [node_add]. unfold bind at 1, load at 1. by rewrite Hl. Qed.

(** The slot of the key is free: a persistent [add] returns a copy with
    the key. *)
Lemma BitmapNode_add_free_run rec l shift hash (key : K) h size bitmap array m :
  heap_wf h → h !! l = Some (BitmapNode size bitmap array m) →
  truthy (Z.land bitmap (set_bitpos hash shift)) = false →
  BitmapNode_add rec l shift hash key 0 h
  = Ok (length h, true)
      (h ++ [BitmapNode (set_bitcount bitmap + 1)
               (Z.lor bitmap (set_bitpos hash shift))
               (slice_to array (set_bitindex bitmap (set_bitpos hash shift))
                ++ [Elem key]
                ++ slice_from array
                     (set_bitindex bitmap (set_bitpos hash shift))) 0]).
Proof.
  intros Hw Hl Hb. pose proof (Hw _ _ Hl) as (Hbm & Hsize & Hcount).
  pose proof (set_bitindex_nonneg bitmap (set_bitpos hash shift)).
  unfold BitmapNode_add, bind, load. rewrite Hl. cbv zeta.
  rewrite Hb, owned_zero. unfold BitmapNode_new.
  rewrite (proj2 (Z.eqb_eq _ _)); [done|].
  rewrite length_slice_insert by done. lia.
Qed.

(** The slot of the key holds a child. *)
Lemma BitmapNode_add_child_run rec l shift hash (key : K) h size bitmap array
    m c sub added h1 :
  heap_wf h → h !! l = Some (BitmapNode size bitmap array m) →
  truthy (Z.land bitmap (set_bitpos hash shift)) = true →
  list_getitem array (set_bitindex bitmap (set_bitpos hash shift))
  = Some (Child c) →
  rec c (shift + 5) hash key 0 h = Ok (sub, added) h1 →
  h1 !! l = Some (BitmapNode size bitmap array m) → c ≠ sub →
  BitmapNode_add rec l shift hash key 0 h
  = Ok (length h1, added)
      (h1 ++ [BitmapNode size bitmap
                (<[Z.to_nat (set_bitindex bitmap (set_bitpos hash shift))
                   := Child sub]> array) 0]).
Proof.
  intros Hw Hl Hb Hg Hrec Hl1 Hne.
  pose proof (Hw _ _ Hl) as (Hbm & Hsize & Hcount).
  pose proof (set_bitindex_nonneg bitmap (set_bitpos hash shift)) as Hnn.
  unfold BitmapNode_add, bind, load. rewrite Hl. cbv zeta.
  rewrite Hb. unfold from_option, ret. rewrite Hg, Hrec.
  rewrite decide_False by done.
  rewrite (with_slot_run l 0 _ (Child sub) _ h1 _ _ _ _ Hl1 ltac:(lia) Hnn Hg).
  by rewrite owned_zero.
Qed.

(** The slot of the key holds another key. *)
Lemma BitmapNode_add_elem_run rec l shift hash (key : K) h size bitmap array
    m k0 sub h1 :
  heap_wf h → h !! l = Some (BitmapNode size bitmap array m) →
  truthy (Z.land bitmap (set_bitpos hash shift)) = true →
  list_getitem array (set_bitindex bitmap (set_bitpos hash shift))
  = Some (Elem k0) →
  key ≠ k0 →
  (if set_hash k0 =? hash
   then CollisionNode_new 4 hash [k0; key] 0
   else
     s0 ←' BitmapNode_new 0 0 [] 0;
     '(s1, _) ←' rec s0 (shift + 5) (set_hash k0) k0 0;
     '(s2, _) ←' rec s1 (shift + 5) hash key 0;
     ret s2) h = Ok sub h1 →
  h1 !! l = Some (BitmapNode size bitmap array m) →
  BitmapNode_add rec l shift hash key 0 h
  = Ok (length h1, true)
      (h1 ++ [BitmapNode size bitmap
                (<[Z.to_nat (set_bitindex bitmap (set_bitpos hash shift))
                   := Child sub]> array) 0]).
Proof.
  intros Hw Hl Hb Hg Hne Hsub Hl1.
  pose proof (Hw _ _ Hl) as (Hbm & Hsize & Hcount).
  pose proof (set_bitindex_nonneg bitmap (set_bitpos hash shift)) as Hnn.
  unfold BitmapNode_add. unfold bind at 1, load at 1. rewrite Hl. cbv zeta.
  rewrite Hb. unfold bind at 1, from_option at 1, ret at 1. rewrite Hg.
  rewrite decide_False by done.
  unfold bind at 1. rewrite Hsub.
  unfold bind at 1.
  rewrite (with_slot_run l 0 _ (Child sub) _ h1 _ _ _ _ Hl1 ltac:(lia) Hnn Hg).
  by rewrite owned_zero.
Qed.

End AddRuns.

(** ** [add] returns *)

Section AddReturns.
Context {K : Type} `{Hashable K}.
Implicit Types (h : list (node K)) (lab : loc → Z * Z).

Lemma node_add_persists fuel l shift hash (key : K) h r h' :
  node_add fuel l shift hash key 0 h = Ok r h' →
  preserved h h' ∧ (length h ≤ length h')%nat.
Proof.
  intros Hadd.
  pose proof (wp_Ok _ _ _ _ _ _ (node_add_frame fuel l shift hash key 0 h) Hadd)
    as Hev.
  split; [by apply evolves_zero_preserved|].
  destruct Hev as [Hf _]. by eapply frame_length.
Qed.

Lemma truthy_bitpos_other ha hb shift :
  set_mask ha shift ≠ set_mask hb shift →
  truthy (Z.land (set_bitpos ha shift) (set_bitpos hb shift)) = false.
Proof.
  intros Hne. pose proof (set_mask_range ha shift).
  pose proof (set_mask_range hb shift).
  rewrite truthy_land_bitpos, set_bitpos_pow2, Z.pow2_bits_eqb by lia.
  by apply Z.eqb_neq.
Qed.

Lemma truthy_bitpos_self ha shift :
  truthy (Z.land (set_bitpos ha shift) (set_bitpos ha shift)) = true.
Proof.
  pose proof (set_mask_range ha shift).
  rewrite truthy_land_bitpos, set_bitpos_pow2, Z.pow2_bits_eqb by lia.
  by apply Z.eqb_eq.
Qed.

Lemma node_wf_single hash shift (s : slot K) m :
  node_wf (BitmapNode 1 (set_bitpos hash shift) [s] m).
Proof.
  pose proof (set_bitpos_range hash shift). simpl.
  split_and!; [lia..|done|by rewrite set_bitcount_bitpos].
Qed.

(** [add] to the empty node. *)
Lemma node_add_empty_run fuel shift hash (key : K) h l m :
  h !! l = Some (BitmapNode 0 0 [] m) →
  node_add (S fuel) l shift hash key 0 h
  = Ok (length h, true) (h ++ [BitmapNode 1 (set_bitpos hash shift) [Elem key] 0]).
Proof.
  intros Hl. erewrite node_add_S_bitmap by done.
  unfold BitmapNode_add, bind, load. rewrite Hl. cbv zeta.
  change (Z.land 0 (set_bitpos hash shift)) with 0.
  change (truthy 0) with false. cbv iota. rewrite owned_zero.
  reflexivity.
Qed.

(** The key [e] meets another key [k0] in its slot: [add] pushes both
    down until their hashes part, in at most [d] levels. *)
Lemma add_beside_key_returns d : ∀ fuel h l shift (k0 e : K) size bitmap array m,
  heap_wf h → h !! l = Some (BitmapNode size bitmap array m) →
  truthy (Z.land bitmap (set_bitpos (set_hash e) shift)) = true →
  list_getitem array (set_bitindex bitmap (set_bitpos (set_hash e) shift))
  = Some (Elem k0) →
  e ≠ k0 → 0 ≤ shift →
  agree (shift + 5) (set_hash k0) (set_hash e) →
  (set_hash k0 = set_hash e
   ∨ ¬ agree (shift + 5 + 5 * Z.of_nat d) (set_hash k0) (set_hash e)) →
  (d + 1 ≤ fuel)%nat →
  ∃ r h', node_add fuel l shift (set_hash e) e 0 h = Ok (r, true) h'
          ∧ (length h ≤ r)%nat.
Proof.
  induction d as [|d IH];
    intros fuel h l shift k0 e size bitmap array m Hw Hl Hb Hg Hne Hshift
      Hag Hdiv Hfuel;
    (destruct fuel as [|fuel]; [lia|]);
    erewrite node_add_S_bitmap by done;
    (destruct (Z.eqb_spec (set_hash k0) (set_hash e)) as [Heq|Hneq];
     [erewrite (BitmapNode_add_elem_run _ _ _ _ _ _ _ _ _ _ _ (length h)
                 (h ++ [CollisionNode 4 (set_hash e) [k0; e] 0]) Hw Hl Hb Hg Hne);
      [eexists _, _; split; [done|rewrite length_app; lia]
      |by rewrite (proj2 (Z.eqb_eq _ _) Heq)
      |by apply lookup_app_l_Some]
     |]).
  - destruct Hdiv as [?|Hdiv]; [done|]. exfalso. apply Hdiv.
    by rewrite Z.mul_0_r, Z.add_0_r.
  - destruct Hdiv as [?|Hdiv]; [done|].
    destruct fuel as [|fuel]; [lia|].
    (* the key [k0] goes to a new node *)
    set (h1 := h ++ [BitmapNode 0 0 [] 0]).
    set (h2 := h1 ++ [BitmapNode 1 (set_bitpos (set_hash k0) (shift + 5))
                        [Elem k0] 0]).
    assert (node_add (S fuel) (length h) (shift + 5) (set_hash k0) k0 0 h1
            = Ok (length h1, true) h2) as Hadd1.
    { eapply node_add_empty_run, lookup_app_last. }
    assert (heap_wf h2) as Hw2.
    { apply heap_wf_app; [by apply heap_wf_empty_node|].
      apply node_wf_single. }
    assert (h2 !! length h1
            = Some (BitmapNode 1 (set_bitpos (set_hash k0) (shift + 5))
                      [Elem k0] 0)) as Hl2 by apply lookup_app_last.
    (* the key [e] follows *)
    assert (∃ s2 h3, node_add (S fuel) (length h1) (shift + 5) (set_hash e) e
                       0 h2 = Ok (s2, true) h3) as (s2 & h3 & Hadd2).
    { destruct (decide (set_mask (set_hash k0) (shift + 5)
                        = set_mask (set_hash e) (shift + 5))) as [Hm|Hm].
      - destruct (IH (S fuel) h2 (length h1) (shift + 5) k0 e _ _ _ _ Hw2 Hl2)
          as (r & h' & Hr & _); [| |done|lia| | |lia|by eauto].
        + rewrite (set_bitpos_mask _ _ _ Hm). apply truthy_bitpos_self.
        + by rewrite (set_bitpos_mask _ _ _ Hm), set_bitindex_self.
        + apply agree_S; [lia|done..].
        + right. intros Ha. apply Hdiv.
          by replace (shift + 5 + 5 * Z.of_nat (S d))
            with (shift + 5 + 5 + 5 * Z.of_nat d) by lia.
      - erewrite node_add_S_bitmap by done.
        erewrite BitmapNode_add_free_run; [by eauto|done..|].
        by apply truthy_bitpos_other. }
    destruct (node_add_persists _ _ _ _ _ _ _ _ Hadd2) as [Hpr Hlen].
    erewrite (BitmapNode_add_elem_run _ _ _ _ _ _ _ _ _ _ _ s2 h3
                Hw Hl Hb Hg Hne).
    + eexists _, _. split; [done|].
      unfold h2, h1 in Hlen. rewrite !length_app in Hlen. lia.
    + rewrite (proj2 (Z.eqb_neq _ _) Hneq).
      unfold BitmapNode_new.
      change (Z.of_nat (length (@nil (slot K))) =? 0) with true. cbv iota.
      unfold bind at 1, alloc at 1. fold h1.
      unfold bind at 1. rewrite Hadd1.
      unfold bind at 1. rewrite Hadd2. done.
    + apply Hpr. unfold h2, h1. by do 2 apply lookup_app_l_Some.
Qed.

(** The key [e] meets a collision node of another hash: [add] wraps the
    node in bitmap nodes until the hashes part, in at most [d] levels. *)
Lemma add_beside_collision_returns d : ∀ fuel h l shift (e : K) size self_hash
    array m,
  heap_wf h → h !! l = Some (CollisionNode size self_hash array m) →
  set_hash e ≠ self_hash → 0 ≤ shift →
  agree shift self_hash (set_hash e) →
  ¬ agree (shift + 5 * Z.of_nat d) self_hash (set_hash e) →
  (2 * d + 1 ≤ fuel)%nat →
  ∃ r h', node_add fuel l shift (set_hash e) e 0 h = Ok (r, true) h'
          ∧ (length h ≤ r)%nat.
Proof.
  induction d as [|d IH];
    intros fuel h l shift e size self_hash array m Hw Hl Hneq Hshift Hag Hdiv
      Hfuel.
  { exfalso. apply Hdiv. by rewrite Z.mul_0_r, Z.add_0_r. }
  destruct fuel as [|[|fuel]]; [lia..|].
  erewrite node_add_S_collision by done.
  unfold CollisionNode_add. unfold bind at 1, load at 1. rewrite Hl.
  rewrite (proj2 (Z.eqb_neq _ _) Hneq).
  unfold BitmapNode_new.
  change (Z.of_nat (length [Child (K:=K) l]) =? 1) with true. cbv iota.
  unfold bind at 1, alloc at 1.
  set (h1 := h ++ [BitmapNode 1 (set_bitpos self_hash shift) [Child l] 0]).
  assert (heap_wf h1) as Hw1.
  { apply heap_wf_app; [done|]. apply node_wf_single. }
  assert (h1 !! length h
          = Some (BitmapNode 1 (set_bitpos self_hash shift) [Child l] 0))
    as Hl1 by apply lookup_app_last.
  erewrite node_add_S_bitmap by done.
  destruct (decide (set_mask self_hash shift = set_mask (set_hash e) shift))
    as [Hm|Hm].
  - destruct (IH fuel h1 l (shift + 5) e size self_hash array m)
      as (sub & h2 & Hsub & Hfresh); [done| |done|lia| | |lia|].
    + by apply lookup_app_l_Some.
    + by apply agree_S.
    + intros Ha. apply Hdiv.
      by replace (shift + 5 * Z.of_nat (S d))
        with (shift + 5 + 5 * Z.of_nat d) by lia.
    + destruct (node_add_persists _ _ _ _ _ _ _ _ Hsub) as [Hpr Hlen].
      pose proof (lookup_lt_Some _ _ _ Hl) as Hlt.
      unfold h1 in Hfresh, Hlen. rewrite length_app in Hfresh, Hlen.
      simpl in Hfresh, Hlen.
      erewrite (BitmapNode_add_child_run _ _ _ _ _ _ _ _ _ _ l sub true h2
                  Hw1 Hl1).
      * eexists _, _. split; [done|]. lia.
      * rewrite <- (set_bitpos_mask _ _ _ Hm). apply truthy_bitpos_self.
      * by rewrite <- (set_bitpos_mask _ _ _ Hm), set_bitindex_self.
      * done.
      * by apply Hpr.
      * lia.
  - erewrite BitmapNode_add_free_run; [|done..|by apply truthy_bitpos_other].
    eexists _, _. split; [done|]. unfold h1. rewrite length_app. lia.
Qed.

Lemma agree_mod shift a b :
  0 ≤ shift → agree shift a b → a mod 2 ^ shift = b mod 2 ^ shift.
Proof.
  intros Hs Hab. apply Z.bits_inj'. intros i Hi.
  destruct (Z.lt_ge_cases i shift).
  - rewrite !Z.mod_pow2_bits_low by lia. apply Hab. lia.
  - by rewrite !Z.mod_pow2_bits_high by lia.
Qed.

(** Two hashes that differ part at some level. *)
Lemma agree_parts shift a b :
  0 ≤ shift → a ≠ b → ∃ d, ¬ agree (shift + 5 * Z.of_nat d) a b.
Proof.
  intros Hs Hne. exists (Z.to_nat (Z.abs a + Z.abs b + 1)). intros Hab.
  apply (agree_mono _ (Z.abs a + Z.abs b + 1)) in Hab; [|lia].
  apply agree_mod in Hab; [|lia].
  set (n := Z.abs a + Z.abs b + 1) in *.
  assert (n < 2 ^ n) by (apply Z.pow_gt_lin_r; lia).
  pose proof (Z.div_mod a (2 ^ n) ltac:(lia)) as Ha.
  pose proof (Z.div_mod b (2 ^ n) ltac:(lia)) as Hb.
  rewrite Hab in Ha.
  generalize dependent (a / 2 ^ n). generalize dependent (b / 2 ^ n).
  intros qb Hb qa Ha. apply Hne.
  assert (a - b = 2 ^ n * (qa - qb)) as Hd by lia.
  destruct (decide (qa = qb)) as [->|Hq]; [lia|].
  assert (2 ^ n ≤ Z.abs (a - b)); [|lia].
  rewrite Hd, Z.abs_mul. nia.
Qed.

(** Where the search for [e] answers [False], a persistent [add] of [e]
    returns, with enough fuel: a new node, and [True] for "added". *)
Lemma find_false_add_returns f : ∀ h l shift (e : K) lab,
  heap_wf h → placed lab h → 0 ≤ shift →
  sits lab h l shift (set_hash e) →
  node_find f h l shift (set_hash e) e = Val false →
  ∃ fuel0, ∀ fuel, (fuel0 ≤ fuel)%nat →
    ∃ r h', node_add fuel l shift (set_hash e) e 0 h = Ok (r, true) h'
            ∧ (length h ≤ r)%nat.
Proof.
  induction f as [|f IH]; intros h l shift e lab Hw Hp Hshift Hsits Hf;
    [done|].
  cbn [node_find] in Hf.
  destruct (h !! l) as [[size bitmap array m|size self_hash array m]|] eqn:Hl;
    [| |done].
  - unfold BitmapNode_find in Hf.
    destruct (truthy _) eqn:Hb; cbn [negb] in Hf.
    + destruct (list_getitem _ _) as [[k0|c]|] eqn:Hg; [| |done].
      * (* another key *)
        destruct (decide (e = k0)) as [|Hne]; [done|].
        pose proof (placed_slot _ _ _ _ _ _ _ _ _ _ Hp Hl Hsits Hb Hg) as Hon.
        simpl in Hon.
        destruct (decide (set_hash k0 = set_hash e)) as [Heq|Hneq].
        -- exists 1%nat. intros fuel Hfuel.
           eapply (add_beside_key_returns 0); [done..|by left|lia].
        -- destruct (agree_parts (shift + 5) _ _ ltac:(lia) Hneq) as [d Hd].
           exists (d + 1)%nat. intros fuel Hfuel.
           eapply (add_beside_key_returns d); [done..|by right|lia].
      * (* a child *)
        pose proof (placed_slot _ _ _ _ _ _ _ _ _ _ Hp Hl Hsits Hb Hg) as Hon.
        simpl in Hon.
        destruct (IH h c (shift + 5) e lab Hw Hp ltac:(lia) Hon Hf)
          as [fuel0 Hret].
        exists (S fuel0). intros [|fuel] Hfuel; [lia|].
        destruct (Hret fuel ltac:(lia)) as (sub & h1 & Hsub & Hfresh).
        destruct (node_add_persists _ _ _ _ _ _ _ _ Hsub) as [Hpr Hlen].
        destruct (sits_is_Some _ _ _ _ _ Hon) as [nc Hc].
        pose proof (lookup_lt_Some _ _ _ Hc) as Hlt.
        erewrite node_add_S_bitmap by done.
        erewrite (BitmapNode_add_child_run _ _ _ _ _ _ _ _ _ _ c sub true h1
                    Hw Hl Hb Hg Hsub); [|by apply Hpr|lia].
        eexists _, _. split; [done|lia].
    + (* a free slot *)
      exists 1%nat. intros [|fuel] Hfuel; [lia|].
      erewrite node_add_S_bitmap by done.
      erewrite BitmapNode_add_free_run by done.
      eexists _, _. split; [done|lia].
  - destruct (find_index_of_find _ _ _ _ Hf) as (a & Ha & Hneg).
    symmetry in Hneg. apply negb_false_iff in Hneg.
    destruct (decide (set_hash e = self_hash)) as [Heq|Hneq].
    + (* a collision node of the hash of [e] *)
      exists 1%nat. intros [|fuel] Hfuel; [lia|].
      erewrite node_add_S_collision by done.
      unfold CollisionNode_add. unfold bind at 1, load at 1. rewrite Hl.
      rewrite (proj2 (Z.eqb_eq _ _) Heq).
      unfold bind at 1, read at 1. rewrite Ha, Hneg, owned_zero.
      eexists _, _. split; [done|lia].
    + (* a collision node of another hash *)
      assert (agree shift self_hash (set_hash e)) as Hag.
      { unfold sits in Hsits. by rewrite Hl in Hsits. }
      destruct (agree_parts shift self_hash (set_hash e) Hshift) as [d Hd];
        [done|].
      exists (2 * d + 1)%nat. intros fuel Hfuel.
      by eapply (add_beside_collision_returns d).
Qed.

End AddReturns.

(** ** [include] returns *)

Section IncludeReturns.
Context {K : Type} `{Hashable K}.
Implicit Types (w : world K).

(** Where [e in s] answers [False], [s.include(e)] returns, with enough
    fuel: a new [Set] object, with one element more. *)
Lemma Set_include_new f s e w so :
  trie_inv w → sets w !! s = Some so →
  node_find f (nodes w) (set_root so) 0 (set_hash e) e = Val false →
  ∃ fuel0, ∀ fuel, (fuel0 ≤ fuel)%nat →
    ∃ r h', Set_include fuel s e w
            = Ok (length (sets w))
                (World h' (sets w ++ [SetObj (set_count so + 1) r (-1)])
                   (muts w) (mut_id_counter w)).
Proof.
  intros (Hinv & (lab & Hp & Hsets & _) & _) Hs Hf.
  destruct Hinv as (_ & _ & Hw).
  pose proof (Hsets _ _ Hs) as Hroot.
  apply (sits_0 _ _ _ 0 (set_hash e)) in Hroot.
  destruct (find_false_add_returns f _ _ 0 e lab Hw Hp ltac:(lia) Hroot Hf)
    as [fuel0 Hret].
  exists fuel0. intros fuel Hfuel.
  destruct (Hret fuel Hfuel) as (r & h' & Hadd & Hfresh).
  destruct (sits_is_Some _ _ _ _ _ Hroot) as [n Hn].
  pose proof (lookup_lt_Some _ _ _ Hn) as Hlt.
  exists r, h'.
  unfold Set_include, bind, load_set, on_nodes. rewrite Hs, Hadd.
  rewrite decide_False by lia. done.
Qed.

End IncludeReturns.
(** * Further properties of the code *)

(** ** The bit primitives *)

(** X1: on every 32-bit value, [set_bitcount] is the population count:
    the number of bits that are set. *)
Theorem set_bitcount_counts_bits (v : Z) :
  0 ≤ v < 2 ^ 32 → set_bitcount v = bits_count 32 v.
Proof. apply set_bitcount_spec. Qed.

Lemma set_bitcount_counts_bits_witness :
  0 ≤ 1049088 < 2 ^ 32 ∧ set_bitcount 1049088 = bits_count 32 1049088.
Proof.
  split; [lia|]. apply (set_bitcount_counts_bits 1049088). lia.
Defined.

(** X2: the compact index of the slot that [hash] selects at [shift] is
    the number of bits of the bitmap below the bit of that slot, for every
    bitmap. *)
Theorem set_bitindex_counts_lower_bits (bitmap hash shift : Z) :
  set_bitindex bitmap (set_bitpos hash shift)
  = bits_count (Z.to_nat (set_mask hash shift)) bitmap.
Proof. apply set_bitindex_count. Qed.

(** X3: [set_hash] folds the host hash, whatever its sign and size, into
    a 32-bit value, and leaves a host hash that is already a 32-bit value
    as it is. *)
Theorem set_hash_folds_to_32_bits `{Hashable K} (o : K) :
  0 ≤ set_hash o < 2 ^ 32
  ∧ (0 ≤ py_hash o < 2 ^ 32 → set_hash o = py_hash o).
Proof. split; [apply set_hash_range|apply set_hash_small]. Qed.

(** X4: [set_mask] is a slot number below 32, and [set_bitpos] is the
    bitmap that has the bit of that slot and no other. *)
Theorem set_bitpos_is_one_bit (hash shift : Z) :
  0 ≤ set_mask hash shift < 32
  ∧ set_bitpos hash shift = 2 ^ set_mask hash shift
  ∧ set_bitcount (set_bitpos hash shift) = 1
  ∧ set_bitindex (set_bitpos hash shift) (set_bitpos hash shift) = 0.
Proof.
  split_and!; [apply set_mask_range..|apply set_bitpos_pow2
              |apply set_bitcount_bitpos|apply set_bitindex_self].
Qed.

(** ** Fixtures are reachable states *)

Lemma collision_world_reached :
  run_calls maxsize64 3 collision_program init_world = Some collision_world.
Proof. vm_compute. reflexivity. Qed.

Lemma hash_world_reached :
  run_calls maxsize64 3 hash_program init_world = Some hash_world.
Proof. vm_compute. reflexivity. Qed.

Lemma delete_world_reached :
  run_calls maxsize64 3 delete_program init_world = Some delete_world.
Proof. vm_compute. reflexivity. Qed.

Lemma mutator_world_reached :
  run_calls maxsize64 3 mutator_program init_world = Some mutator_world.
Proof. vm_compute. reflexivity. Qed.

Lemma world_inv_collision_world : world_inv collision_world.
Proof.
  exact (run_calls_inv _ _ _ _ _ world_inv_init collision_world_reached).
Qed.

Lemma world_inv_hash_world : world_inv hash_world.
Proof. exact (run_calls_inv _ _ _ _ _ world_inv_init hash_world_reached). Qed.

Lemma trie_inv_hash_world : trie_inv hash_world.
Proof.
  exact (run_calls_trie_inv _ _ _ _ _ trie_inv_init hash_world_reached).
Qed.

Lemma world_inv_delete_world : world_inv delete_world.
Proof.
  exact (run_calls_inv _ _ _ _ _ world_inv_init delete_world_reached).
Qed.

Lemma world_inv_mutator_world : world_inv mutator_world.
Proof.
  exact (run_calls_inv _ _ _ _ _ world_inv_init mutator_world_reached).
Qed.

(** ** Ownership *)

Section Ownership.
Context {K : Type} `{Hashable K}.

(** X5: whatever [add] and [without] do to the store under the tag
    [mutid], whether they return or raise: no node disappears or changes
    its tag; a node whose tag is not [mutid], and every node when [mutid]
    is 0, is left exactly as it was; and every node they make carries the
    tag [mutid]. *)
Theorem edits_touch_only_owned_nodes (fuel : nat) (self : loc)
    (shift hash : Z) (key : K) (mutid : Z) (h : list (node K)) :
  wp (node_add fuel self shift hash key mutid) h
    (λ _ h', frame mutid h h') (λ _ h', frame mutid h h')
  ∧ wp (node_without fuel self shift hash key mutid) h
      (λ _ h', frame mutid h h') (λ _ h', frame mutid h h').
Proof.
  split.
  - eapply wp_mono; [apply node_add_frame|..]; by intros ?? [? _].
  - eapply wp_mono; [apply node_without_frame|..]; by intros ?? [? _].
Qed.

End Ownership.

(** ** Reachable states *)

Section ReachableStates.
Context {K : Type} `{Hashable K}.
Implicit Types (w : world K).

(** X6: every state that a program of calls of the interface reaches
    from the initial one, through returns and exceptions alike, satisfies
    the invariant [world_inv]: a bitmap is a 32-bit value, the [size] of
    a bitmap node is the length of its array and the population count of
    its bitmap, the keys of a collision node have the hash of the node,
    every child is in the store, every tag was issued by the counter, no
    two mutators edit under the same tag, and the nodes below the root of
    a [Set] carry the tag of no mutator that can still edit. *)
Theorem reachable_states_are_well_formed (maxsize : Z) (fuel : nat)
    (cs : list api_call) w :
  run_calls maxsize fuel cs init_world = Some w → world_inv w.
Proof. apply run_calls_inv, world_inv_init. Qed.

(** X7: a [Set] never changes.  From a state that satisfies the
    invariant, whatever a program then does, with any sets and any
    mutators, those made before among them, every [Set] object keeps its
    count and its root, and its length, its membership tests and its
    iteration give what they gave. *)
Theorem sets_never_change (maxsize : Z) (fuel : nat) (cs : list api_call)
    w w' :
  world_inv w → run_calls maxsize fuel cs w = Some w' →
  sets_kept w w' ∧ ∀ s, same_view s w w'.
Proof.
  revert w. induction cs as [|c cs IH]; intros w Hinv; simpl.
  - intros [= <-]. split; [apply sets_kept_refl|]. intros s.
    apply same_view_refl.
  - destruct (run_call maxsize fuel c w) as [w1|] eqn:Hc; [|done].
    intros Hrest.
    destruct (run_call_same_view _ _ _ _ _ Hinv Hc) as [Hk1 Hv1].
    destruct (IH w1 (run_call_inv _ _ _ _ _ Hinv Hc) Hrest) as [Hk2 Hv2].
    split; [by eapply sets_kept_trans|]. intros s.
    eapply same_view_trans; [apply Hv1|apply Hv2].
Qed.

End ReachableStates.

Lemma reachable_states_are_well_formed_witness :
  run_calls maxsize64 3 (collision_program ++ edit_program) init_world
  = Some edited_world
  ∧ world_inv edited_world.
Proof.
  split; [vm_compute; reflexivity|].
  apply (reachable_states_are_well_formed maxsize64 3
           (collision_program ++ edit_program) edited_world).
  vm_compute. reflexivity.
Defined.

Lemma sets_never_change_witness :
  world_inv collision_world
  ∧ run_calls maxsize64 3 edit_program collision_world = Some edited_world
  ∧ sets_kept collision_world edited_world
  ∧ ∀ s, same_view s collision_world edited_world.
Proof.
  split; [exact world_inv_collision_world|].
  split; [vm_compute; reflexivity|].
  apply (sets_never_change maxsize64 3 edit_program collision_world
           edited_world);
    [exact world_inv_collision_world|vm_compute; reflexivity].
Defined.

(** ** Membership after [include] *)

Section IncludeLaws.
Context {K : Type} `{Hashable K}.
Implicit Types (w : world K).

Lemma Set_include_member (fuel : nat) (s s1 : loc) (e : K) w w1 :
  world_ok w → Set_include fuel s e w = Ok s1 w1 →
  Set___contains__ (S fuel) s1 e w1 = Ok true w1.
Proof.
  intros Hok Hinc.
  destruct (Set_include_again fuel (S fuel) _ _ _ _ _ Hok ltac:(lia) Hinc)
    as (so1 & Hs1 & Hp).
  by eapply Set___contains___present.
Qed.

(** X8: the element just included is a member: whenever [s.include(e)]
    returns [s1], whether the set it was called on or a new one,
    [e in s1] is [True]; one level of search more than the insert used
    is enough. *)
Theorem include_then_contains (fuel : nat) (s s1 : loc) (e : K) w w1 :
  world_ok w → Set_include fuel s e w = Ok s1 w1 →
  Set___contains__ (S fuel) s1 e w1 = Ok true w1.
Proof.
  apply Set_include_member.
Qed.

(** X9: [include] adds its element and nothing else, and loses nothing:
    when [s.include(e)] returns [s1] in a state that satisfies the
    invariant, the elements [k] for which [k in s1] is [True] are [e] and
    those for which [k in s] is [True]. *)
Theorem include_membership (fuel : nat) (s s1 : loc) (e k : K) w w1 :
  world_inv w → Set_include fuel s e w = Ok s1 w1 →
  (∃ f, Set___contains__ f s1 k w1 = Ok true w1)
  ↔ (k = e ∨ ∃ f, Set___contains__ f s k w = Ok true w).
Proof.
  intros (Hok & Hws & Hwf) Hinc.
  assert (heap_wf (nodes w1)) as Hwf1.
  { apply (run_set_op_wf 0 fuel s (OpInclude e) w); [done|].
    simpl. by rewrite Hinc. }
  destruct (Set_include_sets _ _ _ _ _ _ Hinc) as [[so Hs] _].
  split.
  - intros [f Hc].
    destruct (Set___contains___true _ _ _ _ Hwf1 Hc) as (so1 & Hs1 & Hp).
    destruct Hws as (Hsealed & Hroots & _).
    destruct (Set_include_only fuel s s1 e w w1 so1 f k Hok
                (sealed_closed _ _ Hsealed)) as [?|(so' & Hs' & Hp')];
      [|done..|by left|].
    { intros s0 so0 Hs0. destruct (Hroots _ _ Hs0) as (n & Hn & _). eauto. }
    right. exists f. by eapply Set___contains___present.
  - intros [->|[f Hc]].
    + exists (S fuel). by eapply Set_include_member.
    + destruct (Set___contains___true _ _ _ _ Hwf Hc) as (so' & Hs' & Hp).
      destruct (Set_include_keeps _ _ _ _ _ _ _ _ _ Hok Hs' Hinc Hp)
        as (so1 & f' & Hs1 & Hp1).
      exists f'. by eapply Set___contains___present.
Qed.

(** X10: the count law of [include]. If [e in s] is [True],
    [s.include(e)] returns [s] itself and changes nothing, so that the
    length is that of [s]. If [e in s] is [False], [s.include(e)] returns,
    with enough fuel, a new [Set] object whose length is [len(s) + 1],
    beside the objects of before, and [s] keeps its length. *)
Theorem include_count_law (f : nat) (s : loc) (e : K) (b : bool) (n : Z) w :
  trie_inv w →
  Set___contains__ f s e w = Ok b w →
  Set___len__ s w = Ok n w →
  if b then ∀ fuel, (f ≤ fuel)%nat → Set_include fuel s e w = Ok s w
  else ∃ fuel0, ∀ fuel, (fuel0 ≤ fuel)%nat →
         ∃ w1 r, Set_include fuel s e w = Ok (length (sets w)) w1
                 ∧ sets w1 = sets w ++ [SetObj (n + 1) r (-1)]
                 ∧ Set___len__ (length (sets w)) w1 = Ok (n + 1) w1
                 ∧ Set___len__ s w1 = Ok n w1.
Proof.
  intros Hinv Hc Hlen. pose proof (trie_inv_wf _ Hinv) as Hwf. destruct b.
  - intros fuel Hle.
    destruct (Set___contains___true _ _ _ _ Hwf Hc) as (so & Hs & Hp).
    apply (Set_include_present fuel s e w so Hs).
    eapply present_mono; [exact Hle| |exact Hp]. by intros ???.
  - destruct (Set___contains___inv _ _ _ _ _ Hc) as (so & Hs & Hf).
    destruct (Set_include_new f s e w so Hinv Hs Hf) as [fuel0 Hret].
    exists fuel0. intros fuel Hfuel.
    destruct (Hret fuel Hfuel) as (r & h' & Hinc).
    revert Hlen. unfold Set___len__, bind, load_set, ret. rewrite Hs.
    intros [= <-].
    eexists _, r. split; [exact Hinc|]. cbn [sets].
    split; [done|].
    rewrite lookup_app_r, Nat.sub_diag by done. cbn [lookup list_lookup].
    split; [done|].
    by rewrite (lookup_app_l_Some _ _ _ _ Hs).
Qed.

End IncludeLaws.

(** [{Z}.include(k1)]: one level of search. *)
Lemma include_then_contains_witness :
  world_ok hash_world
  ∧ Set_include 2 1%nat k_aaa hash_world = Ok 2%nat hash_world_included
  ∧ Set___contains__ 3 2%nat k_aaa hash_world_included
    = Ok true hash_world_included.
Proof.
  split; [exact world_ok_hash_world|]. split; [reflexivity|].
  apply (include_then_contains 2 1%nat 2%nat k_aaa hash_world
           hash_world_included world_ok_hash_world).
  reflexivity.
Defined.

(** The members of [{Z}.include(k1)] are [k1] and those of [{Z}]. *)
Lemma include_membership_witness :
  world_inv hash_world
  ∧ Set_include 2 1%nat k_aaa hash_world = Ok 2%nat hash_world_included
  ∧ ((∃ f, Set___contains__ f 2%nat k_Z hash_world_included
           = Ok true hash_world_included)
     ↔ (k_Z = k_aaa
        ∨ ∃ f, Set___contains__ f 1%nat k_Z hash_world = Ok true hash_world)).
Proof.
  split; [exact world_inv_hash_world|]. split; [reflexivity|].
  apply (include_membership 2 1%nat 2%nat k_aaa k_Z hash_world
           hash_world_included world_inv_hash_world).
  reflexivity.
Defined.

(** [Z in {Z}], and [k1] is not: [{Z}.include(Z)] is [{Z}], and
    [{Z}.include(k1)] is a new set of two elements. *)
Lemma include_count_law_witness :
  trie_inv hash_world
  ∧ Set___contains__ 2 1%nat k_Z hash_world = Ok true hash_world
  ∧ Set___contains__ 2 1%nat k_aaa hash_world = Ok false hash_world
  ∧ Set___len__ 1%nat hash_world = Ok 1 hash_world
  ∧ (∀ fuel, (2 ≤ fuel)%nat →
       Set_include fuel 1%nat k_Z hash_world = Ok 1%nat hash_world)
  ∧ ∃ fuel0, ∀ fuel, (fuel0 ≤ fuel)%nat →
      ∃ w1 r, Set_include fuel 1%nat k_aaa hash_world
              = Ok (length (sets hash_world)) w1
              ∧ sets w1 = sets hash_world ++ [SetObj (1 + 1) r (-1)]
              ∧ Set___len__ (length (sets hash_world)) w1 = Ok (1 + 1) w1
              ∧ Set___len__ 1%nat w1 = Ok 1 w1.
Proof.
  split; [exact trie_inv_hash_world|]. do 3 (split; [reflexivity|]).
  split.
  - exact (include_count_law 2 1%nat k_Z true 1 hash_world
             trie_inv_hash_world eq_refl eq_refl).
  - exact (include_count_law 2 1%nat k_aaa false 1 hash_world
             trie_inv_hash_world eq_refl eq_refl).
Defined.

(** ** Removing *)

Section ExcludeLaws.
Context {K : Type} `{Hashable K}.
Implicit Types (w : world K).

(** X11: [Set.exclude] of a missing element. If [e in s] is [False],
    [s.exclude(e)] raises [KeyError(e)] and changes nothing; and whenever
    [s.exclude(e)] raises a [KeyError], its argument is [e], nothing has
    changed, and [e in s] is not [True]. *)
Theorem exclude_missing_raises_KeyError (fuel : nat) (s : loc) (e : K) w :
  heap_wf (nodes w) →
  (Set___contains__ fuel s e w = Ok false w →
   Set_exclude fuel s e w = Raise (KeyError e) w)
  ∧ (∀ k w', Set_exclude fuel s e w = Raise (KeyError k) w' →
       k = e ∧ w' = w ∧ ∀ f, Set___contains__ f s e w ≠ Ok true w).
Proof.
  intros Hwf. split; [apply Set_exclude_absent|].
  intros k w' (-> & -> & so & Hs & Hnp)%Set_exclude_KeyError.
  split_and!; [done..|].
  intros f (so' & Hs' & Hp)%Set___contains___true; [|done].
  rewrite Hs in Hs'. injection Hs' as <-. by apply (Hnp f).
Qed.

(** X12: [SetMutation.exclude] of a missing element. On a mutator that is
    not finished, if [e in m] is [False], [m.exclude(e)] raises
    [KeyError(e)] and changes nothing; and whenever [m.exclude(e)] raises a
    [KeyError], its argument is [e], nothing has changed, and [e in m] is
    not [True]. *)
Theorem mutator_exclude_missing_raises_KeyError (fuel : nat) (m : loc)
    (e : K) (mo : mut_obj) w :
  heap_wf (nodes w) → muts w !! m = Some mo → mut_mutid mo ≠ 0 →
  (SetMutation___contains__ fuel m e w = Ok false w →
   SetMutation_exclude fuel m e w = Raise (KeyError e) w)
  ∧ (∀ k w', SetMutation_exclude fuel m e w = Raise (KeyError k) w' →
       k = e ∧ w' = w ∧ ∀ f, SetMutation___contains__ f m e w ≠ Ok true w).
Proof.
  intros Hwf Hm Hid. split; [by apply SetMutation_exclude_absent with mo|].
  intros k w' (-> & -> & mo' & Hm' & Hnp)%SetMutation_exclude_KeyError.
  split_and!; [done..|].
  intros f. unfold SetMutation___contains__, bind, load_mut. rewrite Hm'.
  intros [Hf _]%read_Ok_inv. apply (Hnp f). by apply find_present.
Qed.

(** X13: [exclude] removes at most its element: when [s.exclude(e)]
    returns [s1], every [k] other than [e] with [k in s] is in [s1]. *)
Theorem exclude_keeps_other_members (fuel f : nat) (s s1 : loc) (e k : K)
    w w1 :
  heap_wf (nodes w) → Set_exclude fuel s e w = Ok s1 w1 → k ≠ e →
  Set___contains__ f s k w = Ok true w →
  ∃ f', Set___contains__ f' s1 k w1 = Ok true w1.
Proof.
  intros Hwf Hex Hne (so & Hs & Hp)%Set___contains___true; [|done].
  destruct (Set_exclude_keeps _ _ _ _ _ _ _ _ _ Hwf Hs Hex Hne Hp)
    as (so1 & f' & Hs1 & Hp1).
  exists f'. by eapply Set___contains___present.
Qed.

(** X14: iteration is complete: every [k] with [k in s] is among the keys
    that [iter(s)] yields. *)
Theorem members_are_iterated (f f' : nat) (s : loc) (k : K) (ks : list K) w :
  heap_wf (nodes w) → Set___contains__ f s k w = Ok true w →
  Set___iter__ f' s w = Ok ks w → k ∈ ks.
Proof. apply Set___iter___members. Qed.

End ExcludeLaws.

(** [{Z}.exclude(k1)]. *)
Lemma exclude_missing_raises_KeyError_witness :
  heap_wf (nodes hash_world)
  ∧ (Set___contains__ 3 1%nat k_aaa hash_world = Ok false hash_world →
     Set_exclude 3 1%nat k_aaa hash_world = Raise (KeyError k_aaa) hash_world)
  ∧ (∀ k w', Set_exclude 3 1%nat k_aaa hash_world = Raise (KeyError k) w' →
       k = k_aaa ∧ w' = hash_world
       ∧ ∀ f, Set___contains__ f 1%nat k_aaa hash_world ≠ Ok true hash_world).
Proof.
  pose proof world_inv_hash_world as (_ & _ & Hwf).
  split; [exact Hwf|].
  exact (exclude_missing_raises_KeyError 3 1%nat k_aaa hash_world Hwf).
Defined.

(** [Set().mutate().exclude(k1)]. *)
Lemma mutator_exclude_missing_raises_KeyError_witness :
  heap_wf (nodes mutator_world)
  ∧ muts mutator_world !! 0%nat = Some (MutObj 0 0%nat 1)
  ∧ mut_mutid (MutObj 0 0%nat 1) ≠ 0
  ∧ (SetMutation___contains__ 3 0%nat k_aaa mutator_world
     = Ok false mutator_world →
     SetMutation_exclude 3 0%nat k_aaa mutator_world
     = Raise (KeyError k_aaa) mutator_world)
  ∧ (∀ k w', SetMutation_exclude 3 0%nat k_aaa mutator_world
             = Raise (KeyError k) w' →
       k = k_aaa ∧ w' = mutator_world
       ∧ ∀ f, SetMutation___contains__ f 0%nat k_aaa mutator_world
              ≠ Ok true mutator_world).
Proof.
  pose proof world_inv_mutator_world as (_ & _ & Hwf).
  split; [exact Hwf|]. split; [reflexivity|]. split; [simpl; lia|].
  apply (mutator_exclude_missing_raises_KeyError 3 0%nat k_aaa
           (MutObj 0 0%nat 1) mutator_world Hwf); [reflexivity|simpl; lia].
Defined.

(** [{B, C}.exclude(B)] keeps [C]. *)
Lemma exclude_keeps_other_members_witness :
  heap_wf (nodes delete_world)
  ∧ Set_exclude 3 2%nat k_B delete_world = Ok 3%nat delete_world_excluded
  ∧ k_C ≠ k_B
  ∧ Set___contains__ 3 2%nat k_C delete_world = Ok true delete_world
  ∧ ∃ f', Set___contains__ f' 3%nat k_C delete_world_excluded
          = Ok true delete_world_excluded.
Proof.
  pose proof world_inv_delete_world as (_ & _ & Hwf).
  split; [exact Hwf|]. split; [reflexivity|]. split; [discriminate|].
  split; [reflexivity|].
  apply (exclude_keeps_other_members 3 3 2%nat 3%nat k_B k_C delete_world
           delete_world_excluded Hwf); [reflexivity|discriminate|reflexivity].
Defined.

(** [C] is in [{B, C}] and among its keys. *)
Lemma members_are_iterated_witness :
  heap_wf (nodes delete_world)
  ∧ Set___contains__ 3 2%nat k_C delete_world = Ok true delete_world
  ∧ Set___iter__ 3 2%nat delete_world = Ok [k_B; k_C] delete_world
  ∧ k_C ∈ [k_B; k_C].
Proof.
  pose proof world_inv_delete_world as (_ & _ & Hwf).
  split; [exact Hwf|]. do 2 (split; [reflexivity|]).
  apply (members_are_iterated 3 3 2%nat k_C [k_B; k_C] delete_world Hwf);
    reflexivity.
Defined.

(** ** Mutators, equality and copies *)

Section MutatorLaws.
Context {K : Type} `{Hashable K}.
Implicit Types (w : world K).

(** X15: the context-manager protocol of a mutator. [__enter__] returns
    the mutator and changes nothing; [__exit__] always succeeds on a
    mutator, returns [False] (an exception raised in the block is never
    swallowed), keeps the node store, and leaves the mutator finished:
    [include] raises [ValueError], while [len] and [in] still answer as
    before. *)
Theorem exit_finishes_mutator (m : loc) (mo : mut_obj) w :
  muts w !! m = Some mo →
  SetMutation___enter__ m w = Ok m w
  ∧ ∃ w', SetMutation___exit__ m w = Ok false w'
      ∧ nodes w' = nodes w
      ∧ muts w' !! m = Some (MutObj (mut_count mo) (mut_root mo) 0)
      ∧ (∀ fuel e, SetMutation_include fuel m e w' = Raise ValueError w')
      ∧ SetMutation___len__ m w' = Ok (mut_count mo) w'
      ∧ (∀ fuel k b, SetMutation___contains__ fuel m k w = Ok b w →
           SetMutation___contains__ fuel m k w' = Ok b w').
Proof.
  intros Hm. split; [done|].
  assert (<[m:=MutObj (mut_count mo) (mut_root mo) 0]> (muts w) !! m
          = Some (MutObj (mut_count mo) (mut_root mo) 0)) as Hm'.
  { apply list_lookup_insert_eq. by eapply lookup_lt_Some. }
  eexists. split.
  { unfold SetMutation___exit__, SetMutation_finish, bind, load_mut, store_mut,
      Set__new, ret. rewrite Hm. reflexivity. }
  cbn [nodes muts]. split_and!; [done..| | |].
  - intros fuel e. unfold SetMutation_include, bind, load_mut. cbn [muts].
    by rewrite Hm'.
  - unfold SetMutation___len__, bind, load_mut. cbn [muts]. by rewrite Hm'.
  - intros fuel k b. unfold SetMutation___contains__, bind, load_mut.
    cbn [muts]. rewrite Hm, Hm'. cbn [mut_root].
    intros [Hf _]%read_Ok_inv. unfold read. cbn [nodes]. by rewrite Hf.
Qed.

(** X16: [s.mutate().finish()] is a new [Set] object on the root of [s]:
    the node store is the one before, the new set has the count and the
    root of [s] and no memoised hash, and [len] and [in] answer on it as
    they do on [s]. *)
Theorem mutate_finish_round_trip (s m s' : loc) w w1 w2 :
  Set_mutate s w = Ok m w1 → SetMutation_finish m w1 = Ok s' w2 →
  nodes w2 = nodes w ∧ s' = length (sets w)
  ∧ (∃ so, sets w !! s = Some so
       ∧ sets w2 = sets w ++ [SetObj (set_count so) (set_root so) (-1)])
  ∧ (∀ n, Set___len__ s w = Ok n w → Set___len__ s' w2 = Ok n w2)
  ∧ (∀ fuel k b, Set___contains__ fuel s k w = Ok b w →
       Set___contains__ fuel s' k w2 = Ok b w2).
Proof.
  unfold Set_mutate, SetMutation_finish, bind, load_set, load_mut, _mut_id,
    store_mut, Set__new.
  destruct (sets w !! s) as [so|] eqn:Hs; [|done]. cbn [nodes sets muts].
  intros [= <- <-]. cbn [muts nodes sets mut_id_counter].
  rewrite lookup_app_r, Nat.sub_diag by done. cbn [lookup list_lookup].
  intros [= <- <-]. cbn [nodes sets mut_count mut_root].
  assert ((sets w ++ [SetObj (set_count so) (set_root so) (-1)])
            !! length (sets w)
          = Some (SetObj (set_count so) (set_root so) (-1))) as Hs'.
  { by rewrite lookup_app_r, Nat.sub_diag. }
  split_and!; [done..|by exists so| |].
  - intros n. unfold Set___len__, bind, load_set, ret. cbn [sets].
    rewrite Hs, Hs'. by intros [= <-].
  - intros fuel k b. unfold Set___contains__, bind, load_set. cbn [sets].
    rewrite Hs, Hs'. cbn [set_root].
    intros [Hf _]%read_Ok_inv. unfold read. cbn [nodes]. by rewrite Hf.
Qed.

Lemma eq_loop_true fuel keys r w w' :
  eq_loop fuel keys r w = Ok true w' →
  w' = w
  ∧ ∀ k, k ∈ keys → node_find fuel (nodes w) r 0 (set_hash k) k = Val true.
Proof.
  induction keys as [|key keys IH]; cbn [eq_loop].
  - intros [= <-]. split; [done|]. by intros k ?%elem_of_nil.
  - unfold bind, read.
    destruct (node_find fuel (nodes w) r 0 (set_hash key) key)
      as [[]| |] eqn:Hf; [|done..].
    intros [-> Hks]%IH. split; [done|].
    intros k [->|Hk]%elem_of_cons; [done|by apply Hks].
Qed.

(** X17: what [==] being [True] means. When [s == o] evaluates to [True]
    for two sets, or [m == o] for two mutators, nothing has changed, the
    two have the same length, and every [k] with [k in s] is found in
    [o]. *)
Theorem eq_true_is_inclusion (fuel : nat) (s o : loc) w w' :
  heap_wf (nodes w) →
  (Set___eq__ fuel s o w = Ok true w' →
   w' = w
   ∧ (∃ n, Set___len__ s w = Ok n w ∧ Set___len__ o w = Ok n w)
   ∧ ∀ f k, Set___contains__ f s k w = Ok true w →
       Set___contains__ fuel o k w = Ok true w)
  ∧ (SetMutation___eq__ fuel s o w = Ok true w' →
     w' = w
     ∧ (∃ n, SetMutation___len__ s w = Ok n w
             ∧ SetMutation___len__ o w = Ok n w)
     ∧ ∀ f k, SetMutation___contains__ f s k w = Ok true w →
         SetMutation___contains__ fuel o k w = Ok true w).
Proof.
  intros Hwf. split.
  - unfold Set___eq__, Set___len__, Set___contains__, bind, load_set, ret.
    destruct (sets w !! s) as [so|]; [|done].
    destruct (sets w !! o) as [oo|]; [|done].
    destruct (Z.eqb_spec (set_count so) (set_count oo)) as [Hn|]; [|done].
    cbn [negb]. unfold read at 1.
    destruct (node_iter fuel (nodes w) (set_root so)) as [ks| |] eqn:Hit;
      [|done..].
    intros [-> Hall]%eq_loop_true. split_and!; [done| |].
    + exists (set_count so). by rewrite Hn.
    + intros f k [Hf _]%read_Ok_inv. unfold read.
      rewrite Hall; [done|].
      eapply present_iter; [exact Hwf| |exact Hit]. by apply find_present.
  - unfold SetMutation___eq__, SetMutation___len__, SetMutation___contains__,
      bind, load_mut, ret.
    destruct (muts w !! s) as [so|]; [|done].
    destruct (muts w !! o) as [oo|]; [|done].
    destruct (Z.eqb_spec (mut_count so) (mut_count oo)) as [Hn|]; [|done].
    cbn [negb]. unfold read at 1.
    destruct (node_iter fuel (nodes w) (mut_root so)) as [ks| |] eqn:Hit;
      [|done..].
    intros [-> Hall]%eq_loop_true. split_and!; [done| |].
    + exists (mut_count so). by rewrite Hn.
    + intros f k [Hf _]%read_Ok_inv. unfold read.
      rewrite Hall; [done|].
      eapply present_iter; [exact Hwf| |exact Hit]. by apply find_present.
Qed.

(** X18: [Set(col)] for a [Set] [col] is a new object that shares the
    trie of [col]: it has the count, the root and the memoised hash of
    [col], [col] and the other sets are as before, and [in] answers on the
    copy as on [col]. *)
Theorem Set_of_Set_shares (col s : loc) w w' :
  Set_init_of_Set col w = Ok s w' →
  s = length (sets w)
  ∧ (∃ c, sets w !! col = Some c ∧ sets w' = sets w ++ [c])
  ∧ preserved (nodes w) (nodes w')
  ∧ (∀ n, Set___len__ col w = Ok n w → Set___len__ s w' = Ok n w')
  ∧ (∀ fuel k b, Set___contains__ fuel col k w = Ok b w →
       Set___contains__ fuel s k w' = Ok b w').
Proof.
  unfold Set_init_of_Set, bind, on_nodes, BitmapNode_new, alloc, load_set.
  change (Z.of_nat (length (@nil (slot K))) =? 0) with true.
  unfold with_nodes. cbn [sets nodes].
  destruct (sets w !! col) as [c|] eqn:Hc; [|done].
  intros [= <- <-]. cbn [nodes sets].
  assert (SetObj (set_count c) (set_root c) (set_hash_cache c) = c) as ->
    by by destruct c.
  assert ((sets w ++ [c]) !! length (sets w) = Some c) as Hs
    by by rewrite lookup_app_r, Nat.sub_diag.
  split_and!; [done|by exists c|apply preserved_app| |].
  - intros n. unfold Set___len__, bind, load_set, ret. cbn [sets].
    rewrite Hc, Hs. by intros [= <-].
  - intros fuel k b. unfold Set___contains__, bind, load_set. cbn [sets].
    rewrite Hc, Hs. intros [Hf _]%read_Ok_inv. unfold read. cbn [nodes].
    by rewrite (node_find_preserved _ _ _ _ _ _ _ _ (preserved_app _ _) Hf).
Qed.

End MutatorLaws.

(** [with Set().mutate() as m: ...]. *)
Lemma exit_finishes_mutator_witness :
  muts mutator_world !! 0%nat = Some (MutObj 0 0%nat 1)
  ∧ SetMutation___enter__ 0%nat mutator_world = Ok 0%nat mutator_world
  ∧ ∃ w', SetMutation___exit__ 0%nat mutator_world = Ok false w'
      ∧ nodes w' = nodes mutator_world
      ∧ muts w' !! 0%nat
        = Some (MutObj (mut_count (MutObj 0 0%nat 1))
                  (mut_root (MutObj 0 0%nat 1)) 0)
      ∧ (∀ fuel e, SetMutation_include fuel 0%nat e w' = Raise ValueError w')
      ∧ SetMutation___len__ 0%nat w'
        = Ok (mut_count (MutObj 0 0%nat 1)) w'
      ∧ (∀ fuel k b,
           SetMutation___contains__ fuel 0%nat k mutator_world
           = Ok b mutator_world →
           SetMutation___contains__ fuel 0%nat k w' = Ok b w').
Proof.
  split; [reflexivity|].
  apply (exit_finishes_mutator 0%nat (MutObj 0 0%nat 1) mutator_world).
  reflexivity.
Defined.

(** [Set().mutate().finish()]. *)
Lemma mutate_finish_round_trip_witness :
  Set_mutate 0%nat set_world = Ok 0%nat mutator_world
  ∧ SetMutation_finish 0%nat mutator_world = Ok 1%nat finished_world
  ∧ nodes finished_world = nodes set_world
  ∧ 1%nat = length (sets set_world)
  ∧ (∃ so, sets set_world !! 0%nat = Some so
       ∧ sets finished_world
         = sets set_world ++ [SetObj (set_count so) (set_root so) (-1)])
  ∧ (∀ n, Set___len__ 0%nat set_world = Ok n set_world →
       Set___len__ 1%nat finished_world = Ok n finished_world)
  ∧ (∀ fuel k b, Set___contains__ fuel 0%nat k set_world = Ok b set_world →
       Set___contains__ fuel 1%nat k finished_world = Ok b finished_world).
Proof.
  do 2 (split; [reflexivity|]).
  apply (mutate_finish_round_trip 0%nat 0%nat 1%nat set_world mutator_world
           finished_world); reflexivity.
Defined.

(** [{B, C} == {B, C}]. *)
Lemma eq_true_is_inclusion_witness :
  heap_wf (nodes delete_world)
  ∧ Set___eq__ 3 2%nat 2%nat delete_world = Ok true delete_world
  ∧ (Set___eq__ 3 2%nat 2%nat delete_world = Ok true delete_world →
     delete_world = delete_world
     ∧ (∃ n, Set___len__ 2%nat delete_world = Ok n delete_world
             ∧ Set___len__ 2%nat delete_world = Ok n delete_world)
     ∧ ∀ f k, Set___contains__ f 2%nat k delete_world = Ok true delete_world →
         Set___contains__ 3 2%nat k delete_world = Ok true delete_world)
  ∧ (SetMutation___eq__ 3 2%nat 2%nat delete_world = Ok true delete_world →
     delete_world = delete_world
     ∧ (∃ n, SetMutation___len__ 2%nat delete_world = Ok n delete_world
             ∧ SetMutation___len__ 2%nat delete_world = Ok n delete_world)
     ∧ ∀ f k,
         SetMutation___contains__ f 2%nat k delete_world
         = Ok true delete_world →
         SetMutation___contains__ 3 2%nat k delete_world
         = Ok true delete_world).
Proof.
  pose proof world_inv_delete_world as (_ & _ & Hwf).
  split; [exact Hwf|]. split; [reflexivity|].
  exact (eq_true_is_inclusion 3 2%nat 2%nat delete_world delete_world Hwf).
Defined.

(** [Set(s)] for [s = {Z}]. *)
Lemma Set_of_Set_shares_witness :
  Set_init_of_Set 1%nat hash_world = Ok 2%nat hash_world_copied
  ∧ 2%nat = length (sets hash_world)
  ∧ (∃ c, sets hash_world !! 1%nat = Some c
          ∧ sets hash_world_copied = sets hash_world ++ [c])
  ∧ preserved (nodes hash_world) (nodes hash_world_copied)
  ∧ (∀ n, Set___len__ 1%nat hash_world = Ok n hash_world →
       Set___len__ 2%nat hash_world_copied = Ok n hash_world_copied)
  ∧ (∀ fuel k b, Set___contains__ fuel 1%nat k hash_world = Ok b hash_world →
       Set___contains__ fuel 2%nat k hash_world_copied
       = Ok b hash_world_copied).
Proof.
  split; [reflexivity|].
  apply (Set_of_Set_shares 1%nat 2%nat hash_world hash_world_copied).
  reflexivity.
Defined.

(** ** The trie *)

Lemma trie_inv_delete_world : trie_inv delete_world.
Proof.
  exact (run_calls_trie_inv _ _ _ _ _ trie_inv_init delete_world_reached).
Qed.

Lemma delete_mutating_world_reached :
  run_calls maxsize64 3 (delete_program ++ [CallSet 2%nat OpMutate]) init_world
  = Some delete_mutating_world.
Proof. vm_compute. reflexivity. Qed.

Lemma trie_inv_delete_mutating_world : trie_inv delete_mutating_world.
Proof.
  exact (run_calls_trie_inv _ _ _ _ _ trie_inv_init
           delete_mutating_world_reached).
Qed.

Section Trie.
Context {K : Type} `{Hashable K}.
Implicit Types (w : world K).

(** X19: every state that a program of calls of the interface reaches
    from the initial one also satisfies the trie invariant: every bitmap
    node can be given a level and a hash such that its keys agree with
    that hash below the level, and the slot that a hash selects at that
    level holds a key or a child that agree with it five bits further; the
    roots of sets and mutators are at level 0; and no collision node holds
    a key twice. *)
Theorem reachable_states_are_tries (maxsize : Z) (fuel : nat)
    (cs : list api_call) w :
  run_calls maxsize fuel cs init_world = Some w → trie_inv w.
Proof. apply run_calls_trie_inv, trie_inv_init. Qed.

(** X20: [exclude] removes its element: when [s.exclude(e)] returns [s1]
    in a state that satisfies the trie invariant, [e in s1] is never
    [True]. *)
Theorem exclude_removes_element (fuel f : nat) (s s1 : loc) (e : K) w w1 :
  trie_inv w → Set_exclude fuel s e w = Ok s1 w1 →
  Set___contains__ f s1 e w1 ≠ Ok true w1.
Proof.
  intros Hinv Hex Hc.
  destruct (Set_exclude_removes _ _ _ _ _ _ Hinv Hex) as (so1 & Hs1 & Habs).
  assert (trie_inv w1) as Hinv1.
  { apply (run_call_trie_inv 0 fuel (CallSet s (OpExclude e)) w); [done|].
    simpl. by rewrite Hex. }
  destruct (Set___contains___true _ _ _ _ (trie_inv_wf _ Hinv1) Hc)
    as (so' & Hs' & Hp).
  rewrite Hs1 in Hs'. injection Hs' as <-. by apply (Habs f).
Qed.

(** X21: [SetMutation.exclude] removes its element: when [m.exclude(e)]
    returns in a state that satisfies the trie invariant, [e in m] is
    never [True] afterwards. *)
Theorem mutator_exclude_removes_element (fuel f : nat) (m : loc) (e : K)
    w w1 :
  trie_inv w → SetMutation_exclude fuel m e w = Ok tt w1 →
  SetMutation___contains__ f m e w1 ≠ Ok true w1.
Proof.
  intros Hinv Hex Hc.
  destruct (SetMutation_exclude_removes _ _ _ _ _ _ Hinv Hex)
    as (mo1 & Hm1 & Habs).
  assert (trie_inv w1) as Hinv1.
  { apply (run_call_trie_inv 0 fuel (CallMut m (MutExclude e)) w); [done|].
    simpl. by rewrite Hex. }
  destruct (SetMutation___contains___true _ _ _ _ (trie_inv_wf _ Hinv1) Hc)
    as (mo' & Hm' & Hp).
  rewrite Hm1 in Hm'. injection Hm' as <-. by apply (Habs f).
Qed.

(** X22: iteration yields the members and nothing else: in a state that
    satisfies the trie invariant, when [iter(s)] yields the keys [ks], a
    key is among them if and only if it is in [s]. *)
Theorem iteration_is_membership (f : nat) (s : loc) (ks : list K) (k : K) w :
  trie_inv w → Set___iter__ f s w = Ok ks w →
  k ∈ ks ↔ ∃ f', Set___contains__ f' s k w = Ok true w.
Proof.
  intros Hinv Hit. split.
  - intros Hk. exists f. by eapply Set___iter___sound.
  - intros [f' Hc]. eapply Set___iter___members; [|done..].
    by apply trie_inv_wf.
Qed.

(** X23: [==] is reflexive: in a state that satisfies the trie invariant,
    [s == s] is [True] for every set whose iteration ends within the
    fuel. *)
Theorem eq_is_reflexive (f : nat) (s : loc) (ks : list K) w :
  trie_inv w → Set___iter__ f s w = Ok ks w →
  Set___eq__ f s s w = Ok true w.
Proof. apply Set___eq___refl. Qed.

End Trie.

Lemma reachable_states_are_tries_witness :
  run_calls maxsize64 3
    (delete_program ++ [CallSet 2%nat OpMutate; CallMut 0%nat (MutExclude k_B)])
    init_world
  = Some delete_mutated_world
  ∧ trie_inv delete_mutated_world.
Proof.
  split; [vm_compute; reflexivity|].
  apply (reachable_states_are_tries maxsize64 3
           (delete_program
            ++ [CallSet 2%nat OpMutate; CallMut 0%nat (MutExclude k_B)])
           delete_mutated_world).
  vm_compute. reflexivity.
Defined.

(** [B in {B, C}.exclude(B)] is not [True]. *)
Lemma exclude_removes_element_witness :
  trie_inv delete_world
  ∧ Set_exclude 3 2%nat k_B delete_world = Ok 3%nat delete_world_excluded
  ∧ Set___contains__ 3 3%nat k_B delete_world_excluded
    ≠ Ok true delete_world_excluded.
Proof.
  split; [exact trie_inv_delete_world|]. split; [reflexivity|].
  apply (exclude_removes_element 3 3 2%nat 3%nat k_B delete_world
           delete_world_excluded trie_inv_delete_world).
  reflexivity.
Defined.

(** [m = {B, C}.mutate(); m.exclude(B)]. *)
Lemma mutator_exclude_removes_element_witness :
  trie_inv delete_mutating_world
  ∧ SetMutation_exclude 3 0%nat k_B delete_mutating_world
    = Ok tt delete_mutated_world
  ∧ SetMutation___contains__ 3 0%nat k_B delete_mutated_world
    ≠ Ok true delete_mutated_world.
Proof.
  split; [exact trie_inv_delete_mutating_world|]. split; [reflexivity|].
  apply (mutator_exclude_removes_element 3 3 0%nat k_B delete_mutating_world
           delete_mutated_world trie_inv_delete_mutating_world).
  reflexivity.
Defined.

(** [iter({B, C})] yields [B] and [C]. *)
Lemma iteration_is_membership_witness :
  trie_inv delete_world
  ∧ Set___iter__ 3 2%nat delete_world = Ok [k_B; k_C] delete_world
  ∧ (k_C ∈ [k_B; k_C]
     ↔ ∃ f', Set___contains__ f' 2%nat k_C delete_world = Ok true delete_world).
Proof.
  split; [exact trie_inv_delete_world|]. split; [reflexivity|].
  apply (iteration_is_membership 3 2%nat [k_B; k_C] k_C delete_world
           trie_inv_delete_world).
  reflexivity.
Defined.

(** [{B, C} == {B, C}]. *)
Lemma eq_is_reflexive_witness :
  trie_inv delete_world
  ∧ Set___iter__ 3 2%nat delete_world = Ok [k_B; k_C] delete_world
  ∧ Set___eq__ 3 2%nat 2%nat delete_world = Ok true delete_world.
Proof.
  split; [exact trie_inv_delete_world|]. split; [reflexivity|].
  apply (eq_is_reflexive 3 2%nat [k_B; k_C] delete_world
           trie_inv_delete_world).
  reflexivity.
Defined.
